(** * STLSlicer: a shallow embedding of [js/STLSlicer.js]

    The slicer reads a triangle mesh (STL, binary or text), cuts it with
    horizontal planes, stitches the cut segments into closed loops,
    classifies layers as top / bottom / middle and prints a G-code program.

    JavaScript numbers are kept behind an interface ([JSNumber], [JSMath]):
    every function below is written once, against that interface, in the
    order and shape of the JavaScript source.  Two implementations are given:

    - [float_number]: IEEE-754 binary64 (Rocq's primitive floats), which is
      what a JavaScript engine computes with; all concrete runs use it, its
      comparisons are shown to satisfy [OrderLaws], and its addition and
      multiplication to satisfy [ArithLaws];
    - [xq_number]: exact rationals with the two infinities, an arithmetic
      without rounding, which satisfies both as well.

    Statements that hold whatever the arithmetic are proved for every
    implementation of the interface.

    Exceptions and non-termination are explicit: a function that can throw
    or loop forever returns an [outcome]. *)

From Stdlib Require Import ZArith List Bool Lia String Ascii Sorted.
From Stdlib Require Import QArith Qround Qabs Floats Uint63.
From Stdlib Require Strings.Byte.
From Stdlib Require Import DecimalString.
From Stdlib Require Import DecimalNat.
Import ListNotations.

Set Implicit Arguments.

(* ================================================================== *)
(** * Numbers *)

(** The operations the slicer performs on numbers.  [nlt a b] is the
    JavaScript [a < b] and [nle a b] is [a <= b]; [a > b] is written
    [nlt b a] and [a >= b] is [nle b a], as IEEE-754 defines them. *)
Class JSNumber (num : Type) : Type := {
  nadd : num -> num -> num;
  nsub : num -> num -> num;
  nmul : num -> num -> num;
  ndiv : num -> num -> num;
  nlt : num -> num -> bool;
  nle : num -> num -> bool;
  neq : num -> num -> bool;              (* a === b *)
  nopp : num -> num;                     (* -a *)
  nabs : num -> num;                     (* Math.abs *)
  nceil : num -> num;                    (* Math.ceil *)
  nofZ : Z -> num;                       (* an integer-valued number *)
  ninfinity : num;                       (* Infinity *)
  (* how often the body of [for (let i = 0; i < n; i++)] runs; [None] when
     the loop never ends *)
  ncount_lt : num -> option nat;
  (* the same for [for (let i = 0; i <= n; i++)] *)
  ncount_le : num -> option nat
}.

(** [Math.sqrt] and [Math.hypot]. *)
Class JSMath (num : Type) : Type := {
  Math_sqrt : num -> num;
  Math_hypot : num -> num -> num
}.

Declare Scope num_scope.
Delimit Scope num_scope with num.
Infix "+" := nadd : num_scope.
Infix "-" := nsub : num_scope.
Infix "*" := nmul : num_scope.
Infix "/" := ndiv : num_scope.
Infix "<?" := nlt : num_scope.
Infix "<=?" := nle : num_scope.
Infix "=?" := neq : num_scope.
Notation "a >? b" := (nlt b a) (at level 70) : num_scope.
Notation "a >=? b" := (nle b a) (at level 70) : num_scope.

Section NumberHelpers.
Context {num : Type} `{JSNumber num}.

(** A loop counter or an array length as a number. *)
Definition nofnat (n : nat) : num := nofZ (Z.of_nat n).

(** A decimal literal [a / b], for instance [dec 1 10000] for [0.0001]:
    both parts are small integers, so the correctly rounded quotient is
    the number the literal denotes. *)
Definition dec (a : Z) (b : positive) : num := (nofZ a / nofZ (Zpos b))%num.

(** [-Infinity] *)
Definition nneg_infinity : num := nopp ninfinity.
End NumberHelpers.

(** The facts about the order of numbers that statements on heights rely
    on.  A number compares with itself unless it is NaN. *)
Class OrderLaws (num : Type) `{JSNumber num} : Prop := {
  le_trans : forall a b c : num,
    (a <=? b)%num = true -> (b <=? c)%num = true -> (a <=? c)%num = true;
  lt_le : forall a b : num, (a <? b)%num = true -> (a <=? b)%num = true;
  le_total : forall a b : num,
    (a <=? a)%num = true -> (b <=? b)%num = true ->
    (a <? b)%num = false -> (b <=? a)%num = true;
  le_numbers : forall a b : num,
    (a <=? b)%num = true -> (a <=? a)%num = true /\ (b <=? b)%num = true;
  neg_infinity_number : (nneg_infinity <=? nneg_infinity)%num = true
}.
Arguments OrderLaws num {_}.

(** Addition and multiplication are monotone.  Exact arithmetic has these
    properties ([xq_arith]), and so has IEEE-754 arithmetic, its rounding
    being monotone ([float_arith]). *)
Class ArithLaws (num : Type) `{JSNumber num} : Prop := {
  one_le_succ : forall k : nat, (nofZ 1 <=? nofnat k + nofZ 1)%num = true;
  mul_ge : forall a h : num,
    (nofZ 0 <? h)%num = true -> (nofZ 1 <=? a)%num = true ->
    (h <=? a * h)%num = true;
  add_le_mono : forall m b c : num,
    (nabs m <? ninfinity)%num = true -> (b <=? c)%num = true ->
    (m + b <=? m + c)%num = true
}.
Arguments ArithLaws num {_}.

(* ------------------------------------------------------------------ *)
(** ** binary64 *)

Module F64.
Local Open Scope float_scope.

(** An integer of magnitude below [2^63] as a number (rounded to nearest
    from [2^53] on). *)
Definition ofZ (z : Z) : float :=
  if (z <? 0)%Z then - of_uint63 (Uint63.of_Z (- z))
  else of_uint63 (Uint63.of_Z z).

(** The integers a finite number lies between: a finite number is
    [m * 2^e], negated when [s] is set. *)
Definition floorZ (x : float) : option Z :=
  match Prim2SF x with
  | S754_zero _ => Some 0%Z
  | S754_finite s m e =>
      let v := if s then Zneg m else Zpos m in
      Some (if (0 <=? e)%Z then v * 2 ^ e else v / 2 ^ (- e))%Z
  | _ => None
  end.

Definition ceilZ (x : float) : option Z :=
  match Prim2SF x with
  | S754_zero _ => Some 0%Z
  | S754_finite s m e =>
      let v := if s then Zneg m else Zpos m in
      Some (if (0 <=? e)%Z then v * 2 ^ e else - ((- v) / 2 ^ (- e)))%Z
  | _ => None
  end.

Definition two52 : float := Eval cbv in ofZ (2 ^ 52).
Definition two53 : float := Eval cbv in ofZ (2 ^ 53).

(** [Math.ceil]: numbers of magnitude [2^52] and more are integers
    already; NaN and the infinities are returned as they are; a negative
    number above [-1] gives [-0]. *)
Definition ceil (x : float) : float :=
  if abs x <? two52 then
    match ceilZ x with
    | Some z => if (z =? 0)%Z && (x <? 0) then neg_zero else ofZ z
    | None => x
    end
  else x.

(** [for (let i = 0; i < n; i++)]: no pass when [n] is NaN or not
    positive; the counter stops advancing at [2^53], so the loop ends only
    for [n <= 2^53]. *)
Definition count_lt (n : float) : option nat :=
  if 0 <? n then
    if n <=? two53 then option_map Z.to_nat (ceilZ n) else None
  else Some 0%nat.

(** [for (let i = 0; i <= n; i++)]. *)
Definition count_le (n : float) : option nat :=
  if 0 <=? n then
    if n <? two53
    then option_map (fun z => Z.to_nat (z + 1)) (floorZ n)
    else None
  else Some 0%nat.
End F64.

#[export] Instance float_number : JSNumber float := {
  nadd := PrimFloat.add;
  nsub := PrimFloat.sub;
  nmul := PrimFloat.mul;
  ndiv := PrimFloat.div;
  nlt := PrimFloat.ltb;
  nle := PrimFloat.leb;
  neq := PrimFloat.eqb;
  nopp := PrimFloat.opp;
  nabs := PrimFloat.abs;
  nceil := F64.ceil;
  nofZ := F64.ofZ;
  ninfinity := PrimFloat.infinity;
  ncount_lt := F64.count_lt;
  ncount_le := F64.count_le
}.

(** [Math.sqrt] is the correctly rounded square root.  [Math.hypot] is
    taken as the square root of the sum of the squares; an engine may
    return a neighbouring number, which no statement below depends on. *)
#[export] Instance float_math : JSMath float := {
  Math_sqrt := PrimFloat.sqrt;
  Math_hypot := fun a b => PrimFloat.sqrt (a * a + b * b)%float
}.

(* ================================================================== *)
(** * Control effects *)

Inductive jsError : Type := TypeError | RangeError.

(** What a call does: return a value, throw, or never finish. *)
Inductive outcome (A : Type) : Type :=
| Ret (a : A)
| Throw (e : jsError)
| Diverge.
Arguments Ret {A} a.
Arguments Throw {A} e.
Arguments Diverge {A}.

Definition bind {A B : Type} (m : outcome A) (k : A -> outcome B) : outcome B :=
  match m with
  | Ret a => k a
  | Throw e => Throw e
  | Diverge => Diverge
  end.

Notation "x <- m ;; k" := (bind m (fun x => k))
  (at level 61, m at next level, right associativity).

(* ================================================================== *)
(** * The data model *)

Section Slicer.
Variable num : Type.
Context {NUM : JSNumber num} {MATH : JSMath num}.
Local Open Scope string_scope.
Local Open Scope list_scope.
Local Open Scope num_scope.

(** [{x, y, z}], a mesh vertex. *)
Record vertex : Type := { vx : num; vy : num; vz : num }.

(** [{v1, v2, v3}]. *)
Record triangle : Type := { v1 : vertex; v2 : vertex; v3 : vertex }.

(** [{x, y}], a point of a layer. *)
Record point : Type := { px : num; py : num }.

(** [{start, end}]. *)
Record segment : Type := { seg_start : point; seg_end : point }.

(** [{layerNum, z, segments}]. *)
Record layer : Type := {
  layerNum : nat;
  layer_z : num;
  segments : list segment
}.

(** A closed loop of points. *)
Definition path : Type := list point.

(** [{isBottom, isTop}]. *)
Record layerSequence : Type := { isBottom : bool; isTop : bool }.

(** The value of [getBoundingBox]: [{min, max, size}]. *)
Record boundingBox : Type := {
  bb_min : vertex;
  bb_max : vertex;
  bb_size : vertex
}.

(** The fields of an [STLSlicer] object; [mesh] is [null] until a file
    has been parsed. *)
Record STLSlicer : Type := {
  mesh : option (list triangle);
  layerHeight : num;
  infillPattern : string;
  infillDensity : num;
  nozzleTemp : num;
  bedTemp : num;
  wallThickness : num;
  topBottomLayers : nat;
  nozzleDiameter : num
}.

(* ---------------------------------------------------------------- *)
(** ** getBoundingBox *)

(** The six running extremes of the scan. *)
Record extremes : Type := {
  minX : num; minY : num; minZ : num;
  maxX : num; maxY : num; maxZ : num
}.

Definition extremes_init : extremes :=
  {| minX := ninfinity; minY := ninfinity; minZ := ninfinity;
     maxX := nneg_infinity; maxY := nneg_infinity; maxZ := nneg_infinity |}.

(** The six conditional updates for one vertex. *)
Definition scan_vertex (a : extremes) (v : vertex) : extremes :=
  {| minX := if vx v <? minX a then vx v else minX a;
     minY := if vy v <? minY a then vy v else minY a;
     minZ := if vz v <? minZ a then vz v else minZ a;
     maxX := if vx v >? maxX a then vx v else maxX a;
     maxY := if vy v >? maxY a then vy v else maxY a;
     maxZ := if vz v >? maxZ a then vz v else maxZ a |}.

Definition scan_triangle (a : extremes) (tri : triangle) : extremes :=
  fold_left scan_vertex [v1 tri; v2 tri; v3 tri] a.

Definition getBoundingBox (s : STLSlicer) : option boundingBox :=
  match mesh s with
  | None => None
  | Some [] => None
  | Some m =>
      let a := fold_left scan_triangle m extremes_init in
      Some {| bb_min := {| vx := minX a; vy := minY a; vz := minZ a |};
              bb_max := {| vx := maxX a; vy := maxY a; vz := maxZ a |};
              bb_size := {| vx := maxX a - minX a;
                            vy := maxY a - minY a;
                            vz := maxZ a - minZ a |} |}
  end.

(* ---------------------------------------------------------------- *)
(** ** sliceAtZ *)

(** The point where the edge [va]-[vb] meets the plane, if it crosses
    it and is not (nearly) horizontal. *)
Definition edge_intersection (z : num) (va vb : vertex) : list point :=
  if ((vz va <=? z) && (vz vb >=? z)) || ((vz va >=? z) && (vz vb <=? z)) then
    if nabs (vz va - vz vb) >? dec 1 10000 then
      let t := (z - vz va) / (vz vb - vz va) in
      [ {| px := vx va + t * (vx vb - vx va);
           py := vy va + t * (vy vb - vy va) |} ]
    else []
  else [].

Definition triangle_intersections (z : num) (tri : triangle) : list point :=
  edge_intersection z (v1 tri) (v2 tri) ++
  edge_intersection z (v2 tri) (v3 tri) ++
  edge_intersection z (v3 tri) (v1 tri).

(** A triangle gives a segment when exactly two of its edges cross. *)
Definition triangle_segment (z : num) (tri : triangle) : list segment :=
  match triangle_intersections z tri with
  | [a; b] => [ {| seg_start := a; seg_end := b |} ]
  | _ => []
  end.

Definition sliceAtZ (m : list triangle) (z : num) : list segment :=
  flat_map (triangle_segment z) m.

(* ---------------------------------------------------------------- *)
(** ** sliceMesh *)

(** The height of the plane for loop index [layerNum]. *)
Definition sliceHeight (s : STLSlicer) (bbox : boundingBox) (k : nat) : num :=
  vz (bb_min bbox) + (nofnat k + nofZ 1) * layerHeight s.

(** [Math.ceil(bbox.size.z / this.layerHeight)]. *)
Definition numLayers (s : STLSlicer) (bbox : boundingBox) : num :=
  nceil (vz (bb_size bbox) / layerHeight s).

(** One pass of the loop: the layer is kept only when the plane cut
    something. *)
Definition slice_layer (s : STLSlicer) (m : list triangle)
    (bbox : boundingBox) (k : nat) : list layer :=
  let z := sliceHeight s bbox k in
  let segs := sliceAtZ m z in
  match segs with
  | [] => []
  | _ => [ {| layerNum := k; layer_z := z; segments := segs |} ]
  end.

(** [null] for a slicer without a mesh; the empty mesh has no bounding
    box and reading [bbox.size] throws. *)
Definition sliceMesh (s : STLSlicer) : outcome (option (list layer)) :=
  match mesh s with
  | None => Ret None
  | Some m =>
      match getBoundingBox s with
      | None => Throw TypeError
      | Some bbox =>
          match ncount_lt (numLayers s bbox) with
          | None => Diverge
          | Some n => Ret (Some (flat_map (slice_layer s m bbox) (seq 0 n)))
          end
      end
  end.

(** Whether the plane of loop index [k] cuts the mesh. *)
Definition cuts (s : STLSlicer) (m : list triangle) (bbox : boundingBox)
    (k : nat) : bool :=
  match sliceAtZ m (sliceHeight s bbox k) with
  | [] => false
  | _ => true
  end.

(** The heights [sliceMesh] passes to [sliceAtZ] in [n] passes. *)
Definition probed_heights (s : STLSlicer) (bbox : boundingBox) (n : nat)
    : list num :=
  map (sliceHeight s bbox) (seq 0 n).

(* ---------------------------------------------------------------- *)
(** ** detectHorizontalSurfaces *)

(** [array.sort((a, b) => a - b)] on numbers: ascending, equal elements
    kept in their order.  (With a NaN in the array the order an engine
    produces is not determined; the model inserts it like any number.) *)
Fixpoint sort_insert (x : num) (l : list num) : list num :=
  match l with
  | [] => [x]
  | y :: l' => if x <? y then x :: l else y :: sort_insert x l'
  end.

Definition sort_numbers (l : list num) : list num :=
  fold_left (fun acc x => sort_insert x acc) l [].

(** [{topSurfaces, bottomSurfaces}] *)
Record surfaces : Type := {
  topSurfaces : list num;
  bottomSurfaces : list num
}.

(** The search for a recorded height within [tolerance] of [avgZ]. *)
Definition found_surface (tolerance avgZ : num) (known : list num) : bool :=
  existsb (fun existing => nabs (existing - avgZ) <? tolerance) known.

(** The body of the loop over the triangles. *)
Definition detect_triangle (tolerance : num) (acc : surfaces) (tri : triangle)
    : surfaces :=
  let a := v1 tri in
  let b := v2 tri in
  let c := v3 tri in
  let e1x := vx b - vx a in let e1y := vy b - vy a in let e1z := vz b - vz a in
  let e2x := vx c - vx a in let e2y := vy c - vy a in let e2z := vz c - vz a in
  let nx := e1y * e2z - e1z * e2y in
  let ny := e1z * e2x - e1x * e2z in
  let nz := e1x * e2y - e1y * e2x in
  let length := Math_sqrt (nx * nx + ny * ny + nz * nz) in
  if length =? nofZ 0 then acc
  else
    let nz := nz / length in
    if nabs nz >? dec 1 2 then
      let avgZ := (vz a + vz b + vz c) / nofZ 3 in
      if nz >? nofZ 0 then
        if found_surface tolerance avgZ (topSurfaces acc) then acc
        else {| topSurfaces := topSurfaces acc ++ [avgZ];
                bottomSurfaces := bottomSurfaces acc |}
      else
        if found_surface tolerance avgZ (bottomSurfaces acc) then acc
        else {| topSurfaces := topSurfaces acc;
                bottomSurfaces := bottomSurfaces acc ++ [avgZ] |}
    else acc.

Definition detectHorizontalSurfaces (s : STLSlicer) : surfaces :=
  match mesh s with
  | None | Some [] => {| topSurfaces := []; bottomSurfaces := [] |}
  | Some m =>
      let tolerance := layerHeight s in
      let r := fold_left (detect_triangle tolerance) m
                 {| topSurfaces := []; bottomSurfaces := [] |} in
      {| topSurfaces := sort_numbers (topSurfaces r);
         bottomSurfaces := sort_numbers (bottomSurfaces r) |}
  end.

(* ---------------------------------------------------------------- *)
(** ** analyzeLayerSequences *)

(** [l[i] = f(l[i])] for an index inside the array. *)
Fixpoint update {A : Type} (i : nat) (f : A -> A) (l : list A) : list A :=
  match l, i with
  | [], _ => []
  | a :: l', O => f a :: l'
  | a :: l', S i' => a :: update i' f l'
  end.

(** [sequences[i].isBottom = true] and [sequences[i].isTop = true]. *)
Definition setBottom (i : nat) (sq : list layerSequence) : list layerSequence :=
  update i (fun q => {| isBottom := true; isTop := isTop q |}) sq.

Definition setTop (i : nat) (sq : list layerSequence) : list layerSequence :=
  update i (fun q => {| isBottom := isBottom q; isTop := true |}) sq.

(** The summed length of a layer's segments. *)
Definition pathLength (segs : list segment) : num :=
  fold_left (fun acc seg =>
               let dx := px (seg_end seg) - px (seg_start seg) in
               let dy := py (seg_end seg) - py (seg_start seg) in
               acc + Math_sqrt (dx * dx + dy * dy))
            segs (nofZ 0).

(** One step [j] of the look-ahead from layer [i]: does layer [i + j]
    show a drop that makes [i] a local top? *)
Definition decrease_at (layers : list layer) (cur : layer) (i j : nat) : bool :=
  let nextIndex := (i + j)%nat in
  match nth_error layers nextIndex with
  | None => false
  | Some next =>
      let currentSegments := List.length (segments cur) in
      let currentPathLength := pathLength (segments cur) in
      let nextSegments := List.length (segments next) in
      let nextPathLength := pathLength (segments next) in
      let pathDecrease :=
        ((currentPathLength - nextPathLength) / currentPathLength) * nofZ 100 in
      ((pathDecrease >? nofZ 10) && (currentPathLength >? nofZ 0))
      || ((nextSegments =? 0)%nat && (0 <? currentSegments)%nat)
  end.

Definition geometryDecreases (tbl : nat) (layers : list layer) (cur : layer)
    (i : nat) : bool :=
  let lookAheadLayers := Nat.min (tbl + 1) (List.length layers - i - 1) in
  existsb (decrease_at layers cur i) (seq 1 lookAheadLayers).

(** The body of the loop that finds top layers, for index [i]. *)
Definition top_step (tbl : nat) (layers : list layer)
    (sq : list layerSequence) (i : nat) : list layerSequence :=
  if (List.length layers - tbl <=? i)%nat then setTop i sq
  else
    match nth_error layers i with
    | None => sq
    | Some cur =>
        if geometryDecreases tbl layers cur i then
          let startLayer := (i + 1 - tbl)%nat in
          fold_left (fun q k => setTop k q)
                    (seq startLayer (i + 1 - startLayer)) sq
        else sq
    end.

(** The inner loop for one detected top surface. *)
Definition mark_near_top (s : STLSlicer) (layers : list layer)
    (sq : list layerSequence) (topZ : num) : list layerSequence :=
  let surfaceTolerance :=
    nofnat (topBottomLayers s) * layerHeight s + layerHeight s in
  fold_left
    (fun q i =>
       match nth_error layers i with
       | None => q
       | Some l =>
           let layerZ := layer_z l in
           let distance := nabs (topZ - layerZ) in
           if (distance <? surfaceTolerance)
              && (layerZ <=? topZ + layerHeight s)
           then setTop i q else q
       end)
    (seq 0 (List.length layers)) sq.

Definition mark_near_bottom (s : STLSlicer) (layers : list layer)
    (sq : list layerSequence) (bottomZ : num) : list layerSequence :=
  let surfaceTolerance :=
    nofnat (topBottomLayers s) * layerHeight s + layerHeight s in
  fold_left
    (fun q i =>
       match nth_error layers i with
       | None => q
       | Some l =>
           let layerZ := layer_z l in
           let distance := nabs (layerZ - bottomZ) in
           if (distance <? surfaceTolerance)
              && (layerZ >=? bottomZ - layerHeight s)
           then setBottom i q else q
       end)
    (seq 0 (List.length layers)) sq.

Definition analyzeLayerSequences (s : STLSlicer) (layers : list layer)
    : list layerSequence :=
  let n := List.length layers in
  let tbl := topBottomLayers s in
  let sequences := repeat {| isBottom := false; isTop := false |} n in
  match layers with
  | [] => sequences
  | _ =>
      let sf := detectHorizontalSurfaces s in
      let sequences :=
        fold_left (fun q i => setBottom i q) (seq 0 (Nat.min tbl n)) sequences in
      let sequences := fold_left (top_step tbl layers) (seq 0 n) sequences in
      let sequences :=
        fold_left (mark_near_top s layers) (topSurfaces sf) sequences in
      fold_left (mark_near_bottom s layers) (bottomSurfaces sf) sequences
  end.

(* ---------------------------------------------------------------- *)
(** ** segmentsToPerimeter *)

(** The [for] loop over [unusedSegments]: the first segment with an end
    within [tolerance] of [lastPoint], as the point to append and the
    pool without that segment ([splice(i, 1)]). *)
Fixpoint findConnection (tolerance : num) (lastPoint : point)
    (unused : list segment) : option (point * list segment) :=
  match unused with
  | [] => None
  | seg :: rest =>
      let distToStart :=
        Math_hypot (px lastPoint - px (seg_start seg))
                   (py lastPoint - py (seg_start seg)) in
      let distToEnd :=
        Math_hypot (px lastPoint - px (seg_end seg))
                   (py lastPoint - py (seg_end seg)) in
      if distToStart <? tolerance then Some (seg_end seg, rest)
      else if distToEnd <? tolerance then Some (seg_start seg, rest)
      else
        match findConnection tolerance lastPoint rest with
        | Some (p, rest') => Some (p, seg :: rest')
        | None => None
        end
  end.

(** The loop [while (foundConnection && unusedSegments.length > 0)]; one
    unit of [fuel] pays for one pass.  [None]: the fuel ran out. *)
Fixpoint connect (fuel : nat) (tolerance : num) (lastPoint : point)
    (currentPath : path) (unused : list segment)
    : option (path * list segment) :=
  match unused with
  | [] => Some (currentPath, unused)
  | _ =>
      match fuel with
      | O => None
      | S fuel' =>
          match findConnection tolerance lastPoint unused with
          | None => Some (currentPath, unused)
          | Some (p, unused') =>
              connect fuel' tolerance p (currentPath ++ [p]) unused'
          end
      end
  end.

(** The loop [while (unusedSegments.length > 0)]. *)
Fixpoint trace (fuel : nat) (tolerance : num) (paths : list path)
    (unused : list segment) : option (list path) :=
  match unused with
  | [] => Some paths
  | firstSeg :: rest =>
      match fuel with
      | O => None
      | S fuel' =>
          match connect fuel' tolerance (seg_end firstSeg)
                  [seg_start firstSeg; seg_end firstSeg] rest with
          | None => None
          | Some (currentPath, unused') =>
              trace fuel' tolerance
                (if (3 <=? List.length currentPath)%nat
                 then paths ++ [currentPath] else paths)
                unused'
          end
      end
  end.

Definition segmentsToPerimeter_fuel (fuel : nat) (segs : list segment)
    : option (list path) :=
  trace fuel (dec 1 100) [] segs.

(** As many passes as there are segments always suffice (shown in the
    section on termination), so the last case is never taken. *)
Definition segmentsToPerimeter (segs : list segment) : list path :=
  match segmentsToPerimeter_fuel (List.length segs) segs with
  | Some paths => paths
  | None => []
  end.

(* ---------------------------------------------------------------- *)
(** ** getLayerBoundingBox *)

(** [{minX, minY, maxX, maxY}] *)
Record layerBox : Type := {
  lb_minX : num; lb_minY : num; lb_maxX : num; lb_maxY : num
}.

Definition scan_point (b : layerBox) (p : point) : layerBox :=
  {| lb_minX := if px p <? lb_minX b then px p else lb_minX b;
     lb_minY := if py p <? lb_minY b then py p else lb_minY b;
     lb_maxX := if px p >? lb_maxX b then px p else lb_maxX b;
     lb_maxY := if py p >? lb_maxY b then py p else lb_maxY b |}.

Definition getLayerBoundingBox (perimeter : list point) : option layerBox :=
  match perimeter with
  | [] => None
  | _ =>
      Some (fold_left scan_point perimeter
              {| lb_minX := ninfinity; lb_minY := ninfinity;
                 lb_maxX := nneg_infinity; lb_maxY := nneg_infinity |})
  end.

(* ---------------------------------------------------------------- *)
(** ** Point containment *)

(** The vertex before each vertex, cyclically: the pairs
    [(polygon[i], polygon[j])] of [for (i = 0, j = n - 1; i < n; j = i++)]. *)
Definition with_previous (polygon : path) : list (point * point) :=
  match polygon with
  | [] => []
  | p0 :: _ => combine polygon (last polygon p0 :: removelast polygon)
  end.

Definition isPointInPolygon (pt : point) (polygon : path) : bool :=
  fold_left
    (fun inside '(pi, pj) =>
       let xi := px pi in let yi := py pi in
       let xj := px pj in let yj := py pj in
       let intersect :=
         negb (Bool.eqb (yi >? py pt) (yj >? py pt))
         && (px pt <? (xj - xi) * (py pt - yi) / (yj - yi) + xi) in
       if intersect then negb inside else inside)
    (with_previous polygon) false.

Definition isPointInsidePerimeters (pt : point) (paths : list path) : bool :=
  existsb (isPointInPolygon pt) paths.

(** The number of paths a point is inside of. *)
Definition containing_count (pt : point) (paths : list path) : nat :=
  fold_left (fun count pth => if isPointInPolygon pt pth then S count else count)
            paths 0%nat.

Definition isPointInSolidGeometry (pt : point) (paths : list path) : bool :=
  (containing_count pt paths mod 2 =? 1)%nat.

(* ---------------------------------------------------------------- *)
(** ** Scan line against polygon *)

(** The vertex after each vertex, cyclically: the pairs
    [(polygon[i], polygon[(i + 1) % n])]. *)
Definition with_next (polygon : path) : list (point * point) :=
  combine polygon (tl polygon ++ firstn 1 polygon).

Definition findLinePolygonIntersections (y : num) (polygon : path) : list num :=
  flat_map
    (fun '(p1, p2) =>
       if ((py p1 <? y) && (py p2 >=? y)) || ((py p1 >=? y) && (py p2 <? y)) then
         if nabs (py p2 - py p1) >? dec 1 10000 then
           let t := (y - py p1) / (py p2 - py p1) in
           [ px p1 + t * (px p2 - px p1) ]
         else []
       else [])
    (with_next polygon).

Definition findVerticalLinePolygonIntersections (x : num) (polygon : path)
    : list num :=
  flat_map
    (fun '(p1, p2) =>
       if ((px p1 <? x) && (px p2 >=? x)) || ((px p1 >=? x) && (px p2 <? x)) then
         if nabs (px p2 - px p1) >? dec 1 10000 then
           let t := (x - px p1) / (px p2 - px p1) in
           [ py p1 + t * (py p2 - py p1) ]
         else []
       else [])
    (with_next polygon).

(* ---------------------------------------------------------------- *)
(** ** G-code lines *)

(** A number as it is printed: with [toFixed(d)] ([Some d]) or with the
    default conversion ([None]). *)
Record printed : Type := { p_value : num; p_digits : option nat }.

Definition toFixed (d : nat) (v : num) : printed :=
  {| p_value := v; p_digits := Some d |}.
Definition toStr (v : num) : printed :=
  {| p_value := v; p_digits := None |}.

(** The words of a command.  [WE] carries the extrusion counter, an
    integer, printed in decimal. *)
Inductive word : Type :=
| WX (v : printed)
| WY (v : printed)
| WZ (v : printed)
| WE (e : Z)
| WF (f : Z)
| WS (v : printed)
| WAxis (name : string).               (* a bare axis letter, [G28 X Y] *)

Inductive remark : Type :=
| RText (text : string)
| RLayerHeight (h : num)               (* Layer Height: ...mm *)
| RInfill (pattern : string) (density : num)
| RTopBottom (n : nat)
| RLayer (n : nat) (z : printed)       (* Layer n (Z=...) *)
| RSolid (bottom : bool)               (* Solid layer (bottom) / (top) *)
| RSparse (density : num).             (* Sparse infill (...%) *)

(** One line of the program: empty, a full-line comment, or a command
    with its words and an optional trailing comment. *)
Inductive gline : Type :=
| Blank
| Comment (r : remark)
| Command (code : string) (ws : list word) (note : option string).

(** The [E] values of a program, in the order of its lines. *)
Definition word_E (w : word) : list Z :=
  match w with WE e => [e] | _ => [] end.

Definition line_E (l : gline) : list Z :=
  match l with
  | Command _ ws _ => flat_map word_E ws
  | _ => []
  end.

Definition E_values (prog : list gline) : list Z := flat_map line_E prog.

(** [line.replace(/E\d+/g, match => `E${extrusionCounter += 3}`)]: every
    [E] word of the line gets the counter's next value.  The lines this
    is applied to come from [generateLayerInfill]; their only capital
    [E] is the [E0] word. *)
Fixpoint renumber_words (ws : list word) (c : Z) : list word * Z :=
  match ws with
  | [] => ([], c)
  | WE _ :: ws' =>
      let c := (c + 3)%Z in
      let '(r, c') := renumber_words ws' c in (WE c :: r, c')
  | w :: ws' =>
      let '(r, c') := renumber_words ws' c in (w :: r, c')
  end.

Definition renumber_line (l : gline) (c : Z) : gline * Z :=
  match l with
  | Command code ws note =>
      let '(ws', c') := renumber_words ws c in (Command code ws' note, c')
  | _ => (l, c)
  end.

(** [for (const line of lines) gcode.push(line.replace(...))] *)
Fixpoint renumber (lines : list gline) (c : Z) : list gline * Z :=
  match lines with
  | [] => ([], c)
  | l :: ls =>
      let '(l', c1) := renumber_line l c in
      let '(ls', c2) := renumber ls c1 in (l' :: ls', c2)
  end.

(* ---------------------------------------------------------------- *)
(** ** generateLayerInfill *)

(** Consecutive pairs [(a[j], a[j+1])], [j = 0, 2, 4, ...]. *)
Fixpoint pairs (l : list num) : list (num * num) :=
  match l with
  | a :: b :: rest => (a, b) :: pairs rest
  | _ => []
  end.

Definition spacing_for (s : STLSlicer) (density : num) : num :=
  if density >=? nofZ 100 then nozzleDiameter s * dec 875 1000
  else
    let minSpacing := nofZ 2 in
    let maxSpacing := nofZ 20 in
    minSpacing + ((nofZ 100 - density) / nofZ 100) * (maxSpacing - minSpacing).

(** The segments of the vertical scan line number [i] at [x]: the part
    of the loop body after the [break] test. *)
Definition vertical_line (paths : option (list path)) (i : nat) (x : num)
    : list gline :=
  match paths with
  | None => []
  | Some ps =>
      let allIntersections :=
        sort_numbers (flat_map (findVerticalLinePolygonIntersections x) ps) in
      flat_map
        (fun '(startY, endY) =>
           let midY := (startY + endY) / nofZ 2 in
           let midpoint := {| px := x; py := midY |} in
           if (nabs (endY - startY) >? dec 1 10)
              && isPointInSolidGeometry midpoint ps then
             if Nat.even i then
               [ Command "G0" [WX (toFixed 3 x); WY (toFixed 3 startY)] None;
                 Command "G1" [WX (toFixed 3 x); WY (toFixed 3 endY);
                               WE 0; WF 1500] None ]
             else
               [ Command "G0" [WX (toFixed 3 x); WY (toFixed 3 endY)] None;
                 Command "G1" [WX (toFixed 3 x); WY (toFixed 3 startY);
                               WE 0; WF 1500] None ]
           else [])
        (pairs allIntersections)
  end.

(** The same for the horizontal scan line number [i] at [y]. *)
Definition horizontal_line (paths : option (list path)) (i : nat) (y : num)
    : list gline :=
  match paths with
  | None => []
  | Some ps =>
      let allIntersections :=
        sort_numbers (flat_map (findLinePolygonIntersections y) ps) in
      flat_map
        (fun '(startX, endX) =>
           let midX := (startX + endX) / nofZ 2 in
           let midpoint := {| px := midX; py := y |} in
           if (nabs (endX - startX) >? dec 1 10)
              && isPointInSolidGeometry midpoint ps then
             if Nat.even i then
               [ Command "G0" [WX (toFixed 3 startX); WY (toFixed 3 y)] None;
                 Command "G1" [WX (toFixed 3 endX); WY (toFixed 3 y);
                               WE 0; WF 1500] None ]
             else
               [ Command "G0" [WX (toFixed 3 endX); WY (toFixed 3 y)] None;
                 Command "G1" [WX (toFixed 3 startX); WY (toFixed 3 y);
                               WE 0; WF 1500] None ]
           else [])
        (pairs allIntersections)
  end.

(** [for (i ...) { const c = lo + i * spacing; if (c > limit) break; ... }]
    over the counter values [counters]. *)
Fixpoint scan_lines (line : nat -> num -> list gline) (lo spacing limit : num)
    (counters : list nat) : list gline :=
  match counters with
  | [] => []
  | i :: rest =>
      let c := lo + nofnat i * spacing in
      if c >? limit then []
      else line i c ++ scan_lines line lo spacing limit rest
  end.

(** [bbox] is [null] for a layer without points.  A loop whose bound is
    not a usable count ([ncount_le] gives [None]) is reported as
    [Diverge]. *)
Definition generateLayerInfill (s : STLSlicer) (bbox : option layerBox)
    (pattern : string) (density : num) (paths : option (list path))
    (angle : nat) : outcome (list gline) :=
  match bbox with
  | None => Ret []
  | Some bbox =>
      if density =? nofZ 0 then Ret []
      else
        let spacing := spacing_for s density in
        let inset := dec 2 10 in
        if (angle =? 90)%nat then
          let minX := lb_minX bbox + inset in
          let maxX := lb_maxX bbox - inset in
          let fillWidth := maxX - minX in
          let numLines := nceil (fillWidth / spacing) in
          match ncount_le numLines with
          | None => Diverge
          | Some n =>
              Ret (scan_lines (vertical_line paths) minX spacing
                     (maxX + dec 1 100) (seq 0 n))
          end
        else
          let minY := lb_minY bbox + inset in
          let maxY := lb_maxY bbox - inset in
          let fillHeight := maxY - minY in
          let numLines := nceil (fillHeight / spacing) in
          match ncount_le numLines with
          | None => Diverge
          | Some n =>
              Ret (scan_lines (horizontal_line paths) minY spacing
                     (maxY + dec 1 100) (seq 0 n))
          end
  end.

(* ---------------------------------------------------------------- *)
(** ** The emitter: generateGCode and generateGCodeWithSequences

    Both build the array [gcode] line by line and thread the local
    [extrusionCounter] through every push; the functions below return
    the lines pushed together with the counter afterwards.  The counter
    is an integer ([Z]): it stays far below [2^53], where JavaScript
    numbers count exactly.  (The [GCodeGenerator] object both functions
    create is never used.) *)

(** The loop over the points of one path, from index [i] on. *)
Fixpoint emit_points (pts : list point) (i : nat) (c : Z) : list gline * Z :=
  match pts with
  | [] => ([], c)
  | pt :: rest =>
      if (i =? 0)%nat then
        (* E${extrusionCounter++} *)
        let line := Command "G1" [WX (toFixed 2 (px pt)); WY (toFixed 2 (py pt));
                                  WE c] None in
        let '(ls, c') := emit_points rest (S i) (c + 1)%Z in (line :: ls, c')
      else
        (* E${extrusionCounter += 3} F1500 *)
        let c := (c + 3)%Z in
        let line := Command "G1" [WX (toFixed 2 (px pt)); WY (toFixed 2 (py pt));
                                  WE c; WF 1500] None in
        let '(ls, c') := emit_points rest (S i) c in (line :: ls, c')
  end.

(** The loop over the paths, from index [pathIdx] on.  Reading
    [path[0].x] of an empty path throws. *)
Fixpoint emit_paths (paths : list path) (pathIdx : nat) (c : Z)
    : outcome (list gline * Z) :=
  match paths with
  | [] => Ret ([], c)
  | pth :: rest =>
      travel <-
        (if (0 <? pathIdx)%nat then
           match pth with
           | [] => Throw TypeError
           | p0 :: _ =>
               Ret [ Command "G0" [WX (toFixed 2 (px p0)); WY (toFixed 2 (py p0))]
                       (Some "Travel to next shape") ]
           end
         else Ret []) ;;
      let '(ls, c1) := emit_points pth 0 c in
      r <- emit_paths rest (S pathIdx) c1 ;;
      Ret (travel ++ ls ++ fst r, snd r)
  end.

(** One call of [generateLayerInfill] followed by the loop that pushes
    its lines with renumbered [E] words. *)
Definition push_infill (s : STLSlicer) (bbox : option layerBox)
    (pattern : string) (density : num) (paths : list path) (angle : nat)
    (c : Z) : outcome (list gline * Z) :=
  lines <- generateLayerInfill s bbox pattern density (Some paths) angle ;;
  Ret (renumber lines c).

(** The solid branch, the same in both functions: 100% lines at 0 and
    at 90 degrees. *)
Definition solid_infill (s : STLSlicer) (bbox : option layerBox)
    (paths : list path) (isBottomLayer : bool) (c : Z)
    : outcome (list gline * Z) :=
  r1 <- push_infill s bbox "lines" (nofZ 100) paths 0 c ;;
  r2 <- push_infill s bbox "lines" (nofZ 100) paths 90 (snd r1) ;;
  Ret (Comment (RSolid isBottomLayer) :: fst r1 ++ fst r2, snd r2).

(** The sparse branch of [generateGCode]. *)
Definition sparse_infill (s : STLSlicer) (bbox : option layerBox)
    (infillPattern : string) (infillDensity : num) (paths : list path) (c : Z)
    : outcome (list gline * Z) :=
  if infillDensity >? nofZ 0 then
    if String.eqb infillPattern "grid" then
      r1 <- push_infill s bbox "lines" infillDensity paths 0 c ;;
      r2 <- push_infill s bbox "lines" infillDensity paths 90 (snd r1) ;;
      Ret (Comment (RSparse infillDensity) :: fst r1 ++ fst r2, snd r2)
    else
      r <- push_infill s bbox infillPattern infillDensity paths 0 c ;;
      Ret (Comment (RSparse infillDensity) :: fst r, snd r)
  else Ret ([], c).

(** The sparse branch of [generateGCodeWithSequences]. *)
Definition sparse_infill_seq (s : STLSlicer) (bbox : option layerBox)
    (infillPattern : string) (infillDensity : num) (paths : list path) (c : Z)
    : outcome (list gline * Z) :=
  if infillDensity >? nofZ 0 then
    r <- push_infill s bbox infillPattern infillDensity paths 0 c ;;
    Ret (Comment (RSparse infillDensity) :: fst r, snd r)
  else Ret ([], c).

(** What both functions do for a layer with at least one path; [sparse]
    is the function's own sparse branch.  [sequences[i]] is read first
    and throws when the array is too short. *)
Definition layer_body
    (sparse : option layerBox -> list path -> Z -> outcome (list gline * Z))
    (s : STLSlicer) (sequences : list layerSequence) (i : nat)
    (paths : list path) (c : Z) : outcome (list gline * Z) :=
  match nth_error sequences i with
  | None => Throw TypeError
  | Some q =>
      let isBottomLayer := isBottom q in
      let isTopLayer := isTop q in
      let isSolidLayer := isBottomLayer || isTopLayer in
      per <- emit_paths paths 0 c ;;
      let allPoints := List.concat paths in
      let bbox := getLayerBoundingBox allPoints in
      inf <- (if isSolidLayer
              then solid_infill s bbox paths isBottomLayer (snd per)
              else sparse bbox paths (snd per)) ;;
      Ret (fst per ++ fst inf, snd inf)
  end.

(** The two lines every layer starts with. *)
Definition layer_head (l : layer) : list gline :=
  [ Comment (RLayer (layerNum l + 1) (toFixed 3 (layer_z l)));
    Command "G1" [WZ (toFixed 3 (layer_z l)); WF 5000] None ].

(** The loop over the layers, from index [i] on; [trailer] is what the
    function pushes after each layer. *)
Fixpoint emit_layers
    (sparse : option layerBox -> list path -> Z -> outcome (list gline * Z))
    (trailer : list gline)
    (s : STLSlicer) (sequences : list layerSequence)
    (layers : list layer) (i : nat) (c : Z) : outcome (list gline * Z) :=
  match layers with
  | [] => Ret ([], c)
  | l :: rest =>
      let paths := segmentsToPerimeter (segments l) in
      body <- match paths with
              | [] => Ret ([], c)
              | _ => layer_body sparse s sequences i paths c
              end ;;
      r <- emit_layers sparse trailer s sequences rest (S i) (snd body) ;;
      Ret (layer_head l ++ fst body ++ trailer ++ fst r, snd r)
  end.

(** [layers[layers.length - 1].z + 10]; throws for no layers. *)
Definition park_height (layers : list layer) : outcome num :=
  match nth_error layers (List.length layers - 1) with
  | None => Throw TypeError
  | Some l => Ret (layer_z l + nofZ 10)
  end.

(** The program as the array of its lines, before [join]. *)
Definition generateGCodeWithSequences (s : STLSlicer) (layers : list layer)
    (infillPattern : string) (infillDensity : num)
    (sequences : list layerSequence) : outcome (list gline) :=
  let header :=
    [ Comment (RText "Generated by 3D Printer Simulator - STL Slicer");
      Comment (RLayerHeight (layerHeight s));
      Comment (RInfill infillPattern infillDensity);
      Comment (RTopBottom (topBottomLayers s));
      Comment (RText "Multi-model per-model top/bottom detection enabled");
      Blank;
      Command "G28" [] (Some "Home all axes");
      Command "M104" [WS (toStr (nozzleTemp s))] (Some "Set hotend temperature");
      Command "M140" [WS (toStr (bedTemp s))] (Some "Set bed temperature");
      Command "G1" [WZ (toStr (layerHeight s)); WF 5000] None;
      Blank ] in
  let extrusionCounter := 0%Z in
  body <- emit_layers
            (fun bbox paths c =>
               sparse_infill_seq s bbox infillPattern infillDensity paths c)
            [] s sequences layers 0 extrusionCounter ;;
  z <- park_height layers ;;
  Ret (header ++ fst body ++
       [ Blank;
         Comment (RText "Print complete");
         Command "G1" [WZ (toStr z); WF 5000] None;
         Command "M104" [WS (toStr (nofZ 0))] (Some "Turn off hotend");
         Command "M140" [WS (toStr (nofZ 0))] (Some "Turn off bed");
         Command "G28" [WX (toStr (nofZ 0)); WY (toStr (nofZ 0))]
           (Some "Home X and Y");
         Command "M84" [] (Some "Disable motors") ]).

Definition generateGCode (s : STLSlicer) (layers : list layer)
    (infillPattern : string) (infillDensity : num) : outcome (list gline) :=
  let header :=
    [ Comment (RText "Generated by 3D Printer Simulator - STL Slicer");
      Comment (RLayerHeight (layerHeight s));
      Comment (RInfill infillPattern infillDensity);
      Comment (RTopBottom (topBottomLayers s));
      Blank;
      Command "G28" [] (Some "Home all axes");
      Command "M104" [WS (toStr (nozzleTemp s))] (Some "Set hotend temperature");
      Command "M140" [WS (toStr (bedTemp s))] (Some "Set bed temperature");
      Command "G1" [WZ (toStr (layerHeight s)); WF 5000] None;
      Blank ] in
  let extrusionCounter := 0%Z in
  let layerSequences := analyzeLayerSequences s layers in
  body <- emit_layers
            (fun bbox paths c =>
               sparse_infill s bbox infillPattern infillDensity paths c)
            [Blank] s layerSequences layers 0 extrusionCounter ;;
  z <- park_height layers ;;
  Ret (header ++ fst body ++
       [ Comment (RText "Finish");
         Command "G1" [WZ (toStr z); WF 5000] None;
         Command "M104" [WS (toStr (nofZ 0))] (Some "Turn off hotend");
         Command "M140" [WS (toStr (nofZ 0))] (Some "Turn off bed");
         Command "G28" [WAxis "X"; WAxis "Y"] (Some "Home X and Y");
         Command "M84" [] (Some "Disable steppers") ]).

(* ---------------------------------------------------------------- *)
(** ** Reading STL files

    An [ArrayBuffer] is the list of its bytes.  [TextDecoder] is taken
    byte by byte: every byte below 128 decodes to its ASCII character,
    which is all the keywords consist of.  The two conversions from file
    contents to numbers are parameters: [float32] is the number a
    little-endian binary32 bit pattern denotes ([DataView.getFloat32]),
    [parseFloat] the built-in of that name. *)

Variable float32 : N -> num.
Variable parseFloat : string -> num.

Definition buffer : Type := list Byte.byte.

(** The [n] bytes at [offset]; an access past the end of the buffer is a
    [RangeError]. *)
Definition bytes_at (buf : buffer) (offset n : nat) : outcome (list Byte.byte) :=
  if (offset + n <=? List.length buf)%nat
  then Ret (firstn n (skipn offset buf))
  else Throw RangeError.

(** The little-endian value of some bytes. *)
Fixpoint le_value (bs : list Byte.byte) : N :=
  match bs with
  | [] => 0%N
  | b :: bs' => (Byte.to_N b + 256 * le_value bs')%N
  end.

(** [view.getUint32(offset, true)] *)
Definition getUint32 (buf : buffer) (offset : nat) : outcome N :=
  bs <- bytes_at buf offset 4 ;; Ret (le_value bs).

(** [view.getFloat32(offset, true)] *)
Definition getFloat32 (buf : buffer) (offset : nat) : outcome num :=
  bs <- bytes_at buf offset 4 ;; Ret (float32 (le_value bs)).

Definition read_vertex (buf : buffer) (offset : nat) : outcome vertex :=
  x <- getFloat32 buf offset ;;
  y <- getFloat32 buf (offset + 4) ;;
  z <- getFloat32 buf (offset + 8) ;;
  Ret {| vx := x; vy := y; vz := z |}.

(** The loop of [parseBinarySTL] from index [i] on, [n] triangles to go. *)
Fixpoint read_triangles (buf : buffer) (n i : nat) : outcome (list triangle) :=
  match n with
  | O => Ret []
  | S n' =>
      let offset := (84 + i * 50)%nat in
      a <- read_vertex buf (offset + 12) ;;
      b <- read_vertex buf (offset + 24) ;;
      c <- read_vertex buf (offset + 36) ;;
      rest <- read_triangles buf n' (S i) ;;
      Ret ({| v1 := a; v2 := b; v3 := c |} :: rest)
  end.

(** The triangles returned are also stored in [this.mesh]. *)
Definition parseBinarySTL (buf : buffer) : outcome (list triangle) :=
  numTriangles <- getUint32 buf 80 ;;
  read_triangles buf (N.to_nat numTriangles) 0.

(** *** Text *)

(** White space within a line: space, tab, vertical tab, form feed,
    carriage return (and the line feed itself). *)
Definition is_space (c : ascii) : bool :=
  let n := nat_of_ascii c in
  ((n =? 32) || ((9 <=? n) && (n <=? 13)))%nat.

Fixpoint trimStart (s : string) : string :=
  match s with
  | String c s' => if is_space c then trimStart s' else s
  | EmptyString => EmptyString
  end.

Fixpoint trimEnd (s : string) : string :=
  match s with
  | EmptyString => EmptyString
  | String c s' =>
      match trimEnd s' with
      | EmptyString => if is_space c then EmptyString else String c EmptyString
      | r => String c r
      end
  end.

Definition trim (s : string) : string := trimEnd (trimStart s).

(** [text.split(sep)] for a one-character separator; [cur] is the piece
    being read, reversed. *)
Fixpoint split_on (sep : ascii) (cur : list ascii) (s : string) : list string :=
  match s with
  | EmptyString => [string_of_list_ascii (rev cur)]
  | String c s' =>
      if Ascii.eqb c sep
      then string_of_list_ascii (rev cur) :: split_on sep [] s'
      else split_on sep (c :: cur) s'
  end.

Definition split_lines (text : string) : list string :=
  split_on (ascii_of_nat 10) [] text.

(** [trimmed.split(/\s+/)] for a string without white space at its ends:
    the maximal runs of other characters. *)
Fixpoint split_spaces (cur : list ascii) (s : string) : list string :=
  match s with
  | EmptyString =>
      match cur with [] => [] | _ => [string_of_list_ascii (rev cur)] end
  | String c s' =>
      if is_space c then
        match cur with
        | [] => split_spaces [] s'
        | _ => string_of_list_ascii (rev cur) :: split_spaces [] s'
        end
      else split_spaces (c :: cur) s'
  end.

(** The state of the loop of [parseASCIISTL]: the triangles pushed, the
    triangle under construction ([null] before the first [facet]) and the
    vertices seen since. *)
Record partial : Type := {
  pv1 : option vertex; pv2 : option vertex; pv3 : option vertex
}.

Record asciiState : Type := {
  triangles : list triangle;
  currentTriangle : option partial;
  vertexCount : nat
}.

(** [parts[k]], with [undefined] printed as [parseFloat] sees it. *)
Definition part (parts : list string) (k : nat) : string :=
  nth k parts "undefined".

(** The body of the loop for one line. *)
Definition ascii_line (st : asciiState) (line : string) : outcome asciiState :=
  let trimmed := trim line in
  if String.prefix "facet" trimmed then
    Ret {| triangles := triangles st;
           currentTriangle := Some {| pv1 := None; pv2 := None; pv3 := None |};
           vertexCount := 0 |}
  else if String.prefix "vertex" trimmed then
    let parts := split_spaces [] trimmed in
    let v := {| vx := parseFloat (part parts 1);
                vy := parseFloat (part parts 2);
                vz := parseFloat (part parts 3) |} in
    let store (f : partial -> partial) : outcome asciiState :=
      match currentTriangle st with
      | None => Throw TypeError          (* a property of null is set *)
      | Some t => Ret {| triangles := triangles st;
                         currentTriangle := Some (f t);
                         vertexCount := S (vertexCount st) |}
      end in
    match vertexCount st with
    | 0%nat => store (fun t => {| pv1 := Some v; pv2 := pv2 t; pv3 := pv3 t |})
    | 1%nat => store (fun t => {| pv1 := pv1 t; pv2 := Some v; pv3 := pv3 t |})
    | 2%nat => store (fun t => {| pv1 := pv1 t; pv2 := pv2 t; pv3 := Some v |})
    | _ => Ret {| triangles := triangles st;
                  currentTriangle := currentTriangle st;
                  vertexCount := S (vertexCount st) |}
    end
  else if String.prefix "endfacet" trimmed then
    match currentTriangle st with
    | Some {| pv1 := Some a; pv2 := Some b; pv3 := Some c |} =>
        Ret {| triangles := triangles st ++ [ {| v1 := a; v2 := b; v3 := c |} ];
               currentTriangle := currentTriangle st;
               vertexCount := vertexCount st |}
    | _ => Ret st
    end
  else Ret st.

Fixpoint ascii_lines (st : asciiState) (lines : list string) : outcome asciiState :=
  match lines with
  | [] => Ret st
  | line :: rest => st' <- ascii_line st line ;; ascii_lines st' rest
  end.

(** [new TextDecoder().decode(buffer)] is read byte by byte: each byte
    is the character of its code, which is what the decoder does with the
    bytes below 128 that a text STL consists of. *)
Definition parseASCIISTL (buf : buffer) : outcome (list triangle) :=
  let text := string_of_list_byte buf in
  let lines := split_lines text in
  st <- ascii_lines {| triangles := []; currentTriangle := None; vertexCount := 0 |}
          lines ;;
  Ret (triangles st).

(** *** Format detection *)

Definition lower (c : ascii) : ascii :=
  let n := nat_of_ascii c in
  if ((65 <=? n) && (n <=? 90))%nat then ascii_of_nat (n + 32) else c.

Fixpoint toLowerCase (s : string) : string :=
  match s with
  | EmptyString => EmptyString
  | String c s' => String (lower c) (toLowerCase s')
  end.

(** [s.includes(sub)] *)
Fixpoint includes (sub s : string) : bool :=
  String.prefix sub s
  || match s with
     | EmptyString => false
     | String _ s' => includes sub s'
     end.

(** [new Uint8Array(buffer, 0, 80)] needs 80 bytes. *)
Definition header (buf : buffer) : outcome string :=
  bs <- bytes_at buf 0 80 ;; Ret (string_of_list_byte bs).

Definition parseSTL (buf : buffer) : outcome (list triangle) :=
  h <- header buf ;;
  if includes "solid" (toLowerCase h)
  then parseASCIISTL buf
  else parseBinarySTL buf.

End Slicer.

Arguments WE {num} e.
Arguments WF {num} f.
Arguments WAxis {num} name.
Arguments RText {num} text.
Arguments RTopBottom {num} n.
Arguments RSolid {num} bottom.
Arguments Blank {num}.

(* ------------------------------------------------------------------ *)
(** ** binary64: reading numbers from files *)

Module F64io.
Local Open Scope Z_scope.

(** The number a binary32 bit pattern denotes; every such number is a
    binary64 number. *)
Definition float32 (bits : N) : float :=
  let b := Z.of_N bits in
  let sign := Z.testbit b 31 in
  let e := Z.land (Z.shiftr b 23) 255 in
  let frac := Z.land b (2 ^ 23 - 1) in
  if e =? 255 then
    if frac =? 0 then (if sign then neg_infinity else infinity) else nan
  else
    let m := if e =? 0 then frac else 2 ^ 23 + frac in
    let ex := if e =? 0 then -149 else e - 150 in
    match m with
    | Zpos p => SF2Prim (S754_finite sign p ex)
    | _ => if sign then neg_zero else zero
    end.

(** [parseFloat] on an unsigned decimal integer of at most 15 digits;
    the texts used below contain no other numbers.  Anything else is
    read as NaN here. *)
Fixpoint digits (s : string) (acc : Z) : option Z :=
  match s with
  | EmptyString => Some acc
  | String c s' =>
      let n := Z.of_nat (nat_of_ascii c) in
      if (48 <=? n) && (n <=? 57) then digits s' (10 * acc + (n - 48)) else None
  end.

Definition parseFloat (s : string) : float :=
  match s with
  | EmptyString => nan
  | _ => if (String.length s <=? 15)%nat
         then match digits s 0 with Some z => F64.ofZ z | None => nan end
         else nan
  end.
End F64io.

(* ------------------------------------------------------------------ *)
(** ** Exact rationals with infinities

    Arithmetic without rounding.  The combinations IEEE-754 makes NaN
    (infinity minus infinity, zero times infinity, zero by zero) are given
    the value zero here; no statement below depends on that choice. *)

Inductive xq : Type := XNInf | XFin (q : Q) | XPInf.

Module XQ.
Local Open Scope Q_scope.

Definition zero : xq := XFin 0.

Definition opp (a : xq) : xq :=
  match a with
  | XNInf => XPInf
  | XFin q => XFin (- q)
  | XPInf => XNInf
  end.

Definition add (a b : xq) : xq :=
  match a, b with
  | XFin p, XFin q => XFin (p + q)
  | XPInf, XNInf | XNInf, XPInf => zero
  | XPInf, _ | _, XPInf => XPInf
  | XNInf, _ | _, XNInf => XNInf
  end.

Definition sub (a b : xq) : xq := add a (opp b).

(** [-1], [0] or [1]. *)
Definition sign (a : xq) : Z :=
  match a with
  | XNInf => (-1)%Z
  | XFin q => Z.sgn (Qnum q)
  | XPInf => 1%Z
  end.

Definition signed_infinity (s : Z) : xq :=
  match s with
  | Z0 => zero
  | Zpos _ => XPInf
  | Zneg _ => XNInf
  end.

Definition mul (a b : xq) : xq :=
  match a, b with
  | XFin p, XFin q => XFin (p * q)
  | _, _ => signed_infinity (sign a * sign b)
  end.

Definition div (a b : xq) : xq :=
  match a, b with
  | XFin p, XFin q =>
      if Qeq_bool q 0 then signed_infinity (sign a) else XFin (p / q)
  | XFin _, _ => zero
  | _, XFin _ => signed_infinity (sign a * (if (sign b =? 0)%Z then 1 else sign b))
  | _, _ => zero
  end.

Definition le (a b : xq) : bool :=
  match a, b with
  | XNInf, _ => true
  | _, XPInf => true
  | XFin p, XFin q => Qle_bool p q
  | _, _ => false
  end.

Definition lt (a b : xq) : bool := negb (le b a).

Definition eq (a b : xq) : bool := le a b && le b a.

Definition abs (a : xq) : xq :=
  match a with
  | XFin q => XFin (Qabs q)
  | _ => XPInf
  end.

Definition ceil (a : xq) : xq :=
  match a with
  | XFin q => XFin (inject_Z (Qceiling q))
  | _ => a
  end.

Definition count_lt (n : xq) : option nat :=
  match n with
  | XNInf => Some 0%nat
  | XFin q => Some (Z.to_nat (Qceiling q))
  | XPInf => None
  end.

Definition count_le (n : xq) : option nat :=
  match n with
  | XNInf => Some 0%nat
  | XFin q => Some (Z.to_nat (Qfloor q + 1))
  | XPInf => None
  end.
End XQ.

#[export] Instance xq_number : JSNumber xq := {
  nadd := XQ.add;
  nsub := XQ.sub;
  nmul := XQ.mul;
  ndiv := XQ.div;
  nlt := XQ.lt;
  nle := XQ.le;
  neq := XQ.eq;
  nopp := XQ.opp;
  nabs := XQ.abs;
  nceil := XQ.ceil;
  nofZ := fun z => XFin (inject_Z z);
  ninfinity := XPInf;
  ncount_lt := XQ.count_lt;
  ncount_le := XQ.count_le
}.

(* ================================================================== *)
(** * Vocabulary of the statements *)

Section Vocabulary.
Variable num : Type.
Local Open Scope string_scope.
Local Open Scope list_scope.

(** The three corners of a triangle. *)
Definition vertices (tri : triangle num) : list (vertex num) :=
  [v1 tri; v2 tri; v3 tri].

(** [l] never decreases and starts at [lo] or above. *)
Fixpoint ascending_from (lo : Z) (l : list Z) : Prop :=
  match l with
  | [] => True
  | e :: l' => (lo <= e)%Z /\ ascending_from e l'
  end.

(** The values [l] written while a counter went from [c] to [c']: they
    never decrease, lie between [c] and [c'], and the counter moved only
    if something was written. *)
Definition span (c : Z) (l : list Z) (c' : Z) : Prop :=
  (c <= c')%Z /\ ascending_from c l /\
  (forall e, In e l -> (e <= c')%Z) /\ (l = [] -> c' = c).

(** [l] is empty or begins with [c]. *)
Definition starts_at (c : Z) (l : list Z) : Prop :=
  l = [] \/ exists rest, l = c :: rest.

Context {NUM : JSNumber num}.

(** What both sparse branches of the emitter guarantee. *)
Definition counts_up
    (sparse : option (layerBox num) -> list (path num) -> Z ->
              outcome (list (gline num) * Z)) : Prop :=
  forall bbox paths c r,
    sparse bbox paths c = Ret r ->
    span c (E_values (fst r)) (snd r) /\ (bbox = None -> E_values (fst r) = []).

(** The lines after a layer's comment, up to the next layer's. *)
Fixpoint until_next_layer (prog : list (gline num)) : list (gline num) :=
  match prog with
  | [] => []
  | Comment (RLayer _ _) :: _ => []
  | l :: rest => l :: until_next_layer rest
  end.

(** The lines a program prints for the layer announced as [Layer n]. *)
Fixpoint layer_lines (n : nat) (prog : list (gline num)) : list (gline num) :=
  match prog with
  | [] => []
  | Comment (RLayer k _) :: rest =>
      if Nat.eqb k n then until_next_layer rest else layer_lines n rest
  | _ :: rest => layer_lines n rest
  end.

(** A fill move: where the nozzle travels to and where it extrudes to. *)
Record fill : Type := { from_x : num; from_y : num; to_x : num; to_y : num }.

(** The fill moves of some lines: a [G0 X Y] followed by a
    [G1 X Y E F], as [generateLayerInfill] prints them. *)
Fixpoint fill_moves (prog : list (gline num)) : list fill :=
  match prog with
  | [] => []
  | Command g0 [WX x0; WY y0] None :: rest =>
      match rest with
      | Command g1 [WX x1; WY y1; WE _; WF _] None :: _ =>
          if String.eqb g0 "G0" && String.eqb g1 "G1" then
            {| from_x := p_value x0; from_y := p_value y0;
               to_x := p_value x1; to_y := p_value y1 |} :: fill_moves rest
          else fill_moves rest
      | _ => fill_moves rest
      end
  | _ :: rest => fill_moves rest
  end.

(** A fill move of a scan line at angle 90 keeps its X; one at angle 0
    keeps its Y. *)
Definition along_Y (f : fill) : bool := neq (from_x f) (to_x f).
Definition along_X (f : fill) : bool := neq (from_y f) (to_y f).

(** A segment of a scan line that [generateLayerInfill] prints: the
    number of the scan line and the coordinate it lies at ([y] at angle
    0, [x] at angle 90), and the two crossings it runs between. *)
Record band : Type := {
  band_line : nat; band_at : num; band_lo : num; band_hi : num
}.

(** The point of the band's scan line at the coordinate [v] along it. *)
Definition band_point (angle : nat) (b : band) (v : num) : point num :=
  if (angle =? 90)%nat then {| px := band_at b; py := v |}
  else {| px := v; py := band_at b |}.

(** The midpoint of the band. *)
Definition band_mid (angle : nat) (b : band) : point num :=
  band_point angle b ((band_lo b + band_hi b) / nofZ 2)%num.

(** Where the move over the band starts and ends: a scan line with an
    even number is travelled from the lower crossing to the higher one,
    the others back. *)
Definition band_from (angle : nat) (b : band) : point num :=
  band_point angle b (if Nat.even (band_line b) then band_lo b else band_hi b).

Definition band_to (angle : nat) (b : band) : point num :=
  band_point angle b (if Nat.even (band_line b) then band_hi b else band_lo b).

(** The two lines printed for the band. *)
Definition band_lines (angle : nat) (b : band) : list (gline num) :=
  [ Command "G0" [WX (toFixed 3 (px (band_from angle b)));
                  WY (toFixed 3 (py (band_from angle b)))] None;
    Command "G1" [WX (toFixed 3 (px (band_to angle b)));
                  WY (toFixed 3 (py (band_to angle b)));
                  WE 0; WF 1500] None ].

(** The move these two lines are. *)
Definition band_move (angle : nat) (b : band) : fill :=
  {| from_x := px (band_from angle b); from_y := py (band_from angle b);
     to_x := px (band_to angle b); to_y := py (band_to angle b) |}.

(** The crossings of the scan line at [c] with the paths, sorted. *)
Definition line_crossings (angle : nat) (paths : list (path num)) (c : num)
    : list num :=
  sort_numbers
    (flat_map (if (angle =? 90)%nat
               then findVerticalLinePolygonIntersections c
               else findLinePolygonIntersections c) paths).

(** A band between two paired crossings of its scan line, longer than
    0.1, whose midpoint is inside an odd number of the paths. *)
Definition band_in_solid (angle : nat) (paths : list (path num)) (b : band)
    : Prop :=
  In (band_lo b, band_hi b) (pairs (line_crossings angle paths (band_at b))) /\
  (nabs (band_hi b - band_lo b) >? dec 1 10)%num = true /\
  Nat.odd (List.length (filter (isPointInPolygon (band_mid angle b)) paths))
  = true.
(** Whether, among the lines that start with [facet] or [vertex], the
    first one starts with [vertex]. *)
Fixpoint vertex_before_facet (lines : list string) : bool :=
  match lines with
  | [] => false
  | line :: rest =>
      if String.prefix "facet" (trim line) then false
      else if String.prefix "vertex" (trim line) then true
      else vertex_before_facet rest
  end.

(** The vertex a [vertex] line is read as. *)
Definition vertex_of_line (parseFloat : string -> num) (line : string)
    : vertex num :=
  let parts := split_spaces [] (trim line) in
  {| vx := parseFloat (part parts 1);
     vy := parseFloat (part parts 2);
     vz := parseFloat (part parts 3) |}.

(** The state after a [facet] line and the vertex lines [seen]. *)
Definition gathering (tris : list (triangle num)) (seen : list (vertex num))
    (st : asciiState num) : Prop :=
  triangles st = tris /\
  vertexCount st = List.length seen /\
  currentTriangle st = Some {| pv1 := nth_error seen 0;
                               pv2 := nth_error seen 1;
                               pv3 := nth_error seen 2 |}.

(** The least buffer length with which [parseBinarySTL] can read [n]
    triangles: the count, and the last vertex of the last triangle. *)
Definition binary_bytes_read (n : nat) : nat :=
  match n with
  | O => 84
  | S _ => 50 * n + 82
  end.

End Vocabulary.
Arguments vertices {num} tri.

(* ================================================================== *)
(** * The driver: [js/main.js]

    [sliceSTL] slices every model on its own and classifies its layers,
    slices the mesh of all models together, and merges the
    classifications into the sequences it passes to
    [generateGCodeWithSequences].  [generateSTLFromMesh] writes a mesh as
    STL text. *)

Section Driver.
Variable num : Type.
Context {NUM : JSNumber num} {MATH : JSMath num}.
Local Open Scope string_scope.
Local Open Scope list_scope.
Local Open Scope num_scope.

(** [{name, mesh, layers, sequences}]: what [sliceSTL] keeps of each
    model. *)
Record modelSlice : Type := {
  ms_name : string;
  ms_mesh : list (triangle num);
  ms_layers : list (layer num);
  ms_sequences : list layerSequence
}.

(** [new STLSlicer()] followed by the four assignments of [sliceSTL]. *)
Definition configured (m : list (triangle num)) (layerHeight : num)
    (topBottomLayers : nat) (nozzleDiameter : num) : STLSlicer num :=
  {| mesh := Some m;
     layerHeight := layerHeight;
     infillPattern := "grid";
     infillDensity := nofZ 20;
     nozzleTemp := nofZ 200;
     bedTemp := nofZ 60;
     wallThickness := dec 8 10;
     topBottomLayers := topBottomLayers;
     nozzleDiameter := nozzleDiameter |}.

(** The slicing of one model.  [sliceMesh] gives [null] only for a slicer
    without a mesh; [analyzeLayerSequences(null)] would throw. *)
Definition sliceModel (name : string) (modelMesh : list (triangle num))
    (layerHeight : num) (topBottomLayers : nat) (nozzleDiameter : num)
    : outcome modelSlice :=
  let modelSlicer :=
    configured modelMesh layerHeight topBottomLayers nozzleDiameter in
  modelLayers <- sliceMesh modelSlicer ;;
  match modelLayers with
  | None => Throw TypeError
  | Some modelLayers =>
      Ret {| ms_name := name;
             ms_mesh := modelMesh;
             ms_layers := modelLayers;
             ms_sequences := analyzeLayerSequences modelSlicer modelLayers |}
  end.

(** [Math.abs(layers[j].z - layerZ) < 0.001] *)
Definition sameHeight (combined : layer num) (layerZ : num) : bool :=
  nabs (layer_z combined - layerZ) <? dec 1 1000.

(** The loop over [j], from index [j] on: the first layer of the combined
    slicing at the height [layerZ] takes the flags of [q], and the loop
    ends ([break]).  [merged] has an entry for every layer. *)
Fixpoint merge_at (layers : list (layer num)) (j : nat) (layerZ : num)
    (q : layerSequence) (merged : list layerSequence) : list layerSequence :=
  match layers with
  | [] => merged
  | l :: rest =>
      if sameHeight l layerZ then
        let merged := if isBottom q then setBottom j merged else merged in
        if isTop q then setTop j merged else merged
      else merge_at rest (S j) layerZ q merged
  end.

(** The loop over [i]: [modelSlice.sequences[i]] with
    [modelSlice.layers[i].z]; a model with fewer layers than sequences
    would throw. *)
Fixpoint merge_model (layers : list (layer num))
    (modelLayers : list (layer num)) (modelSequences : list layerSequence)
    (merged : list layerSequence) {struct modelSequences}
    : outcome (list layerSequence) :=
  match modelSequences with
  | [] => Ret merged
  | q :: qs =>
      match modelLayers with
      | [] => Throw TypeError
      | l :: ls =>
          merge_model layers ls qs (merge_at layers 0 (layer_z l) q merged)
      end
  end.

(** The loop over the models. *)
Fixpoint merge_models (layers : list (layer num))
    (modelSlices : list modelSlice) (merged : list layerSequence)
    : outcome (list layerSequence) :=
  match modelSlices with
  | [] => Ret merged
  | m :: rest =>
      merged' <- merge_model layers (ms_layers m) (ms_sequences m) merged ;;
      merge_models layers rest merged'
  end.

(** [mergedSequences], as [sliceSTL] builds it for the layers of the
    combined mesh. *)
Definition mergedSequences (layers : list (layer num))
    (modelSlices : list modelSlice) : outcome (list layerSequence) :=
  merge_models layers modelSlices
    (repeat {| isBottom := false; isTop := false |} (List.length layers)).

End Driver.

Section TextExport.
Variable num : Type.
Variable toString : num -> string.
Local Open Scope list_scope.
Local Open Scope string_scope.

(** The line feed. *)
Definition eol : string := String (ascii_of_nat 10) EmptyString.

(** [name || 'model']: [None] is [undefined]. *)
Definition nameOrDefault (name : option string) : string :=
  match name with
  | Some (String c s) => String c s
  | _ => "model"
  end.

(** [`      vertex ${v.x} ${v.y} ${v.z}`]; [toString] is the conversion
    of a number in a template literal. *)
Definition vertex_text (v : vertex num) : string :=
  "      vertex " ++ toString (vx v) ++ " " ++ toString (vy v) ++ " "
    ++ toString (vz v).

(** The seven [stl += ...] of the loop body.  The triangles of a mesh
    carry no [normal], so [n] is [{x: 0, y: 0, z: 1}], printed [0 0 1]. *)
Definition append_facet (stl : string) (tri : triangle num) : string :=
  ((((((stl ++ "  facet normal 0 0 1" ++ eol)
       ++ "    outer loop" ++ eol)
      ++ vertex_text (v1 tri) ++ eol)
     ++ vertex_text (v2 tri) ++ eol)
    ++ vertex_text (v3 tri) ++ eol)
   ++ "    endloop" ++ eol)
  ++ "  endfacet" ++ eol.

Definition generateSTLFromMesh (m : list (triangle num)) (name : option string)
    : string :=
  let stl := "solid " ++ nameOrDefault name ++ eol in
  let stl := fold_left append_facet m stl in
  stl ++ "endsolid " ++ nameOrDefault name ++ eol.

End TextExport.

(* ================================================================== *)
(** * The reader of programs: [js/GCodeParser.js]

    [loadGCode] of [js/main.js] hands the text of a program to
    [GCodeParser.parse].  A parser object is the record of its fields
    together with the two locals of [parse] ([currentLayer], [lastZ]);
    [parseFloat] is the built-in of that name.  White space is the ASCII
    white space, as for the STL text above, and the letters whose case
    matters are the ASCII letters. *)

Section GCodeParser.
Variable num : Type.
Context {NUM : JSNumber num}.
Variable parseFloat : string -> num.
Local Open Scope list_scope.
Local Open Scope string_scope.

(** [{x, y, z, e}] *)
Record position : Type := { pos_x : num; pos_y : num; pos_z : num; pos_e : num }.

(** The object [params]: the letters set, the latest first. *)
Definition params : Type := list (ascii * num).

Fixpoint param (ps : params) (letter : ascii) : option num :=
  match ps with
  | [] => None
  | (k, v) :: rest => if Ascii.eqb k letter then Some v else param rest letter
  end.

(** A move command; [x], [y], [z], [e] and [feedrate] are [None] when the
    property is not set. *)
Record move : Type := {
  mv_line : nat;
  mv_from : position;
  mv_to : position;
  mv_x : option num;
  mv_y : option num;
  mv_z : option num;
  mv_e : option num;
  mv_extruding : bool;
  mv_feedrate : option num
}.

(** What [parseLine] returns when it is not [null]. *)
Inductive command : Type :=
| Move (m : move)
| Home (axes : params) (line : nat)
| Temperature (temp : num) (line : nat)
| BedTemperature (temp : num) (line : nat).

(** A command with the [layer] that [parse] gives it. *)
Record placed : Type := { cmd : command; cmd_layer : nat }.

(** The fields of the parser and the locals of [parse].  Layer numbers
    are naturals: they stay far below [2^53], where JavaScript numbers
    count exactly. *)
Record parserState : Type := {
  gp_commands : list placed;
  gp_layers : list nat;
  gp_position : position;
  gp_temp : num;
  gp_layer : nat;                       (* currentLayer *)
  gp_lastZ : num
}.

Definition upper (c : ascii) : ascii :=
  let n := nat_of_ascii c in
  if ((97 <=? n) && (n <=? 122))%nat then ascii_of_nat (n - 32) else c.

Fixpoint toUpperCase (s : string) : string :=
  match s with
  | EmptyString => EmptyString
  | String c s' => String (upper c) (toUpperCase s')
  end.

(** [isNaN(value)] of a number. *)
Definition isNaN (v : num) : bool := negb (neq v v).

(** The loop over [parts] from index 1 on. *)
Fixpoint read_params (parts : list string) (ps : params) : params :=
  match parts with
  | [] => ps
  | part :: rest =>
      match part with
      | EmptyString => read_params rest ps
      | String c tail =>
          let letter := upper c in
          let value := parseFloat tail in
          read_params rest (if isNaN value then ps else (letter, value) :: ps)
      end
  end.

(** [parseMove]: the command and the position afterwards. *)
Definition parseMove (cur : position) (ps : params) (lineNumber : nat)
    : move * position :=
  let X := param ps "X" in
  let Y := param ps "Y" in
  let Z := param ps "Z" in
  let E := param ps "E" in
  let to := {| pos_x := match X with Some v => v | None => pos_x cur end;
               pos_y := match Y with Some v => v | None => pos_y cur end;
               pos_z := match Z with Some v => v | None => pos_z cur end;
               pos_e := match E with Some v => v | None => pos_e cur end |} in
  ({| mv_line := lineNumber;
      mv_from := cur;
      mv_to := to;
      mv_x := X; mv_y := Y; mv_z := Z; mv_e := E;
      mv_extruding := match E with
                      | Some v => nlt (pos_e cur) v
                      | None => false
                      end;
      mv_feedrate := param ps "F" |},
   to).

(** [params.S || 0] *)
Definition S_or_zero (ps : params) : num :=
  match param ps "S" with
  | Some v => if neq v (nofZ 0) then nofZ 0 else v
  | None => nofZ 0
  end.

(** [parseLine] on a line that is trimmed and not empty: the command, or
    [None] for [null], with the position and the temperature
    afterwards. *)
Definition parseLine (cur : position) (temp : num) (line : string)
    (lineNumber : nat) : option command * position * num :=
  match split_spaces [] line with
  | [] => (None, cur, temp)
  | code :: rest =>
      let cmdCode := toUpperCase code in
      let ps := read_params rest [] in
      if String.eqb cmdCode "G0" || String.eqb cmdCode "G1" then
        let '(m, to) := parseMove cur ps lineNumber in (Some (Move m), to, temp)
      else if String.eqb cmdCode "G28" then
        (Some (Home ps lineNumber), cur, temp)
      else if String.eqb cmdCode "M104" || String.eqb cmdCode "M109" then
        let t := S_or_zero ps in (Some (Temperature t lineNumber), cur, t)
      else if String.eqb cmdCode "M140" || String.eqb cmdCode "M190" then
        (Some (BedTemperature (S_or_zero ps) lineNumber), cur, temp)
      else (None, cur, temp)
  end.

(** *** The two regular expressions *)

Definition is_digit (c : ascii) : bool :=
  let n := nat_of_ascii c in ((48 <=? n) && (n <=? 57))%nat.

(** [[:\s]] *)
Definition is_sep (c : ascii) : bool := Ascii.eqb c ":" || is_space c.

Fixpoint drop_while (p : ascii -> bool) (s : string) : string :=
  match s with
  | String c s' => if p c then drop_while p s' else s
  | EmptyString => EmptyString
  end.

Fixpoint take_while (p : ascii -> bool) (s : string) : string :=
  match s with
  | String c s' => if p c then String c (take_while p s') else EmptyString
  | EmptyString => EmptyString
  end.

(** [layer[:\s]+(\d+)] with the flag [i], at the start of [s]: the
    digits captured. *)
Definition layer_here (s : string) : option string :=
  match s with
  | String c1 (String c2 (String c3 (String c4 (String c5
      (String c6 rest))))) =>
      if String.eqb
           (toLowerCase
              (String c1 (String c2 (String c3 (String c4
                 (String c5 EmptyString))))))
           "layer"
         && is_sep c6
      then
        match take_while is_digit (drop_while is_sep rest) with
        | EmptyString => None
        | digits => Some digits
        end
      else None
  | _ => None
  end.

(** [line.match(/layer[:\s]+(\d+)/i)]: the first place where it
    matches. *)
Fixpoint match_layer (s : string) : option string :=
  match layer_here s with
  | Some digits => Some digits
  | None =>
      match s with
      | String _ s' => match_layer s'
      | EmptyString => None
      end
  end.

(** [line.match(/;\s*layer[:\s]+\d+/i)] *)
Fixpoint match_layer_comment (s : string) : bool :=
  match s with
  | EmptyString => false
  | String c s' =>
      (Ascii.eqb c ";"
       && match layer_here (drop_while is_space s') with
          | Some _ => true
          | None => false
          end)
      || match_layer_comment s'
  end.

(** [parseInt] of a run of digits. *)
Fixpoint digits_value (s : string) (acc : nat) : nat :=
  match s with
  | EmptyString => acc
  | String c s' => digits_value s' (10 * acc + (nat_of_ascii c - 48))
  end.

(** [line.split(';')[0]] *)
Definition before_semicolon (s : string) : string :=
  take_while (fun c => negb (Ascii.eqb c ";")) s.

(** [line.startsWith(';')] *)
Definition is_comment (s : string) : bool :=
  match s with
  | String c _ => Ascii.eqb c ";"
  | EmptyString => false
  end.

(** The body of [lines.forEach] for the line at [index]. *)
Definition parse_line (hasLayerComments : bool) (st : parserState)
    (index : nat) (line : string) : parserState :=
  let line := trim line in
  match line with
  | EmptyString => st
  | _ =>
      if is_comment line then
        if includes "layer" (toLowerCase line) then
          match match_layer line with
          | Some digits =>
              {| gp_commands := gp_commands st; gp_layers := gp_layers st;
                 gp_position := gp_position st; gp_temp := gp_temp st;
                 gp_layer := digits_value digits 0;
                 gp_lastZ := gp_lastZ st |}
          | None => st
          end
        else st
      else
        let line := trim (before_semicolon line) in
        match line with
        | EmptyString => st
        | _ =>
            let '(command, pos, temp) :=
              parseLine (gp_position st) (gp_temp st) line index in
            match command with
            | None =>
                {| gp_commands := gp_commands st; gp_layers := gp_layers st;
                   gp_position := pos; gp_temp := temp;
                   gp_layer := gp_layer st; gp_lastZ := gp_lastZ st |}
            | Some c =>
                let newZ :=
                  if hasLayerComments then None
                  else match c with
                       | Move m =>
                           match mv_z m with
                           | Some z => if neq z (gp_lastZ st) then None
                                       else Some z
                           | None => None
                           end
                       | _ => None
                       end in
                let currentLayer :=
                  match newZ with
                  | Some _ => S (gp_layer st)
                  | None => gp_layer st
                  end in
                let lastZ :=
                  match newZ with
                  | Some z => z
                  | None => gp_lastZ st
                  end in
                {| gp_commands :=
                     gp_commands st
                       ++ [ {| cmd := c; cmd_layer := currentLayer |} ];
                   gp_layers :=
                     if negb (existsb (Nat.eqb currentLayer) (gp_layers st))
                        && negb (hasLayerComments && (currentLayer =? 0)%nat)
                     then gp_layers st ++ [currentLayer]
                     else gp_layers st;
                   gp_position := pos; gp_temp := temp;
                   gp_layer := currentLayer; gp_lastZ := lastZ |}
            end
        end
  end.

(** [lines.forEach], from [index] on. *)
Fixpoint parse_lines (hasLayerComments : bool) (st : parserState)
    (index : nat) (lines : list string) : parserState :=
  match lines with
  | [] => st
  | line :: rest =>
      parse_lines hasLayerComments
        (parse_line hasLayerComments st index line) (S index) rest
  end.

Definition origin : position :=
  {| pos_x := nofZ 0; pos_y := nofZ 0; pos_z := nofZ 0; pos_e := nofZ 0 |}.

(** [parse]: the parser afterwards; [this.commands] is what it returns.
    [currentTemp] is the one field [parse] does not reset. *)
Definition parse (currentTemp : num) (gcodeText : string) : parserState :=
  let lines := split_lines gcodeText in
  let hasLayerComments :=
    existsb (fun line => match_layer_comment (trim line)) lines in
  parse_lines hasLayerComments
    {| gp_commands := []; gp_layers := []; gp_position := origin;
       gp_temp := currentTemp; gp_layer := 0; gp_lastZ := nofZ 0 |}
    0 lines.

(** [getLayerCount] *)
Definition getLayerCount (st : parserState) : nat := List.length (gp_layers st).


(** [getBoundingBox] of the parser: the six conditional updates are those
    of [scan_vertex], on the end point of every move. *)
Definition end_point (m : move) : vertex num :=
  {| vx := pos_x (mv_to m); vy := pos_y (mv_to m); vz := pos_z (mv_to m) |}.

Definition scan_command (a : extremes num) (c : placed) : extremes num :=
  match cmd c with
  | Move m => scan_vertex a (end_point m)
  | _ => a
  end.

Definition printBoundingBox (st : parserState) : boundingBox num :=
  let a := fold_left scan_command (gp_commands st) (extremes_init (num:=num)) in
  {| bb_min := {| vx := minX a; vy := minY a; vz := minZ a |};
     bb_max := {| vx := maxX a; vy := maxY a; vz := maxZ a |};
     bb_size := {| vx := nsub (maxX a) (minX a);
                   vy := nsub (maxY a) (minY a);
                   vz := nsub (maxZ a) (minZ a) |} |}.

End GCodeParser.

(* ================================================================== *)
(** * The program as text

    [generateGCode] and [generateGCodeWithSequences] return
    [gcode.join('\n')]: every line is a string built by a template.  The
    two conversions of numbers that the templates use are parameters:
    [toString] is the default conversion, [toFixedText v d] is
    [v.toFixed(d)].  The extrusion counter, the feed rates and the layer
    numbers are integers and are printed in decimal.  The [E] words of
    the infill lines are those [renumber] wrote: JavaScript prints no
    number with a capital [E]. *)

Section ProgramText.
Variable num : Type.
Variable toString : num -> string.
Variable toFixedText : num -> nat -> string.
Local Open Scope list_scope.
Local Open Scope string_scope.

Definition show (p : printed num) : string :=
  match p_digits p with
  | Some d => toFixedText (p_value p) d
  | None => toString (p_value p)
  end.

(** An integer in a template, and a count. *)
Definition decimal (z : Z) : string := NilZero.string_of_int (Z.to_int z).

Definition decimal_nat (n : nat) : string :=
  NilZero.string_of_uint (Nat.to_uint n).

Definition word_text (w : word num) : string :=
  match w with
  | WX v => "X" ++ show v
  | WY v => "Y" ++ show v
  | WZ v => "Z" ++ show v
  | WE e => "E" ++ decimal e
  | WF f => "F" ++ decimal f
  | WS v => "S" ++ show v
  | WAxis name => name
  end.

(** The words of a command, each after a space. *)
Fixpoint words_text (ws : list (word num)) : string :=
  match ws with
  | [] => ""
  | w :: rest => " " ++ word_text w ++ words_text rest
  end.

Definition remark_text (r : remark num) : string :=
  match r with
  | RText text => text
  | RLayerHeight h => "Layer Height: " ++ toString h ++ "mm"
  | RInfill pattern density =>
      "Infill: " ++ pattern ++ " at " ++ toString density ++ "%"
  | RTopBottom n => "Top/Bottom Solid Layers: " ++ decimal_nat n
  | RLayer n z => "Layer " ++ decimal_nat n ++ " (Z=" ++ show z ++ ")"
  | RSolid bottom => "Solid layer " ++ (if bottom then "(bottom)" else "(top)")
  | RSparse density => "Sparse infill (" ++ toString density ++ "%)"
  end.

(** One element of the array [gcode]. *)
Definition render (l : gline num) : string :=
  match l with
  | Blank => ""
  | Comment r => "; " ++ remark_text r
  | Command code ws note =>
      code ++ words_text ws
        ++ match note with Some text => " ; " ++ text | None => "" end
  end.

(** [gcode.join('\n')] *)
Definition program_text (prog : list (gline num)) : string :=
  String.concat eol (map render prog).
End ProgramText.

(* ------------------------------------------------------------------ *)
(** ** binary64: printing numbers *)

Module F64out.
Local Open Scope string_scope.

(** [Number::toString] on a non-negative integer below [10^15]; the
    numbers printed below are of this kind.  Anything else is printed as
    [NaN] here. *)
Definition toString (x : float) : string :=
  match F64.floorZ x with
  | Some z =>
      if (0 <=? z)%Z && (z <? 10 ^ 15)%Z && PrimFloat.eqb (F64.ofZ z) x
      then NilEmpty.string_of_uint (N.to_uint (Z.to_N z))
      else "NaN"
  | None => "NaN"
  end.

Fixpoint zeros (k : nat) : string :=
  match k with
  | O => ""
  | S k' => String "0" (zeros k')
  end.

(** The digits of [n], [d] of them after the point: [n] is padded with
    zeros to [d + 1] digits. *)
Definition point (n : N) (d : nat) : string :=
  let m := NilZero.string_of_uint (N.to_uint n) in
  let m := zeros (d + 1 - String.length m) ++ m in
  if (d =? 0)%nat then m
  else
    let k := String.length m in
    substring 0 (k - d) m ++ "." ++ substring (k - d) d m.

(** [x.toFixed(d)] for [d] up to 100: the integer [n] nearest to
    [|x| * 10^d], the larger one of two, printed with the point and the
    sign of [x].  From [10^21] on JavaScript prints as [toString] does;
    that is not modelled, and the text is [NaN] here. *)
Definition toFixed (x : float) (d : nat) : string :=
  match Prim2SF x with
  | S754_nan => "NaN"
  | S754_infinity s => if s then "-Infinity" else "Infinity"
  | S754_zero _ => point 0 d
  | S754_finite s m e =>
      let scaled := (Zpos m * 10 ^ Z.of_nat d)%Z in
      let n :=
        if (0 <=? e)%Z then (scaled * 2 ^ e)%Z
        else ((2 * scaled + 2 ^ (- e)) / (2 * 2 ^ (- e)))%Z in
      if (0 <=? e)%Z && (10 ^ 21 <=? Zpos m * 2 ^ e)%Z then "NaN"
      else (if s then "-" else "") ++ point (Z.to_N n) d
  end.
End F64out.

(* ================================================================== *)
(** * Vocabulary of the further statements *)

Section BoxVocabulary.
Variable num : Type.
Context {NUM : JSNumber num}.

(** The three axes, and a vertex's coordinate on each. *)
Inductive axis : Type := AxisX | AxisY | AxisZ.

Definition coordinate (a : axis) (v : vertex num) : num :=
  match a with AxisX => vx v | AxisY => vy v | AxisZ => vz v end.

(** A minimum as the scans keep it, [if (x < m) m = x], and a maximum,
    [if (x > m) m = x]. *)
Definition running_min (xs : list num) (m : num) : num :=
  fold_left (fun m x => if nlt x m then x else m) xs m.

Definition running_max (xs : list num) (m : num) : num :=
  fold_left (fun m x => if nlt m x then x else m) xs m.
End BoxVocabulary.

Section TracerVocabulary.
Variable num : Type.

(** [q'] has every flag that [q] has. *)
Definition flags_kept (q q' : layerSequence) : Prop :=
  (isBottom q = true -> isBottom q' = true) /\
  (isTop q = true -> isTop q' = true).

(** [sq'] is [sq] with some more flags set. *)
Definition marks_added (sq sq' : list layerSequence) : Prop :=
  Forall2 flags_kept sq sq'.

(** The end points of some segments. *)
Definition endpoints (segs : list (segment num)) : list (point num) :=
  flat_map (fun seg => [seg_start seg; seg_end seg]) segs.

(** The segments some paths run along: a path, one fewer than its
    points. *)
Definition segments_used (paths : list (path num)) : nat :=
  list_sum (map (fun p => List.length p - 1)%nat paths).
End TracerVocabulary.

Section ProgramVocabulary.
Variable num : Type.
Local Open Scope string_scope.
Local Open Scope list_scope.

(** A fill move as printed: the [X] and [Y] of its [G0] line and of its
    [G1] line. *)
Record fillMove : Type := {
  fm_x0 : printed num; fm_y0 : printed num;
  fm_x1 : printed num; fm_y1 : printed num
}.

(** The two lines of a fill move whose [E] word is [e]. *)
Definition fill_lines (m : fillMove) (e : Z) : list (gline num) :=
  [ Command "G0" [WX (fm_x0 m); WY (fm_y0 m)] None;
    Command "G1" [WX (fm_x1 m); WY (fm_y1 m); WE e; WF 1500] None ].

(** Fill moves as [generateLayerInfill] returns them, all with [E0]. *)
Definition unnumbered (moves : list fillMove) : list (gline num) :=
  flat_map (fun m => fill_lines m 0) moves.

(** Fill moves as they are pushed: the counter goes up by 3 before each
    [E] word is written. *)
Fixpoint numbered (moves : list fillMove) (c : Z) : list (gline num) :=
  match moves with
  | [] => []
  | m :: rest => fill_lines m (c + 3) ++ numbered rest (c + 3)
  end.

(** The lines of a layer after its two opening lines: travel moves
    [G0 X Y], extruding moves [G1 X Y E] with or without [F1500], and the
    comments that introduce the infill. *)
Definition body_line (l : gline num) : Prop :=
  match l with
  | Comment (RSolid _) | Comment (RSparse _) => True
  | Command code ws _ =>
      (code = "G0" /\ exists x y, ws = [WX x; WY y]) \/
      (code = "G1" /\ exists x y e,
         ws = [WX x; WY y; WE e] \/ ws = [WX x; WY y; WE e; WF 1500])
  | _ => False
  end.

(** A line of a program: a line of a layer's body, or a line without an
    [E] word. *)
Definition program_line (l : gline num) : Prop :=
  body_line l \/ line_E l = [].

(** A move that extrudes: [G1 X.. Y.. E..], with or without [F1500]. *)
Definition extruding_move (l : gline num) : Prop :=
  exists x y e note,
    l = Command "G1" [WX x; WY y; WE e] note \/
    l = Command "G1" [WX x; WY y; WE e; WF 1500] note.

(** The layers a program announces: the number and height of each
    [; Layer n (Z=...)] comment, in order. *)
Definition announced (prog : list (gline num)) : list (nat * printed num) :=
  flat_map (fun l => match l with
                     | Comment (RLayer n z) => [(n, z)]
                     | _ => []
                     end) prog.

(** How [layer_head] announces a layer. *)
Definition announcement (l : layer num) : nat * printed num :=
  ((layerNum l + 1)%nat, toFixed 3 (layer_z l)).

(** A call that returns or runs forever. *)
Definition never_throws {A : Type} (m : outcome A) : Prop :=
  match m with Throw _ => False | _ => True end.

(** A sparse branch that does not throw and returns lines of a layer's
    body. *)
Definition fills_body
    (sparse : option (layerBox num) -> list (path num) -> Z ->
              outcome (list (gline num) * Z)) : Prop :=
  forall bbox paths c,
    never_throws (sparse bbox paths c) /\
    forall r, sparse bbox paths c = Ret r -> Forall body_line (fst r).
End ProgramVocabulary.

Section DriverVocabulary.
Variable num : Type.
Context {NUM : JSNumber num}.

(** Every layer is at its own height, and no later layer is at the
    height of an earlier one. *)
Fixpoint distinct_heights (layers : list (layer num)) : bool :=
  match layers with
  | [] => true
  | l :: rest =>
      sameHeight l (layer_z l)
      && forallb (fun l' => negb (sameHeight l (layer_z l'))) rest
      && distinct_heights rest
  end.

(** A flag of the merged sequences at index [j] comes from a model: one
    of its layers, at the height of layer [j], has the flag. *)
Definition flag_from_model (flag : layerSequence -> bool)
    (layers : list (layer num)) (modelSlices : list (modelSlice num)) (j : nat)
    : Prop :=
  exists m i l q lj,
    In m modelSlices /\
    nth_error (ms_layers m) i = Some l /\
    nth_error (ms_sequences m) i = Some q /\
    flag q = true /\
    nth_error layers j = Some lj /\
    sameHeight lj (layer_z l) = true.

(** What the merge keeps true of [merged]: an entry for every layer, and
    no flag without a model to which it is due. *)
Definition justified (layers : list (layer num))
    (modelSlices : list (modelSlice num)) (merged : list layerSequence)
    : Prop :=
  List.length merged = List.length layers /\
  forall j q, nth_error merged j = Some q ->
    (isBottom q = true ->
     flag_from_model (@isBottom) layers modelSlices j) /\
    (isTop q = true -> flag_from_model (@isTop) layers modelSlices j).
End DriverVocabulary.

Section ParserVocabulary.
Variable num : Type.
Context {NUM : JSNumber num}.

(** The moves among some commands, in order. *)
Definition moves_of (cs : list (placed num)) : list (move num) :=
  flat_map (fun c => match cmd c with Move m => [m] | _ => [] end) cs.

(** Every move starts where the one before ended, the first at [start]. *)
Fixpoint chained (start : position num) (ms : list (move num)) : Prop :=
  match ms with
  | [] => True
  | m :: rest => mv_from m = start /\ chained (mv_to m) rest
  end.

(** Where the last move ended. *)
Definition last_position (start : position num) (ms : list (move num))
    : position num :=
  fold_left (fun _ m => mv_to m) ms start.

(** The [line] of a command. *)
Definition command_line (c : command num) : nat :=
  match c with
  | Move m => mv_line m
  | Home _ l | Temperature _ l | BedTemperature _ l => l
  end.

(** [hasLayerComments], as [parse] finds it. *)
Definition hasLayerComments (gcodeText : string) : bool :=
  existsb (fun line => match_layer_comment (trim line))
          (split_lines gcodeText).

(** A comment line that names a layer for [parse]. *)
Definition names_layer (line : string) : bool :=
  is_comment (trim line)
  && match match_layer (trim line) with Some _ => true | None => false end.

(** What one pass of [lines.forEach] does to the parser. *)
Inductive pass (hlc : bool) (index : nat) (line : string)
    (st st' : parserState num) : Prop :=
| pass_idle :
    gp_commands st' = gp_commands st ->
    gp_layers st' = gp_layers st ->
    gp_position st' = gp_position st ->
    gp_lastZ st' = gp_lastZ st ->
    (names_layer line = false -> gp_layer st' = gp_layer st) ->
    pass hlc index line st st'
| pass_command (c : command num) (k : nat) :
    gp_commands st' = gp_commands st ++ [ {| cmd := c; cmd_layer := k |} ] ->
    command_line c = index ->
    gp_layer st' = k ->
    k = gp_layer st \/ (hlc = false /\ k = S (gp_layer st)) ->
    gp_layers st'
    = (if negb (existsb (Nat.eqb k) (gp_layers st))
          && negb (hlc && (k =? 0)%nat)
       then gp_layers st ++ [k] else gp_layers st) ->
    match c with
    | Move m => mv_from m = gp_position st /\ gp_position st' = mv_to m
    | _ => gp_position st' = gp_position st
    end ->
    pass hlc index line st st'.

End ParserVocabulary.

Section ExportVocabulary.
Variable num : Type.
Variable toString : num -> string.
Local Open Scope list_scope.
Local Open Scope string_scope.

Fixpoint all_chars (p : ascii -> bool) (s : string) : bool :=
  match s with
  | EmptyString => true
  | String c s' => p c && all_chars p s'
  end.

(** A text without white space that is not empty. *)
Definition token (s : string) : bool :=
  match s with
  | EmptyString => false
  | _ => all_chars (fun c => negb (is_space c)) s
  end.

(** A text without a line feed. *)
Definition one_line (s : string) : bool :=
  all_chars (fun c => negb (Ascii.eqb c (ascii_of_nat 10))) s.

(** The number [x] is printed as a token that [parseFloat] reads as [x]. *)
Definition prints_back (parseFloat : string -> num) (x : num) : Prop :=
  token (toString x) = true /\ parseFloat (toString x) = x.

(** The nine numbers of a triangle. *)
Definition coordinates (tri : triangle num) : list num :=
  flat_map (fun v => [vx v; vy v; vz v]) (vertices tri).

(** The lines of one facet, and of a whole file. *)
Definition facet_lines (tri : triangle num) : list string :=
  [ "  facet normal 0 0 1"; "    outer loop";
    vertex_text toString (v1 tri); vertex_text toString (v2 tri);
    vertex_text toString (v3 tri);
    "    endloop"; "  endfacet" ].

Definition export_lines (m : list (triangle num)) (name : option string)
    : list string :=
  ("solid " ++ nameOrDefault name)
    :: (flat_map facet_lines m
          ++ [ ("endsolid " ++ nameOrDefault name)%string ])%list.

(** Lines, each followed by a line feed. *)
Fixpoint unlines (ls : list string) : string :=
  match ls with
  | [] => ""
  | l :: rest => l ++ eol ++ unlines rest
  end.

End ExportVocabulary.

Section TextVocabulary.
Local Open Scope string_scope.

(** A file of bytes below 128.  [TextDecoder] turns each such byte
    into the character of the same code, as [string_of_list_byte] does,
    and among these characters [trim] and [\s] take the same ones for
    white space as [is_space].  A byte from 128 on is read by
    [TextDecoder] as part of a UTF-8 sequence, and a byte order mark at
    the start is dropped: that is not followed here, and what is stated
    of the text reader is stated of files of bytes below 128. *)
Definition seven_bit (buf : list Byte.byte) : bool :=
  forallb (fun b => (Byte.to_N b <? 128)%N) buf.

(** A line of such a file. *)
Definition seven_bit_line (s : string) : bool :=
  all_chars (fun c => (nat_of_ascii c <? 128)%nat) s.

(** A text on one line that does not contain the word [layer], in any
    case of its letters. *)
Definition plain (s : string) : bool :=
  one_line s && negb (includes "layer" (toLowerCase s)).

(** The numbers of a list in the order in which they first occur. *)
Definition first_seen (ns : list nat) : list nat :=
  fold_left
    (fun seen n => if existsb (Nat.eqb n) seen then seen else (seen ++ [n])%list)
    ns [].

(** A character that does not continue the word [layer]. *)
Definition off_word (s : string) : bool :=
  match s with
  | EmptyString => true
  | String c _ =>
      negb (existsb (Ascii.eqb (lower c)) ["a"; "y"; "e"; "r"]%char)
  end.

(** A text that [trimEnd] leaves as it is, and that is not empty. *)
Definition ends_well (s : string) : Prop := trimEnd s = s /\ s <> "".

(** What follows the code of a command: nothing, or a space and more. *)
Definition gap (s : string) : bool :=
  match s with
  | EmptyString => true
  | String c _ => Ascii.eqb c " "
  end.
End TextVocabulary.

Section ReadingVocabulary.
Variable num : Type.
Local Open Scope list_scope.
Local Open Scope string_scope.

(** What a line of a program is to [parse] when the text has layer
    comments: nothing, the name of a layer, or a command. *)
Inductive effect : Type := Silent | Names (n : nat) | Pushes.

(** The codes of the programs that [parseLine] knows; [M84] is the one
    it does not. *)
Definition known_codes : list string := ["G0"; "G1"; "G28"; "M104"; "M140"].

Definition effect_of (l : gline num) : effect :=
  match l with
  | Comment (RLayer n _) => Names n
  | Command code _ _ =>
      if existsb (String.eqb code) known_codes then Pushes else Silent
  | _ => Silent
  end.

(** [currentLayer] and [this.layers] after a line. *)
Definition note_layers (a : nat * list nat) (e : effect) : nat * list nat :=
  match e with
  | Silent => a
  | Names n => (n, snd a)
  | Pushes =>
      (fst a,
       if negb (existsb (Nat.eqb (fst a)) (snd a)) && negb (fst a =? 0)%nat
       then (snd a ++ [fst a])%list else snd a)
  end.

(** The lines the two emitters push: the texts, codes and notes are
    those of the templates, and the infill pattern is plain. *)
Definition tidy (l : gline num) : Prop :=
  match l with
  | Blank => True
  | Comment (RText text) =>
      In text [ "Generated by 3D Printer Simulator - STL Slicer";
                "Multi-model per-model top/bottom detection enabled";
                "Finish"; "Print complete" ]
  | Comment (RInfill pattern _) => plain pattern = true
  | Comment _ => True
  | Command code ws note =>
      In code ("M84" :: known_codes) /\
      Forall (fun w => match w with
                       | WAxis name => one_line name = true
                       | _ => True
                       end) ws /\
      match note with
      | Some text => one_line text = true
      | None => True
      end
  end.

(** A line that names no layer. *)
Definition quiet (l : gline num) : Prop :=
  match effect_of l with Names _ => False | _ => True end.

(** The number a layer is announced with. *)
Definition layer_number (l : layer num) : nat := (layerNum l + 1)%nat.

(** A sparse branch that returns lines of the templates. *)
Definition fills_tidy
    (sparse : option (layerBox num) -> list (path num) -> Z ->
              outcome (list (gline num) * Z)) : Prop :=
  forall bbox paths c r, sparse bbox paths c = Ret r -> Forall tidy (fst r).
End ReadingVocabulary.

Section PlaneVocabulary.
Variable num : Type.
Context {NUM : JSNumber num}.

(** Where a vertex is for the tests of [sliceAtZ]: on the plane at [z],
    under it or over it. *)
Definition on_plane (z : num) (v : vertex num) : Prop :=
  (vz v <=? z)%num = true /\ (vz v >=? z)%num = true.

Definition under_plane (z : num) (v : vertex num) : Prop :=
  (vz v <=? z)%num = true /\ (vz v >=? z)%num = false.

Definition over_plane (z : num) (v : vertex num) : Prop :=
  (vz v <=? z)%num = false /\ (vz v >=? z)%num = true.

(** The edge passes the test [Math.abs(va.z - vb.z) > 0.0001]. *)
Definition steep (va vb : vertex num) : Prop :=
  (nabs (vz va - vz vb) >? dec 1 10000)%num = true.
End PlaneVocabulary.

Section SurfaceVocabulary.
Variable num : Type.
Context {NUM : JSNumber num}.

(** [(v1.z + v2.z + v3.z) / 3] *)
Definition mean_height (tri : triangle num) : num :=
  ((vz (v1 tri) + vz (v2 tri) + vz (v3 tri)) / nofZ 3)%num.

(** The height [later] was recorded although [earlier] was known: it is
    not within [tolerance] of it. *)
Definition recorded_after (tolerance earlier later : num) : Prop :=
  (nabs (earlier - later) <? tolerance)%num = false.

(** Two recorded heights: one was recorded after the other. *)
Definition apart (tolerance a b : num) : Prop :=
  recorded_after tolerance a b \/ recorded_after tolerance b a.
End SurfaceVocabulary.

Section ScanVocabulary.
Variable num : Type.
Context {NUM : JSNumber num}.

(** The vertex [p] is on one side of the line at [v]: before it, or else
    on it or after it.  A number that is NaN is on neither side. *)
Definition sided (key : point num -> num) (v : num) (p : point num) : Prop :=
  (key p >=? v)%num = negb (key p <? v)%num.

(** A polygon that the line at [v] can be clipped to: every vertex is on
    one side, and an edge from one side to the other is longer than
    0.0001 across the line. *)
Definition crossable (key : point num -> num) (v : num) (polygon : path num)
    : Prop :=
  Forall (sided key v) polygon /\
  Forall (fun '(p1, p2) =>
            (key p1 <? v)%num = (key p2 <? v)%num \/
            (nabs (key p2 - key p1) >? dec 1 10000)%num = true)
         (with_next polygon).
End ScanVocabulary.

Section RoundingVocabulary.
Local Open Scope Z_scope.

(** Rounding in binary64, by integers.  A finite number is a mantissa
    below [2^53] times a power of two from [2^-1074] up; an operation
    computes the exact result [N * 2^u] and rounds it. *)

(** The integer nearest to [N / 2^k], the even one of two. *)
Definition rne (N k : Z) : Z :=
  let q := N / 2 ^ k in
  match 2 * (N mod 2 ^ k) ?= 2 ^ k with
  | Lt => q
  | Eq => if Z.even q then q else q + 1
  | Gt => q + 1
  end.

(** Where a remainder [rem] of a division by [2^k] lies in its unit. *)
Definition loc_of_rem (rem k : Z) : location :=
  if rem =? 0 then loc_Exact else loc_Inexact (2 * rem ?= 2 ^ k).

(** The result of rounding, from the rounded mantissa [r] (at most
    [2^53]) and its exponent [E]: a mantissa of 54 digits is [2^53] and
    moves to the next exponent; from the exponent 972 on the result is
    an infinity. *)
Definition pack (s : bool) (r E : Z) : spec_float :=
  match r with
  | Z0 => S754_zero s
  | Zpos m =>
      if r <? 2 ^ 53 then
        if E <=? 971 then S754_finite s m E else S754_infinity s
      else
        if E + 1 <=? 971 then S754_finite s (2 ^ 52)%positive (E + 1)
        else S754_infinity s
  | Zneg _ => S754_nan
  end.

(** A number [N * 2^u] rounded to binary64, with the sign [s]. *)
Definition round_at (s : bool) (u N : Z) : spec_float :=
  let E := Z.max (Zdigits2 N + u - 53) (-1074) in
  pack s (rne N (E - u)) E.

(** The place of a number among the binary64 numbers: the numbers from
    zero up are counted by exponent first and mantissa second, the
    infinity coming last; the numbers below zero mirror them. *)
Definition rank (x : spec_float) : Z :=
  match x with
  | S754_zero _ => 0
  | S754_nan => 0
  | S754_infinity s => cond_Zopp s (2047 * 2 ^ 52)
  | S754_finite s m e => cond_Zopp s ((e + 1074) * 2 ^ 52 + Zpos m)
  end.

(** A number, with the mantissa and the exponent of a binary64 number:
    a mantissa of 53 digits at most, and of exactly 53 above the least
    exponent. *)
Definition proper (x : spec_float) : Prop :=
  match x with
  | S754_nan => False
  | S754_finite _ m e =>
      -1074 <= e <= 971 /\ Zpos m < 2 ^ 53 /\ (-1074 < e -> 2 ^ 52 <= Zpos m)
  | _ => True
  end.

(** The rank, before the infinity cuts it off, of [N * 2^u] rounded. *)
Definition rounded_rank (u N : Z) : Z :=
  let E := Z.max (Zdigits2 N + u - 53) (-1074) in
  (E + 1074) * 2 ^ 52 + rne N (E - u).

(** The rank of [N * 2^u] rounded, for [N] of either sign. *)
Definition signed_rank (u N : Z) : Z :=
  match N with
  | Z0 => 0
  | Zpos _ => Z.min (2047 * 2 ^ 52) (rounded_rank u N)
  | Zneg p => - Z.min (2047 * 2 ^ 52) (rounded_rank u (Zpos p))
  end.

(** The value of a finite number in units of [2^u]. *)
Definition units (u : Z) (x : spec_float) : Z :=
  match x with
  | S754_finite s m e => cond_Zopp s (Zpos m * 2 ^ (e - u))
  | _ => 0
  end.

Definition finite_or_zero (x : spec_float) : bool :=
  match x with
  | S754_zero _ | S754_finite _ _ _ => true
  | _ => false
  end.
End RoundingVocabulary.

(* ================================================================== *)
(** * Inputs used in the statements below *)

Module Examples.
Local Open Scope string_scope.
Local Open Scope list_scope.

Definition V (x y z : Z) : vertex float :=
  {| vx := F64.ofZ x; vy := F64.ofZ y; vz := F64.ofZ z |}.

Definition T (a b c : vertex float) : triangle float :=
  {| v1 := a; v2 := b; v3 := c |}.

(** The slicer as its constructor leaves it, with a mesh and a layer
    height [a / b]. *)
Definition slicer (m : option (list (triangle float))) (a : Z) (b : positive)
    : STLSlicer float :=
  {| mesh := m;
     layerHeight := dec a b;
     infillPattern := "grid";
     infillDensity := F64.ofZ 20;
     nozzleTemp := F64.ofZ 200;
     bedTemp := F64.ofZ 60;
     wallThickness := dec 8 10;
     topBottomLayers := 3;
     nozzleDiameter := dec 4 10 |}.

(** The cube [0,20] x [0,20] x [0,20]: two triangles a face, normals
    pointing outwards. *)
Definition cube : list (triangle float) :=
  [ T (V 0 0 0) (V 0 20 0) (V 20 20 0);    T (V 0 0 0) (V 20 20 0) (V 20 0 0);
    T (V 0 0 20) (V 20 0 20) (V 20 20 20); T (V 0 0 20) (V 20 20 20) (V 0 20 20);
    T (V 0 0 0) (V 20 0 0) (V 20 0 20);    T (V 0 0 0) (V 20 0 20) (V 0 0 20);
    T (V 20 0 0) (V 20 20 0) (V 20 20 20); T (V 20 0 0) (V 20 20 20) (V 20 0 20);
    T (V 20 20 0) (V 0 20 0) (V 0 20 20);  T (V 20 20 0) (V 0 20 20) (V 20 20 20);
    T (V 0 20 0) (V 0 0 0) (V 0 0 20);     T (V 0 20 0) (V 0 0 20) (V 0 20 20) ].

(** Layer height 0.2, three top and bottom layers. *)
Definition cube_slicer : STLSlicer float := slicer (Some cube) 2 10.

Definition cube_layers : list (layer float) :=
  match sliceMesh cube_slicer with
  | Ret (Some layers) => layers
  | _ => []
  end.

(** One upright triangle, from z = 0 to z = 1, sliced every 0.75. *)
Definition fin : list (triangle float) :=
  [ T (V 0 0 0) (V 4 0 1) (V 0 4 1) ].

Definition fin_slicer : STLSlicer float := slicer (Some fin) 3 4.

(** A box 4 x 4 x 2, sliced every 0.5 with one top and one bottom layer. *)
Definition box : list (triangle float) :=
  [ T (V 0 0 0) (V 0 4 0) (V 4 4 0); T (V 0 0 0) (V 4 4 0) (V 4 0 0);
    T (V 0 0 2) (V 4 0 2) (V 4 4 2); T (V 0 0 2) (V 4 4 2) (V 0 4 2);
    T (V 0 0 0) (V 4 0 0) (V 4 0 2); T (V 0 0 0) (V 4 0 2) (V 0 0 2);
    T (V 4 0 0) (V 4 4 0) (V 4 4 2); T (V 4 0 0) (V 4 4 2) (V 4 0 2);
    T (V 4 4 0) (V 0 4 0) (V 0 4 2); T (V 4 4 0) (V 0 4 2) (V 4 4 2);
    T (V 0 4 0) (V 0 0 0) (V 0 0 2); T (V 0 4 0) (V 0 0 2) (V 0 4 2) ].

Definition box_slicer : STLSlicer float :=
  {| mesh := Some box;
     layerHeight := dec 1 2;
     infillPattern := "grid";
     infillDensity := F64.ofZ 20;
     nozzleTemp := F64.ofZ 200;
     bedTemp := F64.ofZ 60;
     wallThickness := dec 8 10;
     topBottomLayers := 1;
     nozzleDiameter := dec 4 10 |}.

Definition box_layers : list (layer float) :=
  match sliceMesh box_slicer with
  | Ret (Some layers) => layers
  | _ => []
  end.

(** The program [generateGCode] prints for the box, grid infill at 20%. *)
Definition box_program : list (gline float) :=
  match generateGCode box_slicer box_layers "grid" (F64.ofZ 20) with
  | Ret prog => prog
  | _ => []
  end.

(** The program of [generateGCodeWithSequences] for the same layers,
    settings and layer classification. *)
Definition box_program_seq : list (gline float) :=
  match generateGCodeWithSequences box_slicer box_layers "grid" (F64.ofZ 20)
          (analyzeLayerSequences box_slicer box_layers) with
  | Ret prog => prog
  | _ => []
  end.

(** Two concentric squares about (10, 10): 20 x 20 and 10 x 10. *)
Definition P (x y : Z) : point float := {| px := F64.ofZ x; py := F64.ofZ y |}.
Definition outer_square : path float := [P 0 0; P 20 0; P 20 20; P 0 20].
Definition inner_square : path float := [P 5 5; P 15 5; P 15 15; P 5 15].

(** The area inside the inner square, as a test on a fill move along X. *)
Definition enters_hole (f : fill float) : bool :=
  let lo := if PrimFloat.ltb (from_x f) (to_x f) then from_x f else to_x f in
  let hi := if PrimFloat.ltb (from_x f) (to_x f) then to_x f else from_x f in
  PrimFloat.ltb (F64.ofZ 5) (from_y f) && PrimFloat.ltb (from_y f) (F64.ofZ 15)
  && PrimFloat.ltb lo (F64.ofZ 15) && PrimFloat.ltb (F64.ofZ 5) hi.

(** *** Files *)

Definition newline : string := String (ascii_of_nat 10) EmptyString.

Definition text_file (lines : list string) : buffer :=
  list_byte_of_string (String.concat newline lines).

(** A text file with two records: the first has two vertices, the second
    four. *)
Definition ragged_text : buffer :=
  text_file
    [ "solid part";
      "facet normal 0 0 1";
      "  outer loop";
      "    vertex 0 0 0";
      "    vertex 1 0 0";
      "  endloop";
      "endfacet";
      "facet normal 0 0 1";
      "  outer loop";
      "    vertex 0 0 0";
      "    vertex 1 0 0";
      "    vertex 0 1 0";
      "    vertex 9 9 9";
      "  endloop";
      "endfacet";
      "endsolid part" ].

(** A binary file: the header text, padded with spaces to 80 bytes, the
    triangle count, and [records] records of 50 zero bytes. *)
Definition binary_file (title : string) (count : Byte.byte) (records : nat)
    : buffer :=
  let h := list_byte_of_string title in
  h ++ repeat Byte.x20 (80 - List.length h)
    ++ [ count; Byte.x00; Byte.x00; Byte.x00 ]
    ++ repeat Byte.x00 (50 * records).

(** Declares one triangle and carries two. *)
Definition surplus_binary : buffer := binary_file "binary mesh" Byte.x01 2.

(** A binary file of one triangle whose header names the program that
    wrote it. *)
Definition cad_binary : buffer := binary_file "Exported from SolidWorks" Byte.x01 1.

Definition zero_triangle : triangle float :=
  {| v1 := V 0 0 0; v2 := V 0 0 0; v3 := V 0 0 0 |}.

End Examples.

(** Further inputs. *)
Module Samples.
Import Examples.
Local Open Scope string_scope.
Local Open Scope list_scope.

(** The bounding box of the cube. *)
Definition cube_box : boundingBox float :=
  {| bb_min := V 0 0 0; bb_max := V 20 20 20; bb_size := V 20 20 20 |}.

(** The cube with a layer height of zero. *)
Definition cube_unsliceable : STLSlicer float := slicer (Some cube) 0 1.

(** The lines pushed for the outer square filled at 20%, with the counter
    at 7 before. *)
Definition square_fill : list (gline float) * Z :=
  match push_infill box_slicer (getLayerBoundingBox outer_square) "lines"
          (F64.ofZ 20) [outer_square] 0 7 with
  | Ret r => r
  | _ => ([], 0%Z)
  end.

(** A binary file of one triangle that differs from [cad_binary] in its
    header, in the normal of its record and in the attribute bytes. *)
Definition other_binary : buffer :=
  repeat Byte.x41 80
    ++ [ Byte.x01; Byte.x00; Byte.x00; Byte.x00 ]
    ++ repeat Byte.xff 12 ++ repeat Byte.x00 36 ++ repeat Byte.xff 2.

(** The box as [sliceSTL] slices it on its own. *)
Definition box_slice : modelSlice float :=
  {| ms_name := "box";
     ms_mesh := box;
     ms_layers := box_layers;
     ms_sequences := analyzeLayerSequences box_slicer box_layers |}.

(** A program without layer comments: up to height 1, a move, up to
    height 2 while moving, and a move that stays at that height. *)
Definition plain_program : string :=
  String.concat newline [ "G1 Z1"; "G1 X1 E5"; "G1 Z2 X3"; "G1 Z2 Y4 E9" ].

(** The cube sliced every 5 mm, and its program as [sliceSTL] has it
    printed. *)
Definition tall_slicer : STLSlicer float := slicer (Some cube) 5 1.

Definition tall_layers : list (layer float) :=
  match sliceMesh tall_slicer with
  | Ret (Some layers) => layers
  | _ => []
  end.

Definition tall_program : list (gline float) :=
  match generateGCodeWithSequences tall_slicer tall_layers "grid" (F64.ofZ 20)
          (analyzeLayerSequences tall_slicer tall_layers) with
  | Ret prog => prog
  | _ => []
  end.

(** A triangle with a corner at height 1, one below and one above. *)
Definition tilted : triangle float := T (V 0 0 1) (V 4 0 0) (V 0 4 2).
End Samples.

(* ================================================================== *)
(** * Mesh store *)

Section BoundingBoxFacts.
Variable num : Type.
Context {NUM : JSNumber num}.

(** C9.  [getBoundingBox] returns [null] exactly when the mesh is [null]
    or has no triangle: for such a slicer the result is [null], never a
    box, and a [null] result means nothing else. *)
Theorem getBoundingBox_null_iff_no_triangle (s : STLSlicer num) :
  getBoundingBox s = None <-> (mesh s = None \/ mesh s = Some []).
Proof.
  unfold getBoundingBox.
  destruct (mesh s) as [[|tri m]|]; split; intros Hx.
  - now right.
  - reflexivity.
  - discriminate.
  - destruct Hx as [Hx|Hx]; discriminate.
  - now left.
  - reflexivity.
Qed.
End BoundingBoxFacts.

(* ================================================================== *)
(** * Surface classifier on the cube *)

Section CubeClassification.
Import Examples.

Lemma cube_sliced : sliceMesh cube_slicer = Ret (Some cube_layers).
Proof. vm_compute. reflexivity. Qed.

Lemma cube_layer_heights :
  map (@layerNum float) cube_layers = seq 0 100.
Proof. vm_compute. reflexivity. Qed.

(** C1, as the code has it.  The cube gives 100 layers.  Layers 0-2 and
    no others are bottom layers.  Layers 95-99 and no others are top
    layers: the last three by position, and layers 95 and 96 as well,
    being closer than [topBottomLayers * layerHeight + layerHeight] to
    the top face. *)
Theorem cube_layer_sequences :
  sliceMesh cube_slicer = Ret (Some cube_layers) /\
  List.length cube_layers = 100%nat /\
  analyzeLayerSequences cube_slicer cube_layers
  = map (fun i => {| isBottom := (i <? 3)%nat; isTop := (95 <=? i)%nat |})
        (seq 0 100).
Proof.
split; [exact cube_sliced|]. split; vm_compute; reflexivity.
Qed.

(** C1 as claimed fails: layer 96 lies between the first three and the
    last three layers and is a top layer. *)
Lemma cube_middle_layer_is_top :
  ~ (forall i q,
        (3 <= i < List.length cube_layers - 3)%nat ->
        nth_error (analyzeLayerSequences cube_slicer cube_layers) i = Some q ->
        isBottom q = false /\ isTop q = false).
Proof.
  intros Hall.
  assert (Hq : nth_error (analyzeLayerSequences cube_slicer cube_layers) 96
               = Some {| isBottom := false; isTop := true |})
    by (vm_compute; reflexivity).
  assert (Hlen : List.length cube_layers = 100%nat) by (vm_compute; reflexivity).
  destruct (Hall 96%nat _ ltac:(rewrite Hlen; lia) Hq) as [_ Htop].
  discriminate Htop.
Qed.
End CubeClassification.

(* ================================================================== *)
(** * The exact rationals satisfy the number laws *)

Section XQLaws.
Local Open Scope Q_scope.

Lemma xq_lt_fin (p q : Q) : negb (Qle_bool q p) = true <-> p < q.
Proof.
  rewrite negb_true_iff. split; intros Hx.
  - apply Qnot_le_lt. intros Hle. apply Qle_bool_iff in Hle. congruence.
  - destruct (Qle_bool q p) eqn:E; [|reflexivity].
    apply Qle_bool_iff in E. exfalso. exact (Qlt_not_le _ _ Hx E).
Qed.

Lemma xq_sign_pos (q : Q) : 0 < q -> XQ.sign (XFin q) = 1%Z.
Proof.
  destruct q as [n d]. unfold Qlt. simpl. intros Hx.
  destruct n; simpl in *; lia.
Qed.

#[export] Instance xq_order : OrderLaws xq.
Proof.
constructor.
- intros [|p|] [|q|] [|r|]; simpl; try congruence.
  rewrite !Qle_bool_iff. apply Qle_trans.
- intros [|p|] [|q|]; unfold nlt, nle; simpl; unfold XQ.lt; simpl; try congruence.
  rewrite xq_lt_fin, Qle_bool_iff. apply Qlt_le_weak.
- intros a b _ _. unfold nlt, nle; simpl. unfold XQ.lt.
  now rewrite negb_false_iff.
- intros [|p|] [|q|]; simpl; intros Hx; split; try reflexivity; try discriminate;
    apply Qle_bool_iff; apply Qle_refl.
- reflexivity.
Qed.

#[export] Instance xq_arith : ArithLaws xq.
Proof.
constructor.
- intros k. unfold nofnat, nle, nadd; simpl. apply Qle_bool_iff.
  rewrite <- inject_Z_plus. rewrite <- Zle_Qle. lia.
- intros [|p|] [|q|]; unfold nlt, nle, nmul; simpl; unfold XQ.lt; simpl; try congruence.
  + intros Hh Ha.
    apply xq_lt_fin in Hh. apply Qle_bool_iff in Ha. apply Qle_bool_iff.
    setoid_replace q with (1 * q) at 1 by ring.
    apply Qmult_le_compat_r; [exact Ha | now apply Qlt_le_weak].
  + intros _ Ha. apply Qle_bool_iff in Ha.
    assert (Hp : 0 < p) by (eapply Qlt_le_trans; [|exact Ha]; reflexivity).
    change (Z.sgn (Qnum p)) with (XQ.sign (XFin p)).
    rewrite (xq_sign_pos Hp). reflexivity.
  + intros Hh _.
    apply xq_lt_fin in Hh.
    change (Z.sgn (Qnum q)) with (XQ.sign (XFin q)).
    rewrite (xq_sign_pos Hh). reflexivity.
- intros [|m|] b c; unfold nlt, nle, nadd, nabs; simpl; unfold XQ.lt; simpl; try discriminate.
  intros _.
  destruct b as [|p|], c as [|q|]; simpl; try congruence.
  rewrite !Qle_bool_iff. intros Hx.
  apply Qplus_le_compat; [apply Qle_refl | exact Hx].
Qed.
End XQLaws.

(* ================================================================== *)
(** * binary64 satisfies the order laws *)

Section FloatOrder.
Local Open Scope Z_scope.

Lemma SFleb_trans (x y z : spec_float) :
  SFleb x y = true -> SFleb y z = true -> SFleb x z = true.
Proof.
unfold SFleb, SFcompare.
destruct x as [[]|[]| |[] m1 e1], y as [[]|[]| |[] m2 e2],
         z as [[]|[]| |[] m3 e3];
  try reflexivity; try discriminate;
  change (Pos.compare_cont Eq) with Pos.compare;
  destruct (Z.compare_spec e1 e2), (Z.compare_spec e2 e3),
           (Z.compare_spec e1 e3);
  try reflexivity; try discriminate; try lia;
  destruct (Pos.compare_spec m1 m2), (Pos.compare_spec m2 m3),
           (Pos.compare_spec m1 m3);
  simpl; try reflexivity; try discriminate; try lia.
Qed.

Lemma SFltb_leb (x y : spec_float) : SFltb x y = true -> SFleb x y = true.
Proof.
unfold SFltb, SFleb. destruct (SFcompare x y) as [[]|]; congruence.
Qed.

Lemma SFleb_total (x y : spec_float) :
  SFleb x x = true -> SFleb y y = true -> SFltb x y = false ->
  SFleb y x = true.
Proof.
unfold SFleb, SFltb, SFcompare.
destruct x as [[]|[]| |[] m1 e1], y as [[]|[]| |[] m2 e2];
  try reflexivity; try discriminate;
  change (Pos.compare_cont Eq) with Pos.compare; intros _ _;
  destruct (Z.compare_spec e1 e2), (Z.compare_spec e2 e1);
  try reflexivity; try discriminate; try lia;
  destruct (Pos.compare_spec m1 m2), (Pos.compare_spec m2 m1);
  simpl; try reflexivity; try discriminate; try lia.
Qed.

Lemma SFleb_numbers (x y : spec_float) :
  SFleb x y = true -> SFleb x x = true /\ SFleb y y = true.
Proof.
unfold SFleb, SFcompare.
destruct x as [[]|[]| |[] m1 e1], y as [[]|[]| |[] m2 e2];
  try discriminate; intros _; split; try reflexivity;
  change (Pos.compare_cont Eq) with Pos.compare;
  rewrite ?Z.compare_refl, ?Pos.compare_refl; reflexivity.
Qed.

#[export] Instance float_order : OrderLaws float.
Proof.
constructor; unfold nle, nlt; cbn [float_number].
- intros a b c. rewrite !FloatAxioms.leb_spec. apply SFleb_trans.
- intros a b. rewrite FloatAxioms.ltb_spec, FloatAxioms.leb_spec. apply SFltb_leb.
- intros a b. rewrite FloatAxioms.ltb_spec, !FloatAxioms.leb_spec. apply SFleb_total.
- intros a b. rewrite !FloatAxioms.leb_spec. apply SFleb_numbers.
- reflexivity.
Qed.

End FloatOrder.

(* ================================================================== *)
(** * binary64 satisfies the arithmetic laws

    Addition and multiplication round the exact result to the nearest
    number, and rounding is monotone.  This is read off the
    specification of the operations ([SFadd], [SFmul]): the shifts of
    [binary_round_aux] divide by a power of two and round to nearest
    even; the rank of the rounded result grows with the exact value. *)

Section FloatRounding.
Local Unset Implicit Arguments.
Local Open Scope Z_scope.

(** ** Shifting to the right *)

Lemma iter_pos_nat (A : Type) (f : A -> A) (p : positive) :
  forall x, iter_pos f p x = Nat.iter (Pos.to_nat p) f x.
Proof.
induction p as [p IH|p IH|]; intros x; cbn [iter_pos].
- rewrite !IH, Pos2Nat.inj_xI.
  replace (S (2 * Pos.to_nat p))%nat
    with (Pos.to_nat p + (Pos.to_nat p + 1))%nat by lia.
  rewrite !Nat.iter_add. reflexivity.
- rewrite !IH, Pos2Nat.inj_xO.
  replace (2 * Pos.to_nat p)%nat with (Pos.to_nat p + Pos.to_nat p)%nat by lia.
  rewrite Nat.iter_add. reflexivity.
- reflexivity.
Qed.

Lemma shr_1_spec (m : Z) (r s : bool) :
  0 <= m ->
  shr_1 (Build_shr_record m r s)
  = Build_shr_record (m / 2) (Z.odd m) (r || s).
Proof.
intros Hm. rewrite <- Z.div2_div.
destruct m as [|[p|p|]|]; try reflexivity. lia.
Qed.

Lemma loc_exact_flags (rec : shr_record) (rem k : Z) :
  loc_of_shr_record rec = loc_of_rem rem k ->
  shr_r rec || shr_s rec = negb (rem =? 0).
Proof.
unfold loc_of_rem. destruct rec as [m [] []]; cbn;
  destruct (rem =? 0); try discriminate; reflexivity.
Qed.

Lemma shr_nat (m : Z) (n : nat) :
  0 <= m ->
  shr_m (Nat.iter n shr_1 (Build_shr_record m false false))
  = m / 2 ^ Z.of_nat n /\
  loc_of_shr_record (Nat.iter n shr_1 (Build_shr_record m false false))
  = loc_of_rem (m mod 2 ^ Z.of_nat n) (Z.of_nat n).
Proof.
intros Hm. induction n as [|n [IHm IHl]].
- unfold Nat.iter. cbn [nat_rect shr_m]. change (2 ^ Z.of_nat 0) with 1.
  rewrite Z.div_1_r, Z.mod_1_r. split; reflexivity.
- rewrite !Nat.iter_succ.
  remember (Nat.iter n shr_1 (Build_shr_record m false false)) as rec eqn:Erec.
  apply loc_exact_flags in IHl as Hflags.
  destruct rec as [q rb sb]. cbn [shr_m shr_r shr_s] in *.
  assert (Hp : 0 < 2 ^ Z.of_nat n) by (apply Z.pow_pos_nonneg; lia).
  assert (Hq : 0 <= q) by (subst q; apply Z.div_pos; lia).
  rewrite shr_1_spec by exact Hq. cbn [shr_m].
  rewrite Nat2Z.inj_succ.
  assert (Hpw : 2 ^ Z.succ (Z.of_nat n) = 2 ^ Z.of_nat n * 2)
    by (rewrite Z.pow_succ_r; lia).
  split.
  + subst q. rewrite Hpw, Z.div_div by lia. reflexivity.
  + rewrite Hflags. unfold loc_of_rem. rewrite Hpw.
    rewrite Z.rem_mul_r by lia. rewrite <- IHm, Zmod_odd.
    pose proof (Z.mod_pos_bound m (2 ^ Z.of_nat n) Hp) as Hrem.
    set (rem := m mod 2 ^ Z.of_nat n) in *.
    set (pw := 2 ^ Z.of_nat n) in *.
    destruct (Z.odd q), (Z.eqb_spec rem 0) as [E0|E0];
      cbn [loc_of_shr_record negb].
    * rewrite E0. destruct (Z.eqb_spec (0 + pw * 1) 0); [exfalso; lia|].
      f_equal. symmetry. apply Z.compare_eq_iff. lia.
    * destruct (Z.eqb_spec (rem + pw * 1) 0); [exfalso; lia|].
      f_equal. symmetry. apply Z.compare_gt_iff. lia.
    * rewrite E0. destruct (Z.eqb_spec (0 + pw * 0) 0); [reflexivity | exfalso; lia].
    * destruct (Z.eqb_spec (rem + pw * 0) 0); [exfalso; lia|].
      f_equal. symmetry. apply Z.compare_lt_iff. lia.
Qed.

Lemma round_of_rem (q rem k : Z) :
  0 <= k ->
  round_nearest_even q (loc_of_rem rem k)
  = match 2 * rem ?= 2 ^ k with
    | Lt => q
    | Eq => if Z.even q then q else q + 1
    | Gt => q + 1
    end.
Proof.
intros Hk. unfold loc_of_rem.
destruct (Z.eqb_spec rem 0) as [->|Hne]; cbn [round_nearest_even].
- assert (H : 2 * 0 < 2 ^ k) by (apply Z.pow_pos_nonneg; lia).
  apply Z.compare_lt_iff in H. rewrite H. reflexivity.
- destruct (2 * rem ?= 2 ^ k); reflexivity.
Qed.

(** ** Rounding to nearest *)

Lemma rne_zero_shift (N : Z) : rne N 0 = N.
Proof.
unfold rne. change (2 ^ 0) with 1. rewrite Z.div_1_r, Z.mod_1_r. reflexivity.
Qed.

Lemma rne_between (N k : Z) :
  N / 2 ^ k <= rne N k <= N / 2 ^ k + 1.
Proof.
unfold rne. destruct (2 * (N mod 2 ^ k) ?= 2 ^ k); [|lia|lia].
destruct (Z.even (N / 2 ^ k)); lia.
Qed.

Lemma rne_mono (N1 N2 k : Z) :
  0 <= k -> N1 <= N2 -> rne N1 k <= rne N2 k.
Proof.
intros Hk Hle.
assert (Hp : 0 < 2 ^ k) by (apply Z.pow_pos_nonneg; lia).
pose proof (Z.div_le_mono N1 N2 (2 ^ k) Hp Hle) as Hq.
destruct (Z.eq_dec (N1 / 2 ^ k) (N2 / 2 ^ k)) as [Heq|Hne].
- pose proof (Z.div_mod N1 (2 ^ k) ltac:(lia)) as H1.
  pose proof (Z.div_mod N2 (2 ^ k) ltac:(lia)) as H2.
  assert (Hrem : N1 mod 2 ^ k <= N2 mod 2 ^ k) by (rewrite Heq in H1; lia).
  unfold rne. rewrite Heq.
  destruct (Z.compare_spec (2 * (N1 mod 2 ^ k)) (2 ^ k)),
           (Z.compare_spec (2 * (N2 mod 2 ^ k)) (2 ^ k));
    try lia; destruct (Z.even (N2 / 2 ^ k)); lia.
- pose proof (rne_between N1 k). pose proof (rne_between N2 k). lia.
Qed.

Lemma rne_exact (M k : Z) : 0 <= k -> rne (M * 2 ^ k) k = M.
Proof.
intros Hk.
assert (Hp : 0 < 2 ^ k) by (apply Z.pow_pos_nonneg; lia).
unfold rne. rewrite Z.div_mul, Z.mod_mul by lia.
apply Z.compare_lt_iff in Hp. cbn [Z.mul]. rewrite Hp. reflexivity.
Qed.

Lemma rne_scale (N k j : Z) :
  0 <= k -> 0 <= j -> rne (N * 2 ^ j) (k + j) = rne N k.
Proof.
intros Hk Hj.
assert (Hpk : 0 < 2 ^ k) by (apply Z.pow_pos_nonneg; lia).
assert (Hpj : 0 < 2 ^ j) by (apply Z.pow_pos_nonneg; lia).
unfold rne. rewrite Z.pow_add_r by lia.
rewrite Z.div_mul_cancel_r by lia.
rewrite Zmult_mod_distr_r.
replace (2 * (N mod 2 ^ k * 2 ^ j)) with (2 * (N mod 2 ^ k) * 2 ^ j) by lia.
rewrite <- Zmult_compare_compat_r by lia. reflexivity.
Qed.

Lemma rne_below (N k p : Z) :
  0 <= k -> 0 <= p -> N < 2 ^ (k + p) -> rne N k <= 2 ^ p.
Proof.
intros Hk Hp Hlt.
assert (Hpk : 0 < 2 ^ k) by (apply Z.pow_pos_nonneg; lia).
pose proof (rne_between N k) as Hb.
assert (N / 2 ^ k < 2 ^ p); [|lia].
apply Z.div_lt_upper_bound; [lia|].
rewrite <- Z.pow_add_r by lia. exact Hlt.
Qed.

Lemma rne_above (N k p : Z) :
  0 <= k -> 0 <= p -> 2 ^ (k + p) <= N -> 2 ^ p <= rne N k.
Proof.
intros Hk Hp Hle.
assert (Hpk : 0 < 2 ^ k) by (apply Z.pow_pos_nonneg; lia).
pose proof (rne_between N k) as Hb.
assert (2 ^ p <= N / 2 ^ k); [|lia].
apply Z.div_le_lower_bound; [lia|].
rewrite <- Z.pow_add_r by lia. exact Hle.
Qed.

Lemma rne_nonneg (N k : Z) : 0 <= k -> 0 <= N -> 0 <= rne N k.
Proof.
intros Hk HN.
assert (Hpk : 0 < 2 ^ k) by (apply Z.pow_pos_nonneg; lia).
pose proof (rne_between N k) as Hb.
pose proof (Z.div_pos N (2 ^ k) HN Hpk). lia.
Qed.

(** ** Binary digits *)

Lemma digits2_size (m : positive) : digits2_pos m = Pos.size m.
Proof. induction m as [m IH|m IH|]; cbn; rewrite ?IH; reflexivity. Qed.

(** The number of binary digits of a positive number. *)
Lemma digits_bounds (m : positive) :
  2 ^ (Zpos (digits2_pos m) - 1) <= Zpos m < 2 ^ Zpos (digits2_pos m).
Proof.
rewrite digits2_size. split.
- pose proof (Pos.size_le m) as H.
  apply Pos2Z.pos_le_pos in H. rewrite Pos2Z.inj_pow in H.
  replace (Zpos (Pos.size m)) with (Z.succ (Zpos (Pos.size m) - 1)) in H by lia.
  rewrite Z.pow_succ_r in H by lia. change (Zpos m~0) with (2 * Zpos m) in H.
  lia.
- pose proof (Pos.size_gt m) as H.
  apply Pos2Z.pos_lt_pos in H. rewrite Pos2Z.inj_pow in H. exact H.
Qed.

Lemma digits_unique (m : positive) (d : Z) :
  2 ^ (d - 1) <= Zpos m < 2 ^ d -> Zpos (digits2_pos m) = d.
Proof.
intros [Hlo Hhi]. pose proof (digits_bounds m) as [Blo Bhi].
assert (Hd : 0 < d).
{ destruct (Z.le_gt_cases d 0) as [H|H]; [|exact H].
  assert (2 ^ d <= 2 ^ 0) by (apply Z.pow_le_mono_r; lia).
  change (2 ^ 0) with 1 in *. lia. }
assert (H1 : Zpos (digits2_pos m) - 1 < d).
{ apply (Z.pow_lt_mono_r_iff 2); lia. }
assert (H2 : d - 1 < Zpos (digits2_pos m)).
{ apply (Z.pow_lt_mono_r_iff 2); lia. }
lia.
Qed.

Lemma digits_mono (m1 m2 : positive) :
  Zpos m1 <= Zpos m2 -> Zpos (digits2_pos m1) <= Zpos (digits2_pos m2).
Proof.
intros Hle. pose proof (digits_bounds m1) as [B1 _].
pose proof (digits_bounds m2) as [_ B2].
assert (Zpos (digits2_pos m1) - 1 < Zpos (digits2_pos m2)); [|lia].
apply (Z.pow_lt_mono_r_iff 2); lia.
Qed.

Lemma iter_xO (m d : positive) :
  Zpos (Pos.iter xO m d) = Zpos m * 2 ^ Zpos d.
Proof.
rewrite Pos2Nat.inj_iter, <- (positive_nat_Z d).
induction (Pos.to_nat d) as [|n IH].
- unfold Nat.iter. cbn [nat_rect]. change (2 ^ Z.of_nat 0) with 1. lia.
- unfold Nat.iter in *. cbn [nat_rect].
  rewrite Nat2Z.inj_succ, Z.pow_succ_r by lia.
  rewrite Pos2Z.inj_xO, IH. lia.
Qed.

(** ** What [binary_round] computes *)

Lemma fexp_eq (x : Z) : fexp prec emax x = Z.max (x - 53) (-1074).
Proof. reflexivity. Qed.

Lemma shr_exact (m : Z) (e n : Z) :
  0 <= m -> 0 <= n ->
  exists rec,
    shr (Build_shr_record m false false) e n = (rec, e + n) /\
    round_nearest_even (shr_m rec) (loc_of_shr_record rec) = rne m n.
Proof.
intros Hm Hn. destruct n as [|p|p]; [| |lia].
- eexists. split; [cbn [shr]; rewrite Z.add_0_r; reflexivity|].
  cbn. symmetry. apply rne_zero_shift.
- eexists. split; [reflexivity|].
  rewrite iter_pos_nat.
  destruct (shr_nat m (Pos.to_nat p) Hm) as [Hq Hl].
  rewrite positive_nat_Z in Hq, Hl. rewrite Hq, Hl.
  apply round_of_rem. lia.
Qed.

Lemma shr_none (rec : shr_record) (e n : Z) : n <= 0 -> shr rec e n = (rec, e).
Proof. intros Hn. destruct n; [reflexivity | lia | reflexivity]. Qed.

Lemma second_stage (s : bool) (r E : Z) :
  0 <= r <= 2 ^ 53 -> -1074 <= E ->
  (let '(mrs, e) := shr_fexp prec emax r E loc_Exact in
   match shr_m mrs with
   | Z0 => S754_zero s
   | Zpos m =>
       if e <=? emax - prec then S754_finite s m e else S754_infinity s
   | Zneg _ => S754_nan
   end)
  = pack s r E.
Proof.
intros [Hr0 Hr1] HE. unfold shr_fexp. rewrite fexp_eq.
cbn [shr_record_of_loc].
change (emax - prec) with 971.
destruct r as [|m|m]; [| |lia].
- cbn [Zdigits2]. rewrite shr_none by lia. reflexivity.
- cbn [Zdigits2]. unfold pack.
  destruct (Z.ltb_spec (Zpos m) (2 ^ 53)) as [Hlt|Hge].
  + pose proof (digits_bounds m) as [Blo _].
    assert (Hd : Zpos (digits2_pos m) - 1 < 53).
    { apply (Z.pow_lt_mono_r_iff 2); lia. }
    rewrite shr_none by lia. reflexivity.
  + assert (Hm : Zpos m = 2 ^ 53) by lia.
    injection Hm as ->.
    match goal with |- context [digits2_pos ?x] =>
      let v := eval vm_compute in (digits2_pos x) in
      change (digits2_pos x) with v
    end.
    replace (Z.max (54 + E - 53) (-1074) - E) with 1 by lia.
    reflexivity.
Qed.

(** [binary_round_aux] on an exact mantissa that needs no shift to the
    left. *)
Lemma binary_round_aux_spec (s : bool) (m : positive) (e : Z) :
  let E := Z.max (Zpos (digits2_pos m) + e - 53) (-1074) in
  e <= E ->
  binary_round_aux prec emax s (Zpos m) e loc_Exact
  = pack s (rne (Zpos m) (E - e)) E.
Proof.
intros E HE. unfold binary_round_aux.
unfold shr_fexp at 1. rewrite fexp_eq. cbn [shr_record_of_loc Zdigits2].
fold E.
destruct (shr_exact (Zpos m) e (E - e) ltac:(lia) ltac:(lia))
  as (rec & -> & ->).
replace (e + (E - e)) with E by lia.
apply second_stage; [|subst E; lia].
pose proof (digits_bounds m) as [_ Bhi].
split; [apply rne_nonneg; lia|].
apply rne_below; [lia | lia |].
eapply Z.lt_le_trans; [exact Bhi|].
apply Z.pow_le_mono_r; subst E; lia.
Qed.

Lemma digits_scale (m : positive) (j : Z) :
  0 <= j -> Zdigits2 (Zpos m * 2 ^ j) = Zpos (digits2_pos m) + j.
Proof.
intros Hj.
assert (Hp : 0 < 2 ^ j) by (apply Z.pow_pos_nonneg; lia).
pose proof (digits_bounds m) as [Blo Bhi].
destruct (Zpos m * 2 ^ j) as [|p|p] eqn:Ep; [lia| |lia].
cbn [Zdigits2]. apply digits_unique. rewrite <- Ep.
replace (Zpos (digits2_pos m) + j - 1) with (Zpos (digits2_pos m) - 1 + j) by lia.
rewrite !Z.pow_add_r by lia. split.
- apply Z.mul_le_mono_nonneg_r; lia.
- apply Z.mul_lt_mono_pos_r; lia.
Qed.

Lemma binary_round_aux_at (s : bool) (m : positive) (e u : Z) :
  u <= e -> e <= Z.max (Zpos (digits2_pos m) + e - 53) (-1074) ->
  binary_round_aux prec emax s (Zpos m) e loc_Exact
  = round_at s u (Zpos m * 2 ^ (e - u)).
Proof.
intros Hu HE. rewrite binary_round_aux_spec by exact HE.
unfold round_at. rewrite digits_scale by lia.
replace (Zpos (digits2_pos m) + (e - u) + u - 53)
  with (Zpos (digits2_pos m) + e - 53) by lia.
set (E := Z.max (Zpos (digits2_pos m) + e - 53) (-1074)) in *.
replace (E - u) with (E - e + (e - u)) by lia.
rewrite rne_scale by lia. reflexivity.
Qed.

Lemma binary_round_at (s : bool) (m : positive) (e u : Z) :
  u <= e -> u <= -1074 ->
  binary_round prec emax s m e = round_at s u (Zpos m * 2 ^ (e - u)).
Proof.
intros Hu Hmin. unfold binary_round, shl_align. rewrite fexp_eq.
set (E := Z.max (Zpos (digits2_pos m) + e - 53) (-1074)).
destruct (E - e) as [|d|d] eqn:Ed.
- apply binary_round_aux_at; [exact Hu | fold E; lia].
- apply binary_round_aux_at; [exact Hu | fold E; lia].
- assert (Hm : Zpos (Pos.iter xO m d) = Zpos m * 2 ^ (e - E)).
  { rewrite iter_xO. f_equal. f_equal. lia. }
  assert (Hd : Zpos (digits2_pos (Pos.iter xO m d))
               = Zpos (digits2_pos m) + (e - E)).
  { rewrite <- digits_scale by lia. rewrite <- Hm. reflexivity. }
  rewrite (binary_round_aux_at s (Pos.iter xO m d) E u);
    [|subst E; lia | rewrite Hd; subst E; lia].
  f_equal. rewrite Hm, <- Z.mul_assoc, <- Z.pow_add_r by (subst E; lia).
  f_equal. f_equal. lia.
Qed.

(** ** Ranks *)

Lemma valid_proper (x : spec_float) :
  valid_binary x = true -> x <> S754_nan -> proper x.
Proof.
destruct x as [s|s| |s m e]; cbn [proper]; try tauto.
intros Hv _. unfold valid_binary, SpecFloat.valid_binary, bounded,
  canonical_mantissa in Hv.
rewrite fexp_eq in Hv. change (emax - prec) with 971 in Hv.
apply andb_true_iff in Hv. destruct Hv as [Hc Hb].
apply Z.eqb_eq in Hc. apply Z.leb_le in Hb.
pose proof (digits_bounds m) as [Blo Bhi].
split; [lia|]. split.
- eapply Z.lt_le_trans; [exact Bhi|]. apply Z.pow_le_mono_r; lia.
- intros He. eapply Z.le_trans; [|exact Blo]. apply Z.pow_le_mono_r; lia.
Qed.

Lemma proper_leb (x y : spec_float) :
  proper x -> proper y -> (SFleb x y = true <-> rank x <= rank y).
Proof.
unfold SFleb, SFcompare.
destruct x as [[]|[]| |[] m1 e1], y as [[]|[]| |[] m2 e2];
  cbn [proper rank cond_Zopp]; intros Hx Hy;
  try contradiction;
  change (Pos.compare_cont Eq) with Pos.compare;
  try (destruct (Z.compare_spec e1 e2) as [He|He|He],
                (Pos.compare_spec m1 m2) as [Hm|Hm|Hm]);
  cbn [CompOpp];
  (split; intros Hg;
   [try discriminate Hg; lia
   | first [reflexivity | exfalso; try (injection Hm as Hm); lia]]).
Qed.

Lemma rank_pack (s : bool) (r E : Z) :
  0 <= r <= 2 ^ 53 -> -1074 <= E -> (-1074 < E -> 2 ^ 52 <= r) ->
  proper (pack s r E) /\
  rank (pack s r E)
  = cond_Zopp s (Z.min (2047 * 2 ^ 52) ((E + 1074) * 2 ^ 52 + r)).
Proof.
intros Hr HE Hn. unfold pack.
destruct r as [|m|m]; [| |lia].
- assert (E = -1074) by lia. subst E. split; [exact I|].
  destruct s; reflexivity.
- destruct (Z.ltb_spec (Zpos m) (2 ^ 53)) as [Hlt|Hge].
  + destruct (Z.leb_spec E 971).
    * split; [cbn [proper]; lia|]. cbn [rank]. f_equal. lia.
    * split; [exact I|]. cbn [rank]. f_equal. lia.
  + destruct (Z.leb_spec (E + 1) 971).
    * split; [cbn [proper]; lia|]. cbn [rank]. f_equal. lia.
    * split; [exact I|]. cbn [rank]. f_equal. lia.
Qed.

Lemma rounded_mantissa (u : Z) (p : positive) :
  u <= -1074 ->
  let E := Z.max (Zpos (digits2_pos p) + u - 53) (-1074) in
  0 <= rne (Zpos p) (E - u) <= 2 ^ 53 /\
  (-1074 < E -> 2 ^ 52 <= rne (Zpos p) (E - u)).
Proof.
intros Hu E. pose proof (digits_bounds p) as [Blo Bhi].
split; [split|].
- apply rne_nonneg; lia.
- apply rne_below; [lia | lia |].
  eapply Z.lt_le_trans; [exact Bhi|]. apply Z.pow_le_mono_r; lia.
- intros HE. apply rne_above; [lia | lia |].
  eapply Z.le_trans; [|exact Blo]. apply Z.pow_le_mono_r; lia.
Qed.

Lemma round_at_rank (s : bool) (u : Z) (p : positive) :
  u <= -1074 ->
  proper (round_at s u (Zpos p)) /\
  rank (round_at s u (Zpos p))
  = cond_Zopp s (Z.min (2047 * 2 ^ 52) (rounded_rank u (Zpos p))).
Proof.
intros Hu. unfold round_at, rounded_rank. cbn [Zdigits2].
destruct (rounded_mantissa u p Hu) as [Hr Hn].
apply rank_pack; [exact Hr | lia | exact Hn].
Qed.

Lemma rounded_rank_mono (u : Z) (p1 p2 : positive) :
  u <= -1074 -> Zpos p1 <= Zpos p2 ->
  rounded_rank u (Zpos p1) <= rounded_rank u (Zpos p2).
Proof.
intros Hu Hle. unfold rounded_rank. cbn [Zdigits2].
pose proof (digits_mono p1 p2 Hle) as Hd.
destruct (rounded_mantissa u p1 Hu) as [Hr1 Hn1].
destruct (rounded_mantissa u p2 Hu) as [Hr2 Hn2].
set (E1 := Z.max (Zpos (digits2_pos p1) + u - 53) (-1074)) in *.
set (E2 := Z.max (Zpos (digits2_pos p2) + u - 53) (-1074)) in *.
destruct (Z.eq_dec E1 E2) as [Heq|Hne].
- rewrite Heq.
  pose proof (rne_mono (Zpos p1) (Zpos p2) (E2 - u) ltac:(lia) Hle). lia.
- assert (HE : E1 + 1 <= E2) by lia.
  specialize (Hn2 ltac:(lia)). lia.
Qed.

Lemma rounded_rank_nonneg (u : Z) (p : positive) :
  u <= -1074 -> 0 <= rounded_rank u (Zpos p).
Proof.
intros Hu. unfold rounded_rank. cbn [Zdigits2].
destruct (rounded_mantissa u p Hu) as [Hr _]. lia.
Qed.

Lemma signed_rank_mono (u N1 N2 : Z) :
  u <= -1074 -> N1 <= N2 -> signed_rank u N1 <= signed_rank u N2.
Proof.
intros Hu Hle. unfold signed_rank.
destruct N1 as [|p1|p1], N2 as [|p2|p2]; try lia;
  try (pose proof (rounded_rank_nonneg u p1 Hu));
  try (pose proof (rounded_rank_nonneg u p2 Hu)); try lia.
- pose proof (rounded_rank_mono u p1 p2 Hu Hle). lia.
- pose proof (rounded_rank_mono u p2 p1 Hu ltac:(lia)). lia.
Qed.

(** The rank of an integer times a power of two, normalized. *)
Lemma binary_normalize_rank (M e u : Z) (sz : bool) :
  u <= e -> u <= -1074 ->
  proper (binary_normalize prec emax M e sz) /\
  rank (binary_normalize prec emax M e sz) = signed_rank u (M * 2 ^ (e - u)).
Proof.
intros Hu Hmin.
assert (Hp : 0 < 2 ^ (e - u)) by (apply Z.pow_pos_nonneg; lia).
destruct M as [|m|m]; cbn [binary_normalize].
- split; [exact I | reflexivity].
- rewrite (binary_round_at false m e u Hu Hmin).
  destruct (Zpos m * 2 ^ (e - u)) as [|p|p] eqn:Ep; [lia| |lia].
  exact (round_at_rank false u p Hmin).
- rewrite (binary_round_at true m e u Hu Hmin).
  assert (Hneg : Zneg m * 2 ^ (e - u) = - (Zpos m * 2 ^ (e - u))) by lia.
  rewrite Hneg.
  destruct (Zpos m * 2 ^ (e - u)) as [|p|p] eqn:Ep; [lia| |lia].
  exact (round_at_rank true u p Hmin).
Qed.

(** ** Sums and products *)

Lemma signed_rank_bounds (u N : Z) :
  u <= -1074 -> - (2047 * 2 ^ 52) <= signed_rank u N <= 2047 * 2 ^ 52.
Proof.
intros Hu. unfold signed_rank. destruct N as [|p|p]; [lia| |];
  pose proof (rounded_rank_nonneg u p Hu); lia.
Qed.

Lemma proper_digits (s : bool) (m : positive) (e : Z) :
  proper (S754_finite s m e) ->
  Z.max (Zpos (digits2_pos m) + e - 53) (-1074) = e.
Proof.
cbn [proper]. intros (He & Hhi & Hlo).
pose proof (digits_bounds m) as [Blo Bhi].
assert (Hd : Zpos (digits2_pos m) <= 53).
{ assert (Zpos (digits2_pos m) - 1 < 53); [|lia].
  apply (Z.pow_lt_mono_r_iff 2); lia. }
destruct (Z.eq_dec e (-1074)) as [->|Hne]; [lia|].
assert (Hd' : 52 < Zpos (digits2_pos m)).
{ apply (Z.pow_lt_mono_r_iff 2); lia. }
lia.
Qed.

(** A binary64 number is its own value rounded. *)
Lemma rank_units (u : Z) (x : spec_float) :
  proper x -> finite_or_zero x = true -> u <= -1074 ->
  rank x = signed_rank u (units u x).
Proof.
intros Hx Hf Hu. destruct x as [s|s| |s m e]; try discriminate; [reflexivity|].
pose proof (proper_digits s m e Hx) as HE.
cbn [proper] in Hx. destruct Hx as (He & Hhi & Hlo).
cbn [units rank].
assert (Hp : 0 < 2 ^ (e - u)) by (apply Z.pow_pos_nonneg; lia).
assert (Hr : rounded_rank u (Zpos m * 2 ^ (e - u))
             = (e + 1074) * 2 ^ 52 + Zpos m).
{ unfold rounded_rank. rewrite digits_scale by lia.
  replace (Zpos (digits2_pos m) + (e - u) + u - 53)
    with (Zpos (digits2_pos m) + e - 53) by lia.
  rewrite HE, rne_exact by lia. reflexivity. }
destruct (Zpos m * 2 ^ (e - u)) as [|p|p] eqn:Ep; [lia| |lia].
destruct s; cbn [cond_Zopp Z.opp signed_rank]; rewrite Hr; lia.
Qed.

Lemma rank_finite_bounds (x : spec_float) :
  proper x -> finite_or_zero x = true ->
  - (2047 * 2 ^ 52) < rank x < 2047 * 2 ^ 52.
Proof.
destruct x as [s|s| |s m e]; try discriminate; cbn [proper rank].
- lia.
- intros (He & Hhi & Hlo) _. destruct s; cbn [cond_Zopp]; lia.
Qed.

Lemma rank_units_eq (u : Z) (x y : spec_float) :
  proper x -> proper y ->
  finite_or_zero x = true -> finite_or_zero y = true ->
  rank x = rank y -> units u x = units u y.
Proof.
destruct x as [sx|sx| |sx mx ex], y as [sy|sy| |sy my ey]; try discriminate;
  cbn [proper rank units]; intros Hx Hy _ _ Hr.
- reflexivity.
- exfalso. destruct sy; cbn [cond_Zopp] in Hr; lia.
- exfalso. destruct sx; cbn [cond_Zopp] in Hr; lia.
- assert (sx = sy /\ ex = ey /\ Zpos mx = Zpos my) as (-> & -> & Hm).
  { destruct sx, sy; cbn [cond_Zopp] in Hr;
      (split; [reflexivity || (exfalso; lia)|]); lia. }
  rewrite Hm. reflexivity.
Qed.

(** The order of two finite numbers is the order of their values. *)
Lemma units_mono (u : Z) (x y : spec_float) :
  proper x -> proper y ->
  finite_or_zero x = true -> finite_or_zero y = true ->
  u <= -1074 -> SFleb x y = true -> units u x <= units u y.
Proof.
intros Hx Hy Fx Fy Hu Hle.
apply (proper_leb x y Hx Hy) in Hle.
destruct (Z.le_gt_cases (units u x) (units u y)) as [H|H]; [exact H|].
pose proof (signed_rank_mono u (units u y) (units u x) Hu ltac:(lia)) as Hr.
rewrite <- !rank_units in Hr by assumption.
rewrite (rank_units_eq u x y Hx Hy Fx Fy ltac:(lia)). lia.
Qed.

Lemma shl_align_fst (m : positive) (e ez : Z) :
  ez <= e -> Zpos (fst (shl_align m e ez)) = Zpos m * 2 ^ (e - ez).
Proof.
intros Hle. unfold shl_align.
destruct (ez - e) as [|d|d] eqn:Ed; cbn [fst]; [|lia|].
- replace (e - ez) with 0 by lia. lia.
- rewrite iter_xO. f_equal. f_equal. lia.
Qed.

Lemma cond_Zopp_mul (s : bool) (a c : Z) :
  cond_Zopp s a * c = cond_Zopp s (a * c).
Proof. destruct s; cbn [cond_Zopp]; lia. Qed.

(** The sum of two finite numbers is the sum of their values, rounded. *)
Lemma SFadd_rank (x y : spec_float) :
  proper x -> proper y ->
  finite_or_zero x = true -> finite_or_zero y = true ->
  proper (SFadd prec emax x y) /\
  rank (SFadd prec emax x y)
  = signed_rank (-1074) (units (-1074) x + units (-1074) y).
Proof.
intros Hx Hy Fx Fy.
destruct x as [sx|sx| |sx mx ex], y as [sy|sy| |sy my ey]; try discriminate.
- split; [destruct sx, sy; exact I | destruct sx, sy; reflexivity].
- cbn [SFadd]. split; [exact Hy|].
  rewrite (rank_units (-1074) _ Hy Fy ltac:(lia)). reflexivity.
- cbn [SFadd]. split; [exact Hx|].
  rewrite (rank_units (-1074) _ Hx Fx ltac:(lia)). cbn [units].
  rewrite Z.add_0_r. reflexivity.
- cbn [SFadd units].
  assert (Hex : -1074 <= ex) by (cbn [proper] in Hx; lia).
  assert (Hey : -1074 <= ey) by (cbn [proper] in Hy; lia).
  set (ez := Z.min ex ey).
  destruct (binary_normalize_rank
              (cond_Zopp sx (Zpos (fst (shl_align mx ex ez)))
               + cond_Zopp sy (Zpos (fst (shl_align my ey ez))))
              ez (-1074) false ltac:(subst ez; lia) ltac:(lia)) as [Hp Hr].
  split; [exact Hp|]. rewrite Hr. f_equal.
  rewrite Z.mul_add_distr_r, !cond_Zopp_mul.
  rewrite !shl_align_fst by (subst ez; lia).
  rewrite <- !Z.mul_assoc, <- !Z.pow_add_r by (subst ez; lia).
  f_equal; f_equal; f_equal; f_equal; lia.
Qed.

Lemma SFleb_proper (x y : spec_float) :
  valid_binary x = true -> valid_binary y = true ->
  SFleb x y = true -> proper x /\ proper y.
Proof.
intros Vx Vy Hle. split; apply valid_proper; try assumption;
  intros ->; [discriminate Hle | destruct x; discriminate Hle].
Qed.

Lemma finite_below_infinity (m : spec_float) :
  SFltb (SFabs m) (S754_infinity false) = true -> finite_or_zero m = true.
Proof. destruct m as [s|[]| |s mm e]; try discriminate; reflexivity. Qed.

(** The sum of a finite number and any number but NaN. *)
Lemma SFadd_finite_rank (m y : spec_float) :
  proper m -> proper y -> finite_or_zero m = true ->
  proper (SFadd prec emax m y) /\
  rank (SFadd prec emax m y)
  = if finite_or_zero y
    then signed_rank (-1074) (units (-1074) m + units (-1074) y)
    else rank y.
Proof.
intros Hm Hy Fm. destruct (finite_or_zero y) eqn:Fy.
- apply SFadd_rank; assumption.
- destruct m as [sm|sm| |sm mm em], y as [sy|sy| |sy my ey]; try discriminate;
    try contradiction; split; try exact I; reflexivity.
Qed.

(** Addition of a finite number is monotone. *)
Lemma SFadd_mono (m b c : spec_float) :
  valid_binary m = true -> valid_binary b = true -> valid_binary c = true ->
  SFltb (SFabs m) (S754_infinity false) = true ->
  SFleb b c = true ->
  SFleb (SFadd prec emax m b) (SFadd prec emax m c) = true.
Proof.
intros Vm Vb Vc Hfin Hle.
pose proof (finite_below_infinity m Hfin) as Fm.
assert (Hm : proper m)
  by (apply valid_proper; [exact Vm | intros ->; discriminate]).
destruct (SFleb_proper b c Vb Vc Hle) as [Hb Hc].
destruct (SFadd_finite_rank m b Hm Hb Fm) as [Pb Rb].
destruct (SFadd_finite_rank m c Hm Hc Fm) as [Pc Rc].
apply (proper_leb _ _ Pb Pc). rewrite Rb, Rc.
pose proof (proj1 (proper_leb b c Hb Hc) Hle) as Hr.
pose proof (signed_rank_bounds (-1074)
              (units (-1074) m + units (-1074) b) ltac:(lia)) as Bb.
pose proof (signed_rank_bounds (-1074)
              (units (-1074) m + units (-1074) c) ltac:(lia)) as Bc.
destruct (finite_or_zero b) eqn:Fb, (finite_or_zero c) eqn:Fc.
- apply signed_rank_mono; [lia|].
  pose proof (units_mono (-1074) b c Hb Hc Fb Fc ltac:(lia) Hle). lia.
- pose proof (rank_finite_bounds b Hb Fb).
  destruct c as [s|[]| |s mc ec]; try discriminate; try contradiction;
    cbn [rank cond_Zopp] in *; lia.
- pose proof (rank_finite_bounds c Hc Fc).
  destruct b as [s|[]| |s mb eb]; try discriminate; try contradiction;
    cbn [rank cond_Zopp] in *; lia.
- exact Hr.
Qed.

(** The rank of a number that is at least one. *)
Lemma at_least_one (a : spec_float) :
  proper a ->
  SFleb (S754_finite false (2 ^ 52)%positive (-52)) a = true ->
  a = S754_infinity false \/
  exists m e, a = S754_finite false m e /\ -52 <= e /\ 2 ^ 52 <= Zpos m.
Proof.
intros Ha Hle.
destruct a as [s|[]| |[] m e]; try discriminate; try contradiction;
  [left; reflexivity|].
right. exists m, e. split; [reflexivity|].
cbn [proper] in Ha. unfold SFleb, SFcompare in Hle.
destruct (Z.compare_spec (-52) e); [| |discriminate]; lia.
Qed.

Lemma above_zero (h : spec_float) :
  SFltb (S754_zero false) h = true ->
  h = S754_infinity false \/ exists m e, h = S754_finite false m e.
Proof.
destruct h as [s|[]| |[] m e]; try discriminate;
  [left; reflexivity | right; eauto].
Qed.

(** A number above zero does not decrease when it is multiplied by a
    number that is at least one. *)
Lemma SFmul_ge (a h : spec_float) :
  valid_binary a = true -> valid_binary h = true ->
  SFltb (S754_zero false) h = true ->
  SFleb (S754_finite false (2 ^ 52)%positive (-52)) a = true ->
  SFleb h (SFmul prec emax a h) = true.
Proof.
intros Va Vh Hpos Hone.
assert (Ha : proper a)
  by (apply valid_proper; [exact Va | intros ->; discriminate]).
assert (Hh : proper h)
  by (apply valid_proper; [exact Vh | intros ->; discriminate]).
destruct (at_least_one a Ha Hone) as [->|(ma & ea & -> & Hea & Hma)];
  destruct (above_zero h Hpos) as [->|(mh & eh & ->)]; try reflexivity.
cbn [SFmul xorb].
pose proof Hh as Hh'. cbn [proper] in Ha, Hh'.
set (u := Z.min (-1074) (ea + eh)).
assert (Hprod : 2 ^ 52 <= Zpos (ma * mh)).
{ rewrite Pos2Z.inj_mul. nia. }
assert (Hdig : 52 < Zpos (digits2_pos (ma * mh))).
{ pose proof (digits_bounds (ma * mh)) as [_ Bhi].
  apply (Z.pow_lt_mono_r_iff 2); lia. }
rewrite (binary_round_aux_at false (ma * mh) (ea + eh) u)
  by (subst u; lia).
assert (Hp : 0 < 2 ^ (ea + eh - u)) by (apply Z.pow_pos_nonneg; subst u; lia).
destruct (Zpos (ma * mh) * 2 ^ (ea + eh - u)) as [|p|p] eqn:Ep; [lia| |lia].
destruct (round_at_rank false u p ltac:(subst u; lia)) as [Pp Rp].
apply (proper_leb _ _ Hh Pp). rewrite Rp.
rewrite (rank_units u (S754_finite false mh eh) Hh eq_refl)
  by (subst u; lia).
cbn [units cond_Zopp].
assert (Hq : 0 < 2 ^ (eh - u)) by (apply Z.pow_pos_nonneg; subst u; lia).
destruct (Zpos mh * 2 ^ (eh - u)) as [|q|q] eqn:Eq; [lia| |lia].
cbn [signed_rank cond_Zopp].
apply Z.min_le_compat_l, rounded_rank_mono; [subst u; lia|].
rewrite <- Ep, <- Eq, Pos2Z.inj_mul.
destruct (Z.le_gt_cases 0 ea) as [Hnn|Hneg].
- replace (ea + eh - u) with (ea + (eh - u)) by lia.
  rewrite Z.pow_add_r by (subst u; lia).
  assert (0 < 2 ^ ea) by (apply Z.pow_pos_nonneg; lia).
  nia.
- replace (eh - u) with (- ea + (ea + eh - u)) by lia.
  rewrite Z.pow_add_r by (subst u; lia).
  assert (2 ^ (- ea) <= 2 ^ 52) by (apply Z.pow_le_mono_r; lia).
  assert (0 < 2 ^ (- ea)) by (apply Z.pow_pos_nonneg; lia).
  nia.
Qed.

(** Counting up from a count never falls below one. *)
Lemma SFadd_one (i : Z) :
  0 <= i ->
  SFleb (S754_finite false (2 ^ 52)%positive (-52))
        (SFadd prec emax (binary_normalize prec emax i 0 false)
                         (S754_finite false (2 ^ 52)%positive (-52))) = true.
Proof.
intros Hi.
destruct (binary_normalize_rank i 0 (-1074) false ltac:(lia) ltac:(lia))
  as [Px Rx].
pose proof (signed_rank_mono (-1074) 0 (i * 2 ^ (0 - -1074))
              ltac:(lia) ltac:(lia)) as Hr.
rewrite <- Rx in Hr. change (signed_rank (-1074) 0) with 0 in Hr.
set (one := S754_finite false (2 ^ 52)%positive (-52)).
assert (Pone : proper one) by (cbn; lia).
destruct (binary_normalize prec emax i 0 false) as [s|s| |s m e] eqn:Ex.
- reflexivity.
- destruct s; [cbn [rank cond_Zopp] in Hr; lia | reflexivity].
- contradiction.
- assert (Hs : s = false).
  { destruct s; [|reflexivity]. cbn [proper] in Px.
    cbn [rank cond_Zopp] in Hr. lia. }
  subst s.
  destruct (SFadd_rank (S754_finite false m e) one Px Pone eq_refl eq_refl)
    as [Ps Rs].
  apply (proper_leb _ _ Pone Ps). rewrite Rs.
  rewrite (rank_units (-1074) one Pone eq_refl ltac:(lia)).
  apply signed_rank_mono; [lia|].
  assert (0 <= units (-1074) (S754_finite false m e)); [|lia].
  cbn [units cond_Zopp].
  assert (0 < 2 ^ (e - -1074)); [|lia].
  apply Z.pow_pos_nonneg; cbn [proper] in Px; lia.
Qed.

#[export] Instance float_arith : ArithLaws float.
Proof.
constructor.
- intros k. unfold nofnat, nle, nadd, nofZ; cbn [float_number].
  rewrite FloatAxioms.leb_spec, FloatAxioms.add_spec.
  unfold F64.ofZ at 2.
  destruct (Z.ltb_spec (Z.of_nat k) 0) as [Hneg|_]; [lia|].
  rewrite FloatAxioms.of_uint63_spec.
  change (Prim2SF (F64.ofZ 1))
    with (S754_finite false (2 ^ 52)%positive (-52)).
  apply SFadd_one. apply Uint63.to_Z_bounded.
- intros a h. unfold nlt, nle, nmul, nofZ; cbn [float_number].
  rewrite FloatAxioms.ltb_spec, !FloatAxioms.leb_spec, FloatAxioms.mul_spec.
  change (Prim2SF (F64.ofZ 0)) with (S754_zero false).
  change (Prim2SF (F64.ofZ 1))
    with (S754_finite false (2 ^ 52)%positive (-52)).
  apply SFmul_ge; apply FloatAxioms.Prim2SF_valid.
- intros m b c. unfold nlt, nle, nadd, nabs, ninfinity; cbn [float_number].
  rewrite FloatAxioms.ltb_spec, !FloatAxioms.leb_spec, !FloatAxioms.add_spec,
    FloatAxioms.abs_spec.
  change (Prim2SF infinity) with (S754_infinity false).
  apply SFadd_mono; apply FloatAxioms.Prim2SF_valid.
Qed.
End FloatRounding.

(* ================================================================== *)
(** * Planar slicer *)

Section SliceFacts.
Variable num : Type.
Context {NUM : JSNumber num}.
Local Open Scope num_scope.

(** The layers kept are the loop indices whose plane cuts the mesh, in
    order. *)
Lemma slice_layers_kept (s : STLSlicer num) (m : list (triangle num))
    (bbox : boundingBox num) (ks : list nat) :
  flat_map (slice_layer s m bbox) ks
  = map (fun k => {| layerNum := k;
                     layer_z := sliceHeight s bbox k;
                     segments := sliceAtZ m (sliceHeight s bbox k) |})
        (filter (cuts s m bbox) ks).
Proof.
induction ks as [|k ks IH]; simpl; [reflexivity|].
unfold slice_layer at 1, cuts at 1.
destruct (sliceAtZ m (sliceHeight s bbox k)) eqn:E; simpl.
- exact IH.
- rewrite <- E, IH. reflexivity.
Qed.

Lemma sliceMesh_returns (s : STLSlicer num) (m : list (triangle num))
    (bbox : boundingBox num) (n : nat) :
  mesh s = Some m ->
  getBoundingBox s = Some bbox ->
  ncount_lt (numLayers s bbox) = Some n ->
  sliceMesh s = Ret (Some (flat_map (slice_layer s m bbox) (seq 0 n))).
Proof.
intros Hm Hb Hn. unfold sliceMesh. rewrite Hm, Hb, Hn. reflexivity.
Qed.

Lemma nonempty_mesh_has_box (s : STLSlicer num) (m : list (triangle num)) :
  mesh s = Some m -> m <> [] -> exists bbox, getBoundingBox s = Some bbox.
Proof.
intros Hm Hne. unfold getBoundingBox. rewrite Hm.
destruct m as [|tri m']; [congruence|]. eexists. reflexivity.
Qed.

Lemma filter_length_all {A : Type} (f : A -> bool) (l : list A) :
  List.length (filter f l) = List.length l <-> forallb f l = true.
Proof.
induction l as [|a l IH]; simpl; [tauto|].
pose proof (filter_length_le f l) as Hle.
destruct (f a); simpl.
- rewrite <- IH. split; intros Hx; lia.
- split; intros Hx; [lia | discriminate].
Qed.

(** C2, as the code has it.  For a mesh with at least one triangle whose
    loop bound [Math.ceil(size.z / layerHeight)] is a count [n],
    [sliceMesh] returns one layer for each index below [n] whose plane cuts
    the mesh, in increasing order of index, and none for the others: at
    most [n] layers, and exactly [n] only when every plane cuts. *)
Theorem sliceMesh_layer_count (s : STLSlicer num) (m : list (triangle num)) :
  mesh s = Some m -> m <> [] ->
  exists bbox,
    getBoundingBox s = Some bbox /\
    forall n, ncount_lt (numLayers s bbox) = Some n ->
      exists layers,
        sliceMesh s = Ret (Some layers) /\
        map (@layerNum num) layers = filter (cuts s m bbox) (seq 0 n) /\
        (List.length layers <= n)%nat /\
        (List.length layers = n <-> forallb (cuts s m bbox) (seq 0 n) = true).
Proof.
intros Hm Hne.
destruct (nonempty_mesh_has_box s Hm Hne) as [bbox Hb].
exists bbox. split; [exact Hb|]. intros n Hn.
eexists. split; [exact (sliceMesh_returns s Hm Hb Hn)|].
rewrite slice_layers_kept, map_map, length_map. simpl. rewrite map_id.
split; [reflexivity|].
assert (Hlen : (List.length (filter (cuts s m bbox) (seq 0 n))
                <= List.length (seq 0 n))%nat) by apply filter_length_le.
rewrite length_seq in Hlen. split; [exact Hlen|].
rewrite <- (filter_length_all (cuts s m bbox) (seq 0 n)), length_seq.
reflexivity.
Qed.

(** *** The bounding box bounds the vertices *)

Lemma scan_mesh_as_vertices (m : list (triangle num)) (a : extremes num) :
  fold_left (@scan_triangle num NUM) m a
  = fold_left (@scan_vertex num NUM) (flat_map vertices m) a.
Proof.
revert a. induction m as [|tri m IH]; intros a; simpl; [reflexivity|].
rewrite IH. reflexivity.
Qed.

Context {ORDER : OrderLaws num}.

(** After scanning [vs], the running maximum is a number, it has not gone
    down, and it bounds every [z] of [vs] that is a number. *)
Lemma scan_maxZ (vs : list (vertex num)) (a : extremes num) :
  (maxZ a <=? maxZ a) = true ->
  let a' := fold_left (@scan_vertex num NUM) vs a in
  (maxZ a' <=? maxZ a') = true /\
  (maxZ a <=? maxZ a') = true /\
  forall v, In v vs -> (vz v <=? vz v) = true -> (vz v <=? maxZ a') = true.
Proof.
revert a. induction vs as [|v vs IH]; intros a Ha; simpl.
- repeat split; [exact Ha | exact Ha | intros v []].
- assert (Hstep : (maxZ (scan_vertex a v) <=? maxZ (scan_vertex a v)) = true /\
                  (maxZ a <=? maxZ (scan_vertex a v)) = true /\
                  ((vz v <=? vz v) = true ->
                   (vz v <=? maxZ (scan_vertex a v)) = true)).
  { unfold scan_vertex; simpl.
    destruct (maxZ a <? vz v) eqn:E.
    - pose proof (lt_le _ _ E) as Hle.
      destruct (le_numbers _ _ Hle) as [_ Hv]. auto.
    - repeat split; [exact Ha | exact Ha |].
      intros Hv. exact (le_total _ _ Ha Hv E). }
  destruct Hstep as (H1 & H2 & H3).
  destruct (IH (scan_vertex a v) H1) as (I1 & I2 & I3).
  repeat split.
  + exact I1.
  + exact (le_trans _ _ _ H2 I2).
  + intros w [<-|Hw] Hnum.
    * exact (le_trans _ _ _ (H3 Hnum) I2).
    * exact (I3 w Hw Hnum).
Qed.

Lemma bounding_box_max_z (s : STLSlicer num) (m : list (triangle num))
    (bbox : boundingBox num) :
  mesh s = Some m ->
  getBoundingBox s = Some bbox ->
  forall tri v, In tri m -> In v (vertices tri) ->
    (vz v <=? vz v) = true -> (vz v <=? vz (bb_max bbox)) = true.
Proof.
intros Hm Hb tri v Htri Hv Hnum.
unfold getBoundingBox in Hb. rewrite Hm in Hb.
destruct m as [|t0 m']; [discriminate|].
injection Hb as <-. cbn [bb_max vz].
rewrite scan_mesh_as_vertices.
destruct (scan_maxZ (flat_map vertices (t0 :: m')) (extremes_init (num:=num))
            neg_infinity_number) as (_ & _ & Hall).
apply Hall; [|exact Hnum].
apply in_flat_map. exists tri. split; assumption.
Qed.

(** *** A plane that cuts lies below some vertex *)

Lemma edge_intersection_below (z : num) (va vb : vertex num) :
  edge_intersection z va vb <> [] ->
  (z <=? vz va) = true \/ (z <=? vz vb) = true.
Proof.
unfold edge_intersection.
destruct ((vz va <=? z) && (z <=? vz vb)) eqn:E1.
- apply andb_prop in E1. tauto.
- destruct ((z <=? vz va) && (vz vb <=? z)) eqn:E2; simpl.
  + apply andb_prop in E2. tauto.
  + congruence.
Qed.

Lemma segment_below_vertex (z : num) (m : list (triangle num)) :
  sliceAtZ m z <> [] ->
  exists tri v, In tri m /\ In v (vertices tri) /\ (z <=? vz v) = true.
Proof.
intros Hne.
destruct (sliceAtZ m z) as [|seg segs] eqn:E; [congruence|].
assert (Hin : In seg (sliceAtZ m z)) by (rewrite E; now left).
unfold sliceAtZ in Hin. apply in_flat_map in Hin.
destruct Hin as (tri & Htri & Hseg).
exists tri.
unfold triangle_segment, triangle_intersections in Hseg.
destruct (edge_intersection z (v1 tri) (v2 tri)) eqn:E12.
- destruct (edge_intersection z (v2 tri) (v3 tri)) eqn:E23.
  + destruct (edge_intersection z (v3 tri) (v1 tri)) eqn:E31; [destruct Hseg|].
    destruct (@edge_intersection_below z (v3 tri) (v1 tri)) as [Hx|Hx];
      [congruence | exists (v3 tri) | exists (v1 tri)];
      (split; [exact Htri | split; [simpl; tauto | exact Hx]]).
  + destruct (@edge_intersection_below z (v2 tri) (v3 tri)) as [Hx|Hx];
      [congruence | exists (v2 tri) | exists (v3 tri)];
      (split; [exact Htri | split; [simpl; tauto | exact Hx]]).
- destruct (@edge_intersection_below z (v1 tri) (v2 tri)) as [Hx|Hx];
    [congruence | exists (v1 tri) | exists (v2 tri)];
    (split; [exact Htri | split; [simpl; tauto | exact Hx]]).
Qed.

(** No layer is returned for a plane above the mesh. *)
Lemma returned_layers_below_top (s : STLSlicer num) (m : list (triangle num))
    (bbox : boundingBox num) (layers : list (layer num)) :
  mesh s = Some m ->
  getBoundingBox s = Some bbox ->
  sliceMesh s = Ret (Some layers) ->
  forall l, In l layers -> (layer_z l <=? vz (bb_max bbox)) = true.
Proof.
intros Hm Hb Hr l Hl. unfold sliceMesh in Hr. rewrite Hm, Hb in Hr.
destruct (ncount_lt (numLayers s bbox)) as [n|]; [|discriminate].
injection Hr as <-. rewrite slice_layers_kept in Hl.
apply in_map_iff in Hl. destruct Hl as (k & <- & Hk).
apply filter_In in Hk. destruct Hk as [_ Hcut]. cbn [layer_z].
unfold cuts in Hcut.
destruct (@segment_below_vertex (sliceHeight s bbox k) m)
  as (tri & v & Htri & Hv & Hle).
{ destruct (sliceAtZ m (sliceHeight s bbox k)); congruence. }
destruct (le_numbers _ _ Hle) as [_ Hnum].
exact (le_trans _ _ _ Hle (bounding_box_max_z s Hm Hb Htri Hv Hnum)).
Qed.

Context {ARITH : ArithLaws num}.

(** C3, as the code has it.  For a mesh whose lowest [z] is finite, a
    positive layer height and a loop bound that is a count [n]: every
    height [sliceMesh] probes is at least [min.z + layerHeight];
    [sliceMesh] returns, and the height of every layer it returns is one of
    the probed heights and is at most [max.z].  (A probed height above
    [max.z] cuts nothing and gives no layer.)  This holds in every
    arithmetic with the order laws and the arithmetic laws: in binary64
    ([float_order], [float_arith]), which the code runs in, and in exact
    arithmetic. *)
Theorem slice_heights_bounded (s : STLSlicer num) (m : list (triangle num))
    (bbox : boundingBox num) (n : nat) :
  mesh s = Some m ->
  getBoundingBox s = Some bbox ->
  (nofZ 0 <? layerHeight s) = true ->
  (nabs (vz (bb_min bbox)) <? ninfinity) = true ->
  ncount_lt (numLayers s bbox) = Some n ->
  (forall z, In z (probed_heights s bbox n) ->
     (vz (bb_min bbox) + layerHeight s <=? z) = true) /\
  exists layers,
    sliceMesh s = Ret (Some layers) /\
    forall l, In l layers ->
      In (layer_z l) (probed_heights s bbox n) /\
      (layer_z l <=? vz (bb_max bbox)) = true.
Proof.
intros Hm Hb Hh Hfin Hn. split.
- intros z Hz. unfold probed_heights in Hz. apply in_map_iff in Hz.
  destruct Hz as (k & <- & _). unfold sliceHeight.
  apply add_le_mono; [exact Hfin|].
  apply mul_ge; [exact Hh | apply one_le_succ].
- eexists. split; [exact (sliceMesh_returns s Hm Hb Hn)|].
  intros l Hl. split.
  + rewrite slice_layers_kept in Hl.
    apply in_map_iff in Hl. destruct Hl as (k & <- & Hk).
    apply filter_In in Hk. destruct Hk as [Hk _]. cbn [layer_z].
    unfold probed_heights. apply in_map. exact Hk.
  + exact (returned_layers_below_top s Hm Hb (sliceMesh_returns s Hm Hb Hn) l Hl).
Qed.
End SliceFacts.

Section SliceExamples.
Import Examples.

(** The layer count at the upright triangle. *)
Lemma sliceMesh_layer_count_fin :
  exists bbox,
    getBoundingBox fin_slicer = Some bbox /\
    forall n, ncount_lt (numLayers fin_slicer bbox) = Some n ->
      exists layers,
        sliceMesh fin_slicer = Ret (Some layers) /\
        map (@layerNum float) layers = filter (cuts fin_slicer fin bbox) (seq 0 n) /\
        (List.length layers <= n)%nat /\
        (List.length layers = n <-> forallb (cuts fin_slicer fin bbox) (seq 0 n) = true).
Proof.
apply (@sliceMesh_layer_count float _ fin_slicer fin); [reflexivity | discriminate].
Defined.

(** C2 as claimed fails: the triangle is 1 high and is sliced every 0.75,
    [Math.ceil(1 / 0.75)] is 2, and one layer is returned; the plane at
    1.5 cuts nothing. *)
Lemma fin_has_fewer_layers_than_ceil :
  exists bbox layers,
    getBoundingBox fin_slicer = Some bbox /\
    numLayers fin_slicer bbox = 2%float /\
    ncount_lt (numLayers fin_slicer bbox) = Some 2%nat /\
    sliceMesh fin_slicer = Ret (Some layers) /\
    List.length layers = 1%nat.
Proof.
eexists. eexists.
split; [vm_compute; reflexivity|].
split; [vm_compute; reflexivity|].
split; [vm_compute; reflexivity|].
split; [vm_compute; reflexivity|].
vm_compute. reflexivity.
Qed.

(** C3 as claimed fails on the same input: the second height probed is
    1.5, above the top of the mesh at 1. *)
Lemma fin_is_probed_above_its_top :
  exists bbox,
    getBoundingBox fin_slicer = Some bbox /\
    ncount_lt (numLayers fin_slicer bbox) = Some 2%nat /\
    probed_heights fin_slicer bbox 2 = [0.75%float; 1.5%float] /\
    vz (bb_max bbox) = 1%float /\
    (1.5%float <=? vz (bb_max bbox))%num = false.
Proof.
eexists.
split; [vm_compute; reflexivity|].
split; [vm_compute; reflexivity|].
split; [vm_compute; reflexivity|].
split; vm_compute; reflexivity.
Qed.

(** In binary64, whatever the mesh and the layer height: no layer is
    returned for a plane above the mesh. *)
Lemma returned_layers_below_top_binary64 (s : STLSlicer float)
    (m : list (triangle float)) (bbox : boundingBox float)
    (layers : list (layer float)) :
  mesh s = Some m ->
  getBoundingBox s = Some bbox ->
  sliceMesh s = Ret (Some layers) ->
  forall l, In l layers -> PrimFloat.leb (layer_z l) (vz (bb_max bbox)) = true.
Proof. exact (@returned_layers_below_top float _ float_order s m bbox layers). Qed.

(** The height bounds at the upright triangle, in binary64. *)
Lemma slice_heights_bounded_fin :
  exists bbox,
    getBoundingBox fin_slicer = Some bbox /\
    (forall z, In z (probed_heights fin_slicer bbox 2) ->
       PrimFloat.leb (vz (bb_min bbox) + layerHeight fin_slicer)%float z
       = true) /\
    exists layers,
      sliceMesh fin_slicer = Ret (Some layers) /\
      forall l, In l layers ->
        In (layer_z l) (probed_heights fin_slicer bbox 2) /\
        PrimFloat.leb (layer_z l) (vz (bb_max bbox)) = true.
Proof.
eexists. split; [reflexivity|].
apply (@slice_heights_bounded float _ float_order float_arith fin_slicer fin);
  vm_compute; reflexivity.
Defined.
End SliceExamples.

(* ================================================================== *)
(** * Perimeter tracer: termination *)

Section TracerFacts.
Variable num : Type.
Context {NUM : JSNumber num} {MATH : JSMath num}.

(** A connection found takes exactly one segment out of the pool. *)
Lemma findConnection_removes_one (tolerance : num) (lastPoint : point num)
    (unused : list (segment num)) (p : point num) (unused' : list (segment num)) :
  findConnection tolerance lastPoint unused = Some (p, unused') ->
  List.length unused = S (List.length unused').
Proof.
revert p unused'. induction unused as [|seg rest IH]; intros p unused'; simpl.
- discriminate.
- destruct (nlt _ tolerance); [intros [= <- <-]; reflexivity|].
  destruct (nlt _ tolerance); [intros [= <- <-]; reflexivity|].
  destruct (findConnection tolerance lastPoint rest) as [[q rest']|];
    [|discriminate].
  intros [= <- <-]. simpl. f_equal. eapply IH. reflexivity.
Qed.

(** The inner loop ends within as many passes as the pool has segments,
    and never grows the pool. *)
Lemma connect_total (tolerance : num) (fuel : nat) :
  forall (lastPoint : point num) (currentPath : path num)
         (unused : list (segment num)),
    (List.length unused <= fuel)%nat ->
    exists currentPath' unused',
      connect fuel tolerance lastPoint currentPath unused
      = Some (currentPath', unused') /\
      (List.length unused' <= List.length unused)%nat /\
      (2 <= List.length currentPath -> 2 <= List.length currentPath')%nat.
Proof.
induction fuel as [|fuel IH]; intros lastPoint currentPath unused Hlen.
- destruct unused; [|simpl in Hlen; lia].
  exists currentPath, []. simpl. auto.
- destruct unused as [|seg rest].
  + exists currentPath, []. simpl. auto.
  + cbn [connect].
    destruct (findConnection tolerance lastPoint (seg :: rest))
      as [[p unused']|] eqn:E.
    * apply findConnection_removes_one in E.
      destruct (IH p (currentPath ++ [p]) unused') as (cp & un & Hc & Hle & Hp);
        [simpl in *; lia|].
      exists cp, un. split; [exact Hc|]. split; [lia|].
      intros H2. apply Hp. rewrite length_app. simpl. lia.
    * exists currentPath, (seg :: rest). auto.
Qed.

(** More fuel than needed changes nothing. *)
Lemma connect_fuel_irrelevant (tolerance : num) (fuel : nat) :
  forall (lastPoint : point num) (currentPath : path num)
         (unused : list (segment num)) r,
    connect fuel tolerance lastPoint currentPath unused = Some r ->
    forall fuel', (fuel <= fuel')%nat ->
      connect fuel' tolerance lastPoint currentPath unused = Some r.
Proof.
induction fuel as [|fuel IH]; intros lastPoint currentPath unused r Hr fuel' Hle.
- destruct unused; [|discriminate]. destruct fuel'; exact Hr.
- destruct fuel' as [|fuel']; [lia|].
  destruct unused as [|seg rest]; [exact Hr|].
  cbn [connect] in *.
  destruct (findConnection tolerance lastPoint (seg :: rest)) as [[p unused']|];
    [|exact Hr].
  apply IH with (fuel' := fuel') in Hr; [exact Hr | lia].
Qed.

Lemma trace_total (tolerance : num) (fuel : nat) :
  forall (paths : list (path num)) (unused : list (segment num)),
    (List.length unused <= fuel)%nat ->
    exists paths', trace fuel tolerance paths unused = Some paths'.
Proof.
induction fuel as [|fuel IH]; intros paths unused Hlen.
- destruct unused; [|simpl in Hlen; lia]. exists paths. reflexivity.
- destruct unused as [|firstSeg rest]; [exists paths; reflexivity|].
  cbn [trace].
  destruct (@connect_total tolerance fuel (seg_end firstSeg)
              [seg_start firstSeg; seg_end firstSeg] rest)
    as (cp & un & Hc & Hle & _); [simpl in Hlen; lia|].
  rewrite Hc. apply IH. simpl in Hlen. lia.
Qed.

Lemma trace_fuel_irrelevant (tolerance : num) (fuel : nat) :
  forall (paths : list (path num)) (unused : list (segment num)) r,
    trace fuel tolerance paths unused = Some r ->
    forall fuel', (fuel <= fuel')%nat ->
      trace fuel' tolerance paths unused = Some r.
Proof.
induction fuel as [|fuel IH]; intros paths unused r Hr fuel' Hle.
- destruct unused; [|discriminate]. destruct fuel'; exact Hr.
- destruct fuel' as [|fuel']; [lia|].
  destruct unused as [|firstSeg rest]; [exact Hr|].
  cbn [trace] in *.
  destruct (connect fuel tolerance (seg_end firstSeg)
              [seg_start firstSeg; seg_end firstSeg] rest)
    as [[cp un]|] eqn:E; [|discriminate].
  rewrite (@connect_fuel_irrelevant tolerance fuel _ _ _ _ E fuel') by lia.
  apply IH with (fuel' := fuel') in Hr; [exact Hr | lia].
Qed.

(** C10.  [segmentsToPerimeter] terminates on every list of segments.
    A pass of the inner loop that goes round again has taken one segment
    out of the pool; the inner loop never adds one, so every pass of the
    outer loop leaves the pool strictly smaller than it found it (its
    first segment is gone); and as many passes as there are segments
    always complete the run, additional passes being of no effect. *)
Theorem segmentsToPerimeter_total :
  (forall tolerance lastPoint (unused : list (segment num)) p unused',
      findConnection tolerance lastPoint unused = Some (p, unused') ->
      List.length unused = S (List.length unused')) /\
  (forall tolerance fuel lastPoint currentPath firstSeg
          (rest : list (segment num)) currentPath' unused',
      connect fuel tolerance lastPoint currentPath rest
      = Some (currentPath', unused') ->
      (List.length unused' < List.length (firstSeg :: rest))%nat) /\
  (forall segs : list (segment num),
      exists paths,
        segmentsToPerimeter segs = paths /\
        forall fuel, (List.length segs <= fuel)%nat ->
          segmentsToPerimeter_fuel fuel segs = Some paths).
Proof.
split; [|split].
- intros. eapply findConnection_removes_one. eassumption.
- intros tolerance fuel lastPoint currentPath firstSeg rest cp un Hc.
  destruct (@connect_total tolerance (fuel + List.length rest) lastPoint
              currentPath rest) as (cp' & un' & Hc' & Hle & _); [lia|].
  rewrite (@connect_fuel_irrelevant tolerance fuel _ _ _ _ Hc
             (fuel + List.length rest)%nat) in Hc' by lia.
  injection Hc' as <- <-. simpl. lia.
- intros segs. unfold segmentsToPerimeter, segmentsToPerimeter_fuel.
  destruct (@trace_total (dec 1 100) (List.length segs) [] segs) as [paths Hp];
    [lia|].
  exists paths. rewrite Hp. split; [reflexivity|].
  intros fuel Hle. exact (@trace_fuel_irrelevant _ _ _ _ _ Hp fuel Hle).
Qed.
End TracerFacts.

(* ================================================================== *)
(** * Toolpath emitter: the extrusion counter *)

Section SpanFacts.

Lemma ascending_weaken (lo lo' : Z) (l : list Z) :
  (lo' <= lo)%Z -> ascending_from lo l -> ascending_from lo' l.
Proof. destruct l; simpl; [tauto|]. intros Hle [H1 H2]. split; [lia | exact H2]. Qed.

Lemma ascending_app (l1 l2 : list Z) :
  forall lo mid,
    ascending_from lo l1 -> (forall e, In e l1 -> (e <= mid)%Z) ->
    (lo <= mid)%Z -> ascending_from mid l2 -> ascending_from lo (l1 ++ l2).
Proof.
induction l1 as [|e l1 IH]; intros lo mid H1 Hb Hle H2; simpl.
- exact (ascending_weaken l2 Hle H2).
- destruct H1 as [Hlo H1]. split; [exact Hlo|].
  apply IH with (mid := mid); auto.
  + intros x Hx. apply Hb. now right.
  + apply Hb. now left.
Qed.

Lemma ascending_sorted (l : list Z) :
  forall lo, ascending_from lo l -> Sorted Z.le l.
Proof.
induction l as [|e l IH]; intros lo Hl; [constructor|].
destruct Hl as [_ Hl]. constructor; [exact (IH e Hl)|].
destruct l; constructor. exact (proj1 Hl).
Qed.

Lemma span_nil (c : Z) : span c [] c.
Proof. unfold span; simpl. repeat split; try lia; tauto. Qed.

Lemma span_app (c c1 c2 : Z) (l1 l2 : list Z) :
  span c l1 c1 -> span c1 l2 c2 -> span c (l1 ++ l2) c2.
Proof.
intros (A1 & A2 & A3 & A4) (B1 & B2 & B3 & B4). unfold span.
split; [lia|]. split; [exact (ascending_app l1 l2 A2 A3 A1 B2)|]. split.
- intros e He. apply in_app_or in He. destruct He as [He|He].
  + specialize (A3 e He). lia.
  + exact (B3 e He).
- intros Hnil. apply app_eq_nil in Hnil. destruct Hnil as [-> ->].
  rewrite B4, A4; reflexivity.
Qed.

(** One value [e] written while the counter went from [c] to [c1]. *)
Lemma span_cons (c e c1 c' : Z) (l : list Z) :
  (c <= e)%Z -> (e <= c1)%Z -> span c1 l c' -> span c (e :: l) c'.
Proof.
intros H1 H2 (B1 & B2 & B3 & B4). unfold span; simpl.
split; [lia|]. split; [split; [exact H1 | exact (ascending_weaken l H2 B2)]|].
split; [|discriminate].
intros x [<-|Hx]; [lia | exact (B3 x Hx)].
Qed.

Lemma starts_at_app (c c1 : Z) (l1 l2 : list Z) :
  starts_at c l1 -> (l1 = [] -> c1 = c) -> starts_at c1 l2 ->
  starts_at c (l1 ++ l2).
Proof.
intros [->|[rest ->]] Hc H2; simpl.
- rewrite <- (Hc eq_refl). exact H2.
- right. eexists. reflexivity.
Qed.

End SpanFacts.

Section EmitterFacts.
Variable num : Type.
Context {NUM : JSNumber num} {MATH : JSMath num}.
Local Open Scope Z_scope.

Lemma bind_ret {A B : Type} (m : outcome A) (k : A -> outcome B) (b : B) :
  bind m k = Ret b -> exists a, m = Ret a /\ k a = Ret b.
Proof. destruct m; simpl; intros Hx; try discriminate. eauto. Qed.

Lemma E_values_app (l1 l2 : list (gline num)) :
  E_values (l1 ++ l2) = E_values l1 ++ E_values l2.
Proof. unfold E_values. apply flat_map_app. Qed.

Lemma E_values_cons (l : gline num) (ls : list (gline num)) :
  E_values (l :: ls) = line_E l ++ E_values ls.
Proof. reflexivity. Qed.

(** *** Perimeters *)

Lemma emit_points_span (pts : list (point num)) :
  forall i c lines c',
    emit_points pts i c = (lines, c') -> span c (E_values lines) c'.
Proof.
induction pts as [|pt rest IH]; intros i c lines c'; simpl.
- intros [= <- <-]. apply span_nil.
- destruct (Nat.eqb i 0).
  + destruct (emit_points rest (S i) (c + 1)) as [ls c1] eqn:E.
    intros [= <- <-]. apply IH in E.
    change (span c (c :: E_values ls) c1).
    apply span_cons with (c1 := c + 1); [lia | lia | exact E].
  + destruct (emit_points rest (S i) (c + 3)) as [ls c1] eqn:E.
    intros [= <- <-]. apply IH in E.
    change (span c ((c + 3) :: E_values ls) c1).
    apply span_cons with (c1 := c + 3); [lia | lia | exact E].
Qed.

Lemma emit_points_first (pts : list (point num)) (c : Z) lines c' :
  emit_points pts 0 c = (lines, c') ->
  starts_at c (E_values lines) /\ (E_values lines = [] -> pts = []).
Proof.
destruct pts as [|pt rest]; simpl.
- intros [= <- <-]. split; [now left | reflexivity].
- destruct (emit_points rest 1 (c + 1)) as [ls c1].
  intros [= <- <-]. split; [right; eexists; reflexivity | discriminate].
Qed.

Lemma emit_paths_span (paths : list (path num)) :
  forall pathIdx c lines c',
    emit_paths paths pathIdx c = Ret (lines, c') ->
    span c (E_values lines) c' /\
    starts_at c (E_values lines) /\
    (E_values lines = [] -> List.concat paths = []).
Proof.
induction paths as [|pth rest IH]; intros pathIdx c lines c'; simpl.
- intros [= <- <-]. split; [apply span_nil|]. split; [now left | reflexivity].
- intros Hr. apply bind_ret in Hr. destruct Hr as (travel & Ht & Hr).
  destruct (emit_points pth 0 c) as [ls c1] eqn:Ep.
  apply bind_ret in Hr. destruct Hr as ([lr cr] & Hrest & Hr).
  injection Hr as <- <-. simpl.
  assert (Htravel : E_values travel = []).
  { destruct (Nat.ltb 0 pathIdx).
    - destruct pth; [discriminate|]. injection Ht as <-. reflexivity.
    - injection Ht as <-. reflexivity. }
  rewrite !E_values_app, Htravel. simpl.
  destruct (IH _ _ _ _ Hrest) as (S1 & S2 & S3).
  pose proof (emit_points_span pth 0 c Ep) as P1.
  destruct (emit_points_first pth c Ep) as [P2 P3].
  split; [exact (span_app P1 S1)|]. split.
  + apply starts_at_app with (c1 := c1); [exact P2 | | exact S2].
    intros Hnil. destruct P1 as (_ & _ & _ & P4). exact (P4 Hnil).
  + intros Hnil. apply app_eq_nil in Hnil. destruct Hnil as [Hn1 Hn2].
    rewrite (P3 Hn1), (S3 Hn2). reflexivity.
Qed.

(** *** Infill *)

Lemma renumber_words_span (ws : list (word num)) :
  forall c ws' c',
    renumber_words ws c = (ws', c') -> span c (flat_map (@word_E num) ws') c'.
Proof.
induction ws as [|w ws IH]; intros c ws' c'; simpl.
- intros [= <- <-]. apply span_nil.
- destruct w;
    try (destruct (renumber_words ws c) as [r c1] eqn:E;
         intros [= <- <-]; simpl; exact (IH _ _ _ E)).
  destruct (renumber_words ws (c + 3)) as [r c1] eqn:E.
  intros [= <- <-]. simpl.
  apply span_cons with (c1 := c + 3); [lia | lia | exact (IH _ _ _ E)].
Qed.

Lemma renumber_span (lines : list (gline num)) :
  forall c lines' c',
    renumber lines c = (lines', c') -> span c (E_values lines') c'.
Proof.
induction lines as [|l ls IH]; intros c lines' c'; simpl.
- intros [= <- <-]. apply span_nil.
- destruct (renumber_line l c) as [l' c1] eqn:El.
  destruct (renumber ls c1) as [ls' c2] eqn:Els.
  intros [= <- <-].
  change (E_values (l' :: ls')) with (line_E l' ++ E_values ls').
  apply span_app with (c1 := c1); [|exact (IH _ _ _ Els)].
  destruct l as [| r | code ws note]; simpl in El.
  + injection El as <- <-. apply span_nil.
  + injection El as <- <-. apply span_nil.
  + destruct (renumber_words ws c) as [ws' cw] eqn:Ew.
    injection El as <- <-. simpl. exact (renumber_words_span ws c Ew).
Qed.

Lemma push_infill_span (s : STLSlicer num) bbox pattern density paths angle c r :
  push_infill s bbox pattern density paths angle c = Ret r ->
  span c (E_values (fst r)) (snd r) /\
  (bbox = None -> E_values (fst r) = []).
Proof.
unfold push_infill. intros Hr. apply bind_ret in Hr.
destruct Hr as (lines & Hl & Hr). injection Hr as <-.
split.
- destruct (renumber lines c) as [l' c'] eqn:E. exact (renumber_span lines c E).
- intros ->. simpl in Hl. injection Hl as <-. reflexivity.
Qed.

Lemma solid_infill_span (s : STLSlicer num) bbox paths isBottomLayer c r :
  solid_infill s bbox paths isBottomLayer c = Ret r ->
  span c (E_values (fst r)) (snd r) /\
  (bbox = None -> E_values (fst r) = []).
Proof.
unfold solid_infill. intros Hr.
apply bind_ret in Hr. destruct Hr as (r1 & H1 & Hr).
apply bind_ret in Hr. destruct Hr as (r2 & H2 & Hr).
injection Hr as <-. cbn [fst snd].
apply push_infill_span in H1. apply push_infill_span in H2.
rewrite E_values_cons, E_values_app. cbn [line_E app]. split.
- exact (span_app (proj1 H1) (proj1 H2)).
- intros Hb. rewrite (proj2 H1 Hb), (proj2 H2 Hb). reflexivity.
Qed.

Lemma sparse_infill_span (s : STLSlicer num) bbox pattern density paths c r :
  sparse_infill s bbox pattern density paths c = Ret r ->
  span c (E_values (fst r)) (snd r) /\
  (bbox = None -> E_values (fst r) = []).
Proof.
unfold sparse_infill. intros Hr.
destruct (nlt (nofZ 0) density).
- destruct (String.eqb pattern "grid").
  + apply bind_ret in Hr. destruct Hr as (r1 & H1 & Hr).
    apply bind_ret in Hr. destruct Hr as (r2 & H2 & Hr).
    injection Hr as <-. cbn [fst snd].
    apply push_infill_span in H1. apply push_infill_span in H2.
    rewrite E_values_cons, E_values_app. cbn [line_E app]. split.
    * exact (span_app (proj1 H1) (proj1 H2)).
    * intros Hb. rewrite (proj2 H1 Hb), (proj2 H2 Hb). reflexivity.
  + apply bind_ret in Hr. destruct Hr as (r1 & H1 & Hr).
    injection Hr as <-. cbn [fst snd].
    rewrite E_values_cons. cbn [line_E app].
    apply push_infill_span in H1. exact H1.
- injection Hr as <-. simpl. split; [apply span_nil | reflexivity].
Qed.

Lemma sparse_infill_seq_span (s : STLSlicer num) bbox pattern density paths c r :
  sparse_infill_seq s bbox pattern density paths c = Ret r ->
  span c (E_values (fst r)) (snd r) /\
  (bbox = None -> E_values (fst r) = []).
Proof.
unfold sparse_infill_seq. intros Hr.
destruct (nlt (nofZ 0) density).
- apply bind_ret in Hr. destruct Hr as (r1 & H1 & Hr).
  injection Hr as <-. cbn [fst snd].
  rewrite E_values_cons. cbn [line_E app].
  apply push_infill_span in H1. exact H1.
- injection Hr as <-. simpl. split; [apply span_nil | reflexivity].
Qed.

(** *** Layers *)

Lemma layer_body_span sparse (s : STLSlicer num) sequences i paths c r :
  counts_up sparse ->
  layer_body sparse s sequences i paths c = Ret r ->
  span c (E_values (fst r)) (snd r) /\ starts_at c (E_values (fst r)).
Proof.
intros Hsparse. unfold layer_body.
destruct (nth_error sequences i) as [q|]; [|discriminate].
intros Hr. apply bind_ret in Hr. destruct Hr as (per & Hper & Hr).
apply bind_ret in Hr. destruct Hr as (inf & Hinf & Hr).
injection Hr as <-. cbn [fst snd]. rewrite E_values_app.
destruct per as [pl c1].
destruct (emit_paths_span paths 0 c Hper) as (P1 & P2 & P3).
cbn [fst snd] in *.
assert (Hi : span c1 (E_values (fst inf)) (snd inf) /\
             (getLayerBoundingBox (List.concat paths) = None ->
              E_values (fst inf) = [])).
{ destruct (isBottom q || isTop q).
  - exact (solid_infill_span _ _ _ _ _ Hinf).
  - exact (Hsparse _ _ _ _ Hinf). }
destruct Hi as [I1 I2].
split; [exact (span_app P1 I1)|].
destruct P2 as [Hnil|[rest Hrest]].
- left. rewrite Hnil. simpl. apply I2. rewrite (P3 Hnil). reflexivity.
- right. rewrite Hrest. eexists. reflexivity.
Qed.

Lemma emit_layers_span sparse trailer (s : STLSlicer num) sequences
    (layers : list (layer num)) :
  counts_up sparse -> E_values trailer = [] ->
  forall i c r,
    emit_layers sparse trailer s sequences layers i c = Ret r ->
    span c (E_values (fst r)) (snd r) /\ starts_at c (E_values (fst r)).
Proof.
intros Hsparse Htrailer.
induction layers as [|l rest IH]; intros i c r; cbn [emit_layers].
- intros [= <-]. split; [apply span_nil | now left].
- intros Hr. apply bind_ret in Hr. destruct Hr as (body & Hbody & Hr).
  apply bind_ret in Hr. destruct Hr as (r' & Hrest & Hr).
  injection Hr as <-. cbn [fst snd].
  rewrite !E_values_cons. cbn [line_E flat_map word_E app].
  rewrite !E_values_app, Htrailer. cbn [app].
  assert (Hb : span c (E_values (fst body)) (snd body) /\
               starts_at c (E_values (fst body))).
  { destruct (segmentsToPerimeter (segments l)) as [|pth paths].
    - injection Hbody as <-. split; [apply span_nil | now left].
    - eapply layer_body_span; eassumption. }
  destruct Hb as [B1 B2]. destruct (IH _ _ _ Hrest) as [R1 R2].
  split; [exact (span_app B1 R1)|].
  apply starts_at_app with (c1 := snd body); [exact B2 | | exact R2].
  destruct B1 as (_ & _ & _ & B4). exact B4.
Qed.

(** C4.  In a program emitted by [generateGCode] or by
    [generateGCodeWithSequences], the [E] values, read in the order of the
    lines, never decrease; and the counter starts from zero in every
    generation: the first [E] value of a program, if it has one, is 0. *)
Theorem extrusion_never_decreases (s : STLSlicer num) (layers : list (layer num))
    (infillPattern : string) (infillDensity : num)
    (sequences : list layerSequence) (prog : list (gline num)) :
  generateGCode s layers infillPattern infillDensity = Ret prog \/
  generateGCodeWithSequences s layers infillPattern infillDensity sequences
  = Ret prog ->
  Sorted Z.le (E_values prog) /\ starts_at 0 (E_values prog).
Proof.
intros Hprog.
assert (Hbody : exists (body : list (gline num)) c',
           span 0 (E_values body) c' /\ starts_at 0 (E_values body) /\
           E_values prog = E_values body).
{ destruct Hprog as [Hprog|Hprog].
  - unfold generateGCode in Hprog.
    apply bind_ret in Hprog. destruct Hprog as ([body c'] & Hb & Hprog).
    apply bind_ret in Hprog. destruct Hprog as (z & _ & Hprog).
    injection Hprog as <-.
    apply emit_layers_span in Hb.
    + exists body, c'. cbn [fst snd] in Hb. destruct Hb as [B1 B2].
      split; [exact B1|]. split; [exact B2|].
      rewrite !E_values_cons. cbn [line_E flat_map word_E app].
      rewrite E_values_app. unfold E_values at 2.
      cbn [fst flat_map line_E word_E app]. rewrite app_nil_r. reflexivity.
    + intros bbox paths c r. apply sparse_infill_span.
    + reflexivity.
  - unfold generateGCodeWithSequences in Hprog.
    apply bind_ret in Hprog. destruct Hprog as ([body c'] & Hb & Hprog).
    apply bind_ret in Hprog. destruct Hprog as (z & _ & Hprog).
    injection Hprog as <-.
    apply emit_layers_span in Hb.
    + exists body, c'. cbn [fst snd] in Hb. destruct Hb as [B1 B2].
      split; [exact B1|]. split; [exact B2|].
      rewrite !E_values_cons. cbn [line_E flat_map word_E app].
      rewrite E_values_app. unfold E_values at 2.
      cbn [fst flat_map line_E word_E app]. rewrite app_nil_r. reflexivity.
    + intros bbox paths c r. apply sparse_infill_seq_span.
    + reflexivity. }
destruct Hbody as (body & c' & (_ & Hasc & _) & Hstart & ->).
split; [eapply ascending_sorted; exact Hasc | exact Hstart].
Qed.

End EmitterFacts.

Section EmitterExamples.
Import Examples.
Local Open Scope string_scope.

Lemma box_program_emitted :
  generateGCode box_slicer box_layers "grid" (F64.ofZ 20) = Ret box_program.
Proof. vm_compute. reflexivity. Qed.

Lemma box_program_seq_emitted :
  generateGCodeWithSequences box_slicer box_layers "grid" (F64.ofZ 20)
    (analyzeLayerSequences box_slicer box_layers)
  = Ret box_program_seq.
Proof. vm_compute. reflexivity. Qed.

(** The extrusion values of the program printed for the box. *)
Lemma extrusion_never_decreases_box :
  Sorted Z.le (E_values box_program) /\ starts_at 0 (E_values box_program).
Proof.
apply (@extrusion_never_decreases float _ _ box_slicer box_layers "grid"
         (F64.ofZ 20) [] box_program).
left. vm_compute. reflexivity.
Defined.

(** C6 on the path through [generateGCodeWithSequences].  The second
    layer of the box is neither top nor bottom.  With the grid pattern at
    20%, [generateGCode] fills it with one line along X and one along Y;
    [generateGCodeWithSequences], given the same layers, settings and
    classification, prints the line along X only. *)
Theorem grid_infill_on_sequences_path :
  nth_error (analyzeLayerSequences box_slicer box_layers) 1
  = Some {| isBottom := false; isTop := false |} /\
  generateGCode box_slicer box_layers "grid" (F64.ofZ 20) = Ret box_program /\
  generateGCodeWithSequences box_slicer box_layers "grid" (F64.ofZ 20)
    (analyzeLayerSequences box_slicer box_layers)
  = Ret box_program_seq /\
  fill_moves (layer_lines 2 box_program)
  = [ {| from_x := F64.ofZ 0; from_y := dec 2 10;
         to_x := F64.ofZ 4; to_y := dec 2 10 |};
      {| from_x := dec 2 10; from_y := F64.ofZ 0;
         to_x := dec 2 10; to_y := F64.ofZ 4 |} ] /\
  fill_moves (layer_lines 2 box_program_seq)
  = [ {| from_x := F64.ofZ 0; from_y := dec 2 10;
         to_x := F64.ofZ 4; to_y := dec 2 10 |} ] /\
  filter (@along_Y float _) (fill_moves (layer_lines 2 box_program_seq)) = [].
Proof.
split; [vm_compute; reflexivity|].
split; [exact box_program_emitted|].
split; [exact box_program_seq_emitted|].
split; [vm_compute; reflexivity|].
split; vm_compute; reflexivity.
Qed.

End EmitterExamples.

Section SequencesPathFacts.
Variable num : Type.
Context {NUM : JSNumber num} {MATH : JSMath num}.
Local Open Scope string_scope.

(** On the path through [generateGCodeWithSequences] the pattern has no
    effect on the infill: a sparse layer is filled as for ['lines']. *)
Lemma sparse_infill_seq_ignores_pattern (s : STLSlicer num) bbox pattern
    density paths c :
  sparse_infill_seq s bbox pattern density paths c
  = sparse_infill_seq s bbox "lines" density paths c.
Proof. reflexivity. Qed.

(** On the path through [generateGCode] the grid pattern is filled at
    both angles and any other pattern at angle 0. *)
Lemma sparse_infill_angles (s : STLSlicer num) bbox pattern density paths c :
  nlt (nofZ 0) density = true ->
  sparse_infill s bbox pattern density paths c
  = if String.eqb pattern "grid" then
      r1 <- push_infill s bbox "lines" density paths 0 c ;;
      r2 <- push_infill s bbox "lines" density paths 90 (snd r1) ;;
      Ret (Comment (RSparse density) :: fst r1 ++ fst r2, snd r2)
    else
      r <- push_infill s bbox pattern density paths 0 c ;;
      Ret (Comment (RSparse density) :: fst r, snd r).
Proof. intros Hd. unfold sparse_infill. rewrite Hd. reflexivity. Qed.

End SequencesPathFacts.

(* ================================================================== *)
(** * Infill generator: holes *)

Section InfillFacts.
Variable num : Type.
Context {NUM : JSNumber num}.
Local Open Scope string_scope.
Local Open Scope num_scope.

Lemma containing_count_filter (pt : point num) (paths : list (path num)) :
  containing_count pt paths
  = List.length (filter (isPointInPolygon pt) paths).
Proof.
unfold containing_count.
assert (Hgen : forall n,
           fold_left (fun count pth =>
                        if isPointInPolygon pt pth then S count else count)
                     paths n
           = (n + List.length (filter (isPointInPolygon pt) paths))%nat).
{ induction paths as [|pth rest IH]; intros n; simpl; [lia|].
  rewrite IH. destruct (isPointInPolygon pt pth); simpl; lia. }
exact (Hgen 0%nat).
Qed.

(** Even-odd containment: solid exactly when the point is inside an odd
    number of the paths. *)
Lemma solid_iff_odd (pt : point num) (paths : list (path num)) :
  isPointInSolidGeometry pt paths
  = Nat.odd (List.length (filter (isPointInPolygon pt) paths)).
Proof.
unfold isPointInSolidGeometry. rewrite containing_count_filter.
rewrite <- Nat.bit0_odd, Nat.bit0_eqb. reflexivity.
Qed.

Lemma fill_moves_bands (angle : nat) (bs : list (band num)) :
  fill_moves (flat_map (band_lines angle) bs) = map (band_move angle) bs.
Proof.
induction bs as [|b bs IH]; [reflexivity|].
cbn [flat_map map]. unfold band_lines at 1. cbn [app fill_moves].
change (String.eqb "G0" "G0") with true. change (String.eqb "G1" "G1") with true.
cbn [andb toFixed p_value]. unfold band_move at 1. f_equal. exact IH.
Qed.

Lemma horizontal_line_bands (paths : list (path num)) (i : nat) (y : num) :
  exists bs,
    horizontal_line (Some paths) i y = flat_map (band_lines 0) bs /\
    Forall (band_in_solid 0 paths) bs.
Proof.
unfold horizontal_line.
change (sort_numbers (flat_map (findLinePolygonIntersections y) paths))
  with (line_crossings 0 paths y).
assert (Hgen : forall ps, incl ps (pairs (line_crossings 0 paths y)) ->
  exists bs,
    flat_map
      (fun '(startX, endX) =>
         if (nabs (endX - startX) >? dec 1 10)
            && isPointInSolidGeometry
                 {| px := (startX + endX) / nofZ 2; py := y |} paths
         then
           if Nat.even i
           then [Command "G0" [WX (toFixed 3 startX); WY (toFixed 3 y)] None;
                 Command "G1" [WX (toFixed 3 endX); WY (toFixed 3 y);
                               WE 0; WF 1500] None]
           else [Command "G0" [WX (toFixed 3 endX); WY (toFixed 3 y)] None;
                 Command "G1" [WX (toFixed 3 startX); WY (toFixed 3 y);
                               WE 0; WF 1500] None]
         else []) ps
    = flat_map (band_lines 0) bs /\
    Forall (band_in_solid 0 paths) bs).
{ induction ps as [|[lo hi] ps IH]; intros Hin.
  - exists []. split; [reflexivity | constructor].
  - destruct (IH (fun p Hp => Hin p (or_intror Hp))) as (bs & Hbs & Hall).
    cbn [flat_map]. rewrite Hbs.
    destruct (nabs (hi - lo) >? dec 1 10) eqn:Hlong;
      [|exists bs; split; [reflexivity | exact Hall]].
    destruct (isPointInSolidGeometry _ paths) eqn:Hsolid;
      [|exists bs; split; [reflexivity | exact Hall]].
    exists ({| band_line := i; band_at := y; band_lo := lo; band_hi := hi |}
            :: bs).
    split.
    + cbn [flat_map andb]. unfold band_lines at 2, band_from, band_to, band_point.
      cbn [Nat.eqb band_line band_at band_lo band_hi].
      destruct (Nat.even i); reflexivity.
    + constructor; [|exact Hall]. split; [|split].
      * apply Hin. left. reflexivity.
      * exact Hlong.
      * rewrite <- solid_iff_odd. exact Hsolid. }
apply Hgen. apply incl_refl.
Qed.

Lemma vertical_line_bands (paths : list (path num)) (i : nat) (x : num) :
  exists bs,
    vertical_line (Some paths) i x = flat_map (band_lines 90) bs /\
    Forall (band_in_solid 90 paths) bs.
Proof.
unfold vertical_line.
change (sort_numbers (flat_map (findVerticalLinePolygonIntersections x) paths))
  with (line_crossings 90 paths x).
assert (Hgen : forall ps, incl ps (pairs (line_crossings 90 paths x)) ->
  exists bs,
    flat_map
      (fun '(startY, endY) =>
         if (nabs (endY - startY) >? dec 1 10)
            && isPointInSolidGeometry
                 {| px := x; py := (startY + endY) / nofZ 2 |} paths
         then
           if Nat.even i
           then [Command "G0" [WX (toFixed 3 x); WY (toFixed 3 startY)] None;
                 Command "G1" [WX (toFixed 3 x); WY (toFixed 3 endY);
                               WE 0; WF 1500] None]
           else [Command "G0" [WX (toFixed 3 x); WY (toFixed 3 endY)] None;
                 Command "G1" [WX (toFixed 3 x); WY (toFixed 3 startY);
                               WE 0; WF 1500] None]
         else []) ps
    = flat_map (band_lines 90) bs /\
    Forall (band_in_solid 90 paths) bs).
{ induction ps as [|[lo hi] ps IH]; intros Hin.
  - exists []. split; [reflexivity | constructor].
  - destruct (IH (fun p Hp => Hin p (or_intror Hp))) as (bs & Hbs & Hall).
    cbn [flat_map]. rewrite Hbs.
    destruct (nabs (hi - lo) >? dec 1 10) eqn:Hlong;
      [|exists bs; split; [reflexivity | exact Hall]].
    destruct (isPointInSolidGeometry _ paths) eqn:Hsolid;
      [|exists bs; split; [reflexivity | exact Hall]].
    exists ({| band_line := i; band_at := x; band_lo := lo; band_hi := hi |}
            :: bs).
    split.
    + cbn [flat_map andb]. unfold band_lines at 2, band_from, band_to, band_point.
      cbn [Nat.eqb band_line band_at band_lo band_hi].
      destruct (Nat.even i); reflexivity.
    + constructor; [|exact Hall]. split; [|split].
      * apply Hin. left. reflexivity.
      * exact Hlong.
      * rewrite <- solid_iff_odd. exact Hsolid. }
apply Hgen. apply incl_refl.
Qed.

Lemma scan_lines_bands (angle : nat) (paths : list (path num))
    (line : nat -> num -> list (gline num)) (lo spacing limit : num) :
  (forall i c, exists bs, line i c = flat_map (band_lines angle) bs /\
                          Forall (band_in_solid angle paths) bs) ->
  forall counters, exists bs,
    scan_lines line lo spacing limit counters = flat_map (band_lines angle) bs /\
    Forall (band_in_solid angle paths) bs.
Proof.
intros Hline counters. induction counters as [|i rest IH]; cbn [scan_lines].
- exists []. split; [reflexivity | constructor].
- destruct (lo + nofnat i * spacing >? limit).
  + exists []. split; [reflexivity | constructor].
  + destruct (Hline i (lo + nofnat i * spacing)) as (b1 & E1 & F1).
    destruct IH as (b2 & E2 & F2).
    exists (b1 ++ b2)%list. split.
    * rewrite E1, E2, flat_map_app. reflexivity.
    * apply Forall_app. split; assumption.
Qed.

(** What [generateLayerInfill] returns is, band after band, the two
    lines of a band in solid material. *)
Lemma infill_is_bands (s : STLSlicer num) bbox pattern density
    (paths : list (path num)) (angle : nat) (lines : list (gline num)) :
  generateLayerInfill s bbox pattern density (Some paths) angle = Ret lines ->
  exists bs,
    lines = flat_map (band_lines angle) bs /\
    fill_moves lines = map (band_move angle) bs /\
    Forall (band_in_solid angle paths) bs.
Proof.
assert (Hstep : forall bs,
          lines = flat_map (band_lines angle) bs ->
          Forall (band_in_solid angle paths) bs ->
          exists bs,
            lines = flat_map (band_lines angle) bs /\
            fill_moves lines = map (band_move angle) bs /\
            Forall (band_in_solid angle paths) bs).
{ intros bs E F. exists bs. split; [exact E|]. split; [|exact F].
  rewrite E. apply fill_moves_bands. }
unfold generateLayerInfill.
destruct bbox as [bbox|];
  [|intros [= <-]; apply (Hstep []); [reflexivity | constructor]].
destruct (density =? nofZ 0);
  [intros [= <-]; apply (Hstep []); [reflexivity | constructor]|].
destruct (Nat.eqb angle 90) eqn:Ea.
- apply Nat.eqb_eq in Ea. subst angle.
  destruct (ncount_le _) as [n|]; [|discriminate].
  intros [= <-].
  destruct (@scan_lines_bands 90 paths (vertical_line (Some paths))
              (lb_minX bbox + dec 2 10) (spacing_for s density)
              (lb_maxX bbox - dec 2 10 + dec 1 100)
              (vertical_line_bands paths) (seq 0 n)) as (bs & E & F).
  exact (Hstep bs E F).
- destruct (ncount_le _) as [n|]; [|discriminate].
  intros [= <-].
  assert (Hline : forall i c, exists bs,
            horizontal_line (Some paths) i c = flat_map (band_lines angle) bs /\
            Forall (band_in_solid angle paths) bs).
  { intros i c. destruct (horizontal_line_bands paths i c) as (bs & E & F).
    exists bs.
    assert (Hl : forall b : band num, band_lines angle b = band_lines 0 b).
    { intros b. unfold band_lines, band_from, band_to, band_point.
      rewrite Ea. reflexivity. }
    split.
    - rewrite E. apply flat_map_ext. intros b. symmetry. apply Hl.
    - eapply Forall_impl; [|exact F]. intros b (H1 & H2 & H3).
      unfold band_in_solid, line_crossings, band_mid, band_point in *.
      rewrite Ea. cbn [Nat.eqb] in H1, H3. auto. }
  destruct (@scan_lines_bands angle paths (horizontal_line (Some paths))
              (lb_minY bbox + dec 2 10) (spacing_for s density)
              (lb_maxY bbox - dec 2 10 + dec 1 100)
              Hline (seq 0 n)) as (bs & E & F).
  exact (Hstep bs E F).
Qed.
End InfillFacts.

Section InfillExamples.
Import Examples.
Local Open Scope string_scope.

(** The lines of the horizontal scan line at height 10, through the
    centre of the two squares: the band from 0 to 5 and the band from 15
    to 20, each travelled in a direction that depends on the parity of
    the line number. *)
Lemma centre_scan_line (i : nat) :
  horizontal_line (Some [outer_square; inner_square]) i (F64.ofZ 10)
  = if Nat.even i then
      [ Command "G0" [WX (toFixed 3 (F64.ofZ 0)); WY (toFixed 3 (F64.ofZ 10))] None;
        Command "G1" [WX (toFixed 3 (F64.ofZ 5)); WY (toFixed 3 (F64.ofZ 10));
                      WE 0; WF 1500] None;
        Command "G0" [WX (toFixed 3 (F64.ofZ 15)); WY (toFixed 3 (F64.ofZ 10))] None;
        Command "G1" [WX (toFixed 3 (F64.ofZ 20)); WY (toFixed 3 (F64.ofZ 10));
                      WE 0; WF 1500] None ]
    else
      [ Command "G0" [WX (toFixed 3 (F64.ofZ 5)); WY (toFixed 3 (F64.ofZ 10))] None;
        Command "G1" [WX (toFixed 3 (F64.ofZ 0)); WY (toFixed 3 (F64.ofZ 10));
                      WE 0; WF 1500] None;
        Command "G0" [WX (toFixed 3 (F64.ofZ 20)); WY (toFixed 3 (F64.ofZ 10))] None;
        Command "G1" [WX (toFixed 3 (F64.ofZ 15)); WY (toFixed 3 (F64.ofZ 10));
                      WE 0; WF 1500] None ].
Proof.
unfold horizontal_line.
destruct (Nat.even i); vm_compute; reflexivity.
Qed.

End InfillExamples.

Section InfillHoles.
Import Examples.
Local Open Scope string_scope.

(** C5.  With the two concentric squares as paths, the scan line through
    their centre is filled by exactly two moves, the band from 0 to 5 and
    the band from 15 to 20, and nothing in between, whatever the number
    of the scan line.  A run of the generator over the two squares at
    100% returns lines that are all moves, two lines each; its scan line
    number 28 lies at height 10, and the moves of the run at that height
    are these two bands; no move of the run enters the inner square.  In
    general, what [generateLayerInfill] returns is, band after band, the
    two lines of a band: a segment between two paired crossings of a scan
    line, longer than 0.1, whose midpoint lies inside an odd number of
    the paths.  Its moves are the moves over these bands, and no others. *)
Theorem infill_excludes_holes :
  (forall i,
      fill_moves (horizontal_line (Some [outer_square; inner_square]) i
                    (F64.ofZ 10))
      = if Nat.even i then
          [ {| from_x := F64.ofZ 0; from_y := F64.ofZ 10;
               to_x := F64.ofZ 5; to_y := F64.ofZ 10 |};
            {| from_x := F64.ofZ 15; from_y := F64.ofZ 10;
               to_x := F64.ofZ 20; to_y := F64.ofZ 10 |} ]
        else
          [ {| from_x := F64.ofZ 5; from_y := F64.ofZ 10;
               to_x := F64.ofZ 0; to_y := F64.ofZ 10 |};
            {| from_x := F64.ofZ 20; from_y := F64.ofZ 10;
               to_x := F64.ofZ 15; to_y := F64.ofZ 10 |} ]) /\
  (exists lines,
      generateLayerInfill cube_slicer
        (getLayerBoundingBox (outer_square ++ inner_square))
        "lines" (F64.ofZ 100) (Some [outer_square; inner_square]) 0
      = Ret lines /\
      List.length lines = (2 * List.length (fill_moves lines))%nat /\
      filter (fun f => PrimFloat.eqb (from_y f) (F64.ofZ 10)) (fill_moves lines)
      = [ {| from_x := F64.ofZ 0; from_y := F64.ofZ 10;
             to_x := F64.ofZ 5; to_y := F64.ofZ 10 |};
          {| from_x := F64.ofZ 15; from_y := F64.ofZ 10;
             to_x := F64.ofZ 20; to_y := F64.ofZ 10 |} ] /\
      existsb enters_hole (fill_moves lines) = false) /\
  (forall (num : Type) (NUM : JSNumber num) (s : STLSlicer num) bbox pattern
          density (paths : list (path num)) angle lines,
      generateLayerInfill s bbox pattern density (Some paths) angle = Ret lines ->
      exists bs,
        lines = flat_map (band_lines angle) bs /\
        fill_moves lines = map (band_move angle) bs /\
        Forall (band_in_solid angle paths) bs).
Proof.
split; [|split].
- intros i. rewrite centre_scan_line.
  destruct (Nat.even i); vm_compute; reflexivity.
- eexists. split; [vm_compute; reflexivity|].
  split; [vm_compute; reflexivity|].
  split; vm_compute; reflexivity.
- intros num NUM s bbox pattern density paths angle lines.
  apply infill_is_bands.
Qed.
End InfillHoles.

(* ================================================================== *)
(** * Reading STL files *)

Section StringFacts.
Local Open Scope string_scope.

Lemma prefix_app (sub s : string) :
  String.prefix sub s = true <-> exists post, s = sub ++ post.
Proof.
revert s. induction sub as [|c sub IH]; intros s.
- split; [intros _; exists s; reflexivity | intros _; destruct s; reflexivity].
- destruct s as [|d s]; simpl.
  + split; [discriminate | intros [post Hp]; discriminate].
  + destruct (Ascii.ascii_dec c d) as [->|Hne].
    * rewrite IH. split; intros [post Hp]; exists post.
      -- now rewrite Hp.
      -- now injection Hp.
    * split; [discriminate|]. intros [post Hp]. injection Hp as Hc _.
      congruence.
Qed.

(** [includes]: the text occurs somewhere in the string. *)
Lemma includes_spec (sub s : string) :
  includes sub s = true <-> exists pre post, s = pre ++ sub ++ post.
Proof.
induction s as [|d s IH].
- cbn [includes]. rewrite orb_false_r, prefix_app. split.
  + intros [post Hp]. exists "", post. exact Hp.
  + intros (pre & post & Hp). destruct pre; [exists post; exact Hp|discriminate].
- cbn [includes]. rewrite orb_true_iff, prefix_app, IH. split.
  + intros [[post Hp]|(pre & post & Hp)].
    * exists "", post. exact Hp.
    * exists (String d pre), post. simpl. now rewrite Hp.
  + intros (pre & post & Hp). destruct pre as [|e pre].
    * left. exists post. exact Hp.
    * right. injection Hp as _ Hp. exists pre, post. exact Hp.
Qed.

End StringFacts.

Section ParserFacts.
Variable num : Type.
Variable float32 : N -> num.
Variable parseFloat : string -> num.
Local Open Scope string_scope.
Local Open Scope list_scope.

(** *** Format detection *)

(** The test of [parseSTL], as the code has it.  [parseSTL] needs 80
    bytes of header.  It hands the file to the text parser exactly when
    the header, in lower case, contains [solid] anywhere, and to the
    binary parser otherwise. *)
Theorem parseSTL_sniffs_header (buf : buffer) :
  ((List.length buf < 80)%nat ->
   parseSTL float32 parseFloat buf = Throw RangeError) /\
  ((80 <= List.length buf)%nat ->
   let h := toLowerCase (string_of_list_byte (firstn 80 buf)) in
   ((exists pre post, h = (pre ++ "solid" ++ post)%string) ->
    parseSTL float32 parseFloat buf = parseASCIISTL parseFloat buf) /\
   (~ (exists pre post, h = (pre ++ "solid" ++ post)%string) ->
    parseSTL float32 parseFloat buf = parseBinarySTL float32 buf)).
Proof.
unfold parseSTL, header, bytes_at. cbn [Nat.add skipn].
split.
- intros Hlen. apply Nat.leb_gt in Hlen. rewrite Hlen. reflexivity.
- intros Hlen. apply Nat.leb_le in Hlen. rewrite Hlen. cbn [bind].
  split; intros Hh.
  + apply includes_spec in Hh. rewrite Hh. reflexivity.
  + destruct (includes "solid" _) eqn:E; [|reflexivity].
    apply includes_spec in E. contradiction.
Qed.

(** *** The binary reader *)

Lemma bytes_at_ok (buf : buffer) (offset n : nat) :
  (offset + n <= List.length buf)%nat ->
  bytes_at buf offset n = Ret (firstn n (skipn offset buf)).
Proof.
intros Hlen. unfold bytes_at. apply Nat.leb_le in Hlen. now rewrite Hlen.
Qed.

Lemma bytes_at_short (buf : buffer) (offset n : nat) :
  (List.length buf < offset + n)%nat -> bytes_at buf offset n = Throw RangeError.
Proof.
intros Hlen. unfold bytes_at. apply Nat.leb_gt in Hlen. now rewrite Hlen.
Qed.

Lemma getFloat32_cases (buf : buffer) (offset : nat) :
  ((offset + 4 <= List.length buf)%nat /\
   exists x, getFloat32 float32 buf offset = Ret x) \/
  ((List.length buf < offset + 4)%nat /\
   getFloat32 float32 buf offset = Throw RangeError).
Proof.
unfold getFloat32.
destruct (Nat.le_gt_cases (offset + 4) (List.length buf)) as [Hle|Hgt].
- left. split; [exact Hle|]. rewrite (bytes_at_ok _ _ _ Hle). simpl. eauto.
- right. split; [exact Hgt|]. rewrite (bytes_at_short _ _ _ Hgt). reflexivity.
Qed.

Lemma read_vertex_cases (buf : buffer) (offset : nat) :
  ((offset + 12 <= List.length buf)%nat /\
   exists v, read_vertex float32 buf offset = Ret v) \/
  ((List.length buf < offset + 12)%nat /\
   read_vertex float32 buf offset = Throw RangeError).
Proof.
unfold read_vertex.
destruct (getFloat32_cases buf offset) as [[H1 [x ->]]|[H1 ->]];
  [|right; split; [lia | reflexivity]].
destruct (getFloat32_cases buf (offset + 4)) as [[H2 [y ->]]|[H2 ->]];
  [|right; split; [lia | reflexivity]].
destruct (getFloat32_cases buf (offset + 8)) as [[H3 [z ->]]|[H3 ->]];
  [|right; split; [lia | reflexivity]].
left. split; [lia|]. simpl. eauto.
Qed.

Lemma read_triangles_cases (buf : buffer) (n : nat) :
  forall i,
    ((n = 0 \/ 84 + 50 * (i + n) <= List.length buf + 2)%nat /\
     exists tris, read_triangles float32 buf n i = Ret tris /\
                  List.length tris = n) \/
    ((0 < n /\ List.length buf + 2 < 84 + 50 * (i + n))%nat /\
     read_triangles float32 buf n i = Throw RangeError).
Proof.
induction n as [|n IH]; intros i.
- left. split; [now left|]. exists []. split; reflexivity.
- cbn [read_triangles].
  destruct (read_vertex_cases buf (84 + i * 50 + 12)) as [[H1 [a ->]]|[H1 ->]];
    [|right; split; [lia | reflexivity]].
  destruct (read_vertex_cases buf (84 + i * 50 + 24)) as [[H2 [b ->]]|[H2 ->]];
    [|right; split; [lia | reflexivity]].
  destruct (read_vertex_cases buf (84 + i * 50 + 36)) as [[H3 [c ->]]|[H3 ->]];
    [|right; split; [lia | reflexivity]].
  cbn [bind].
  destruct (IH (S i)) as [[Hlen (tris & -> & Hn)]|[Hlen ->]].
  + left. split; [right; lia|]. eexists. split; [reflexivity|]. simpl. lia.
  + right. split; [lia | reflexivity].
Qed.

Lemma parseBinarySTL_cases (buf : buffer) :
  ((List.length buf < 84)%nat ->
   parseBinarySTL float32 buf = Throw RangeError) /\
  (forall count, getUint32 buf 80 = Ret count ->
     let n := N.to_nat count in
     ((binary_bytes_read n <= List.length buf)%nat ->
      exists tris, parseBinarySTL float32 buf = Ret tris /\
                   List.length tris = n) /\
     ((List.length buf < binary_bytes_read n)%nat ->
      parseBinarySTL float32 buf = Throw RangeError)).
Proof.
unfold parseBinarySTL. split.
- intros Hlen. unfold getUint32. rewrite bytes_at_short by lia. reflexivity.
- intros count Hc. cbv zeta. rewrite Hc. cbn [bind].
  set (n := N.to_nat count).
  assert (H84 : (84 <= List.length buf)%nat).
  { unfold getUint32, bytes_at in Hc.
    destruct (Nat.leb (80 + 4) (List.length buf)) eqn:E; [|discriminate].
    apply Nat.leb_le in E. exact E. }
  destruct (read_triangles_cases buf n 0) as [[Hlen Hok]|[Hlen Hbad]].
  + split; [intros _; exact Hok|].
    intros Hshort. unfold binary_bytes_read in Hshort.
    destruct n; [lia|]. lia.
  + split; [|intros _; exact Hbad].
    intros Hfits. unfold binary_bytes_read in Hfits.
    destruct n; [lia|]. lia.
Qed.

(** *** The text reader *)

(** Once a [facet] line has been read, no line throws. *)
Lemma ascii_line_after_facet (st : asciiState num) (line : string) :
  currentTriangle st <> None ->
  exists st', ascii_line parseFloat st line = Ret st' /\
              currentTriangle st' <> None.
Proof.
intros Hcur. unfold ascii_line.
destruct (String.prefix "facet" (trim line)).
{ eexists. split; [reflexivity | discriminate]. }
destruct (String.prefix "vertex" (trim line)).
{ destruct (currentTriangle st) as [t|] eqn:Et; [|congruence].
  destruct (vertexCount st) as [|[|[|k]]];
    (eexists; split; [reflexivity | cbn [currentTriangle]; congruence]). }
destruct (String.prefix "endfacet" (trim line)).
{ destruct (currentTriangle st) as [[[a|] [b|] [c|]]|] eqn:Et;
    try congruence;
    (eexists; split; [reflexivity | cbn [currentTriangle]; congruence]). }
eexists. split; [reflexivity | exact Hcur].
Qed.

Lemma ascii_lines_after_facet (lines : list string) :
  forall st : asciiState num,
    currentTriangle st <> None ->
    exists st', ascii_lines parseFloat st lines = Ret st'.
Proof.
induction lines as [|line rest IH]; intros st Hcur; cbn [ascii_lines].
- eexists. reflexivity.
- destruct (ascii_line_after_facet st line Hcur) as (st1 & -> & Hcur1).
  cbn [bind]. exact (IH st1 Hcur1).
Qed.

(** From the start, the only failure is a [vertex] line before the first
    [facet] line. *)
Lemma ascii_lines_from_start (lines : list string) :
  forall tris : list (triangle num),
    let st := {| triangles := tris; currentTriangle := None; vertexCount := 0 |} in
    if vertex_before_facet lines
    then ascii_lines parseFloat st lines = Throw TypeError
    else exists st', ascii_lines parseFloat st lines = Ret st'.
Proof.
induction lines as [|line rest IH]; intros tris; cbn zeta;
  cbn [vertex_before_facet ascii_lines].
- eexists. reflexivity.
- unfold ascii_line. cbn [currentTriangle vertexCount triangles].
  destruct (String.prefix "facet" (trim line)).
  { cbn [bind]. apply ascii_lines_after_facet. discriminate. }
  destruct (String.prefix "vertex" (trim line)); [reflexivity|].
  destruct (String.prefix "endfacet" (trim line)); cbn [bind]; exact (IH tris).
Qed.

Lemma gathering_vertex (tris : list (triangle num)) (seen : list (vertex num))
    (st : asciiState num) (line : string) :
  gathering tris seen st ->
  String.prefix "facet" (trim line) = false ->
  String.prefix "vertex" (trim line) = true ->
  exists st', ascii_line parseFloat st line = Ret st' /\
              gathering tris (seen ++ [vertex_of_line parseFloat line]) st'.
Proof.
intros (Ht & Hn & Hc) Hf Hv. unfold ascii_line. rewrite Hf, Hv, Hc, Hn.
fold (vertex_of_line parseFloat line).
destruct seen as [|a [|b [|c seen]]]; cbn [List.length];
  (eexists; split; [reflexivity|]);
  (split; [exact Ht|]); (split; [cbn; rewrite ?length_app; simpl; lia|]);
  cbn [currentTriangle pv1 pv2 pv3].
- reflexivity.
- reflexivity.
- reflexivity.
- reflexivity.
Qed.

Lemma gathering_body (tris : list (triangle num)) (body : list string) :
  forall (seen : list (vertex num)) (st : asciiState num) (rest : list string),
    gathering tris seen st ->
    Forall (fun l => String.prefix "facet" (trim l) = false /\
                     String.prefix "endfacet" (trim l) = false) body ->
    exists st',
      gathering tris
        (seen ++ map (vertex_of_line parseFloat)
                   (filter (fun l => String.prefix "vertex" (trim l)) body)) st' /\
      ascii_lines parseFloat st (body ++ rest)
      = ascii_lines parseFloat st' rest.
Proof.
induction body as [|line ls IH]; intros seen st rest Hg Hall.
- exists st. cbn [filter map]. rewrite app_nil_r. split; [exact Hg | reflexivity].
- inversion Hall as [|? ? [Hf He] Hall']; subst. cbn [filter].
  destruct (String.prefix "vertex" (trim line)) eqn:Hv.
  + destruct (gathering_vertex line Hg Hf Hv) as (st1 & H1 & Hg1).
    destruct (IH _ st1 rest Hg1 Hall') as (st2 & Hg2 & H2).
    exists st2. split.
    * cbn [map]. rewrite <- app_assoc in Hg2. exact Hg2.
    * cbn [app ascii_lines]. rewrite H1. cbn [bind]. exact H2.
  + destruct (IH _ st rest Hg Hall') as (st2 & Hg2 & H2).
    exists st2. split; [exact Hg2|].
    cbn [app ascii_lines]. unfold ascii_line at 1. rewrite Hf, Hv, He.
    cbn [bind]. exact H2.
Qed.

(** A record: a [facet] line, then lines that start neither a record nor
    end one (the [vertex] lines, [outer loop], [endloop] and any other),
    then an [endfacet] line.  It adds the triangle of its first three
    vertices when it has three or more, and nothing when it has fewer; it
    never throws. *)
Lemma ascii_record (st : asciiState num) (facet_line : string)
    (body : list string) (end_line : string) :
  String.prefix "facet" (trim facet_line) = true ->
  Forall (fun l => String.prefix "facet" (trim l) = false /\
                   String.prefix "endfacet" (trim l) = false) body ->
  String.prefix "endfacet" (trim end_line) = true ->
  exists st',
    ascii_lines parseFloat st (facet_line :: body ++ [end_line])
    = Ret st' /\
    triangles st'
    = triangles st ++
      match map (vertex_of_line parseFloat)
              (filter (fun l => String.prefix "vertex" (trim l)) body) with
      | a :: b :: c :: _ => [ {| v1 := a; v2 := b; v3 := c |} ]
      | _ => []
      end.
Proof.
intros Hf Hall He.
cbn [ascii_lines]. unfold ascii_line at 1. rewrite Hf. cbn [bind].
assert (Hg0 : gathering (triangles st) []
                 {| triangles := triangles st;
                    currentTriangle :=
                      Some {| pv1 := None; pv2 := None; pv3 := None |};
                    vertexCount := 0 |}) by (repeat split).
destruct (@gathering_body _ _ _ _ [end_line] Hg0 Hall)
  as (st1 & (Ht & Hn & Hc) & Hrun).
rewrite Hrun. cbn [app ascii_lines]. unfold ascii_line.
apply prefix_app in He. destruct He as [post He]. rewrite He.
change (String.prefix "facet" ("endfacet" ++ post)%string) with false.
change (String.prefix "vertex" ("endfacet" ++ post)%string) with false.
assert (Hp : String.prefix "endfacet" ("endfacet" ++ post)%string = true)
  by (apply prefix_app; eexists; reflexivity).
rewrite Hp, Hc.
destruct (map (vertex_of_line parseFloat)
            (filter (fun l => String.prefix "vertex" (trim l)) body))
  as [|a [|b [|c more]]];
  cbn [nth_error bind]; eexists;
  (split; [reflexivity|]); cbn [triangles]; rewrite ?Ht, ?app_nil_r; reflexivity.
Qed.

(** C7, as the code has it.  Neither reader checks its input.
    [parseBinarySTL] throws a [RangeError] exactly when the buffer is too
    short for the bytes it reads: fewer than 84, or fewer than
    [50 * n + 82] for a count [n] above zero; otherwise it returns [n]
    triangles, whatever follows them.  Of a text of bytes below 128,
    [parseASCIISTL] throws (a [TypeError]) exactly when a [vertex] line
    comes before the first [facet] line.  A record is a [facet] line, any
    lines that start with neither [facet] nor [endfacet] (the [vertex]
    lines, [outer loop], [endloop], others), and an [endfacet] line: with
    fewer than three [vertex] lines it adds no triangle, with more it
    adds the triangle of the first three, and the rest of the file is
    read on. *)
Theorem readers_do_not_validate (buf : buffer) :
  (((List.length buf < 84)%nat ->
    parseBinarySTL float32 buf = Throw RangeError) /\
   (forall count, getUint32 buf 80 = Ret count ->
      let n := N.to_nat count in
      ((binary_bytes_read n <= List.length buf)%nat ->
       exists tris, parseBinarySTL float32 buf = Ret tris /\
                    List.length tris = n) /\
      ((List.length buf < binary_bytes_read n)%nat ->
       parseBinarySTL float32 buf = Throw RangeError))) /\
  (seven_bit buf = true ->
   if vertex_before_facet (split_lines (string_of_list_byte buf))
   then parseASCIISTL parseFloat buf = Throw TypeError
   else exists tris, parseASCIISTL parseFloat buf = Ret tris) /\
  (forall (st : asciiState num) facet_line body end_line,
      Forall (fun l => seven_bit_line l = true)
        (facet_line :: body ++ [end_line]) ->
      String.prefix "facet" (trim facet_line) = true ->
      Forall (fun l => String.prefix "facet" (trim l) = false /\
                       String.prefix "endfacet" (trim l) = false) body ->
      String.prefix "endfacet" (trim end_line) = true ->
      exists st',
        ascii_lines parseFloat st (facet_line :: body ++ [end_line])
        = Ret st' /\
        triangles st'
        = triangles st ++
          match map (vertex_of_line parseFloat)
                  (filter (fun l => String.prefix "vertex" (trim l)) body) with
          | a :: b :: c :: _ => [ {| v1 := a; v2 := b; v3 := c |} ]
          | _ => []
          end).
Proof.
split; [exact (parseBinarySTL_cases buf)|]. split.
- intros _. unfold parseASCIISTL.
  pose proof (ascii_lines_from_start
                (split_lines (string_of_list_byte buf)) []) as Hs.
  cbn zeta in Hs.
  destruct (vertex_before_facet (split_lines (string_of_list_byte buf))).
  + rewrite Hs. reflexivity.
  + destruct Hs as [st' ->]. cbn [bind]. eexists. reflexivity.
- intros st facet_line body end_line _. apply ascii_record.
Qed.

End ParserFacts.

Section ParserExamples.
Import Examples.
Local Open Scope string_scope.

(** C7 as claimed fails.  The binary file declares one triangle and is 50
    bytes longer than that; the text file has a record with two vertices
    and one with four.  Both are read without an error, and a mesh of one
    triangle is returned for each. *)
Lemma malformed_files_are_read :
  getUint32 surplus_binary 80 = Ret 1%N /\
  List.length surplus_binary = (84 + 50 * 2)%nat /\
  parseBinarySTL F64io.float32 surplus_binary = Ret [zero_triangle] /\
  parseASCIISTL F64io.parseFloat ragged_text
  = Ret [ {| v1 := V 0 0 0; v2 := V 1 0 0; v3 := V 0 1 0 |} ].
Proof.
split; [vm_compute; reflexivity|].
split; [vm_compute; reflexivity|].
split; vm_compute; reflexivity.
Qed.

(** The second record of the ragged file, with its [outer loop] and
    [endloop] lines and four vertices, read after the first: one
    triangle, of the first three vertices. *)
Lemma readers_do_not_validate_ragged :
  seven_bit ragged_text = true /\
  (exists tris, parseASCIISTL F64io.parseFloat ragged_text = Ret tris) /\
  exists st',
    ascii_lines F64io.parseFloat
      {| triangles := []; currentTriangle := None; vertexCount := 0 |}
      ("facet normal 0 0 1"
       :: [ "  outer loop"; "    vertex 0 0 0"; "    vertex 1 0 0";
            "    vertex 0 1 0"; "    vertex 9 9 9"; "  endloop" ]
       ++ [ "endfacet" ])
    = Ret st' /\
    triangles st' = [ {| v1 := V 0 0 0; v2 := V 1 0 0; v3 := V 0 1 0 |} ].
Proof.
pose proof (readers_do_not_validate F64io.float32 F64io.parseFloat ragged_text)
  as (_ & Htext & Hrecord).
split; [vm_compute; reflexivity|]. split.
- specialize (Htext ltac:(vm_compute; reflexivity)).
  assert (E : vertex_before_facet
                (split_lines (string_of_list_byte ragged_text)) = false)
    by (vm_compute; reflexivity).
  rewrite E in Htext. exact Htext.
- destruct (Hrecord
              {| triangles := []; currentTriangle := None; vertexCount := 0 |}
              "facet normal 0 0 1"
              [ "  outer loop"; "    vertex 0 0 0"; "    vertex 1 0 0";
                "    vertex 0 1 0"; "    vertex 9 9 9"; "  endloop" ]
              "endfacet")
    as (st' & Hrun & Htris).
  + repeat constructor.
  + reflexivity.
  + repeat constructor.
  + reflexivity.
  + exists st'. split; [exact Hrun|]. rewrite Htris. vm_compute. reflexivity.
Defined.

(** C8.  The code departs from the claim, and from its own comment
    [Check if binary or ASCII].  This file is a binary STL of one
    triangle.  Its header does not begin with [solid], in any case of
    letters, but contains [Solid]: [includes] finds it, [parseSTL] takes
    the file for text and returns a mesh without triangles, where the
    binary reader finds the triangle. *)
Lemma solid_inside_header_selects_text :
  String.prefix "solid"
    (toLowerCase (string_of_list_byte (firstn 80 cad_binary))) = false /\
  parseSTL F64io.float32 F64io.parseFloat cad_binary = Ret [] /\
  parseASCIISTL F64io.parseFloat cad_binary = Ret [] /\
  parseBinarySTL F64io.float32 cad_binary = Ret [zero_triangle].
Proof.
split; [vm_compute; reflexivity|].
split; [vm_compute; reflexivity|].
split; vm_compute; reflexivity.
Qed.

End ParserExamples.

(* ================================================================== *)
(** * Further properties: bounding boxes *)

Section BoxFacts.
Variable num : Type.
Context {NUM : JSNumber num}.
Local Open Scope num_scope.

Lemma scan_coordinates (vs : list (vertex num)) (a : extremes num) :
  let a' := fold_left (@scan_vertex num NUM) vs a in
  forall ax,
    coordinate ax {| vx := minX a'; vy := minY a'; vz := minZ a' |}
    = running_min (map (coordinate ax) vs)
        (coordinate ax {| vx := minX a; vy := minY a; vz := minZ a |}) /\
    coordinate ax {| vx := maxX a'; vy := maxY a'; vz := maxZ a' |}
    = running_max (map (coordinate ax) vs)
        (coordinate ax {| vx := maxX a; vy := maxY a; vz := maxZ a |}).
Proof.
revert a. induction vs as [|v vs IH]; intros a; cbn zeta.
- intros ax. split; reflexivity.
- intros ax. cbn [fold_left map]. specialize (IH (scan_vertex a v) ax).
  cbn zeta in IH. destruct IH as [I1 I2]. rewrite I1, I2.
  destruct ax; split; reflexivity.
Qed.

Context {ORDER : OrderLaws num}.

Lemma running_max_bounds (xs : list num) (m : num) :
  (m <=? m) = true ->
  let r := running_max xs m in
  (r <=? r) = true /\ (m <=? r) = true /\
  (forall x, In x xs -> (x <=? x) = true -> (x <=? r) = true) /\
  (r = m \/ In r xs).
Proof.
revert m. induction xs as [|x xs IH]; intros m Hm; cbn zeta.
- cbn; repeat split; auto; intros x [].
- unfold running_max. cbn [fold_left]. fold (running_max xs (if m <? x then x else m)).
  assert (Hstep : let m' := if m <? x then x else m in
            (m' <=? m') = true /\ (m <=? m') = true /\
            ((x <=? x) = true -> (x <=? m') = true) /\ (m' = m \/ m' = x)).
  { cbn zeta. destruct (m <? x) eqn:E.
    - pose proof (lt_le _ _ E) as Hle.
      destruct (le_numbers _ _ Hle) as [_ Hx]. auto.
    - repeat split; auto. intros Hx. exact (le_total _ _ Hm Hx E). }
  cbn zeta in Hstep. destruct Hstep as (H1 & H2 & H3 & H4).
  destruct (IH _ H1) as (I1 & I2 & I3 & I4). cbn zeta in *.
  repeat split.
  + exact I1.
  + exact (le_trans _ _ _ H2 I2).
  + intros y [<-|Hy] Hnum.
    * exact (le_trans _ _ _ (H3 Hnum) I2).
    * exact (I3 y Hy Hnum).
  + destruct I4 as [I4|I4].
    * destruct H4 as [H4|H4]; rewrite I4, H4; [now left | right; now left].
    * right. now right.
Qed.

Lemma running_min_bounds (xs : list num) (m : num) :
  (m <=? m) = true ->
  let r := running_min xs m in
  (r <=? r) = true /\ (r <=? m) = true /\
  (forall x, In x xs -> (x <=? x) = true -> (r <=? x) = true) /\
  (r = m \/ In r xs).
Proof.
revert m. induction xs as [|x xs IH]; intros m Hm; cbn zeta.
- cbn; repeat split; auto; intros x [].
- unfold running_min. cbn [fold_left]. fold (running_min xs (if x <? m then x else m)).
  assert (Hstep : let m' := if x <? m then x else m in
            (m' <=? m') = true /\ (m' <=? m) = true /\
            ((x <=? x) = true -> (m' <=? x) = true) /\ (m' = m \/ m' = x)).
  { cbn zeta. destruct (x <? m) eqn:E.
    - pose proof (lt_le _ _ E) as Hle.
      destruct (le_numbers _ _ Hle) as [Hx _]. auto.
    - repeat split; auto. intros Hx. exact (le_total _ _ Hx Hm E). }
  cbn zeta in Hstep. destruct Hstep as (H1 & H2 & H3 & H4).
  destruct (IH _ H1) as (I1 & I2 & I3 & I4). cbn zeta in *.
  repeat split.
  + exact I1.
  + exact (le_trans _ _ _ I2 H2).
  + intros y [<-|Hy] Hnum.
    * exact (le_trans _ _ _ I2 (H3 Hnum)).
    * exact (I3 y Hy Hnum).
  + destruct I4 as [I4|I4].
    * destruct H4 as [H4|H4]; rewrite I4, H4; [now left | right; now left].
    * right. now right.
Qed.

(** X1.  The bounding box encloses the mesh.  On each axis, every vertex
    coordinate that is a number lies between [min] and [max]; each bound
    is the coordinate of some vertex, unless it is still the infinity the
    scan started from; and [size] is [max - min]. *)
Theorem getBoundingBox_encloses (s : STLSlicer num) (m : list (triangle num))
    (bbox : boundingBox num) :
  (ninfinity <=? ninfinity) = true ->
  mesh s = Some m ->
  getBoundingBox s = Some bbox ->
  forall ax : axis,
    (forall tri v, In tri m -> In v (vertices tri) ->
       (coordinate ax v <=? coordinate ax v) = true ->
       (coordinate ax (bb_min bbox) <=? coordinate ax v) = true /\
       (coordinate ax v <=? coordinate ax (bb_max bbox)) = true) /\
    (coordinate ax (bb_min bbox) = ninfinity \/
     exists tri v, In tri m /\ In v (vertices tri) /\
                   coordinate ax v = coordinate ax (bb_min bbox)) /\
    (coordinate ax (bb_max bbox) = nneg_infinity \/
     exists tri v, In tri m /\ In v (vertices tri) /\
                   coordinate ax v = coordinate ax (bb_max bbox)) /\
    coordinate ax (bb_size bbox)
    = coordinate ax (bb_max bbox) - coordinate ax (bb_min bbox).
Proof.
intros Hinf Hm Hb ax.
unfold getBoundingBox in Hb. rewrite Hm in Hb.
destruct m as [|t0 m']; [discriminate|].
injection Hb as <-. cbn [bb_min bb_max bb_size].
rewrite scan_mesh_as_vertices.
set (vs := flat_map vertices (t0 :: m')).
destruct (scan_coordinates vs (extremes_init (num:=num)) ax) as [Emin Emax].
cbn zeta in Emin, Emax.
assert (Hin : forall x, In x (map (coordinate ax) vs) ->
          exists tri v, In tri (t0 :: m') /\ In v (vertices tri) /\ coordinate ax v = x).
{ intros x Hx. apply in_map_iff in Hx. destruct Hx as (v & <- & Hv).
  apply in_flat_map in Hv. destruct Hv as (tri & Htri & Hv). eauto. }
assert (Hi0 : coordinate ax {| vx := minX (extremes_init (num:=num));
                               vy := minY (extremes_init (num:=num));
                               vz := minZ (extremes_init (num:=num)) |} = ninfinity)
  by (destruct ax; reflexivity).
assert (Ha0 : coordinate ax {| vx := maxX (extremes_init (num:=num));
                               vy := maxY (extremes_init (num:=num));
                               vz := maxZ (extremes_init (num:=num)) |} = nneg_infinity)
  by (destruct ax; reflexivity).
rewrite Hi0 in Emin. rewrite Ha0 in Emax.
destruct (@running_min_bounds (map (coordinate ax) vs) ninfinity Hinf) as (_ & _ & Hlo & Hlo').
destruct (@running_max_bounds (map (coordinate ax) vs) nneg_infinity neg_infinity_number)
  as (_ & _ & Hhi & Hhi').
cbn zeta in *. rewrite <- Emin in Hlo, Hlo'. rewrite <- Emax in Hhi, Hhi'.
split; [|split; [|split]].
- intros tri v Htri Hv Hnum.
  assert (Hx : In (coordinate ax v) (map (coordinate ax) vs)).
  { apply in_map. apply in_flat_map. exists tri. split; assumption. }
  split; [exact (Hlo _ Hx Hnum) | exact (Hhi _ Hx Hnum)].
- destruct Hlo' as [Hl|Hl]; [left; exact Hl | right; exact (Hin _ Hl)].
- destruct Hhi' as [Hh|Hh]; [left; exact Hh | right; exact (Hin _ Hh)].
- destruct ax; reflexivity.
Qed.

End BoxFacts.

Section LayerBoxFacts.
Variable num : Type.
Context {NUM : JSNumber num}.
Local Open Scope num_scope.

Lemma scan_point_coordinates (ps : list (point num)) (b : layerBox num) :
  let b' := fold_left (@scan_point num NUM) ps b in
  lb_minX b' = running_min (map (@px num) ps) (lb_minX b) /\
  lb_minY b' = running_min (map (@py num) ps) (lb_minY b) /\
  lb_maxX b' = running_max (map (@px num) ps) (lb_maxX b) /\
  lb_maxY b' = running_max (map (@py num) ps) (lb_maxY b).
Proof.
revert b. induction ps as [|p ps IH]; intros b; cbn zeta.
- repeat split.
- cbn [fold_left map]. specialize (IH (scan_point b p)). cbn zeta in IH.
  destruct IH as (I1 & I2 & I3 & I4). rewrite I1, I2, I3, I4.
  repeat split.
Qed.

Context {ORDER : OrderLaws num}.

(** X2.  [getLayerBoundingBox] returns [null] exactly when there is no
    point; otherwise every [x] and [y] of a point that is a number lies
    within the box returned. *)
Theorem getLayerBoundingBox_encloses (perimeter : list (point num)) :
  (ninfinity <=? ninfinity) = true ->
  (getLayerBoundingBox perimeter = None <-> perimeter = []) /\
  forall b, getLayerBoundingBox perimeter = Some b ->
    forall p, In p perimeter ->
      ((px p <=? px p) = true ->
       (lb_minX b <=? px p) = true /\ (px p <=? lb_maxX b) = true) /\
      ((py p <=? py p) = true ->
       (lb_minY b <=? py p) = true /\ (py p <=? lb_maxY b) = true).
Proof.
intros Hinf. split.
- destruct perimeter; cbn; split; congruence.
- intros b Hb p Hp.
  destruct perimeter as [|p0 ps]; [destruct Hp|].
  unfold getLayerBoundingBox in Hb. injection Hb as <-.
  destruct (scan_point_coordinates (p0 :: ps)
              {| lb_minX := ninfinity; lb_minY := ninfinity;
                 lb_maxX := nneg_infinity; lb_maxY := nneg_infinity |})
    as (E1 & E2 & E3 & E4).
  cbn zeta in *. cbn [lb_minX lb_minY lb_maxX lb_maxY] in E1, E2, E3, E4.
  cbn [fold_left] in *.
  rewrite E1, E2, E3, E4.
  destruct (@running_min_bounds _ _ _ (map (@px num) (p0 :: ps)) ninfinity Hinf)
    as (_ & _ & Hx1 & _).
  destruct (@running_min_bounds _ _ _ (map (@py num) (p0 :: ps)) ninfinity Hinf)
    as (_ & _ & Hy1 & _).
  destruct (@running_max_bounds _ _ _ (map (@px num) (p0 :: ps)) nneg_infinity
              neg_infinity_number) as (_ & _ & Hx2 & _).
  destruct (@running_max_bounds _ _ _ (map (@py num) (p0 :: ps)) nneg_infinity
              neg_infinity_number) as (_ & _ & Hy2 & _).
  cbn zeta in *.
  split; intros Hnum; split.
  + apply Hx1; [apply in_map; exact Hp | exact Hnum].
  + apply Hx2; [apply in_map; exact Hp | exact Hnum].
  + apply Hy1; [apply in_map; exact Hp | exact Hnum].
  + apply Hy2; [apply in_map; exact Hp | exact Hnum].
Qed.
End LayerBoxFacts.

(* ================================================================== *)
(** * Further properties: slicing *)

Section SliceMore.
Variable num : Type.
Context {NUM : JSNumber num}.
Local Open Scope num_scope.

Lemma triangle_segment_length (z : num) (tri : triangle num) :
  (List.length (triangle_segment z tri) <= 1)%nat.
Proof.
unfold triangle_segment.
destruct (triangle_intersections z tri) as [|a [|b [|c l]]]; simpl; lia.
Qed.

Lemma sliceAtZ_length (m : list (triangle num)) (z : num) :
  (List.length (sliceAtZ m z) <= List.length m)%nat.
Proof.
unfold sliceAtZ. induction m as [|tri m IH]; simpl; [lia|].
rewrite length_app. pose proof (triangle_segment_length z tri). lia.
Qed.

Lemma filter_seq_increasing (f : nat -> bool) (n : nat) :
  forall a, StronglySorted lt (filter f (seq a n)).
Proof.
induction n as [|n IH]; intros a; simpl; [constructor|].
destruct (f a); [|apply IH].
constructor; [apply IH|].
apply Forall_forall. intros k Hk. apply filter_In in Hk.
destruct Hk as [Hk _]. apply in_seq in Hk. lia.
Qed.

(** X3.  Every layer [sliceMesh] returns is at the height of its loop
    index and holds the segments of the plane at that height: at least
    one, and at most one for each triangle of the mesh.  The loop indices
    of the layers returned increase strictly. *)
Theorem sliceMesh_layers_wellformed (s : STLSlicer num)
    (m : list (triangle num)) (layers : list (layer num)) :
  mesh s = Some m ->
  sliceMesh s = Ret (Some layers) ->
  exists bbox,
    getBoundingBox s = Some bbox /\
    (forall l, In l layers ->
       layer_z l = sliceHeight s bbox (layerNum l) /\
       segments l = sliceAtZ m (layer_z l) /\
       (1 <= List.length (segments l) <= List.length m)%nat) /\
    StronglySorted lt (map (@layerNum num) layers).
Proof.
intros Hm Hr. unfold sliceMesh in Hr. rewrite Hm in Hr.
destruct (getBoundingBox s) as [bbox|]; [|discriminate].
exists bbox. split; [reflexivity|].
destruct (ncount_lt (numLayers s bbox)) as [n|]; [|discriminate].
injection Hr as <-. rewrite slice_layers_kept. split.
- intros l Hl. apply in_map_iff in Hl. destruct Hl as (k & <- & Hk).
  cbn [layer_z layerNum segments]. split; [reflexivity|]. split; [reflexivity|].
  apply filter_In in Hk. destruct Hk as [_ Hcut]. unfold cuts in Hcut.
  pose proof (sliceAtZ_length m (sliceHeight s bbox k)).
  destruct (sliceAtZ m (sliceHeight s bbox k)); [discriminate|]. simpl in *. lia.
- rewrite map_map. cbn [layerNum]. rewrite map_id. apply filter_seq_increasing.
Qed.

End SliceMore.

Section ZeroLayerHeight.
Local Open Scope float_scope.

Lemma positive_over_zero (x : float) :
  (0 <? x) = true -> x / 0 = infinity.
Proof.
intros Hx. rewrite FloatAxioms.ltb_spec in Hx.
rewrite <- (SF2Prim_Prim2SF (x / 0)), FloatAxioms.div_spec.
change (Prim2SF 0) with (S754_zero false) in *.
destruct (Prim2SF x) as [sx|sx| |sx mx ex]; try discriminate.
- destruct sx; [discriminate|]. reflexivity.
- destruct sx; [discriminate|]. reflexivity.
Qed.

(** X5.  In binary64, with a layer height of zero and a mesh of
    positive height, [sliceMesh] never finishes: the loop bound
    [Math.ceil(size.z / 0)] is [Infinity]. *)
Theorem sliceMesh_zero_layer_height (s : STLSlicer float)
    (bbox : boundingBox float) :
  getBoundingBox s = Some bbox ->
  layerHeight s = 0 ->
  (0 <? vz (bb_size bbox)) = true ->
  sliceMesh s = Diverge.
Proof.
intros Hb Hh Hpos. unfold sliceMesh. rewrite Hb.
destruct (mesh s) as [m|] eqn:Hm.
- unfold numLayers. rewrite Hh. cbn [ndiv float_number].
  rewrite (positive_over_zero Hpos). reflexivity.
- unfold getBoundingBox in Hb. rewrite Hm in Hb. discriminate.
Qed.
End ZeroLayerHeight.

(* ================================================================== *)
(** * Further properties: layer classification *)

Section SequenceFacts.
Variable num : Type.
Context {NUM : JSNumber num} {MATH : JSMath num}.

Lemma flags_kept_refl (q : layerSequence) : flags_kept q q.
Proof. split; auto. Qed.

Lemma marks_added_refl (sq : list layerSequence) : marks_added sq sq.
Proof. induction sq; constructor; [apply flags_kept_refl | assumption]. Qed.

Lemma marks_added_trans (a b c : list layerSequence) :
  marks_added a b -> marks_added b c -> marks_added a c.
Proof.
intros Hab. revert c. induction Hab as [|x y l l' Hxy Hl IH]; intros c Hbc.
- inversion Hbc. constructor.
- inversion Hbc as [|? z ? l'' Hyz Hl']; subst. constructor.
  + destruct Hxy, Hyz. split; auto.
  + apply IH. assumption.
Qed.

Lemma marks_added_update (f : layerSequence -> layerSequence) (i : nat)
    (sq : list layerSequence) :
  (forall q, flags_kept q (f q)) -> marks_added sq (update i f sq).
Proof.
intros Hf. revert i. induction sq as [|q sq IH]; intros i; destruct i; simpl.
- constructor.
- constructor.
- constructor; [apply Hf | apply marks_added_refl].
- constructor; [apply flags_kept_refl | apply IH].
Qed.

Lemma marks_added_setTop (i : nat) (sq : list layerSequence) :
  marks_added sq (setTop i sq).
Proof. apply marks_added_update. intros q. split; auto. Qed.

Lemma marks_added_setBottom (i : nat) (sq : list layerSequence) :
  marks_added sq (setBottom i sq).
Proof. apply marks_added_update. intros q. split; auto. Qed.

Lemma marks_added_fold {A : Type}
    (step : list layerSequence -> A -> list layerSequence) (xs : list A) :
  (forall sq x, marks_added sq (step sq x)) ->
  forall sq, marks_added sq (fold_left step xs sq).
Proof.
intros Hstep. induction xs as [|x xs IH]; intros sq; simpl.
- apply marks_added_refl.
- eapply marks_added_trans; [apply Hstep | apply IH].
Qed.

Lemma marks_added_top_step (tbl : nat) (layers : list (layer num))
    (sq : list layerSequence) (i : nat) :
  marks_added sq (top_step tbl layers sq i).
Proof.
unfold top_step. destruct (Nat.leb _ i); [apply marks_added_setTop|].
destruct (nth_error layers i) as [cur|]; [|apply marks_added_refl].
destruct (geometryDecreases tbl layers cur i); [|apply marks_added_refl].
apply marks_added_fold. intros q k. apply marks_added_setTop.
Qed.

Lemma marks_added_near_top (s : STLSlicer num) (layers : list (layer num))
    (sq : list layerSequence) (topZ : num) :
  marks_added sq (mark_near_top s layers sq topZ).
Proof.
unfold mark_near_top. apply marks_added_fold. intros q i.
destruct (nth_error layers i); [|apply marks_added_refl].
destruct (_ && _); [apply marks_added_setTop | apply marks_added_refl].
Qed.

Lemma marks_added_near_bottom (s : STLSlicer num) (layers : list (layer num))
    (sq : list layerSequence) (bottomZ : num) :
  marks_added sq (mark_near_bottom s layers sq bottomZ).
Proof.
unfold mark_near_bottom. apply marks_added_fold. intros q i.
destruct (nth_error layers i); [|apply marks_added_refl].
destruct (_ && _); [apply marks_added_setBottom | apply marks_added_refl].
Qed.

Lemma marks_added_nth (sq sq' : list layerSequence) (i : nat)
    (q' : layerSequence) :
  marks_added sq sq' -> nth_error sq' i = Some q' ->
  exists q, nth_error sq i = Some q /\ flags_kept q q'.
Proof.
intros H. revert i. induction H as [|x y l l' Hxy Hl IH]; intros i.
- destruct i; discriminate.
- destruct i as [|i]; simpl.
  + intros [= <-]. eauto.
  + apply IH.
Qed.

Lemma marks_added_length (sq sq' : list layerSequence) :
  marks_added sq sq' -> List.length sq' = List.length sq.
Proof. intros H. symmetry. exact (Forall2_length H). Qed.

Lemma update_sets (f : layerSequence -> layerSequence) (i : nat)
    (sq : list layerSequence) (q' : layerSequence) :
  nth_error (update i f sq) i = Some q' ->
  exists q, q' = f q.
Proof.
revert i. induction sq as [|q sq IH]; intros i; destruct i as [|i]; simpl.
- discriminate.
- discriminate.
- intros [= <-]. eauto.
- apply IH.
Qed.

(** A loop that only adds flags, and whose pass for [i] flags entry [i],
    leaves entry [i] flagged if [i] is among the indices it visits. *)
Lemma fold_flags (flag : layerSequence -> bool)
    (step : list layerSequence -> nat -> list layerSequence)
    (visit : nat -> Prop) (xs : list nat) (i : nat) :
  (forall q q', flags_kept q q' -> flag q = true -> flag q' = true) ->
  (forall sq x, marks_added sq (step sq x)) ->
  (forall sq q, visit i -> nth_error (step sq i) i = Some q -> flag q = true) ->
  In i xs -> visit i ->
  forall sq q, nth_error (fold_left step xs sq) i = Some q -> flag q = true.
Proof.
intros Hflag Hstep Hset Hin Hv. induction xs as [|x xs IH]; [destruct Hin|].
intros sq q. cbn [fold_left]. intros Hq.
destruct Hin as [->|Hin].
- destruct (marks_added_nth i (marks_added_fold step xs Hstep (step sq i)) Hq)
    as (q0 & Hq0 & Hk).
  exact (Hflag _ _ Hk (Hset _ _ Hv Hq0)).
- exact (IH Hin _ _ Hq).
Qed.

Lemma analyzeLayerSequences_stages (s : STLSlicer num)
    (layers : list (layer num)) :
  let n := List.length layers in
  let tbl := topBottomLayers s in
  let sq0 := repeat {| isBottom := false; isTop := false |} n in
  let sq1 := fold_left (fun q i => setBottom i q) (seq 0 (Nat.min tbl n)) sq0 in
  let sq2 := fold_left (top_step tbl layers) (seq 0 n) sq1 in
  layers <> [] ->
  marks_added sq0 sq1 /\ marks_added sq1 sq2 /\
  marks_added sq2 (analyzeLayerSequences s layers).
Proof.
cbn zeta. intros Hne. unfold analyzeLayerSequences.
destruct layers as [|l0 ls] eqn:El; [congruence|].
rewrite <- El. clear El l0 ls Hne.
split; [apply marks_added_fold; intros; apply marks_added_setBottom|].
split; [apply marks_added_fold; intros; apply marks_added_top_step|].
eapply marks_added_trans;
  [|apply marks_added_fold; intros; apply marks_added_near_bottom].
apply marks_added_fold. intros. apply marks_added_near_top.
Qed.

Lemma analyzeLayerSequences_length (s : STLSlicer num)
    (layers : list (layer num)) :
  List.length (analyzeLayerSequences s layers) = List.length layers.
Proof.
destruct layers as [|l0 ls] eqn:El; [reflexivity|]. rewrite <- El.
assert (Hne : layers <> []) by (rewrite El; discriminate).
destruct (analyzeLayerSequences_stages s Hne) as (H01 & H12 & H2).
rewrite (marks_added_length H2), (marks_added_length H12),
  (marks_added_length H01).
apply repeat_length.
Qed.

(** X6.  [analyzeLayerSequences] returns one entry for each layer.
    Whatever the geometry, the first [topBottomLayers] entries are marked
    bottom and the last [topBottomLayers] entries are marked top. *)
Theorem analyzeLayerSequences_shell (s : STLSlicer num)
    (layers : list (layer num)) :
  let sequences := analyzeLayerSequences s layers in
  let n := List.length layers in
  List.length sequences = n /\
  (forall i q, nth_error sequences i = Some q ->
     (i < topBottomLayers s)%nat -> isBottom q = true) /\
  (forall i q, nth_error sequences i = Some q ->
     (n - topBottomLayers s <= i)%nat -> isTop q = true).
Proof.
cbn zeta. pose proof (analyzeLayerSequences_length s layers) as Hlen.
split; [exact Hlen|].
destruct layers as [|l0 ls] eqn:El.
{ split; intros [|i] q; discriminate. }
rewrite <- El in *.
assert (Hne : layers <> []) by (rewrite El; discriminate).
clear El l0 ls.
destruct (analyzeLayerSequences_stages s Hne) as (H01 & H12 & H2).
set (n := List.length layers) in *. set (tbl := topBottomLayers s) in *.
split.
- intros i q Hq Hi.
  assert (Hin : (i < n)%nat).
  { rewrite <- Hlen. apply nth_error_Some. congruence. }
  destruct (marks_added_nth i (marks_added_trans H12 H2) Hq)
    as (q1 & Hq1 & Hk).
  apply (proj1 Hk).
  apply (@fold_flags (@isBottom) (fun q i => setBottom i q) (fun _ => True)
           (seq 0 (Nat.min tbl n)) i)
    with (sq := repeat {| isBottom := false; isTop := false |} n).
  + intros a b Hab. exact (proj1 Hab).
  + intros; apply marks_added_setBottom.
  + intros sq q' _ Hq'. apply update_sets in Hq'. destruct Hq' as [q0 ->].
    reflexivity.
  + apply in_seq. lia.
  + exact I.
  + exact Hq1.
- intros i q Hq Hi.
  assert (Hin : (i < n)%nat).
  { rewrite <- Hlen. apply nth_error_Some. congruence. }
  destruct (marks_added_nth i H2 Hq) as (q2 & Hq2 & Hk).
  apply (proj2 Hk).
  apply (@fold_flags (@isTop) (top_step tbl layers)
           (fun i => (n - tbl <= i)%nat) (seq 0 n) i)
    with (sq := fold_left (fun q i => setBottom i q) (seq 0 (Nat.min tbl n))
                  (repeat {| isBottom := false; isTop := false |} n)).
  + intros a b Hab. exact (proj2 Hab).
  + intros; apply marks_added_top_step.
  + intros sq q' Hv Hq'. unfold top_step in Hq'. fold n in Hq'.
    apply Nat.leb_le in Hv. rewrite Hv in Hq'.
    apply update_sets in Hq'. destruct Hq' as [q0 ->]. reflexivity.
  + apply in_seq. lia.
  + exact Hi.
  + exact Hq2.
Qed.
End SequenceFacts.

(* ================================================================== *)
(** * Further properties: the perimeter tracer and point containment *)

Section TracerMore.
Variable num : Type.
Context {NUM : JSNumber num} {MATH : JSMath num}.

Lemma findConnection_sound (tolerance : num) (lastPoint : point num)
    (unused : list (segment num)) :
  forall p unused',
    findConnection tolerance lastPoint unused = Some (p, unused') ->
    In p (endpoints unused) /\ incl unused' unused.
Proof.
induction unused as [|seg rest IH]; intros p unused'; simpl.
- discriminate.
- destruct (nlt _ tolerance).
  { intros [= <- <-]. split; [right; now left | apply incl_tl, incl_refl]. }
  destruct (nlt _ tolerance).
  { intros [= <- <-]. split; [now left | apply incl_tl, incl_refl]. }
  destruct (findConnection tolerance lastPoint rest) as [[q rest']|];
    [|discriminate].
  intros [= <- <-]. destruct (IH _ _ eq_refl) as [Hp Hincl]. split.
  + right; right. exact Hp.
  + intros x [<-|Hx]; [now left | right; apply Hincl, Hx].
Qed.

Lemma endpoints_incl (a b : list (segment num)) :
  incl a b -> incl (endpoints a) (endpoints b).
Proof.
intros Hab p Hp. unfold endpoints in *. apply in_flat_map in Hp.
destruct Hp as (seg & Hseg & Hp). apply in_flat_map. exists seg.
split; [apply Hab, Hseg | exact Hp].
Qed.

Lemma connect_sound (tolerance : num) (fuel : nat) :
  forall (lastPoint : point num) (currentPath : path num)
         (unused : list (segment num)) currentPath' unused',
    connect fuel tolerance lastPoint currentPath unused
    = Some (currentPath', unused') ->
    exists extra,
      currentPath' = currentPath ++ extra /\
      incl extra (endpoints unused) /\
      incl unused' unused /\
      (List.length extra + List.length unused' = List.length unused)%nat.
Proof.
induction fuel as [|fuel IH]; intros lastPoint currentPath unused cp un.
- destruct unused; [|discriminate]. intros [= <- <-].
  exists []. rewrite app_nil_r. repeat split; auto using incl_refl, incl_nil_l.
- destruct unused as [|seg rest].
  { intros [= <- <-]. exists []. rewrite app_nil_r.
    repeat split; auto using incl_refl, incl_nil_l. }
  cbn [connect].
  destruct (findConnection tolerance lastPoint (seg :: rest))
    as [[p unused1]|] eqn:E.
  + intros Hc. destruct (IH _ _ _ _ _ Hc) as (extra & -> & Hin & Hincl & Hlen).
    destruct (findConnection_sound _ _ _ E) as [Hp Hsub].
    pose proof (findConnection_removes_one _ _ _ E) as Hone.
    exists (p :: extra). rewrite <- app_assoc. split; [reflexivity|].
    split; [|split].
    * intros x [<-|Hx]; [exact Hp|].
      exact (endpoints_incl Hsub x (Hin x Hx)).
    * exact (incl_tran Hincl Hsub).
    * simpl in *. lia.
  + intros [= <- <-]. exists []. rewrite app_nil_r.
    repeat split; auto using incl_refl, incl_nil_l.
Qed.

Lemma segments_used_app (a b : list (path num)) :
  segments_used (a ++ b) = (segments_used a + segments_used b)%nat.
Proof. unfold segments_used. rewrite map_app, list_sum_app. reflexivity. Qed.

Lemma trace_sound (tolerance : num) (fuel : nat) :
  forall (paths : list (path num)) (unused : list (segment num)) paths',
    trace fuel tolerance paths unused = Some paths' ->
    exists found,
      paths' = paths ++ found /\
      Forall (fun p => (3 <= List.length p)%nat /\ incl p (endpoints unused))
             found /\
      (segments_used found <= List.length unused)%nat.
Proof.
induction fuel as [|fuel IH]; intros paths unused paths'.
- destruct unused; [|discriminate]. intros [= <-].
  exists []. rewrite app_nil_r. repeat split; auto.
- destruct unused as [|firstSeg rest].
  { intros [= <-]. exists []. rewrite app_nil_r. repeat split; auto. }
  cbn [trace].
  destruct (connect fuel tolerance (seg_end firstSeg)
              [seg_start firstSeg; seg_end firstSeg] rest)
    as [[cp un]|] eqn:E; [|discriminate].
  destruct (connect_sound _ _ _ _ _ E) as (extra & -> & Hin & Hincl & Hlen).
  intros Ht. destruct (IH _ _ _ Ht) as (found & -> & Hall & Hused).
  assert (Hall' : Forall (fun p => (3 <= List.length p)%nat /\
                                   incl p (endpoints (firstSeg :: rest))) found).
  { eapply Forall_impl; [|exact Hall]. intros p [Hp1 Hp2]. split; [exact Hp1|].
    eapply incl_tran; [exact Hp2|].
    apply endpoints_incl. apply incl_tl. exact Hincl. }
  destruct (Nat.leb 3 _) eqn:E3.
  + exists (([seg_start firstSeg; seg_end firstSeg] ++ extra) :: found).
    rewrite <- app_assoc. split; [reflexivity|]. split.
    * constructor; [|exact Hall']. split; [apply Nat.leb_le; exact E3|].
      intros x Hx. cbn [app] in Hx.
      destruct Hx as [<-|[<-|Hx]]; [now left | right; now left |].
      right; right. exact (Hin x Hx).
    * unfold segments_used in *. simpl in *. lia.
  + exists found. split; [reflexivity|]. split; [exact Hall'|].
    simpl. lia.
Qed.

Lemma segmentsToPerimeter_sound (segs : list (segment num)) :
  Forall (fun p => (3 <= List.length p)%nat /\ incl p (endpoints segs))
         (segmentsToPerimeter segs) /\
  (segments_used (segmentsToPerimeter segs) <= List.length segs)%nat.
Proof.
unfold segmentsToPerimeter, segmentsToPerimeter_fuel.
destruct (trace _ _ [] segs) as [paths|] eqn:E;
  [|split; [apply Forall_nil | unfold segments_used; simpl; lia]].
destruct (trace_sound _ _ _ _ E) as (found & -> & Hall & Hused).
cbn [app]. split; assumption.
Qed.

(** X7.  Every path [segmentsToPerimeter] returns has three points or
    more.  The paths together run along no more segments than were given,
    so there are at most half as many paths as segments. *)
Theorem segmentsToPerimeter_paths (segs : list (segment num)) :
  let paths := segmentsToPerimeter segs in
  Forall (fun p => (3 <= List.length p)%nat) paths /\
  (segments_used paths <= List.length segs)%nat /\
  (2 * List.length paths <= List.length segs)%nat.
Proof.
cbn zeta. destruct (segmentsToPerimeter_sound segs) as [Hall Hused].
assert (H3 : Forall (fun p : path num => (3 <= List.length p)%nat)
                    (segmentsToPerimeter segs)).
{ eapply Forall_impl; [|exact Hall]. intros p [Hp _]. exact Hp. }
split; [exact H3|]. split; [exact Hused|].
assert (H2 : (2 * List.length (segmentsToPerimeter segs)
              <= segments_used (segmentsToPerimeter segs))%nat).
{ clear - H3. induction H3 as [|p l Hp _ IH]; [simpl; lia|].
  unfold segments_used in *. simpl in *. lia. }
lia.
Qed.

(** X8.  [segmentsToPerimeter] invents no point: every point of every
    path is an end of one of the segments given. *)
Theorem segmentsToPerimeter_points (segs : list (segment num)) :
  Forall (fun p : path num =>
            Forall (fun pt => exists seg,
                      In seg segs /\ (pt = seg_start seg \/ pt = seg_end seg))
                   p)
         (segmentsToPerimeter segs).
Proof.
eapply Forall_impl; [|exact (proj1 (segmentsToPerimeter_sound segs))].
intros p [_ Hincl]. apply Forall_forall. intros pt Hpt.
specialize (Hincl pt Hpt).
unfold endpoints in Hincl. apply in_flat_map in Hincl.
destruct Hincl as (seg & Hseg & Hx). exists seg. split; [exact Hseg|].
destruct Hx as [<-|[<-|[]]]; auto.
Qed.
End TracerMore.

Section ContainmentFacts.
Variable num : Type.
Context {NUM : JSNumber num}.

(** X9.  A point is inside the perimeters when at least one path
    contains it, and in solid geometry when an odd number of paths do; so
    a point in solid geometry is inside the perimeters. *)
Theorem solid_within_perimeters (pt : point num) (paths : list (path num)) :
  isPointInsidePerimeters pt paths = (0 <? containing_count pt paths)%nat /\
  isPointInSolidGeometry pt paths = Nat.odd (containing_count pt paths) /\
  (isPointInSolidGeometry pt paths = true ->
   isPointInsidePerimeters pt paths = true).
Proof.
assert (H1 : isPointInsidePerimeters pt paths
             = (0 <? containing_count pt paths)%nat).
{ rewrite containing_count_filter. unfold isPointInsidePerimeters.
  induction paths as [|p ps IH]; simpl; [reflexivity|].
  destruct (isPointInPolygon pt p); simpl; [reflexivity | exact IH]. }
assert (H2 : isPointInSolidGeometry pt paths
             = Nat.odd (containing_count pt paths)).
{ rewrite containing_count_filter. apply solid_iff_odd. }
split; [exact H1|]. split; [exact H2|].
rewrite H1, H2. destruct (containing_count pt paths); [discriminate|reflexivity].
Qed.
End ContainmentFacts.

(* ================================================================== *)
(** * Further properties: the emitted program *)

Section InfillShape.
Variable num : Type.
Context {NUM : JSNumber num} {MATH : JSMath num}.
Local Open Scope string_scope.
Local Open Scope list_scope.

Lemma unnumbered_app (a b : list (fillMove num)) :
  unnumbered (a ++ b) = unnumbered a ++ unnumbered b.
Proof. unfold unnumbered. apply flat_map_app. Qed.

Lemma flat_map_unnumbered {A : Type} (f : A -> list (gline num)) (l : list A) :
  (forall a, exists moves, f a = unnumbered moves) ->
  exists moves, flat_map f l = unnumbered moves.
Proof.
intros Hf. induction l as [|a l [ms IH]]; simpl.
- exists []. reflexivity.
- destruct (Hf a) as [m0 ->]. exists (m0 ++ ms).
  rewrite IH, unnumbered_app. reflexivity.
Qed.

Lemma horizontal_line_shape (paths : option (list (path num))) (i : nat)
    (y : num) :
  exists moves, horizontal_line paths i y = unnumbered moves.
Proof.
unfold horizontal_line. destruct paths as [ps|]; [|exists []; reflexivity].
apply flat_map_unnumbered. intros [startX endX].
destruct (_ && _); [|exists []; reflexivity].
destruct (Nat.even i).
- exists [ {| fm_x0 := toFixed 3 startX; fm_y0 := toFixed 3 y;
              fm_x1 := toFixed 3 endX; fm_y1 := toFixed 3 y |} ]. reflexivity.
- exists [ {| fm_x0 := toFixed 3 endX; fm_y0 := toFixed 3 y;
              fm_x1 := toFixed 3 startX; fm_y1 := toFixed 3 y |} ]. reflexivity.
Qed.

Lemma vertical_line_shape (paths : option (list (path num))) (i : nat)
    (x : num) :
  exists moves, vertical_line paths i x = unnumbered moves.
Proof.
unfold vertical_line. destruct paths as [ps|]; [|exists []; reflexivity].
apply flat_map_unnumbered. intros [startY endY].
destruct (_ && _); [|exists []; reflexivity].
destruct (Nat.even i).
- exists [ {| fm_x0 := toFixed 3 x; fm_y0 := toFixed 3 startY;
              fm_x1 := toFixed 3 x; fm_y1 := toFixed 3 endY |} ]. reflexivity.
- exists [ {| fm_x0 := toFixed 3 x; fm_y0 := toFixed 3 endY;
              fm_x1 := toFixed 3 x; fm_y1 := toFixed 3 startY |} ]. reflexivity.
Qed.

Lemma scan_lines_shape (line : nat -> num -> list (gline num))
    (lo spacing limit : num) (counters : list nat) :
  (forall i c, exists moves, line i c = unnumbered moves) ->
  exists moves, scan_lines line lo spacing limit counters = unnumbered moves.
Proof.
intros Hline. induction counters as [|i rest [ms IH]]; simpl.
- exists []. reflexivity.
- destruct (nlt limit _); [exists []; reflexivity|].
  destruct (Hline i (nadd lo (nmul (nofnat i) spacing))) as [m0 ->].
  exists (m0 ++ ms). rewrite IH, unnumbered_app. reflexivity.
Qed.

(** [generateLayerInfill] never throws, and what it returns is a list of
    fill moves. *)
Lemma generateLayerInfill_shape (s : STLSlicer num) bbox pattern density
    paths angle :
  never_throws (generateLayerInfill s bbox pattern density paths angle) /\
  forall lines,
    generateLayerInfill s bbox pattern density paths angle = Ret lines ->
    exists moves, lines = unnumbered moves.
Proof.
unfold generateLayerInfill.
destruct bbox as [bbox|];
  [|split; [exact I | intros lines [= <-]; exists []; reflexivity]].
destruct (neq density (nofZ 0));
  [split; [exact I | intros lines [= <-]; exists []; reflexivity]|].
destruct (Nat.eqb angle 90).
- destruct (ncount_le _) as [n|]; [|split; [exact I | discriminate]].
  split; [exact I|]. intros lines [= <-].
  apply scan_lines_shape. intros i c. apply vertical_line_shape.
- destruct (ncount_le _) as [n|]; [|split; [exact I | discriminate]].
  split; [exact I|]. intros lines [= <-].
  apply scan_lines_shape. intros i c. apply horizontal_line_shape.
Qed.

Lemma renumber_unnumbered (moves : list (fillMove num)) :
  forall c, renumber (unnumbered moves) c
            = (numbered moves c, (c + 3 * Z.of_nat (List.length moves))%Z).
Proof.
induction moves as [|m rest IH]; intros c.
- simpl. f_equal. lia.
- change (unnumbered (m :: rest)) with (fill_lines m 0 ++ unnumbered rest).
  unfold fill_lines. cbn [app renumber renumber_line renumber_words].
  rewrite IH. cbn [numbered fill_lines app]. f_equal.
  cbn [List.length]. lia.
Qed.

Lemma E_values_numbered (moves : list (fillMove num)) :
  forall c, E_values (numbered moves c)
            = map (fun k => (c + 3 * Z.of_nat (S k))%Z)
                  (seq 0 (List.length moves)).
Proof.
induction moves as [|m rest IH]; intros c; [reflexivity|].
cbn [numbered fill_lines app List.length seq map].
change (E_values (?a :: ?b :: ?r)) with (line_E a ++ line_E b ++ E_values r).
cbn [line_E flat_map word_E app]. rewrite IH.
rewrite <- seq_shift, map_map.
replace (c + 3 * Z.of_nat 1)%Z with (c + 3)%Z by lia. f_equal.
apply map_ext. intros k. lia.
Qed.

Lemma push_infill_shape (s : STLSlicer num) bbox pattern density paths angle c :
  never_throws (push_infill s bbox pattern density paths angle c) /\
  forall r, push_infill s bbox pattern density paths angle c = Ret r ->
    exists moves,
      fst r = numbered moves c /\
      snd r = (c + 3 * Z.of_nat (List.length moves))%Z.
Proof.
unfold push_infill.
destruct (generateLayerInfill_shape s bbox pattern density (Some paths) angle)
  as [Hn Hs].
destruct (generateLayerInfill s bbox pattern density (Some paths) angle)
  as [lines| |]; [|destruct Hn|split; [exact I | discriminate]].
cbn [bind]. split; [exact I|]. intros r [= <-].
destruct (Hs lines eq_refl) as [moves ->]. exists moves.
rewrite renumber_unnumbered. split; reflexivity.
Qed.

(** X10.  The lines pushed after one call of [generateLayerInfill] are
    fill moves: a [G0 X Y] line followed by a [G1 X Y E F1500] line.  With
    the counter at [c] before, their [E] values are [c + 3], [c + 6], ...,
    and the counter afterwards is the last of them. *)
Theorem push_infill_numbering (s : STLSlicer num) bbox pattern density paths
    angle c lines c' :
  push_infill s bbox pattern density paths angle c = Ret (lines, c') ->
  exists moves,
    lines = numbered moves c /\
    E_values lines = map (fun k => (c + 3 * Z.of_nat (S k))%Z)
                         (seq 0 (List.length moves)) /\
    c' = (c + 3 * Z.of_nat (List.length moves))%Z.
Proof.
intros Hr.
destruct (push_infill_shape s bbox pattern density paths angle c) as [_ Hs].
destruct (Hs _ Hr) as (moves & Hl & Hc). cbn [fst snd] in Hl, Hc.
exists moves. split; [exact Hl|]. split; [|exact Hc].
rewrite Hl. apply E_values_numbered.
Qed.

End InfillShape.

Section EmitterShape.
Variable num : Type.
Context {NUM : JSNumber num} {MATH : JSMath num}.
Local Open Scope string_scope.
Local Open Scope list_scope.

Lemma never_throws_bind {A B : Type} (m : outcome A) (k : A -> outcome B) :
  never_throws m -> (forall a, m = Ret a -> never_throws (k a)) ->
  never_throws (bind m k).
Proof. destruct m; simpl; auto. Qed.

Lemma announced_app (a b : list (gline num)) :
  announced (a ++ b) = announced a ++ announced b.
Proof. unfold announced. apply flat_map_app. Qed.

Lemma announced_body (ls : list (gline num)) :
  Forall (@body_line num) ls -> announced ls = [].
Proof.
induction 1 as [|l ls Hl _ IH]; [reflexivity|].
unfold announced in *. cbn [flat_map]. rewrite IH.
destruct l as [|[]|]; try reflexivity; destruct Hl.
Qed.

Lemma program_line_body (ls : list (gline num)) :
  Forall (@body_line num) ls -> Forall (@program_line num) ls.
Proof. apply Forall_impl. intros l Hl. now left. Qed.

Lemma numbered_body (moves : list (fillMove num)) :
  forall c, Forall (@body_line num) (numbered moves c).
Proof.
induction moves as [|m rest IH]; intros c; cbn [numbered fill_lines app].
- constructor.
- constructor; [left; split; [reflexivity | eauto]|].
  constructor; [right; split; [reflexivity | eauto 6]|]. apply IH.
Qed.

Lemma emit_points_body (pts : list (point num)) :
  forall i c, Forall (@body_line num) (fst (emit_points pts i c)).
Proof.
induction pts as [|pt rest IH]; intros i c; cbn [emit_points].
- constructor.
- destruct (Nat.eqb i 0).
  + specialize (IH (S i) (c + 1)%Z).
    destruct (emit_points rest (S i) (c + 1)) as [ls c1]. cbn [fst] in *.
    constructor; [right; split; [reflexivity | eauto 6] | exact IH].
  + specialize (IH (S i) (c + 3)%Z).
    destruct (emit_points rest (S i) (c + 3)) as [ls c1]. cbn [fst] in *.
    constructor; [right; split; [reflexivity | eauto 6] | exact IH].
Qed.

Lemma emit_paths_body (paths : list (path num)) :
  forall pathIdx c r,
    emit_paths paths pathIdx c = Ret r -> Forall (@body_line num) (fst r).
Proof.
induction paths as [|pth rest IH]; intros pathIdx c r; cbn [emit_paths].
- intros [= <-]. constructor.
- intros Hr. apply bind_ret in Hr. destruct Hr as (travel & Ht & Hr).
  pose proof (emit_points_body pth 0 c) as Hp.
  destruct (emit_points pth 0 c) as [ls c1].
  apply bind_ret in Hr. destruct Hr as (r' & Hrest & Hr).
  injection Hr as <-. cbn [fst] in *.
  apply Forall_app. split; [|apply Forall_app; split; [exact Hp | eauto]].
  destruct (Nat.ltb 0 pathIdx).
  + destruct pth; [discriminate|]. injection Ht as <-.
    constructor; [left; split; [reflexivity | eauto] | constructor].
  + injection Ht as <-. constructor.
Qed.

Lemma emit_paths_returns (paths : list (path num)) :
  Forall (fun p => p <> []) paths ->
  forall pathIdx c, never_throws (emit_paths paths pathIdx c).
Proof.
induction 1 as [|pth rest Hp _ IH]; intros pathIdx c; cbn [emit_paths].
- exact I.
- destruct pth as [|p0 pth]; [congruence|].
  destruct (Nat.ltb 0 pathIdx); cbn [bind];
    destruct (emit_points (p0 :: pth) 0 c) as [ls c1];
    (apply never_throws_bind; [apply IH | intros; exact I]).
Qed.

Lemma push_infill_body (s : STLSlicer num) bbox pattern density paths angle c :
  never_throws (push_infill s bbox pattern density paths angle c) /\
  forall r, push_infill s bbox pattern density paths angle c = Ret r ->
    Forall (@body_line num) (fst r).
Proof.
destruct (push_infill_shape s bbox pattern density paths angle c) as [Hn Hs].
split; [exact Hn|]. intros r Hr.
destruct (Hs r Hr) as (moves & -> & _). apply numbered_body.
Qed.

Lemma solid_infill_body (s : STLSlicer num) bbox paths isBottomLayer c :
  never_throws (solid_infill s bbox paths isBottomLayer c) /\
  forall r, solid_infill s bbox paths isBottomLayer c = Ret r ->
    Forall (@body_line num) (fst r).
Proof.
unfold solid_infill. split.
- apply never_throws_bind; [apply push_infill_body|]. intros r1 _.
  apply never_throws_bind; [apply push_infill_body|]. intros r2 _. exact I.
- intros r Hr.
  apply bind_ret in Hr. destruct Hr as (r1 & H1 & Hr).
  apply bind_ret in Hr. destruct Hr as (r2 & H2 & Hr).
  injection Hr as <-. cbn [fst].
  constructor; [exact I|]. apply Forall_app. split.
  + exact (proj2 (push_infill_body _ _ _ _ _ _ _) _ H1).
  + exact (proj2 (push_infill_body _ _ _ _ _ _ _) _ H2).
Qed.

Lemma sparse_infill_body (s : STLSlicer num) pattern density :
  fills_body (fun bbox paths c => sparse_infill s bbox pattern density paths c).
Proof.
intros bbox paths c. unfold sparse_infill.
destruct (nlt (nofZ 0) density);
  [|split; [exact I | intros r [= <-]; constructor]].
destruct (String.eqb pattern "grid"); split.
- apply never_throws_bind; [apply push_infill_body|]. intros r1 _.
  apply never_throws_bind; [apply push_infill_body|]. intros r2 _. exact I.
- intros r Hr.
  apply bind_ret in Hr. destruct Hr as (r1 & H1 & Hr).
  apply bind_ret in Hr. destruct Hr as (r2 & H2 & Hr).
  injection Hr as <-. cbn [fst].
  constructor; [exact I|]. apply Forall_app. split.
  + exact (proj2 (push_infill_body _ _ _ _ _ _ _) _ H1).
  + exact (proj2 (push_infill_body _ _ _ _ _ _ _) _ H2).
- apply never_throws_bind; [apply push_infill_body|]. intros r1 _. exact I.
- intros r Hr.
  apply bind_ret in Hr. destruct Hr as (r1 & H1 & Hr).
  injection Hr as <-. cbn [fst].
  constructor; [exact I|].
  exact (proj2 (push_infill_body _ _ _ _ _ _ _) _ H1).
Qed.

Lemma sparse_infill_seq_body (s : STLSlicer num) pattern density :
  fills_body
    (fun bbox paths c => sparse_infill_seq s bbox pattern density paths c).
Proof.
intros bbox paths c. unfold sparse_infill_seq.
destruct (nlt (nofZ 0) density);
  [|split; [exact I | intros r [= <-]; constructor]].
split.
- apply never_throws_bind; [apply push_infill_body|]. intros r1 _. exact I.
- intros r Hr.
  apply bind_ret in Hr. destruct Hr as (r1 & H1 & Hr).
  injection Hr as <-. cbn [fst].
  constructor; [exact I|].
  exact (proj2 (push_infill_body _ _ _ _ _ _ _) _ H1).
Qed.

Lemma layer_body_lines sparse (s : STLSlicer num) sequences i paths c r :
  fills_body sparse ->
  layer_body sparse s sequences i paths c = Ret r ->
  Forall (@body_line num) (fst r).
Proof.
intros Hsparse. unfold layer_body.
destruct (nth_error sequences i) as [q|]; [|discriminate].
intros Hr. apply bind_ret in Hr. destruct Hr as (per & Hper & Hr).
apply bind_ret in Hr. destruct Hr as (inf & Hinf & Hr).
injection Hr as <-. cbn [fst]. apply Forall_app. split.
- exact (emit_paths_body _ _ _ Hper).
- destruct (isBottom q || isTop q).
  + exact (proj2 (solid_infill_body _ _ _ _ _) _ Hinf).
  + exact (proj2 (Hsparse _ _ _) _ Hinf).
Qed.

Lemma layer_body_returns sparse (s : STLSlicer num) sequences i paths c :
  fills_body sparse ->
  nth_error sequences i <> None ->
  Forall (fun p => p <> []) paths ->
  never_throws (layer_body sparse s sequences i paths c).
Proof.
intros Hsparse Hq Hpaths. unfold layer_body.
destruct (nth_error sequences i) as [q|]; [|congruence].
apply never_throws_bind; [apply emit_paths_returns; exact Hpaths|].
intros per _. apply never_throws_bind; [|intros; exact I].
destruct (isBottom q || isTop q).
- apply solid_infill_body.
- apply Hsparse.
Qed.

(** The paths of a layer have points. *)
Lemma layer_paths_nonempty (segs : list (segment num)) :
  Forall (fun p : path num => p <> []) (segmentsToPerimeter segs).
Proof.
eapply Forall_impl; [|exact (proj1 (segmentsToPerimeter_sound segs))].
intros p [Hp _] ->. simpl in Hp. lia.
Qed.

Lemma emit_layers_lines sparse trailer (s : STLSlicer num) sequences
    (layers : list (layer num)) :
  fills_body sparse ->
  Forall (fun l => line_E l = []) trailer -> announced trailer = [] ->
  forall i c r,
    emit_layers sparse trailer s sequences layers i c = Ret r ->
    announced (fst r) = map (@announcement num) layers /\
    Forall (@program_line num) (fst r).
Proof.
intros Hsparse Htrailer Hquiet.
induction layers as [|l rest IH]; intros i c r; cbn [emit_layers].
- intros [= <-]. split; [reflexivity | constructor].
- intros Hr. apply bind_ret in Hr. destruct Hr as (body & Hbody & Hr).
  apply bind_ret in Hr. destruct Hr as (r' & Hrest & Hr).
  injection Hr as <-. cbn [fst].
  destruct (IH _ _ _ Hrest) as [IH1 IH2].
  assert (Hb : Forall (@body_line num) (fst body)).
  { destruct (segmentsToPerimeter (segments l)) as [|pth paths].
    - injection Hbody as <-. constructor.
    - eapply layer_body_lines; eassumption. }
  split.
  + unfold layer_head. cbn [app map].
    change (announced (Comment (RLayer ?n ?z) :: ?ls))
      with ((n, z) :: announced ls).
    change (announced (Command ?g ?ws ?nt :: ?ls)) with (announced ls).
    rewrite !announced_app, (announced_body Hb), Hquiet, IH1. reflexivity.
  + unfold layer_head. cbn [app].
    constructor; [right; reflexivity|].
    constructor; [right; reflexivity|].
    apply Forall_app. split; [apply program_line_body; exact Hb|].
    apply Forall_app. split; [|exact IH2].
    eapply Forall_impl; [|exact Htrailer]. intros x Hx. now right.
Qed.

Lemma emit_layers_returns sparse trailer (s : STLSlicer num) sequences
    (layers : list (layer num)) :
  fills_body sparse ->
  forall i c,
    (i + List.length layers <= List.length sequences)%nat ->
    never_throws (emit_layers sparse trailer s sequences layers i c).
Proof.
intros Hsparse.
induction layers as [|l rest IH]; intros i c Hlen; cbn [emit_layers].
- exact I.
- cbn [List.length] in Hlen. apply never_throws_bind.
  + pose proof (layer_paths_nonempty (segments l)) as Hne.
    destruct (segmentsToPerimeter (segments l)) as [|pth paths]; [exact I|].
    apply layer_body_returns; [exact Hsparse | | exact Hne].
    apply nth_error_Some. lia.
  + intros body _. apply never_throws_bind; [|intros; exact I].
    apply IH. lia.
Qed.

Lemma park_height_cases (layers : list (layer num)) :
  (layers = [] -> park_height layers = Throw TypeError) /\
  (layers <> [] -> exists z, park_height layers = Ret z).
Proof.
unfold park_height. split.
- intros ->. reflexivity.
- intros Hne.
  destruct (nth_error layers (List.length layers - 1)) as [l|] eqn:E;
    [eauto|].
  apply nth_error_None in E. destruct layers; [congruence|]. simpl in E. lia.
Qed.

(** What both generators return: the header and the footer have no [E]
    word and announce no layer. *)
Lemma program_lines sparse trailer (s : STLSlicer num) sequences
    (layers : list (layer num)) (header : list (gline num))
    (footer : num -> list (gline num)) (prog : list (gline num)) :
  fills_body sparse ->
  Forall (fun l => line_E l = []) trailer -> announced trailer = [] ->
  Forall (fun l => line_E l = []) header -> announced header = [] ->
  (forall z, Forall (fun l => line_E l = []) (footer z) /\
             announced (footer z) = []) ->
  (body <- emit_layers sparse trailer s sequences layers 0 0%Z ;;
   z <- park_height layers ;;
   Ret (header ++ fst body ++ footer z)) = Ret prog ->
  announced prog = map (@announcement num) layers /\
  Forall (@program_line num) prog.
Proof.
intros Hsparse Htrailer Hquiet He1 Ha1 Hends Hr.
apply bind_ret in Hr. destruct Hr as (body & Hb & Hr).
apply bind_ret in Hr. destruct Hr as (z & _ & Hr). injection Hr as <-.
destruct (@emit_layers_lines sparse trailer s sequences layers Hsparse Htrailer
            Hquiet 0%nat 0%Z body Hb) as [B1 B2].
destruct (Hends z) as (He2 & Ha2).
split.
- rewrite !announced_app, Ha1, Ha2, B1, app_nil_r. reflexivity.
- apply Forall_app. split.
  + eapply Forall_impl; [|exact He1]. intros x Hx. now right.
  + apply Forall_app. split; [exact B2|].
    eapply Forall_impl; [|exact He2]. intros x Hx. now right.
Qed.

Lemma generated_program (s : STLSlicer num) (layers : list (layer num))
    (infillPattern : string) (infillDensity : num)
    (sequences : list layerSequence) (prog : list (gline num)) :
  generateGCode s layers infillPattern infillDensity = Ret prog \/
  generateGCodeWithSequences s layers infillPattern infillDensity sequences
  = Ret prog ->
  announced prog = map (@announcement num) layers /\
  Forall (@program_line num) prog.
Proof.
intros [Hprog|Hprog].
- unfold generateGCode in Hprog.
  refine (@program_lines _ [Blank] s _ layers _
            (fun z => [ Comment (RText "Finish");
                        Command "G1" [WZ (toStr z); WF 5000] None;
                        Command "M104" [WS (toStr (nofZ 0))]
                          (Some "Turn off hotend");
                        Command "M140" [WS (toStr (nofZ 0))]
                          (Some "Turn off bed");
                        Command "G28" [WAxis "X"; WAxis "Y"]
                          (Some "Home X and Y");
                        Command "M84" [] (Some "Disable steppers") ])
            prog (sparse_infill_body s infillPattern infillDensity)
            _ _ _ _ _ Hprog).
  + repeat constructor.
  + reflexivity.
  + repeat (constructor; [reflexivity|]). constructor.
  + reflexivity.
  + intros z. split; [|reflexivity].
    repeat (constructor; [reflexivity|]). constructor.
- unfold generateGCodeWithSequences in Hprog.
  refine (@program_lines _ [] s _ layers _
            (fun z => [ Blank;
                        Comment (RText "Print complete");
                        Command "G1" [WZ (toStr z); WF 5000] None;
                        Command "M104" [WS (toStr (nofZ 0))]
                          (Some "Turn off hotend");
                        Command "M140" [WS (toStr (nofZ 0))]
                          (Some "Turn off bed");
                        Command "G28" [WX (toStr (nofZ 0)); WY (toStr (nofZ 0))]
                          (Some "Home X and Y");
                        Command "M84" [] (Some "Disable motors") ])
            prog (sparse_infill_seq_body s infillPattern infillDensity)
            _ _ _ _ _ Hprog).
  + constructor.
  + reflexivity.
  + repeat (constructor; [reflexivity|]). constructor.
  + reflexivity.
  + intros z. split; [|reflexivity].
    repeat (constructor; [reflexivity|]). constructor.
Qed.

(** X13.  A program announces every layer given, in order, by its loop
    index plus one and its height to three places (also a layer without a
    path), and announces nothing else. *)
Theorem layers_announced (s : STLSlicer num) (layers : list (layer num))
    (infillPattern : string) (infillDensity : num)
    (sequences : list layerSequence) (prog : list (gline num)) :
  generateGCode s layers infillPattern infillDensity = Ret prog \/
  generateGCodeWithSequences s layers infillPattern infillDensity sequences
  = Ret prog ->
  announced prog
  = map (fun l => ((layerNum l + 1)%nat, toFixed 3 (layer_z l))) layers.
Proof.
intros Hprog. exact (proj1 (generated_program _ _ _ _ _ Hprog)).
Qed.

(** X14.  In a program, an [E] word occurs only in a [G1 X Y E] move,
    with or without [F1500]: travel moves ([G0]), moves along Z and the
    machine commands carry none. *)
Theorem only_moves_extrude (s : STLSlicer num) (layers : list (layer num))
    (infillPattern : string) (infillDensity : num)
    (sequences : list layerSequence) (prog : list (gline num)) :
  generateGCode s layers infillPattern infillDensity = Ret prog \/
  generateGCodeWithSequences s layers infillPattern infillDensity sequences
  = Ret prog ->
  Forall (fun l => line_E l <> [] -> extruding_move l) prog.
Proof.
intros Hprog.
eapply Forall_impl; [|exact (proj2 (generated_program _ _ _ _ _ Hprog))].
intros l [Hb|Hq] HE; [|now elim HE].
destruct l as [|[]|code ws note]; try (now elim HE); try (now destruct Hb).
destruct Hb as [[_ (x & y & ->)]|[-> (x & y & e & Hws)]]; [now elim HE|].
exists x, y, e, note. destruct Hws as [->| ->]; auto.
Qed.

(** X11.  [generateGCode] throws exactly when it is given no layer, and
    then a [TypeError] (the height of the last layer is read).  With a
    layer or more it returns a program or, for an infill loop without
    end, never finishes. *)
Theorem generateGCode_throws (s : STLSlicer num) (layers : list (layer num))
    (infillPattern : string) (infillDensity : num) (e : jsError) :
  generateGCode s layers infillPattern infillDensity = Throw e <->
  layers = [] /\ e = TypeError.
Proof.
unfold generateGCode. split.
- intros Hthrow. destruct layers as [|l0 ls] eqn:El.
  + cbn in Hthrow. injection Hthrow as <-. auto.
  + exfalso. rewrite <- El in *.
    assert (Hne : layers <> []) by (rewrite El; discriminate).
    pose proof (@emit_layers_returns _ [Blank] s
                  (analyzeLayerSequences s layers) layers
                  (sparse_infill_body s infillPattern infillDensity) 0%nat 0%Z)
      as Hn.
    rewrite analyzeLayerSequences_length in Hn. specialize (Hn (Nat.le_refl _)).
    destruct (emit_layers _ _ s _ layers 0 0) as [body| |];
      [|destruct Hn|discriminate].
    cbn [bind] in Hthrow.
    destruct (proj2 (park_height_cases layers) Hne) as [z Hz].
    rewrite Hz in Hthrow. discriminate.
- intros [-> ->]. reflexivity.
Qed.

Lemma generateGCodeWithSequences_returns (s : STLSlicer num)
    (layers : list (layer num)) (infillPattern : string) (infillDensity : num)
    (sequences : list layerSequence) :
  layers <> [] -> (List.length layers <= List.length sequences)%nat ->
  never_throws
    (generateGCodeWithSequences s layers infillPattern infillDensity sequences).
Proof.
intros Hne Hlen. unfold generateGCodeWithSequences.
apply never_throws_bind.
- apply emit_layers_returns;
    [apply sparse_infill_seq_body | simpl; exact Hlen].
- intros body _. destruct (proj2 (park_height_cases layers) Hne) as [z ->].
  exact I.
Qed.

(** X12.  [generateGCodeWithSequences] throws a [TypeError] when it is
    given no layer.  Given a layer or more and a sequence for every layer
    it does not throw.  Given no sequence at all it throws a [TypeError]
    as soon as one layer has a path. *)
Theorem generateGCodeWithSequences_throws (s : STLSlicer num)
    (layers : list (layer num)) (infillPattern : string) (infillDensity : num)
    (sequences : list layerSequence) :
  (layers = [] ->
   generateGCodeWithSequences s layers infillPattern infillDensity sequences
   = Throw TypeError) /\
  (layers <> [] -> (List.length layers <= List.length sequences)%nat ->
   never_throws
     (generateGCodeWithSequences s layers infillPattern infillDensity
        sequences)) /\
  (sequences = [] ->
   Exists (fun l => segmentsToPerimeter (segments l) <> []) layers ->
   generateGCodeWithSequences s layers infillPattern infillDensity sequences
   = Throw TypeError).
Proof.
split; [|split].
- intros ->. reflexivity.
- apply generateGCodeWithSequences_returns.
- unfold generateGCodeWithSequences. intros -> Hex.
  assert (Ht : forall i c,
             emit_layers
               (fun bbox paths c =>
                  sparse_infill_seq s bbox infillPattern infillDensity paths c)
               [] s [] layers i c = Throw TypeError).
  { induction Hex as [l rest Hl|l rest _ IH]; intros i c; cbn [emit_layers].
    - destruct (segmentsToPerimeter (segments l)) as [|pth paths];
        [congruence|].
      unfold layer_body. destruct i; reflexivity.
    - destruct (segmentsToPerimeter (segments l)) as [|pth paths].
      + cbn [bind snd]. rewrite IH. reflexivity.
      + unfold layer_body. destruct i; reflexivity. }
  rewrite Ht. reflexivity.
Qed.

End EmitterShape.

(* ================================================================== *)
(** * Further properties: the binary reader *)

Section BinaryReaderMore.
Variable num : Type.
Variable float32 : N -> num.
Local Open Scope list_scope.

(** Two buffers of one length that agree on a range give the same bytes
    for it. *)
Lemma bytes_at_agree (buf buf' : buffer) (offset n : nat) :
  List.length buf' = List.length buf ->
  (forall k, (offset <= k < offset + n)%nat ->
             nth_error buf' k = nth_error buf k) ->
  bytes_at buf' offset n = bytes_at buf offset n.
Proof.
intros Hlen Hk. unfold bytes_at. rewrite Hlen.
destruct (Nat.leb _ _); [|reflexivity]. f_equal.
apply nth_error_ext. intros i. rewrite !nth_error_firstn.
destruct (Nat.ltb i n) eqn:E; [|reflexivity].
apply Nat.ltb_lt in E. rewrite !nth_error_skipn. apply Hk. lia.
Qed.

Lemma read_vertex_agree (buf buf' : buffer) (offset : nat) :
  List.length buf' = List.length buf ->
  (forall k, (offset <= k < offset + 12)%nat ->
             nth_error buf' k = nth_error buf k) ->
  read_vertex float32 buf' offset = read_vertex float32 buf offset.
Proof.
intros Hlen Hk. unfold read_vertex, getFloat32.
rewrite (@bytes_at_agree buf buf' offset 4),
        (@bytes_at_agree buf buf' (offset + 4) 4),
        (@bytes_at_agree buf buf' (offset + 8) 4);
  try assumption; try reflexivity; intros k Hr; apply Hk; lia.
Qed.

Lemma read_triangles_agree (buf buf' : buffer) (n : nat) :
  List.length buf' = List.length buf ->
  forall i,
    (forall t j, (i <= t < i + n)%nat -> (j < 36)%nat ->
       nth_error buf' (96 + 50 * t + j) = nth_error buf (96 + 50 * t + j)) ->
    read_triangles float32 buf' n i = read_triangles float32 buf n i.
Proof.
intros Hlen. induction n as [|n IH]; intros i Hk; cbn [read_triangles].
- reflexivity.
- rewrite (@read_vertex_agree buf buf' (84 + i * 50 + 12)),
          (@read_vertex_agree buf buf' (84 + i * 50 + 24)),
          (@read_vertex_agree buf buf' (84 + i * 50 + 36)), (IH (S i));
    try assumption; try reflexivity.
  + intros t j Ht Hj. apply Hk; lia.
  + intros k Hr.
    replace k with (96 + 50 * i + (k - (96 + 50 * i)))%nat by lia.
    apply Hk; lia.
  + intros k Hr.
    replace k with (96 + 50 * i + (k - (96 + 50 * i)))%nat by lia.
    apply Hk; lia.
  + intros k Hr.
    replace k with (96 + 50 * i + (k - (96 + 50 * i)))%nat by lia.
    apply Hk; lia.
Qed.

(** X15.  [parseBinarySTL] reads the triangle count and the 36 vertex
    bytes of every record it declares, and nothing else: two buffers of
    one length that agree on these bytes are read alike, whatever their
    headers, normals and attribute bytes. *)
Theorem parseBinarySTL_reads_only (buf buf' : buffer) (count : N) :
  getUint32 buf 80 = Ret count ->
  List.length buf' = List.length buf ->
  (forall k, (80 <= k < 84)%nat -> nth_error buf' k = nth_error buf k) ->
  (forall t j, (t < N.to_nat count)%nat -> (j < 36)%nat ->
     nth_error buf' (96 + 50 * t + j) = nth_error buf (96 + 50 * t + j)) ->
  parseBinarySTL float32 buf' = parseBinarySTL float32 buf.
Proof.
intros Hc Hlen Hcount Hv. unfold parseBinarySTL.
assert (Hc' : getUint32 buf' 80 = Ret count).
{ unfold getUint32 in *. rewrite (@bytes_at_agree buf buf' 80 4); auto. }
rewrite Hc, Hc'. cbn [bind].
apply read_triangles_agree; [exact Hlen|].
intros t j Ht Hj. apply Hv; lia.
Qed.

Lemma bytes_at_app (buf extra : buffer) (offset n : nat) (bs : list Byte.byte) :
  bytes_at buf offset n = Ret bs -> bytes_at (buf ++ extra) offset n = Ret bs.
Proof.
unfold bytes_at. destruct (Nat.leb (offset + n) (List.length buf)) eqn:E;
  [|discriminate].
apply Nat.leb_le in E. intros [= <-].
assert (E' : (offset + n <=? List.length (buf ++ extra))%nat = true).
{ apply Nat.leb_le. rewrite length_app. lia. }
rewrite E'. f_equal. rewrite skipn_app, firstn_app, length_skipn.
replace (n - (List.length buf - offset))%nat with 0%nat by lia.
cbn [firstn]. apply app_nil_r.
Qed.

Lemma read_vertex_app (buf extra : buffer) (offset : nat) (v : vertex num) :
  read_vertex float32 buf offset = Ret v ->
  read_vertex float32 (buf ++ extra) offset = Ret v.
Proof.
unfold read_vertex, getFloat32. intros Hr.
apply bind_ret in Hr. destruct Hr as (x & Hx & Hr).
apply bind_ret in Hx. destruct Hx as (bx & Hbx & Hx).
apply bind_ret in Hr. destruct Hr as (y & Hy & Hr).
apply bind_ret in Hy. destruct Hy as (by' & Hby & Hy).
apply bind_ret in Hr. destruct Hr as (z & Hz & Hr).
apply bind_ret in Hz. destruct Hz as (bz & Hbz & Hz).
rewrite (bytes_at_app _ extra _ _ Hbx), (bytes_at_app _ extra _ _ Hby),
  (bytes_at_app _ extra _ _ Hbz).
injection Hx as <-. injection Hy as <-. injection Hz as <-.
cbn [bind]. exact Hr.
Qed.

Lemma read_triangles_app (buf extra : buffer) (n : nat) :
  forall i tris,
    read_triangles float32 buf n i = Ret tris ->
    read_triangles float32 (buf ++ extra) n i = Ret tris.
Proof.
induction n as [|n IH]; intros i tris; cbn [read_triangles]; [auto|].
intros Hr.
apply bind_ret in Hr. destruct Hr as (a & Ha & Hr).
apply bind_ret in Hr. destruct Hr as (b & Hb & Hr).
apply bind_ret in Hr. destruct Hr as (c & Hc & Hr).
apply bind_ret in Hr. destruct Hr as (rest & Hrest & Hr).
rewrite (read_vertex_app _ extra _ Ha), (read_vertex_app _ extra _ Hb),
  (read_vertex_app _ extra _ Hc), (IH _ _ Hrest).
exact Hr.
Qed.

(** X16.  Bytes that follow a buffer [parseBinarySTL] reads without an
    error do not change the triangles it returns. *)
Theorem parseBinarySTL_ignores_trailing (buf extra : buffer)
    (tris : list (triangle num)) :
  parseBinarySTL float32 buf = Ret tris ->
  parseBinarySTL float32 (buf ++ extra) = Ret tris.
Proof.
unfold parseBinarySTL, getUint32. intros Hr.
apply bind_ret in Hr. destruct Hr as (count & Hc & Hr).
apply bind_ret in Hc. destruct Hc as (bs & Hbs & Hc).
rewrite (bytes_at_app _ extra _ _ Hbs). injection Hc as <-. cbn [bind].
apply read_triangles_app. exact Hr.
Qed.

End BinaryReaderMore.

(* ================================================================== *)
(** * Further properties: the driver *)

Section DriverFacts.
Variable num : Type.
Context {NUM : JSNumber num} {MATH : JSMath num}.
Local Open Scope string_scope.
Local Open Scope list_scope.

Lemma update_length {A : Type} (f : A -> A) (l : list A) :
  forall i, List.length (update i f l) = List.length l.
Proof.
induction l as [|a l IH]; intros [|i]; simpl; auto.
Qed.

Lemma nth_error_update {A : Type} (f : A -> A) (l : list A) :
  forall i j,
    nth_error (update i f l) j
    = if Nat.eqb i j then option_map f (nth_error l j) else nth_error l j.
Proof.
induction l as [|a l IH]; intros [|i] [|j]; simpl; auto.
- destruct (Nat.eqb i j); reflexivity.
Qed.

Lemma merge_at_justified (all : list (layer num))
    (modelSlices : list (modelSlice num)) (m : modelSlice num) (i : nat)
    (l : layer num) (q : layerSequence) :
  In m modelSlices ->
  nth_error (ms_layers m) i = Some l ->
  nth_error (ms_sequences m) i = Some q ->
  forall (layers : list (layer num)) (j : nat) (merged : list layerSequence),
    (forall k lk, nth_error layers k = Some lk ->
                  nth_error all (j + k) = Some lk) ->
    justified all modelSlices merged ->
    justified all modelSlices (merge_at layers j (layer_z l) q merged).
Proof.
intros Hm Hl Hq. induction layers as [|lj rest IH]; intros j merged Hall Hj.
- exact Hj.
- cbn [merge_at]. destruct (sameHeight lj (layer_z l)) eqn:Es.
  + assert (Hlj : nth_error all j = Some lj).
    { rewrite <- (Nat.add_0_r j). apply Hall. reflexivity. }
    destruct Hj as [Hlen Hflags]. split.
    * destruct (isBottom q), (isTop q); unfold setTop, setBottom;
        rewrite ?update_length; exact Hlen.
    * intros k qk Hk.
      assert (Hcase :
        exists q0, nth_error merged k = Some q0 /\
          (isBottom qk = true ->
           isBottom q0 = true \/ (k = j /\ isBottom q = true)) /\
          (isTop qk = true ->
           isTop q0 = true \/ (k = j /\ isTop q = true))).
      { destruct (isBottom q) eqn:Eb, (isTop q) eqn:Et;
          unfold setTop, setBottom in Hk;
          rewrite ?nth_error_update in Hk;
          destruct (Nat.eqb j k) eqn:Ejk;
          try (apply Nat.eqb_eq in Ejk; subst k);
          destruct (nth_error merged _) as [q0|] eqn:E0;
          try discriminate; cbn in Hk; injection Hk as <-;
          exists q0; (split; [reflexivity|]); cbn; auto. }
      destruct Hcase as (q0 & Hq0 & Hb & Ht).
      destruct (Hflags k q0 Hq0) as [Fb Ft]. split.
      -- intros Hx. destruct (Hb Hx) as [Hold|[-> Hnew]]; [auto|].
         exists m, i, l, q, lj. auto 10.
      -- intros Hx. destruct (Ht Hx) as [Hold|[-> Hnew]]; [auto|].
         exists m, i, l, q, lj. auto 10.
  + apply IH; [|exact Hj]. intros k lk Hk.
    replace (S j + k)%nat with (j + S k)%nat by lia. apply Hall. exact Hk.
Qed.

Lemma merge_model_justified (all : list (layer num))
    (modelSlices : list (modelSlice num)) (m : modelSlice num) :
  In m modelSlices ->
  forall (modelSequences : list layerSequence) (modelLayers : list (layer num))
         (i : nat) (merged merged' : list layerSequence),
    (forall k, nth_error modelLayers k = nth_error (ms_layers m) (i + k)) ->
    (forall k, nth_error modelSequences k
               = nth_error (ms_sequences m) (i + k)) ->
    justified all modelSlices merged ->
    merge_model all modelLayers modelSequences merged = Ret merged' ->
    justified all modelSlices merged'.
Proof.
intros Hm. induction modelSequences as [|q qs IH];
  intros modelLayers i merged merged' HL HS Hj; cbn [merge_model].
- intros [= <-]. exact Hj.
- destruct modelLayers as [|l ls]; [discriminate|].
  intros Hr. eapply (IH ls (S i)); [| | |exact Hr].
  + intros k. replace (S i + k)%nat with (i + S k)%nat by lia. exact (HL (S k)).
  + intros k. replace (S i + k)%nat with (i + S k)%nat by lia. exact (HS (S k)).
  + apply merge_at_justified with (m := m) (i := i); auto.
    * rewrite <- (Nat.add_0_r i), <- HL. reflexivity.
    * rewrite <- (Nat.add_0_r i), <- HS. reflexivity.
Qed.

Lemma merge_models_justified (all : list (layer num))
    (modelSlices : list (modelSlice num)) :
  forall (rest : list (modelSlice num)) (merged merged' : list layerSequence),
    incl rest modelSlices ->
    justified all modelSlices merged ->
    merge_models all rest merged = Ret merged' ->
    justified all modelSlices merged'.
Proof.
induction rest as [|m rest IH]; intros merged merged' Hincl Hj;
  cbn [merge_models].
- intros [= <-]. exact Hj.
- intros Hr. apply bind_ret in Hr. destruct Hr as (m1 & H1 & Hr).
  apply (IH m1 merged'); [| |exact Hr].
  + intros x Hx. apply Hincl. now right.
  + apply merge_model_justified
      with (m := m) (modelSequences := ms_sequences m)
           (modelLayers := ms_layers m) (i := 0%nat) (merged := merged);
      auto.
    apply Hincl. now left.
Qed.

Lemma merged_start_justified (all : list (layer num))
    (modelSlices : list (modelSlice num)) :
  justified all modelSlices
    (repeat {| isBottom := false; isTop := false |} (List.length all)).
Proof.
split; [apply repeat_length|].
intros j q Hq. apply nth_error_In, repeat_spec in Hq. subst q.
split; discriminate.
Qed.

Lemma merge_model_returns (all : list (layer num)) :
  forall (modelSequences : list layerSequence) (modelLayers : list (layer num))
         (merged : list layerSequence),
    (List.length modelSequences <= List.length modelLayers)%nat ->
    exists merged', merge_model all modelLayers modelSequences merged
                    = Ret merged'.
Proof.
induction modelSequences as [|q qs IH]; intros modelLayers merged Hlen;
  cbn [merge_model].
- eauto.
- destruct modelLayers as [|l ls]; [simpl in Hlen; lia|].
  apply IH. simpl in Hlen. lia.
Qed.

Lemma merge_models_returns (all : list (layer num)) :
  forall (modelSlices : list (modelSlice num)) (merged : list layerSequence),
    Forall (fun m => (List.length (ms_sequences m)
                      <= List.length (ms_layers m))%nat) modelSlices ->
    exists merged', merge_models all modelSlices merged = Ret merged'.
Proof.
induction modelSlices as [|m rest IH]; intros merged Hall; cbn [merge_models].
- eauto.
- inversion Hall as [|? ? Hm Hrest]; subst.
  destruct (merge_model_returns all (ms_sequences m) (ms_layers m) merged Hm)
    as [m1 ->].
  cbn [bind]. apply IH. exact Hrest.
Qed.

(** X17.  The merged sequences of [sliceSTL].  When no model has more
    sequences than layers the merge completes.  What it returns has one
    entry for each layer of the combined slicing, and a flag is set at
    index [j] only if some model has a layer with that flag within 0.001
    of the height of layer [j]. *)
Theorem mergedSequences_sound (layers : list (layer num))
    (modelSlices : list (modelSlice num)) :
  (Forall (fun m => (List.length (ms_sequences m)
                     <= List.length (ms_layers m))%nat) modelSlices ->
   exists merged, mergedSequences layers modelSlices = Ret merged) /\
  forall merged,
    mergedSequences layers modelSlices = Ret merged ->
    List.length merged = List.length layers /\
    forall j q, nth_error merged j = Some q ->
      (isBottom q = true ->
       flag_from_model (@isBottom) layers modelSlices j) /\
      (isTop q = true -> flag_from_model (@isTop) layers modelSlices j).
Proof.
split.
- intros Hall. apply merge_models_returns. exact Hall.
- intros merged Hr.
  exact (merge_models_justified (incl_refl _)
           (merged_start_justified layers modelSlices) Hr).
Qed.

Lemma update_app {A : Type} (f : A -> A) (a : list A) (x : A) (b : list A) :
  update (List.length a) f (a ++ x :: b) = a ++ f x :: b.
Proof. induction a as [|y a IH]; simpl; [reflexivity | now rewrite IH]. Qed.

Lemma merge_at_first (pre : list (layer num)) (l : layer num)
    (post : list (layer num)) (layerZ : num) (q : layerSequence) :
  Forall (fun lj => sameHeight lj layerZ = false) pre ->
  sameHeight l layerZ = true ->
  forall j merged,
    merge_at (pre ++ l :: post) j layerZ q merged
    = let merged := if isBottom q then setBottom (j + List.length pre) merged
                    else merged in
      if isTop q then setTop (j + List.length pre) merged else merged.
Proof.
intros Hpre Hl. induction Hpre as [|lj pre Hlj _ IH]; intros j merged.
- cbn [app merge_at List.length]. rewrite Hl, Nat.add_0_r. reflexivity.
- cbn [app merge_at List.length]. rewrite Hlj, IH.
  replace (S j + List.length pre)%nat with (j + S (List.length pre))%nat by lia.
  reflexivity.
Qed.

Lemma distinct_heights_split (pre : list (layer num)) (l : layer num)
    (post : list (layer num)) :
  distinct_heights (pre ++ l :: post) = true ->
  Forall (fun lj => sameHeight lj (layer_z l) = false) pre /\
  sameHeight l (layer_z l) = true.
Proof.
induction pre as [|p pre IH]; cbn [app distinct_heights]; intros H.
- apply andb_prop in H. destruct H as [H _].
  apply andb_prop in H. destruct H as [H _]. split; [constructor | exact H].
- apply andb_prop in H. destruct H as [H Hrest].
  apply andb_prop in H. destruct H as [_ Hall].
  destruct (IH Hrest) as [I1 I2]. split; [|exact I2].
  constructor; [|exact I1].
  rewrite forallb_forall in Hall.
  apply negb_true_iff. apply Hall. apply in_or_app. right. now left.
Qed.

Lemma merge_model_own (done : list (layer num)) :
  forall (todo : list (layer num)) (sdone stodo : list layerSequence),
    List.length sdone = List.length done ->
    List.length stodo = List.length todo ->
    distinct_heights (done ++ todo) = true ->
    merge_model (done ++ todo) todo stodo
      (sdone ++ repeat {| isBottom := false; isTop := false |}
                       (List.length todo))
    = Ret (sdone ++ stodo).
Proof.
intros todo. revert done.
induction todo as [|l ls IH]; intros done sdone stodo Hd Ht Hdist.
- destruct stodo; [|discriminate]. reflexivity.
- destruct stodo as [|q qs]; [discriminate|]. cbn [merge_model].
  destruct (distinct_heights_split done l ls Hdist) as [Hpre Hl].
  rewrite (@merge_at_first done l ls (layer_z l) q Hpre Hl). cbn zeta. cbn [Nat.add].
  rewrite <- Hd. cbn [List.length repeat].
  assert (Hset :
    (if isTop q
     then setTop (List.length sdone)
            (if isBottom q
             then setBottom (List.length sdone)
                    (sdone ++ {| isBottom := false; isTop := false |}
                       :: repeat {| isBottom := false; isTop := false |}
                            (List.length ls))
             else sdone ++ {| isBottom := false; isTop := false |}
                    :: repeat {| isBottom := false; isTop := false |}
                         (List.length ls))
     else if isBottom q
          then setBottom (List.length sdone)
                 (sdone ++ {| isBottom := false; isTop := false |}
                    :: repeat {| isBottom := false; isTop := false |}
                         (List.length ls))
          else sdone ++ {| isBottom := false; isTop := false |}
                 :: repeat {| isBottom := false; isTop := false |}
                      (List.length ls))
    = (sdone ++ [q])
      ++ repeat {| isBottom := false; isTop := false |} (List.length ls)).
  { rewrite <- app_assoc. cbn [app].
    destruct q as [[|] [|]]; cbn [isBottom isTop]; unfold setTop, setBottom;
      rewrite ?update_app; cbn [isBottom isTop]; reflexivity. }
  rewrite Hset.
  replace (done ++ l :: ls) with ((done ++ [l]) ++ ls)
    by (rewrite <- app_assoc; reflexivity).
  rewrite (IH (done ++ [l]) (sdone ++ [q]) qs).
  + rewrite <- app_assoc. reflexivity.
  + rewrite !length_app. simpl. lia.
  + simpl in Ht. lia.
  + rewrite <- app_assoc. exact Hdist.
Qed.

(** X18.  For a single model that is sliced alone and whose layers are
    at distinct heights, the merge returns the model's own sequences. *)
Theorem single_model_sequences (name : string) (m : list (triangle num))
    (layers : list (layer num)) (sequences : list layerSequence) :
  List.length sequences = List.length layers ->
  distinct_heights layers = true ->
  mergedSequences layers
    [ {| ms_name := name; ms_mesh := m;
         ms_layers := layers; ms_sequences := sequences |} ]
  = Ret sequences.
Proof.
intros Hlen Hdist. unfold mergedSequences. cbn [merge_models ms_layers ms_sequences].
pose proof (@merge_model_own [] layers [] sequences eq_refl Hlen Hdist) as Hown.
cbn [app] in Hown. rewrite Hown. reflexivity.
Qed.

Lemma sliceModel_lengths (name : string) (modelMesh : list (triangle num))
    (layerHeight : num) (topBottomLayers : nat) (nozzleDiameter : num)
    (m : modelSlice num) :
  sliceModel name modelMesh layerHeight topBottomLayers nozzleDiameter = Ret m ->
  List.length (ms_sequences m) = List.length (ms_layers m).
Proof.
unfold sliceModel. intros Hr. apply bind_ret in Hr.
destruct Hr as ([modelLayers|] & _ & Hr); [|discriminate].
injection Hr as <-. cbn [ms_sequences ms_layers].
apply analyzeLayerSequences_length.
Qed.

(** X19.  For models that [sliceSTL] has sliced on their own and a
    combined slicing of at least one layer, the merge completes with a
    sequence for every layer, and [generateGCodeWithSequences], given
    these, does not throw. *)
Theorem sliced_models_program (s : STLSlicer num) (layers : list (layer num))
    (modelSlices : list (modelSlice num)) (layerHeight : num)
    (topBottomLayers : nat) (nozzleDiameter : num)
    (infillPattern : string) (infillDensity : num) :
  Forall (fun m => sliceModel (ms_name m) (ms_mesh m) layerHeight
                     topBottomLayers nozzleDiameter = Ret m) modelSlices ->
  layers <> [] ->
  exists merged,
    mergedSequences layers modelSlices = Ret merged /\
    List.length merged = List.length layers /\
    never_throws
      (generateGCodeWithSequences s layers infillPattern infillDensity merged).
Proof.
intros Hall Hne.
destruct (@merge_models_returns layers modelSlices
            (repeat {| isBottom := false; isTop := false |}
                    (List.length layers))) as [merged Hm].
{ eapply Forall_impl; [|exact Hall]. intros m Hs.
  rewrite (sliceModel_lengths _ _ _ _ _ Hs). apply Nat.le_refl. }
exists merged. split; [exact Hm|].
destruct (merge_models_justified (incl_refl _)
            (merged_start_justified layers modelSlices) Hm) as [Hlen _].
split; [exact Hlen|].
apply generateGCodeWithSequences_returns; [exact Hne | lia].
Qed.

End DriverFacts.

(* ================================================================== *)
(** * Further properties: writing and reading STL text *)

Section ExportFacts.
Variable num : Type.
Variable toString : num -> string.
Variable float32 : N -> num.
Variable parseFloat : string -> num.
Local Open Scope list_scope.
Local Open Scope string_scope.

Lemma sapp_assoc (a b c : string) : (a ++ b) ++ c = a ++ (b ++ c).
Proof. induction a as [|x a IH]; simpl; [reflexivity | now rewrite IH]. Qed.

Lemma sapp_nil_r (a : string) : a ++ "" = a.
Proof. induction a as [|x a IH]; simpl; [reflexivity | now rewrite IH]. Qed.

Lemma unlines_app (a b : list string) :
  unlines (a ++ b)%list = unlines a ++ unlines b.
Proof.
induction a as [|l a IH]; simpl; [reflexivity|].
rewrite IH, !sapp_assoc. reflexivity.
Qed.

Lemma fold_facets (m : list (triangle num)) :
  forall stl, fold_left (append_facet toString) m stl
              = stl ++ unlines (flat_map (facet_lines toString) m).
Proof.
induction m as [|tri m IH]; intros stl; cbn [fold_left flat_map].
- cbn. now rewrite sapp_nil_r.
- rewrite IH, unlines_app. unfold append_facet, facet_lines.
  cbn [unlines]. rewrite !sapp_assoc. reflexivity.
Qed.

Lemma generateSTLFromMesh_lines (m : list (triangle num)) (name : option string) :
  generateSTLFromMesh toString m name = unlines (export_lines toString m name).
Proof.
unfold generateSTLFromMesh, export_lines. cbn zeta.
rewrite fold_facets. cbn [unlines]. rewrite unlines_app. cbn [unlines].
rewrite !sapp_assoc. rewrite ?sapp_nil_r. reflexivity.
Qed.

(** *** Splitting into lines *)

Lemma split_on_line (s : string) :
  forall cur rest,
    one_line s = true ->
    split_on (ascii_of_nat 10) cur (s ++ eol ++ rest)
    = string_of_list_ascii (rev cur ++ list_ascii_of_string s)%list
      :: split_on (ascii_of_nat 10) [] rest.
Proof.
induction s as [|c s IH]; intros cur rest Hs.
- cbn. rewrite app_nil_r. reflexivity.
- cbn [one_line all_chars] in Hs. apply andb_prop in Hs. destruct Hs as [Hc Hs].
  apply negb_true_iff in Hc.
  cbn [append split_on]. rewrite Hc. rewrite (IH (c :: cur) rest Hs).
  cbn [rev list_ascii_of_string]. rewrite <- app_assoc. reflexivity.
Qed.

Lemma split_lines_unlines (ls : list string) :
  Forall (fun l => one_line l = true) ls ->
  split_lines (unlines ls) = (ls ++ [""])%list.
Proof.
unfold split_lines. induction 1 as [|l ls Hl _ IH]; [reflexivity|].
cbn [unlines app]. rewrite (split_on_line l [] (unlines ls) Hl), IH.
cbn [rev app]. rewrite string_of_list_ascii_of_string. reflexivity.
Qed.

Lemma all_chars_app (p : ascii -> bool) (a b : string) :
  all_chars p (a ++ b) = all_chars p a && all_chars p b.
Proof.
induction a as [|c a IH]; simpl; [reflexivity|].
rewrite IH. apply andb_assoc.
Qed.

Lemma token_one_line (s : string) : token s = true -> one_line s = true.
Proof.
unfold token, one_line. destruct s as [|c0 s0]; [discriminate|].
generalize (String c0 s0). clear. intros s.
induction s as [|c s IH]; [reflexivity|].
cbn [all_chars]. intros H. apply andb_prop in H. destruct H as [Hc Hs].
rewrite (IH Hs), andb_true_r.
apply negb_true_iff. apply negb_true_iff in Hc.
destruct (Ascii.eqb c (ascii_of_nat 10)) eqn:E; [|reflexivity].
apply Ascii.eqb_eq in E. subst c. discriminate.
Qed.

Lemma vertex_text_one_line (v : vertex num) :
  Forall (prints_back toString parseFloat) [vx v; vy v; vz v] ->
  one_line (vertex_text toString v) = true.
Proof.
intros H. inversion H as [|? ? [Hx _] H1]; subst.
inversion H1 as [|? ? [Hy _] H2]; subst.
inversion H2 as [|? ? [Hz _] _]; subst.
unfold vertex_text, one_line. rewrite !all_chars_app.
fold (one_line (toString (vx v))) (one_line (toString (vy v)))
     (one_line (toString (vz v))).
rewrite (token_one_line _ Hx), (token_one_line _ Hy), (token_one_line _ Hz).
reflexivity.
Qed.

(** *** Trimming and splitting a vertex line *)

Lemma trimEnd_cons (c : ascii) (s : string) :
  is_space c = false -> trimEnd (String c s) = String c (trimEnd s).
Proof. intros Hc. cbn [trimEnd]. rewrite Hc. destruct (trimEnd s); reflexivity. Qed.

Lemma trimEnd_token (s : string) :
  all_chars (fun c => negb (is_space c)) s = true -> trimEnd s = s.
Proof.
induction s as [|c s IH]; [reflexivity|].
cbn [all_chars]. intros H. apply andb_prop in H. destruct H as [Hc Hs].
apply negb_true_iff in Hc. rewrite (trimEnd_cons _ _ Hc), (IH Hs). reflexivity.
Qed.

Lemma trimEnd_app (p r : string) :
  trimEnd r = r -> r <> "" -> trimEnd (p ++ r) = p ++ r.
Proof.
intros Hr Hne. induction p as [|c p IH]; [exact Hr|].
cbn [append trimEnd]. rewrite IH.
destruct (p ++ r) eqn:E; [|reflexivity].
destruct p; [simpl in E; congruence | discriminate].
Qed.

Lemma token_spec (s : string) :
  token s = true ->
  s <> "" /\ all_chars (fun c => negb (is_space c)) s = true.
Proof. destruct s; [discriminate|]. intros H. split; [discriminate | exact H]. Qed.

Lemma app_nonempty (a b : string) : a <> "" -> a ++ b <> "".
Proof. destruct a; [congruence | discriminate]. Qed.

Lemma split_spaces_word (a : string) :
  forall cur rest,
    all_chars (fun c => negb (is_space c)) a = true ->
    (rev cur ++ list_ascii_of_string a)%list <> [] ->
    split_spaces cur (a ++ String " " rest)
    = string_of_list_ascii (rev cur ++ list_ascii_of_string a)%list
      :: split_spaces [] rest.
Proof.
induction a as [|c a IH]; intros cur rest Ha Hne.
- cbn [append split_spaces list_ascii_of_string] in *.
  change (is_space " ") with true. cbv iota.
  rewrite app_nil_r in *. destruct cur; [now elim Hne | reflexivity].
- cbn [all_chars] in Ha. apply andb_prop in Ha. destruct Ha as [Hc Ha].
  apply negb_true_iff in Hc.
  cbn [append split_spaces]. rewrite Hc.
  rewrite (IH (c :: cur) rest Ha).
  + cbn [rev list_ascii_of_string]. rewrite <- app_assoc. reflexivity.
  + cbn [rev]. rewrite <- app_assoc. cbn [app].
    intros E. apply app_eq_nil in E. destruct E as [_ E]. discriminate.
Qed.

Lemma split_spaces_last (a : string) :
  forall cur,
    all_chars (fun c => negb (is_space c)) a = true ->
    (rev cur ++ list_ascii_of_string a)%list <> [] ->
    split_spaces cur a
    = [string_of_list_ascii (rev cur ++ list_ascii_of_string a)%list].
Proof.
induction a as [|c a IH]; intros cur Ha Hne.
- cbn [split_spaces list_ascii_of_string] in *. rewrite app_nil_r in *.
  destruct cur; [now elim Hne | reflexivity].
- cbn [all_chars] in Ha. apply andb_prop in Ha. destruct Ha as [Hc Ha].
  apply negb_true_iff in Hc.
  cbn [split_spaces]. rewrite Hc. rewrite (IH (c :: cur) Ha).
  + cbn [rev list_ascii_of_string]. rewrite <- app_assoc. reflexivity.
  + cbn [rev]. rewrite <- app_assoc. cbn [app].
    intros E. apply app_eq_nil in E. destruct E as [_ E]. discriminate.
Qed.

Lemma chars_nonempty (a : string) :
  a <> "" -> ([] ++ list_ascii_of_string a)%list <> [].
Proof. destruct a; [congruence | discriminate]. Qed.

(** A vertex line is read as the vertex it was printed from. *)
Lemma vertex_text_read (v : vertex num) :
  Forall (prints_back toString parseFloat) [vx v; vy v; vz v] ->
  String.prefix "facet" (trim (vertex_text toString v)) = false /\
  String.prefix "vertex" (trim (vertex_text toString v)) = true /\
  vertex_of_line parseFloat (vertex_text toString v) = v.
Proof.
intros H. inversion H as [|? ? [Hx Px] H1]; subst.
inversion H1 as [|? ? [Hy Py] H2]; subst.
inversion H2 as [|? ? [Hz Pz] _]; subst.
destruct (token_spec _ Hx) as [Nx Ax].
destruct (token_spec _ Hy) as [Ny Ay].
destruct (token_spec _ Hz) as [Nz Az].
set (tx := toString (vx v)) in *. set (ty := toString (vy v)) in *.
set (tz := toString (vz v)) in *.
assert (Ht : trim (vertex_text toString v)
             = "vertex " ++ tx ++ " " ++ ty ++ " " ++ tz).
{ unfold trim, vertex_text. fold tx ty tz.
  change (trimStart ("      vertex " ++ tx ++ " " ++ ty ++ " " ++ tz))
    with (trimStart ("vertex " ++ tx ++ " " ++ ty ++ " " ++ tz)).
  change (trimStart ("vertex " ++ tx ++ " " ++ ty ++ " " ++ tz))
    with ("vertex " ++ tx ++ " " ++ ty ++ " " ++ tz).
  apply trimEnd_app; [|apply app_nonempty; exact Nx].
  apply trimEnd_app; [|discriminate].
  apply (trimEnd_app " "); [|apply app_nonempty; exact Ny].
  apply trimEnd_app; [|discriminate].
  apply (trimEnd_app " "); [|exact Nz].
  apply trimEnd_token. exact Az. }
split; [rewrite Ht; reflexivity|]. split; [rewrite Ht; reflexivity|].
unfold vertex_of_line. rewrite Ht.
assert (Hs : split_spaces [] ("vertex " ++ tx ++ " " ++ ty ++ " " ++ tz)
             = ["vertex"; tx; ty; tz]).
{ change (split_spaces [] ("vertex " ++ tx ++ " " ++ ty ++ " " ++ tz))
    with ("vertex" :: split_spaces [] (tx ++ String " " (ty ++ String " " tz))).
  rewrite (split_spaces_word tx [] _ Ax (chars_nonempty Nx)).
  rewrite (split_spaces_word ty [] _ Ay (chars_nonempty Ny)).
  rewrite (split_spaces_last tz [] Az (chars_nonempty Nz)).
  cbn [rev app]. rewrite !string_of_list_ascii_of_string. reflexivity. }
rewrite Hs. unfold part. cbn [nth]. fold tx ty tz in Px, Py, Pz.
rewrite Px, Py, Pz. destruct v; reflexivity.
Qed.

(** *** Reading the lines back *)

Lemma ascii_lines_app (st : asciiState num) (a b : list string) :
  ascii_lines parseFloat st (a ++ b)%list
  = (st' <- ascii_lines parseFloat st a ;; ascii_lines parseFloat st' b).
Proof.
revert st. induction a as [|l a IH]; intros st; cbn [app ascii_lines bind].
- reflexivity.
- destruct (ascii_line parseFloat st l); cbn [bind]; [apply IH | reflexivity..].
Qed.

Lemma coordinates_split (P : num -> Prop) (tri : triangle num) :
  Forall P (coordinates tri) ->
  Forall P [vx (v1 tri); vy (v1 tri); vz (v1 tri)] /\
  Forall P [vx (v2 tri); vy (v2 tri); vz (v2 tri)] /\
  Forall P [vx (v3 tri); vy (v3 tri); vz (v3 tri)].
Proof.
unfold coordinates, vertices. cbn [flat_map]. rewrite !Forall_app.
intros (A & B & C & _). auto.
Qed.

Lemma facet_lines_read (tri : triangle num) (st : asciiState num) :
  Forall (prints_back toString parseFloat) (coordinates tri) ->
  exists st',
    ascii_lines parseFloat st (facet_lines toString tri) = Ret st' /\
    triangles st' = (triangles st ++ [tri])%list.
Proof.
intros H. destruct (coordinates_split H) as (H1 & H2 & H3).
destruct (vertex_text_read _ H1) as (F1 & V1 & R1).
destruct (vertex_text_read _ H2) as (F2 & V2 & R2).
destruct (vertex_text_read _ H3) as (F3 & V3 & R3).
unfold facet_lines. cbn [ascii_lines].
change (ascii_line parseFloat st "  facet normal 0 0 1")
  with (Ret {| triangles := triangles st;
               currentTriangle :=
                 Some {| pv1 := None; pv2 := None; pv3 := None |};
               vertexCount := 0 |}).
cbn [bind].
match goal with |- context [ascii_line parseFloat ?s "    outer loop"] =>
  change (ascii_line parseFloat s "    outer loop") with (Ret s);
  set (st0 := s) end.
cbn [bind].
assert (G0 : gathering (triangles st) [] st0) by (repeat split).
destruct (@gathering_vertex _ parseFloat _ _ _ _ G0 F1 V1) as (st1 & E1 & G1).
rewrite E1. cbn [bind].
destruct (@gathering_vertex _ parseFloat _ _ _ _ G1 F2 V2) as (st2 & E2 & G2).
rewrite E2. cbn [bind].
destruct (@gathering_vertex _ parseFloat _ _ _ _ G2 F3 V3) as (st3 & E3 & G3).
rewrite E3. cbn [bind].
change (ascii_line parseFloat st3 "    endloop") with (Ret st3). cbn [bind].
rewrite R1, R2, R3 in G3. cbn [app] in G3. destruct G3 as (Gt & Gn & Gc).
unfold ascii_line.
change (String.prefix "facet" (trim "  endfacet")) with false.
change (String.prefix "vertex" (trim "  endfacet")) with false.
change (String.prefix "endfacet" (trim "  endfacet")) with true.
cbv iota. rewrite Gc. cbn [nth_error bind].
eexists. split; [reflexivity|]. cbn [triangles]. rewrite Gt.
destruct tri; reflexivity.
Qed.

Lemma facets_read (m : list (triangle num)) :
  Forall (prints_back toString parseFloat) (flat_map (@coordinates num) m) ->
  forall st, exists st',
    ascii_lines parseFloat st (flat_map (facet_lines toString) m) = Ret st' /\
    triangles st' = (triangles st ++ m)%list.
Proof.
induction m as [|tri m IH]; intros H st; cbn [flat_map] in *.
- exists st. rewrite app_nil_r. split; reflexivity.
- apply Forall_app in H. destruct H as [Ht Hm].
  destruct (facet_lines_read st Ht) as (st1 & E1 & T1).
  destruct (IH Hm st1) as (st2 & E2 & T2).
  exists st2. rewrite ascii_lines_app, E1. cbn [bind]. split; [exact E2|].
  rewrite T2, T1, <- app_assoc. reflexivity.
Qed.

Lemma solid_line_skipped (st : asciiState num) (rest : string) :
  ascii_line parseFloat st ("solid " ++ rest) = Ret st /\
  ascii_line parseFloat st ("endsolid " ++ rest) = Ret st.
Proof.
unfold ascii_line, trim. split.
- change (trimStart ("solid " ++ rest)) with ("solid " ++ rest).
  cbn [append]. rewrite trimEnd_cons by reflexivity. reflexivity.
- change (trimStart ("endsolid " ++ rest)) with ("endsolid " ++ rest).
  cbn [append]. rewrite !trimEnd_cons by reflexivity. reflexivity.
Qed.

Lemma export_lines_one_line (m : list (triangle num)) (name : option string) :
  one_line (nameOrDefault name) = true ->
  Forall (prints_back toString parseFloat) (flat_map (@coordinates num) m) ->
  Forall (fun l => one_line l = true) (export_lines toString m name).
Proof.
intros Hn Hm. unfold export_lines. constructor.
{ unfold one_line. rewrite all_chars_app. fold (one_line (nameOrDefault name)).
  rewrite Hn. reflexivity. }
apply Forall_app. split.
- induction m as [|tri m IH]; cbn [flat_map] in *; [constructor|].
  apply Forall_app in Hm. destruct Hm as [Ht Hm].
  apply Forall_app. split; [|exact (IH Hm)].
  destruct (coordinates_split Ht) as (H1 & H2 & H3).
  unfold facet_lines.
  constructor; [reflexivity|]. constructor; [reflexivity|].
  constructor; [apply vertex_text_one_line; exact H1|].
  constructor; [apply vertex_text_one_line; exact H2|].
  constructor; [apply vertex_text_one_line; exact H3|].
  constructor; [reflexivity|]. constructor; [reflexivity|]. constructor.
- constructor; [|constructor].
  unfold one_line. rewrite all_chars_app. fold (one_line (nameOrDefault name)).
  rewrite Hn. reflexivity.
Qed.

Lemma exported_text_read (m : list (triangle num)) (name : option string) :
  one_line (nameOrDefault name) = true ->
  Forall (prints_back toString parseFloat) (flat_map (@coordinates num) m) ->
  parseASCIISTL parseFloat
    (list_byte_of_string (generateSTLFromMesh toString m name)) = Ret m.
Proof.
intros Hn Hm. unfold parseASCIISTL.
rewrite string_of_list_byte_of_string, generateSTLFromMesh_lines.
rewrite (split_lines_unlines (export_lines_one_line m name Hn Hm)).
unfold export_lines. cbn [app ascii_lines].
rewrite (proj1 (solid_line_skipped _ _)). cbn [bind].
rewrite <- app_assoc, ascii_lines_app.
destruct (facets_read m Hm
            {| triangles := []; currentTriangle := None; vertexCount := 0 |})
  as (st1 & E1 & T1).
rewrite E1. cbn [bind app ascii_lines].
rewrite (proj2 (solid_line_skipped _ _)). cbn [bind].
change (ascii_line parseFloat st1 "") with (Ret st1). cbn [bind].
rewrite T1. reflexivity.
Qed.

Lemma length_sapp (a b : string) :
  String.length (a ++ b) = (String.length a + String.length b)%nat.
Proof. induction a as [|c a IH]; simpl; [reflexivity | now rewrite IH]. Qed.

Lemma length_bytes (s : string) :
  List.length (list_byte_of_string s) = String.length s.
Proof.
unfold list_byte_of_string. rewrite length_map.
induction s as [|c s IH]; simpl; [reflexivity | now rewrite IH].
Qed.

(** A text of 80 characters or more that begins with [solid] goes to the
    text reader. *)
Lemma solid_text_detected (rest : string) :
  (80 <= String.length ("solid " ++ rest))%nat ->
  parseSTL float32 parseFloat (list_byte_of_string ("solid " ++ rest))
  = parseASCIISTL parseFloat (list_byte_of_string ("solid " ++ rest)).
Proof.
intros Hlen. unfold parseSTL, header, bytes_at.
rewrite length_bytes. cbn [Nat.add].
apply Nat.leb_le in Hlen. rewrite Hlen. cbn [bind skipn].
replace (includes "solid" _) with true; [reflexivity|].
symmetry. cbn [append list_byte_of_string list_ascii_of_string map firstn].
reflexivity.
Qed.

Lemma facet_text_long (tri : triangle num) (rest : list string) :
  (80 <= String.length (unlines (facet_lines toString tri ++ rest)%list))%nat.
Proof.
unfold facet_lines, vertex_text. cbn [unlines app].
rewrite !length_sapp. cbn [String.length eol]. lia.
Qed.

(** X20.  Round trip.  What [generateSTLFromMesh] writes,
    [parseASCIISTL] reads back as the mesh written, provided every
    coordinate is printed as a token that [parseFloat] reads as that
    coordinate and the name has no line feed; and for a mesh with a
    triangle [parseSTL] takes the text for an ASCII file and returns the
    same mesh. *)
Theorem exported_mesh_reads_back (m : list (triangle num))
    (name : option string) :
  one_line (nameOrDefault name) = true ->
  Forall (prints_back toString parseFloat) (flat_map (@coordinates num) m) ->
  parseASCIISTL parseFloat
    (list_byte_of_string (generateSTLFromMesh toString m name)) = Ret m /\
  (m <> [] ->
   parseSTL float32 parseFloat
     (list_byte_of_string (generateSTLFromMesh toString m name)) = Ret m).
Proof.
intros Hn Hm. pose proof (exported_text_read m name Hn Hm) as Hread.
split; [exact Hread|]. intros Hne.
rewrite generateSTLFromMesh_lines in *. unfold export_lines in *.
cbn [unlines] in *. rewrite sapp_assoc in *.
rewrite solid_text_detected; [exact Hread|].
destruct m as [|tri m']; [congruence|]. cbn [flat_map].
rewrite <- app_assoc.
pose proof (facet_text_long tri
              (flat_map (facet_lines toString) m'
               ++ [("endsolid " ++ nameOrDefault name)%string])%list) as Hlong.
rewrite !length_sapp. lia.
Qed.

End ExportFacts.

(* ================================================================== *)
(** * Further properties: the reader of programs *)

Section ReaderFacts.
Variable num : Type.
Context {NUM : JSNumber num}.
Variable parseFloat : string -> num.
Local Open Scope list_scope.

Lemma parseLine_cases (cur : position num) (temp : num) (line : string)
    (lineNumber : nat) :
  match parseLine parseFloat cur temp line lineNumber with
  | (None, pos, _) => pos = cur
  | (Some c, pos, _) =>
      command_line c = lineNumber /\
      match c with
      | Move m => mv_from m = cur /\ pos = mv_to m
      | _ => pos = cur
      end
  end.
Proof.
unfold parseLine. destruct (split_spaces [] line) as [|code rest]; [reflexivity|].
destruct (_ || _); [cbn; auto|].
destruct (String.eqb _ "G28"); [cbn; auto|].
destruct (_ || _); [cbn; auto|].
destruct (_ || _); [cbn; auto|]. reflexivity.
Qed.

Lemma parse_line_pass (hlc : bool) (st : parserState num) (index : nat)
    (line : string) :
  pass hlc index line st (parse_line parseFloat hlc st index line).
Proof.
unfold parse_line.
destruct (trim line) as [|c0 l0] eqn:Et; [now apply pass_idle|].
destruct (is_comment (String c0 l0)) eqn:Ec.
{ destruct (includes "layer" _); [|now apply pass_idle].
  destruct (match_layer (String c0 l0)) eqn:Em; [|now apply pass_idle].
  apply pass_idle; try reflexivity.
  unfold names_layer. rewrite Et, Ec, Em. discriminate. }
destruct (trim (before_semicolon (String c0 l0))) as [|c1 l1] eqn:Eb;
  [now apply pass_idle|].
pose proof (parseLine_cases (gp_position st) (gp_temp st) (String c1 l1) index)
  as Hp.
destruct (parseLine parseFloat (gp_position st) (gp_temp st) (String c1 l1) index)
  as [[[c|] pos] temp].
- destruct Hp as [Hline Hpos].
  match goal with
  | |- pass _ _ _ _ {| gp_commands := _ ++ [ {| cmd := _; cmd_layer := ?kk |} ];
                     gp_layers := _; gp_position := _; gp_temp := _;
                     gp_layer := _; gp_lastZ := _ |} =>
      apply pass_command with (c := c) (k := kk)
  end; cbn [gp_commands gp_layers gp_position gp_layer gp_lastZ];
    try reflexivity; try assumption.
  destruct hlc; [now left|].
  destruct c as [m| | |]; try (now left).
  destruct (mv_z m) as [z|]; [|now left].
  destruct (neq z (gp_lastZ st)); [now left | right; auto].
- subst pos. now apply pass_idle.
Qed.

(** *** Position *)

Lemma chained_app (start : position num) (a b : list (move num)) :
  chained start (a ++ b)
  <-> chained start a /\ chained (last_position start a) b.
Proof.
revert start. induction a as [|m a IH]; intros start; cbn.
- tauto.
- rewrite IH. unfold last_position. tauto.
Qed.

Lemma moves_of_app (a b : list (placed num)) :
  moves_of (a ++ b) = moves_of a ++ moves_of b.
Proof. unfold moves_of. apply flat_map_app. Qed.

Lemma last_position_app (start : position num) (a b : list (move num)) :
  last_position start (a ++ b) = last_position (last_position start a) b.
Proof. unfold last_position. apply fold_left_app. Qed.

Lemma parse_lines_invariant (P : parserState num -> Prop) (hlc : bool) :
  forall lines,
    (forall index line st st',
        In line lines -> pass hlc index line st st' -> P st -> P st') ->
    forall index st,
      P st -> P (parse_lines parseFloat hlc st index lines).
Proof.
induction lines as [|line rest IH]; intros Hstep index st Hst; cbn.
- exact Hst.
- apply IH.
  + intros i l s s' Hl. apply Hstep. now right.
  + eapply (Hstep index line); [now left | apply parse_line_pass | exact Hst].
Qed.

(** X21.  In what [parse] returns, every move starts where the move
    before it ended, the first at the origin, and the position the parser
    is left with is the end of the last move. *)
Theorem parse_moves_chain (currentTemp : num) (gcodeText : string) :
  let st := parse parseFloat currentTemp gcodeText in
  chained (origin (num:=num)) (moves_of (gp_commands st)) /\
  gp_position st = last_position (origin (num:=num)) (moves_of (gp_commands st)).
Proof.
cbn zeta. unfold parse.
apply (@parse_lines_invariant
         (fun st => chained (origin (num:=num)) (moves_of (gp_commands st)) /\
                    gp_position st
                    = last_position (origin (num:=num))
                        (moves_of (gp_commands st)))).
- intros index line st st' _ Hpass [Hc Hp].
  destruct Hpass as [Hcs _ Hpos _ _|c k Hcs _ _ _ _ Hpos].
  + rewrite Hcs, Hpos. auto.
  + rewrite Hcs, moves_of_app, chained_app, last_position_app.
    destruct c as [m| | |]; cbn [moves_of flat_map cmd app].
    * destruct Hpos as [Hf Ht]. cbn. rewrite <- Hp. auto.
    * cbn. rewrite Hpos. auto.
    * cbn. rewrite Hpos. auto.
    * cbn. rewrite Hpos. auto.
- cbn. auto.
Qed.

(** *** Lines *)

Lemma sorted_snoc (l : list nat) (x : nat) :
  StronglySorted lt l -> Forall (fun y => (y < x)%nat) l ->
  StronglySorted lt (l ++ [x]).
Proof.
induction 1 as [|y l Hl IH Hy]; intros Hx; cbn.
- constructor; constructor.
- inversion Hx as [|? ? Hyx Hlx]; subst. constructor; [apply IH; exact Hlx|].
  apply Forall_app. split; [exact Hy | constructor; [exact Hyx | constructor]].
Qed.

Lemma parse_lines_numbers (hlc : bool) :
  forall lines index st,
    StronglySorted lt (map (fun c => command_line (cmd c)) (gp_commands st)) ->
    Forall (fun n => (n < index)%nat)
           (map (fun c => command_line (cmd c)) (gp_commands st)) ->
    let st' := parse_lines parseFloat hlc st index lines in
    StronglySorted lt (map (fun c => command_line (cmd c)) (gp_commands st')) /\
    Forall (fun n => (n < index + List.length lines)%nat)
           (map (fun c => command_line (cmd c)) (gp_commands st')).
Proof.
induction lines as [|line rest IH]; intros index st Hs Hb; cbn zeta; cbn.
- split; [exact Hs|]. rewrite Nat.add_0_r. exact Hb.
- replace (index + S (List.length rest))%nat
    with (S index + List.length rest)%nat by lia.
  apply IH.
  + destruct (parse_line_pass hlc st index line)
      as [Hcs _ _ _ _|c k Hcs Hl _ _ _ _];
      rewrite Hcs; [exact Hs|].
    rewrite map_app. cbn. rewrite Hl. apply sorted_snoc; assumption.
  + destruct (parse_line_pass hlc st index line)
      as [Hcs _ _ _ _|c k Hcs Hl _ _ _ _];
      rewrite Hcs.
    * eapply Forall_impl; [|exact Hb]. intros a Ha; cbn in *; lia.
    * rewrite map_app. apply Forall_app. split.
      -- eapply Forall_impl; [|exact Hb]. intros a Ha; cbn in *; lia.
      -- cbn. rewrite Hl. constructor; [lia | constructor].
Qed.

(** X22.  The commands [parse] returns carry strictly increasing line
    indices, each that of a line of the text: a line gives at most one
    command, and there are no more commands than lines. *)
Theorem parse_line_numbers (currentTemp : num) (gcodeText : string) :
  let st := parse parseFloat currentTemp gcodeText in
  let numbers := map (fun c => command_line (cmd c)) (gp_commands st) in
  StronglySorted lt numbers /\
  Forall (fun n => (n < List.length (split_lines gcodeText))%nat) numbers /\
  (List.length (gp_commands st) <= List.length (split_lines gcodeText))%nat.
Proof.
cbn zeta. unfold parse.
match goal with |- context [parse_lines _ ?h ?s 0 ?ls] =>
  destruct (@parse_lines_numbers h ls 0 s) as [Hs Hb] end.
{ constructor. }
{ constructor. }
cbn zeta in Hs, Hb. cbn [Nat.add] in Hb.
split; [exact Hs|]. split; [exact Hb|].
set (st := parse_lines _ _ _ _ _) in *.
set (n := List.length (split_lines gcodeText)) in *.
assert (Hgen : forall (l : list nat) a b,
          (a <= b)%nat ->
          StronglySorted lt l -> Forall (fun x => (a <= x < b)%nat) l ->
          (List.length l + a <= b)%nat).
{ clear. induction l as [|x l IH]; intros a b Hab Hs Hb.
  - cbn. exact Hab.
  - inversion Hs as [|? ? Hs' Hx]; subst. inversion Hb as [|? ? Hxb Hb']; subst.
    assert (Hl : (List.length l + S x <= b)%nat).
    { apply IH; [lia | exact Hs'|].
      rewrite Forall_forall in *. intros z Hz.
      specialize (Hx z Hz). specialize (Hb' z Hz). cbn in *. lia. }
    cbn. lia. }
specialize (Hgen _ 0%nat n (Nat.le_0_l n) Hs).
rewrite length_map, Nat.add_0_r in Hgen. apply Hgen.
eapply Forall_impl; [|exact Hb]. intros a Ha; cbn in *; lia.
Qed.

End ReaderFacts.

Section ReaderLayers.
Variable num : Type.
Context {NUM : JSNumber num}.
Variable parseFloat : string -> num.
Local Open Scope list_scope.

(** *** Layers *)





(** *** Layers counted by height *)




(** *** Bounding box *)

Lemma scan_commands_as_vertices (cs : list (placed num)) (a : extremes num) :
  fold_left (@scan_command num NUM) cs a
  = fold_left (@scan_vertex num NUM) (map (@end_point num) (moves_of cs)) a.
Proof.
revert a. induction cs as [|c cs IH]; intros a; [reflexivity|].
cbn [fold_left]. rewrite IH. unfold moves_of. cbn [flat_map].
rewrite map_app, fold_left_app. unfold scan_command.
destruct (cmd c); reflexivity.
Qed.

Context {ORDER : OrderLaws num}.

(** X24.  [getBoundingBox] of the parser never returns [null]: without
    a move its bounds are [Infinity] and [-Infinity]; otherwise, on each
    axis, the end point of every move whose coordinate is a number lies
    between [min] and [max]. *)
Theorem printBoundingBox_encloses (st : parserState num) (ax : axis) :
  nle (ninfinity (num:=num)) ninfinity = true ->
  (forall m, In m (moves_of (gp_commands st)) ->
     nle (coordinate ax (end_point m)) (coordinate ax (end_point m)) = true ->
     nle (coordinate ax (bb_min (printBoundingBox st)))
         (coordinate ax (end_point m)) = true /\
     nle (coordinate ax (end_point m))
         (coordinate ax (bb_max (printBoundingBox st))) = true) /\
  (moves_of (gp_commands st) = [] ->
   coordinate ax (bb_min (printBoundingBox st)) = ninfinity /\
   coordinate ax (bb_max (printBoundingBox st)) = nneg_infinity).
Proof.
intros Hinf. unfold printBoundingBox. cbn zeta. cbn [bb_min bb_max].
rewrite scan_commands_as_vertices.
set (vs := map (@end_point num) (moves_of (gp_commands st))).
destruct (scan_coordinates vs (extremes_init (num:=num)) ax) as [Emin Emax].
cbn zeta in Emin, Emax.
assert (Hi0 : coordinate ax {| vx := minX (extremes_init (num:=num));
                               vy := minY (extremes_init (num:=num));
                               vz := minZ (extremes_init (num:=num)) |} = ninfinity)
  by (destruct ax; reflexivity).
assert (Ha0 : coordinate ax {| vx := maxX (extremes_init (num:=num));
                               vy := maxY (extremes_init (num:=num));
                               vz := maxZ (extremes_init (num:=num)) |} = nneg_infinity)
  by (destruct ax; reflexivity).
rewrite Hi0 in Emin. rewrite Ha0 in Emax. rewrite Emin, Emax.
destruct (@running_min_bounds _ _ _ (map (coordinate ax) vs) ninfinity Hinf)
  as (_ & _ & Hlo & _).
destruct (@running_max_bounds _ _ _ (map (coordinate ax) vs) nneg_infinity
            neg_infinity_number) as (_ & _ & Hhi & _).
cbn zeta in *. split.
- intros m Hm Hnum.
  assert (Hx : In (coordinate ax (end_point m)) (map (coordinate ax) vs)).
  { apply in_map. unfold vs. apply in_map. exact Hm. }
  split; [exact (Hlo _ Hx Hnum) | exact (Hhi _ Hx Hnum)].
- intros Hnone. unfold vs. rewrite Hnone. split; reflexivity.
Qed.

End ReaderLayers.

(* ================================================================== *)
(** * Further properties: the program, read back *)

Section TextFacts.
Local Open Scope list_scope.
Local Open Scope string_scope.

(** ** Digits *)

Lemma uint_digits (u : Decimal.uint) :
  all_chars is_digit (NilEmpty.string_of_uint u) = true.
Proof. induction u; cbn; auto. Qed.

Lemma digits_value_uint (u : Decimal.uint) :
  forall acc,
    digits_value (NilEmpty.string_of_uint u) acc = Nat.of_uint_acc u acc.
Proof.
induction u; intros acc;
  cbn [NilEmpty.string_of_uint digits_value Nat.of_uint_acc];
  try reflexivity;
  rewrite IHu; f_equal; rewrite Nat.tail_mul_spec;
  change (nat_of_ascii "0") with 48%nat; change (nat_of_ascii "1") with 49%nat;
  change (nat_of_ascii "2") with 50%nat; change (nat_of_ascii "3") with 51%nat;
  change (nat_of_ascii "4") with 52%nat; change (nat_of_ascii "5") with 53%nat;
  change (nat_of_ascii "6") with 54%nat; change (nat_of_ascii "7") with 55%nat;
  change (nat_of_ascii "8") with 56%nat; change (nat_of_ascii "9") with 57%nat;
  lia.
Qed.

Lemma to_uint_nonnil (n : nat) : Nat.to_uint n <> Decimal.Nil.
Proof.
intros H. pose proof (DecimalNat.Unsigned.of_to n) as E. rewrite H in E.
cbn in E. subst n. discriminate H.
Qed.

Lemma decimal_nat_digits (n : nat) :
  all_chars is_digit (decimal_nat n) = true /\ decimal_nat n <> "".
Proof.
unfold decimal_nat, NilZero.string_of_uint.
pose proof (to_uint_nonnil n) as Hn.
destruct (Nat.to_uint n) eqn:E; try congruence;
  (split; [apply uint_digits | cbn; discriminate]).
Qed.

(** A layer number is read back from its digits. *)
Lemma decimal_nat_value (n : nat) : digits_value (decimal_nat n) 0 = n.
Proof.
unfold decimal_nat, NilZero.string_of_uint.
pose proof (to_uint_nonnil n) as Hn.
pose proof (DecimalNat.Unsigned.of_to n) as E. unfold Nat.of_uint in E.
destruct (Nat.to_uint n) eqn:Eu; try congruence;
  rewrite digits_value_uint; exact E.
Qed.

Lemma all_chars_weaken (p q : ascii -> bool) (s : string) :
  (forall c, p c = true -> q c = true) ->
  all_chars p s = true -> all_chars q s = true.
Proof.
intros Hpq. induction s as [|c s IH]; cbn; [reflexivity|].
intros H. apply andb_true_iff in H. destruct H as [Hc Hs].
rewrite (Hpq c Hc), (IH Hs). reflexivity.
Qed.

(** ** The word [layer] *)

Lemma toLowerCase_app (a b : string) :
  toLowerCase (a ++ b) = toLowerCase a ++ toLowerCase b.
Proof. induction a as [|c a IH]; cbn; [reflexivity | now rewrite IH]. Qed.

Lemma layer_here_prefix (s d : string) :
  layer_here s = Some d -> String.prefix "layer" (toLowerCase s) = true.
Proof.
destruct s as [|c1 [|c2 [|c3 [|c4 [|c5 [|c6 s]]]]]]; try discriminate.
unfold layer_here.
destruct (String.eqb _ "layer") eqn:E; [|discriminate].
intros _. apply String.eqb_eq in E. cbn [toLowerCase] in E |- *.
injection E as E1 E2 E3 E4 E5.
rewrite E1, E2, E3, E4, E5. reflexivity.
Qed.

Lemma match_layer_skip (c : ascii) (s : string) :
  layer_here (String c s) = None -> match_layer (String c s) = match_layer s.
Proof. intros H. cbn [match_layer]. rewrite H. reflexivity. Qed.

Lemma layer_here_none (s : string) :
  String.prefix "layer" (toLowerCase s) = false -> layer_here s = None.
Proof.
intros H. destruct (layer_here s) eqn:E; [|reflexivity].
apply layer_here_prefix in E. congruence.
Qed.

Lemma prefix_layer_app (u b : string) :
  u <> "" -> off_word b = true ->
  String.prefix "layer" (toLowerCase (u ++ b)) = true ->
  String.prefix "layer" (toLowerCase u) = true.
Proof.
intros Hu Hb H. apply prefix_app in H. destruct H as [post H].
apply prefix_app.
destruct u as [|x1 [|x2 [|x3 [|x4 [|x5 u]]]]]; [congruence| | | | |].
5:{ cbn in H |- *. injection H as -> -> -> -> -> H.
    exists (toLowerCase u). reflexivity. }
all: destruct b as [|c b];
  [ cbn in H; discriminate H
  | cbn in H; exfalso; cbn in Hb;
    injection H as; subst;
    repeat match goal with
           | E : _ = lower c |- _ => rewrite <- E in Hb
           | E : lower c = _ |- _ => rewrite E in Hb
           end;
    cbn in Hb; discriminate Hb ].
Qed.

(** The text [a] holds no [layer], and none begins in it. *)
Lemma match_layer_app (a b : string) :
  includes "layer" (toLowerCase a) = false -> off_word b = true ->
  match_layer (a ++ b) = match_layer b.
Proof.
intros Ha Hb. induction a as [|c a IH]; [reflexivity|].
cbn [toLowerCase includes] in Ha. apply orb_false_iff in Ha.
destruct Ha as [Hp Hi].
change (String c a ++ b) with (String c (a ++ b)).
rewrite match_layer_skip; [exact (IH Hi)|].
apply layer_here_none.
destruct (String.prefix "layer" (toLowerCase (String c (a ++ b)))) eqn:E;
  [|reflexivity].
change (String c (a ++ b)) with (String c a ++ b) in E.
apply prefix_layer_app in E; [|discriminate|exact Hb].
cbn [toLowerCase] in E. congruence.
Qed.

Lemma plain_spec (s : string) :
  plain s = true ->
  one_line s = true /\ includes "layer" (toLowerCase s) = false.
Proof.
unfold plain. intros H. apply andb_true_iff in H. destruct H as [H1 H2].
split; [exact H1|]. now apply negb_true_iff in H2.
Qed.

(** A text without a line feed and without the letter [l] is plain. *)
Lemma plain_chars (p : ascii -> bool) (s : string) :
  (forall c, p c = true ->
     Ascii.eqb c (ascii_of_nat 10) = false /\ Ascii.eqb (lower c) "l" = false) ->
  all_chars p s = true -> plain s = true.
Proof.
intros Hp H. unfold plain. apply andb_true_iff. split.
- revert H. apply all_chars_weaken. intros c Hc.
  destruct (Hp c Hc) as [-> _]. reflexivity.
- apply negb_true_iff. induction s as [|c s IH]; [reflexivity|].
  cbn [all_chars] in H. apply andb_true_iff in H. destruct H as [Hc Hs].
  cbn [toLowerCase includes]. rewrite (IH Hs), orb_false_r.
  destruct (Hp c Hc) as [_ Hl]. cbn [String.prefix].
  destruct (ascii_dec "l" (lower c)) as [E|E]; [|reflexivity].
  rewrite <- E in Hl. discriminate Hl.
Qed.

(** The characters of a number printed with a fixed number of decimals. *)
Lemma fixed_char_plain (c : ascii) :
  is_digit c || Ascii.eqb c "." || Ascii.eqb c "-" = true ->
  Ascii.eqb c (ascii_of_nat 10) = false /\ Ascii.eqb (lower c) "l" = false.
Proof.
destruct c as [[] [] [] [] [] [] [] []]; intros H; try discriminate H;
  split; reflexivity.
Qed.

Lemma decimal_nat_plain (n : nat) : plain (decimal_nat n) = true.
Proof.
apply (@plain_chars _ _ fixed_char_plain). destruct (decimal_nat_digits n) as [H _].
revert H. apply all_chars_weaken. intros c ->. reflexivity.
Qed.

Lemma decimal_plain (z : Z) : plain (decimal z) = true.
Proof.
apply (@plain_chars _ _ fixed_char_plain).
unfold decimal, NilZero.string_of_int, NilZero.string_of_uint.
assert (Hu : forall u,
          all_chars (fun c => is_digit c || Ascii.eqb c "." || Ascii.eqb c "-")
            (NilEmpty.string_of_uint u) = true).
{ intros u. generalize (uint_digits u). apply all_chars_weaken.
  intros c ->. reflexivity. }
destruct (Z.to_int z) as [u|u]; destruct u; cbn [all_chars]; try reflexivity;
  try apply Hu; cbn; apply Hu.
Qed.

End TextFacts.

Section TrimFacts.
Local Open Scope list_scope.
Local Open Scope string_scope.

Lemma ends_well_app (p r : string) : ends_well r -> ends_well (p ++ r).
Proof.
intros [H1 H2]. split; [apply trimEnd_app; assumption|].
destruct p; [exact H2 | discriminate].
Qed.

Lemma ends_well_token (s : string) : token s = true -> ends_well s.
Proof.
intros H. destruct (token_spec _ H) as [Hn Hc]. split; [|exact Hn].
apply trimEnd_token. exact Hc.
Qed.

Lemma trim_comment (body : string) :
  ends_well body -> trim ("; " ++ body) = "; " ++ body.
Proof.
intros [H1 H2]. unfold trim. cbn [append trimStart].
change (is_space ";") with false. cbv iota.
rewrite trimEnd_cons by reflexivity. f_equal.
change (String " " body) with (" " ++ body). apply trimEnd_app; assumption.
Qed.

Lemma trimEnd_token_app (a b : string) :
  all_chars (fun c => negb (is_space c)) a = true ->
  trimEnd (a ++ b) = a ++ trimEnd b.
Proof.
induction a as [|c a IH]; intros H; [reflexivity|].
cbn [all_chars] in H. apply andb_true_iff in H. destruct H as [Hc Ha].
apply negb_true_iff in Hc.
change (String c a ++ b) with (String c (a ++ b)).
rewrite trimEnd_cons by exact Hc. rewrite (IH Ha). reflexivity.
Qed.

Lemma trimStart_token (a b : string) :
  token a = true -> trimStart (a ++ b) = a ++ b.
Proof.
destruct a as [|c a]; [discriminate|]. unfold token. cbn [all_chars].
intros H. apply andb_true_iff in H. destruct H as [Hc _].
apply negb_true_iff in Hc. cbn [append trimStart]. rewrite Hc. reflexivity.
Qed.

Lemma before_semicolon_app (a b : string) :
  all_chars (fun c => negb (Ascii.eqb c ";")) a = true ->
  before_semicolon (a ++ b) = a ++ before_semicolon b.
Proof.
unfold before_semicolon.
induction a as [|c a IH]; intros H; [reflexivity|].
cbn [all_chars] in H. apply andb_true_iff in H. destruct H as [Hc Ha].
cbn [append take_while]. rewrite Hc, (IH Ha). reflexivity.
Qed.

Lemma gap_trimEnd (s : string) : gap s = true -> gap (trimEnd s) = true.
Proof.
destruct s as [|c s]; [reflexivity|]. cbn [gap trimEnd]. intros Hc.
destruct (trimEnd s); [destruct (is_space c); [reflexivity | exact Hc] | exact Hc].
Qed.

Lemma gap_before_semicolon (s : string) :
  gap s = true -> gap (before_semicolon s) = true.
Proof.
destruct s as [|c s]; [reflexivity|]. cbn [gap]. intros Hc.
apply Ascii.eqb_eq in Hc. subst c. reflexivity.
Qed.

Lemma string_of_list_of_string (s : string) :
  string_of_list_ascii ([] ++ list_ascii_of_string s) = s.
Proof. apply string_of_list_ascii_of_string. Qed.

(** The first word of a command's line is its code. *)
Lemma code_first (code tail : string) :
  token code = true ->
  all_chars (fun c => negb (Ascii.eqb c ";")) code = true ->
  gap tail = true ->
  trim (code ++ tail) = code ++ trimEnd tail /\
  exists rest,
    split_spaces [] (trim (before_semicolon (code ++ trimEnd tail)))
    = code :: rest.
Proof.
intros Ht Hs Hg. destruct (token_spec _ Ht) as [Hn Hc].
split.
- unfold trim. rewrite trimStart_token by exact Ht.
  apply trimEnd_token_app. exact Hc.
- rewrite before_semicolon_app by exact Hs.
  unfold trim. rewrite trimStart_token by exact Ht.
  rewrite trimEnd_token_app by exact Hc.
  set (y := trimEnd (before_semicolon (trimEnd tail))).
  assert (Hy : gap y = true)
    by (apply gap_trimEnd, gap_before_semicolon, gap_trimEnd, Hg).
  destruct y as [|c y].
  + exists []. rewrite sapp_nil_r. rewrite split_spaces_last.
    * now rewrite string_of_list_of_string.
    * exact Hc.
    * apply chars_nonempty. exact Hn.
  + cbn [gap] in Hy. apply Ascii.eqb_eq in Hy. subst c.
    exists (split_spaces [] y). rewrite split_spaces_word.
    * now rewrite string_of_list_of_string.
    * exact Hc.
    * apply chars_nonempty. exact Hn.
Qed.

Lemma take_while_app (p : ascii -> bool) (a : string) (c : ascii) (r : string) :
  all_chars p a = true -> p c = false ->
  take_while p (a ++ String c r) = a.
Proof.
intros Ha Hc. induction a as [|x a IH]; cbn [append take_while].
- rewrite Hc. reflexivity.
- cbn [all_chars] in Ha. apply andb_true_iff in Ha. destruct Ha as [Hx Ha].
  rewrite Hx, (IH Ha). reflexivity.
Qed.

(** [Layer n] is read back as [n]. *)
Lemma layer_here_number (n : nat) (rest : string) :
  layer_here ("Layer " ++ decimal_nat n ++ String " " rest)
  = Some (decimal_nat n).
Proof.
destruct (decimal_nat_digits n) as [Hd Hn].
cbn [append layer_here].
change (String.eqb (toLowerCase "Layer") "layer" && is_sep " ") with true.
cbv iota.
destruct (decimal_nat n) as [|c d] eqn:E; [congruence|].
assert (Hc : is_digit c = true).
{ cbn [all_chars] in Hd. apply andb_true_iff in Hd. tauto. }
assert (Hsep : is_sep c = false).
{ destruct c as [[] [] [] [] [] [] [] []]; try discriminate Hc; reflexivity. }
cbn [append drop_while]. rewrite Hsep.
change (String c (d ++ String " " rest)) with (String c d ++ String " " rest).
rewrite take_while_app; [reflexivity | exact Hd | reflexivity].
Qed.

Lemma match_layer_includes (s d : string) :
  match_layer s = Some d -> includes "layer" (toLowerCase s) = true.
Proof.
induction s as [|c s IH].
- cbn. discriminate.
- cbn [match_layer]. destruct (layer_here (String c s)) eqn:E.
  + intros _. apply layer_here_prefix in E.
    cbn [toLowerCase] in E |- *. cbn [includes]. rewrite E. reflexivity.
  + intros H. cbn [toLowerCase includes]. rewrite (IH H). apply orb_true_r.
Qed.

End TrimFacts.

Section LineFacts.
Variable num : Type.
Context {NUM : JSNumber num}.
Variable parseFloat : string -> num.
Variable toString : num -> string.
Variable toFixedText : num -> nat -> string.
Hypothesis toString_plain : forall v, plain (toString v) = true.
Hypothesis toFixed_plain : forall v d, plain (toFixedText v d) = true.
Local Open Scope list_scope.
Local Open Scope string_scope.


(** ** What [parse] does with a line, by the kind of the line *)

Lemma parseLine_known (cur : position num) (temp : num) (u : string) (i : nat)
    (code : string) (rest : list string) :
  split_spaces [] u = code :: rest -> In code known_codes ->
  exists c pos t, parseLine parseFloat cur temp u i = (Some c, pos, t).
Proof.
intros Hs Hc. unfold parseLine. rewrite Hs.
destruct Hc as [<-|[<-|[<-|[<-|[<-|[]]]]]]; cbn [toUpperCase];
  repeat match goal with
         | |- context [upper ?c] =>
             let v := eval vm_compute in (upper c) in
             change (upper c) with v
         end;
  repeat match goal with
         | |- context [String.eqb ?a ?b] =>
             let v := eval vm_compute in (String.eqb a b) in
             change (String.eqb a b) with v
         end;
  cbn [orb]; cbv iota.
- destruct (parseMove cur (read_params parseFloat rest []) i) as [m to].
  eexists _, _, _. reflexivity.
- destruct (parseMove cur (read_params parseFloat rest []) i) as [m to].
  eexists _, _, _. reflexivity.
- eexists _, _, _. reflexivity.
- eexists _, _, _. reflexivity.
- eexists _, _, _. reflexivity.
Qed.

Lemma parseLine_M84 (cur : position num) (temp : num) (u : string) (i : nat)
    (rest : list string) :
  split_spaces [] u = "M84" :: rest ->
  parseLine parseFloat cur temp u i = (None, cur, temp).
Proof. intros Hs. unfold parseLine. rewrite Hs. reflexivity. Qed.

Lemma parse_line_blank (hlc : bool) (st : parserState num) (i : nat) :
  parse_line parseFloat hlc st i "" = st.
Proof. reflexivity. Qed.

Lemma parse_line_silent (hlc : bool) (st : parserState num) (i : nat)
    (line body : string) :
  trim line = String ";" body -> match_layer (trim line) = None ->
  parse_line parseFloat hlc st i line = st.
Proof.
intros E Hm. unfold parse_line. rewrite Hm, E. cbn [is_comment].
change (Ascii.eqb ";" ";") with true. cbv iota.
destruct (includes _ _); reflexivity.
Qed.

Lemma parse_line_named (hlc : bool) (st : parserState num) (i : nat)
    (line body digits : string) :
  trim line = String ";" body -> match_layer (trim line) = Some digits ->
  gp_layer (parse_line parseFloat hlc st i line) = digits_value digits 0 /\
  gp_layers (parse_line parseFloat hlc st i line) = gp_layers st.
Proof.
intros E Hm. unfold parse_line.
rewrite (match_layer_includes _ Hm), Hm, E. cbn [is_comment].
change (Ascii.eqb ";" ";") with true. cbv iota. split; reflexivity.
Qed.

(** A line that begins with a code. *)
Lemma parse_line_code (st : parserState num) (i : nat) (code tail : string) :
  In code ("M84" :: known_codes) -> gap tail = true ->
  let st' := parse_line parseFloat true st i (code ++ tail) in
  (gp_layer st', gp_layers st')
  = note_layers (gp_layer st, gp_layers st)
      (if existsb (String.eqb code) known_codes then Pushes else Silent).
Proof.
intros Hc Hg. cbv zeta.
assert (Ht : token code = true)
  by (destruct Hc as [<-|[<-|[<-|[<-|[<-|[<-|[]]]]]]]; reflexivity).
assert (Hs : all_chars (fun c => negb (Ascii.eqb c ";")) code = true)
  by (destruct Hc as [<-|[<-|[<-|[<-|[<-|[<-|[]]]]]]]; reflexivity).
assert (Hh : exists c r, code = String c r /\ Ascii.eqb c ";" = false).
{ destruct Hc as [<-|[<-|[<-|[<-|[<-|[<-|[]]]]]]];
    eexists _, _; split; reflexivity. }
destruct (code_first code tail Ht Hs Hg) as [Etrim [rest Esplit]].
unfold parse_line. rewrite Etrim.
destruct Hh as (c & r & -> & Hsemi).
cbn [append is_comment]. rewrite Hsemi. cbv iota.
change (String c (r ++ trimEnd tail)) with (String c r ++ trimEnd tail).
assert (Hne : trim (before_semicolon (String c r ++ trimEnd tail)) <> "").
{ intros E. rewrite E in Esplit. discriminate Esplit. }
destruct (trim (before_semicolon (String c r ++ trimEnd tail)))
  as [|c' u'] eqn:Eu; [congruence|].
destruct Hc as [Hc|Hc].
- rewrite <- Hc in Esplit |- *. rewrite (parseLine_M84 _ _ _ _ Esplit). reflexivity.
- destruct (parseLine_known (gp_position st) (gp_temp st) _ i Esplit Hc)
    as (cm & pos & t & ->).
  replace (existsb (String.eqb (String c r)) known_codes) with true.
  2:{ symmetry. apply existsb_exists. exists (String c r).
      split; [exact Hc | apply String.eqb_refl]. }
  cbn [gp_layer gp_layers note_layers fst snd andb]. reflexivity.
Qed.

(** ** The lines of a program, as text *)

Lemma one_line_app (a b : string) :
  one_line (a ++ b) = one_line a && one_line b.
Proof. apply all_chars_app. Qed.

Lemma show_plain (p : printed num) : plain (show toString toFixedText p) = true.
Proof. unfold show. destruct (p_digits p); auto. Qed.

Lemma plain_one_line (s : string) : plain s = true -> one_line s = true.
Proof. intros H. apply plain_spec in H. tauto. Qed.

Lemma match_layer_plain (a b : string) :
  plain a = true -> off_word b = true -> match_layer (a ++ b) = match_layer b.
Proof. intros H. apply plain_spec in H. apply match_layer_app. tauto. Qed.

Lemma match_layer_none (a : string) : plain a = true -> match_layer a = None.
Proof.
intros H. apply plain_spec in H. destruct H as [_ H].
destruct (match_layer a) eqn:E; [|reflexivity].
apply match_layer_includes in E. congruence.
Qed.

Lemma match_layer_found (s d : string) :
  layer_here s = Some d -> match_layer s = Some d.
Proof. intros H. destruct s; cbn [match_layer]; rewrite H; reflexivity. Qed.

Ltac skip_layer :=
  repeat (rewrite match_layer_skip
            by first [ reflexivity | apply layer_here_none; reflexivity ]).

Ltac one_line_parts :=
  repeat rewrite one_line_app;
  repeat (apply andb_true_intro; split);
  (reflexivity
   || (apply plain_one_line;
       auto using show_plain, decimal_plain, decimal_nat_plain)).

Lemma word_text_one_line (w : word num) :
  match w with WAxis name => one_line name = true | _ => True end ->
  one_line (word_text toString toFixedText w) = true.
Proof.
destruct w; cbn [word_text]; intros H; try exact H; one_line_parts.
Qed.

Lemma words_text_one_line (ws : list (word num)) :
  Forall (fun w => match w with
                   | WAxis name => one_line name = true
                   | _ => True
                   end) ws ->
  one_line (words_text toString toFixedText ws) = true.
Proof.
induction 1 as [|w ws Hw _ IH]; [reflexivity|].
cbn [words_text].
rewrite !one_line_app, (word_text_one_line _ Hw), IH. reflexivity.
Qed.

Lemma render_one_line (l : gline num) :
  tidy l -> one_line (render toString toFixedText l) = true.
Proof.
destruct l as [|r|code ws note]; cbn [render tidy].
- reflexivity.
- destruct r; cbn [remark_text]; intros H.
  + destruct H as [<-|[<-|[<-|[<-|[]]]]]; reflexivity.
  + one_line_parts.
  + one_line_parts.
  + one_line_parts.
  + one_line_parts.
  + destruct bottom; reflexivity.
  + one_line_parts.
- intros (Hc & Hw & Hn). rewrite !one_line_app, (words_text_one_line Hw).
  assert (Hcode : one_line code = true)
    by (destruct Hc as [<-|[<-|[<-|[<-|[<-|[<-|[]]]]]]]; reflexivity).
  rewrite Hcode. destruct note as [text|]; [|reflexivity].
  rewrite one_line_app, Hn. reflexivity.
Qed.

Lemma gap_tail (ws : list (word num)) (note : option string) :
  gap (words_text toString toFixedText ws
       ++ match note with Some text => " ; " ++ text | None => "" end) = true.
Proof. destruct ws; [destruct note|]; reflexivity. Qed.

Lemma decimal_nat_token (n : nat) : token (decimal_nat n) = true.
Proof.
destruct (decimal_nat_digits n) as [Hd Hn]. unfold token.
destruct (decimal_nat n) eqn:E; [congruence|]. revert Hd.
apply all_chars_weaken. intros c Hc.
destruct c as [[] [] [] [] [] [] [] []]; try discriminate Hc; reflexivity.
Qed.

Lemma remark_ends_well (r : remark num) :
  tidy (Comment r) -> ends_well (remark_text toString toFixedText r).
Proof.
assert (Hend : forall s, s <> "" -> token s = true -> ends_well s)
  by (intros; now apply ends_well_token).
destruct r; cbn [tidy remark_text]; intros H.
- destruct H as [<-|[<-|[<-|[<-|[]]]]]; split; (reflexivity || discriminate).
- do 2 apply ends_well_app. split; (reflexivity || discriminate).
- do 4 apply ends_well_app. split; (reflexivity || discriminate).
- apply ends_well_app, ends_well_token, decimal_nat_token.
- do 4 apply ends_well_app. split; (reflexivity || discriminate).
- destruct bottom; split; (reflexivity || discriminate).
- do 2 apply ends_well_app. split; (reflexivity || discriminate).
Qed.

Lemma remark_silent (r : remark num) :
  tidy (Comment r) ->
  match r with RLayer _ _ => False | _ => True end ->
  match_layer ("; " ++ remark_text toString toFixedText r) = None.
Proof.
destruct r; cbn [tidy remark_text]; intros H Hr; try contradiction.
- destruct H as [<-|[<-|[<-|[<-|[]]]]]; reflexivity.
- cbn [append]. skip_layer.
  rewrite match_layer_plain by auto. reflexivity.
- cbn [append]. skip_layer.
  rewrite match_layer_plain by auto. cbn [append]. skip_layer.
  rewrite match_layer_plain by auto. reflexivity.
- cbn [append]. skip_layer. apply match_layer_none, decimal_nat_plain.
- destruct bottom; reflexivity.
- cbn [append]. skip_layer.
  rewrite match_layer_plain by auto. reflexivity.
Qed.

Lemma layer_remark_found (n : nat) (z : printed num) :
  match_layer ("; " ++ remark_text toString toFixedText (RLayer n z))
  = Some (decimal_nat n).
Proof.
cbn [remark_text append]. skip_layer.
apply match_layer_found.
exact (layer_here_number n
         (String "(" (String "Z" (String "="
            (show toString toFixedText z ++ ")"))))).
Qed.

Lemma comment_detected (c : ascii) (body d : string) :
  is_space c = false -> layer_here (String c body) = Some d ->
  match_layer_comment (String ";" (String " " (String c body))) = true.
Proof.
intros Hc H. cbn [match_layer_comment].
change (Ascii.eqb ";" ";") with true.
change (drop_while is_space (String " " (String c body)))
  with (if is_space c then drop_while is_space body else String c body).
rewrite Hc, H. reflexivity.
Qed.

Lemma layer_remark_detected (n : nat) (z : printed num) :
  match_layer_comment
    (trim (render toString toFixedText (Comment (RLayer n z)))) = true.
Proof.
cbn [render]. rewrite trim_comment by (now apply remark_ends_well).
cbn [remark_text append].
apply comment_detected with (d := decimal_nat n); [reflexivity|].
exact (layer_here_number n
         (String "(" (String "Z" (String "="
            (show toString toFixedText z ++ ")"))))).
Qed.

(** What a line of a program does to [currentLayer] and [this.layers]
    when the text has layer comments. *)
Lemma render_effect (l : gline num) (st : parserState num) (i : nat) :
  tidy l ->
  let st' := parse_line parseFloat true st i (render toString toFixedText l) in
  (gp_layer st', gp_layers st')
  = note_layers (gp_layer st, gp_layers st) (effect_of l).
Proof.
intros Ht. cbv zeta. destruct l as [|r|code ws note].
- reflexivity.
- cbn [render].
  pose proof (trim_comment (remark_ends_well _ Ht)) as Etrim.
  cbn [append] in Etrim.
  assert (Hfound : forall n z, r = RLayer n z ->
            match_layer (String ";" (String " "
              (remark_text toString toFixedText r))) = Some (decimal_nat n)).
  { intros n z ->. apply layer_remark_found. }
  assert (Hsilent : match r with RLayer _ _ => False | _ => True end ->
            match_layer (String ";" (String " "
              (remark_text toString toFixedText r))) = None).
  { apply (remark_silent _ Ht). }
  rewrite <- Etrim in Hfound, Hsilent. cbn [append].
  destruct r as [text|h|p d|n|n z|b|d];
    try (rewrite (@parse_line_silent true st i _ _ Etrim (Hsilent I)); reflexivity).
  destruct (@parse_line_named true st i _ _ _ Etrim (Hfound n z eq_refl)) as [E1 E2].
  rewrite E1, E2, decimal_nat_value. reflexivity.
- destruct Ht as (Hc & _ & _). cbn [render effect_of].
  apply parse_line_code; [exact Hc | apply gap_tail].
Qed.

End LineFacts.

Ltac tidy_line :=
  cbn [tidy known_codes In];
  repeat split; auto 10; repeat constructor.

Section ProgramFacts.
Variable num : Type.
Context {NUM : JSNumber num} {MATH : JSMath num}.
Local Open Scope string_scope.
Local Open Scope list_scope.

(** ** The lines are those of the templates *)

Lemma emit_points_tidy (pts : list (point num)) :
  forall i c, Forall (@tidy num) (fst (emit_points pts i c)).
Proof.
induction pts as [|pt rest IH]; intros i c; cbn [emit_points].
- constructor.
- destruct (Nat.eqb i 0).
  + specialize (IH (S i) (c + 1)%Z).
    destruct (emit_points rest (S i) (c + 1)) as [ls c1]. cbn [fst] in *.
    constructor; [tidy_line | exact IH].
  + specialize (IH (S i) (c + 3)%Z).
    destruct (emit_points rest (S i) (c + 3)) as [ls c1]. cbn [fst] in *.
    constructor; [tidy_line | exact IH].
Qed.

Lemma emit_paths_tidy (paths : list (path num)) :
  forall pathIdx c r,
    emit_paths paths pathIdx c = Ret r -> Forall (@tidy num) (fst r).
Proof.
induction paths as [|pth rest IH]; intros pathIdx c r; cbn [emit_paths].
- intros [= <-]. constructor.
- intros Hr. apply bind_ret in Hr. destruct Hr as (travel & Ht & Hr).
  pose proof (emit_points_tidy pth 0 c) as Hp.
  destruct (emit_points pth 0 c) as [ls c1].
  apply bind_ret in Hr. destruct Hr as (r' & Hrest & Hr).
  injection Hr as <-. cbn [fst] in *.
  apply Forall_app. split; [|apply Forall_app; split; [exact Hp | eauto]].
  destruct (Nat.ltb 0 pathIdx).
  + destruct pth; [discriminate|]. injection Ht as <-.
    constructor; [tidy_line | constructor].
  + injection Ht as <-. constructor.
Qed.

Lemma numbered_tidy (moves : list (fillMove num)) :
  forall c, Forall (@tidy num) (numbered moves c).
Proof.
induction moves as [|m rest IH]; intros c; cbn [numbered fill_lines app].
- constructor.
- constructor; [tidy_line|]. constructor; [tidy_line|]. apply IH.
Qed.

Lemma push_infill_tidy (s : STLSlicer num) bbox pattern density paths angle c r :
  push_infill s bbox pattern density paths angle c = Ret r ->
  Forall (@tidy num) (fst r).
Proof.
intros Hr.
destruct (push_infill_shape s bbox pattern density paths angle c) as [_ Hs].
destruct (Hs r Hr) as (moves & -> & _). apply numbered_tidy.
Qed.

Lemma solid_infill_tidy (s : STLSlicer num) bbox paths isBottomLayer c r :
  solid_infill s bbox paths isBottomLayer c = Ret r ->
  Forall (@tidy num) (fst r).
Proof.
unfold solid_infill. intros Hr.
apply bind_ret in Hr. destruct Hr as (r1 & H1 & Hr).
apply bind_ret in Hr. destruct Hr as (r2 & H2 & Hr).
injection Hr as <-. cbn [fst].
constructor; [exact I|]. apply Forall_app.
split; eapply push_infill_tidy; eassumption.
Qed.

Lemma sparse_infill_tidy (s : STLSlicer num) pattern density :
  fills_tidy (fun bbox paths c => sparse_infill s bbox pattern density paths c).
Proof.
intros bbox paths c r. unfold sparse_infill.
destruct (nlt (nofZ 0) density); [|intros [= <-]; constructor].
destruct (String.eqb pattern "grid"); intros Hr.
- apply bind_ret in Hr. destruct Hr as (r1 & H1 & Hr).
  apply bind_ret in Hr. destruct Hr as (r2 & H2 & Hr).
  injection Hr as <-. cbn [fst].
  constructor; [exact I|]. apply Forall_app.
  split; eapply push_infill_tidy; eassumption.
- apply bind_ret in Hr. destruct Hr as (r1 & H1 & Hr).
  injection Hr as <-. cbn [fst].
  constructor; [exact I|]. eapply push_infill_tidy; eassumption.
Qed.

Lemma sparse_infill_seq_tidy (s : STLSlicer num) pattern density :
  fills_tidy
    (fun bbox paths c => sparse_infill_seq s bbox pattern density paths c).
Proof.
intros bbox paths c r. unfold sparse_infill_seq.
destruct (nlt (nofZ 0) density); [|intros [= <-]; constructor].
intros Hr. apply bind_ret in Hr. destruct Hr as (r1 & H1 & Hr).
injection Hr as <-. cbn [fst].
constructor; [exact I|]. eapply push_infill_tidy; eassumption.
Qed.

Lemma layer_body_tidy sparse (s : STLSlicer num) sequences i paths c r :
  fills_tidy sparse ->
  layer_body sparse s sequences i paths c = Ret r ->
  Forall (@tidy num) (fst r).
Proof.
intros Hsparse. unfold layer_body.
destruct (nth_error sequences i) as [q|]; [|discriminate].
intros Hr. apply bind_ret in Hr. destruct Hr as (per & Hper & Hr).
apply bind_ret in Hr. destruct Hr as (inf & Hinf & Hr).
injection Hr as <-. cbn [fst]. apply Forall_app. split.
- exact (emit_paths_tidy _ _ _ Hper).
- destruct (isBottom q || isTop q).
  + exact (solid_infill_tidy _ _ _ _ _ Hinf).
  + exact (Hsparse _ _ _ _ Hinf).
Qed.

Lemma emit_layers_tidy sparse trailer (s : STLSlicer num) sequences
    (layers : list (layer num)) :
  fills_tidy sparse -> Forall (@tidy num) trailer ->
  forall i c r,
    emit_layers sparse trailer s sequences layers i c = Ret r ->
    Forall (@tidy num) (fst r).
Proof.
intros Hsparse Htr.
induction layers as [|l rest IH]; intros i c r; cbn [emit_layers].
- intros [= <-]. constructor.
- intros Hr. apply bind_ret in Hr. destruct Hr as (body & Hbody & Hr).
  apply bind_ret in Hr. destruct Hr as (r' & Hrest & Hr).
  injection Hr as <-. cbn [fst].
  unfold layer_head. cbn [app].
  constructor; [exact I|]. constructor; [tidy_line|].
  apply Forall_app. split; [|apply Forall_app; split; [exact Htr | eauto]].
  destruct (segmentsToPerimeter (segments l)).
  + injection Hbody as <-. constructor.
  + exact (layer_body_tidy _ _ _ _ _ Hsparse Hbody).
Qed.

(** ** What the lines do to the layers *)

Lemma quiet_lines (ls : list (gline num)) :
  Forall (@quiet num) ls ->
  forall cur seen,
    existsb (Nat.eqb cur) seen = true ->
    fold_left note_layers (map (@effect_of num) ls) (cur, seen) = (cur, seen).
Proof.
induction 1 as [|l ls Hl _ IH]; intros cur seen Hin; [reflexivity|].
cbn [map fold_left]. unfold quiet in Hl.
destruct (effect_of l); [| contradiction |]; cbn [note_layers fst snd].
- exact (IH _ _ Hin).
- rewrite Hin. cbn [negb andb]. exact (IH _ _ Hin).
Qed.

Lemma body_line_quiet (l : gline num) : body_line l -> quiet l.
Proof.
destruct l as [|r|code ws note]; cbn [body_line]; unfold quiet.
- contradiction.
- destruct r; (contradiction || (intros _; exact I)).
- intros _. cbn [effect_of]. destruct (existsb _ _); exact I.
Qed.

Lemma seen_after (ns : list nat) :
  forall seen n,
    In n ns \/ existsb (Nat.eqb n) seen = true ->
    existsb (Nat.eqb n)
      (fold_left (fun seen n =>
                    if existsb (Nat.eqb n) seen then seen else seen ++ [n])
                 ns seen) = true.
Proof.
induction ns as [|m ns IH]; intros seen n H; cbn [fold_left].
- destruct H as [[]|H]; exact H.
- apply IH. destruct H as [[->|H]|H].
  + right. destruct (existsb (Nat.eqb n) seen) eqn:E; [exact E|].
    rewrite existsb_app. cbn. rewrite Nat.eqb_refl. apply orb_true_r.
  + left. exact H.
  + right. destruct (existsb (Nat.eqb m) seen); [exact H|].
    rewrite existsb_app, H. reflexivity.
Qed.

Lemma last_cons (A : Type) (l : list A) :
  forall a d, last (a :: l) d = last l a.
Proof.
induction l as [|b l IH]; intros a d; [reflexivity|].
change (last (a :: b :: l) d) with (last (b :: l) d).
rewrite !IH. reflexivity.
Qed.

Lemma emit_layers_read sparse trailer (s : STLSlicer num) sequences
    (layers : list (layer num)) :
  fills_body sparse -> Forall (@quiet num) trailer ->
  forall i c r cur seen,
    emit_layers sparse trailer s sequences layers i c = Ret r ->
    fold_left note_layers (map (@effect_of num) (fst r)) (cur, seen)
    = (last (map (@layer_number num) layers) cur,
       fold_left (fun seen n =>
                    if existsb (Nat.eqb n) seen then seen else seen ++ [n])
                 (map (@layer_number num) layers) seen).
Proof.
intros Hsparse Htr.
induction layers as [|l rest IH]; intros i c r cur seen; cbn [emit_layers].
- intros [= <-]. reflexivity.
- intros Hr. apply bind_ret in Hr. destruct Hr as (body & Hbody & Hr).
  apply bind_ret in Hr. destruct Hr as (r' & Hrest & Hr).
  injection Hr as <-. cbn [fst].
  assert (Hq : Forall (@quiet num) (fst body ++ trailer)).
  { apply Forall_app. split; [|exact Htr].
    destruct (segmentsToPerimeter (segments l)).
    - injection Hbody as <-. constructor.
    - eapply Forall_impl; [apply body_line_quiet|].
      exact (layer_body_lines _ _ _ _ _ Hsparse Hbody). }
  unfold layer_head. cbn [app].
  rewrite (app_assoc (fst body) trailer (fst r')).
  cbn [map fold_left]. rewrite map_app, fold_left_app.
  cbn [effect_of].
  change (existsb (String.eqb "G1") known_codes) with true. cbv iota.
  cbn [note_layers fst snd].
  fold (layer_number l).
  assert (Hn : (layer_number l =? 0)%nat = false)
    by (apply Nat.eqb_neq; unfold layer_number; lia).
  rewrite Hn. cbn [negb]. rewrite andb_true_r.
  set (seen' := if negb (existsb (Nat.eqb (layer_number l)) seen)
                then seen ++ [layer_number l] else seen).
  assert (Hseen : existsb (Nat.eqb (layer_number l)) seen' = true).
  { subst seen'. destruct (existsb (Nat.eqb (layer_number l)) seen) eqn:E;
      cbn [negb]; [exact E|].
    rewrite existsb_app. cbn. rewrite Nat.eqb_refl. apply orb_true_r. }
  rewrite (quiet_lines Hq _ _ Hseen).
  rewrite (IH _ _ _ _ _ Hrest).
  cbn [map fold_left]. f_equal.
  + symmetry. apply last_cons.
  + subst seen'. destruct (existsb (Nat.eqb (layer_number l)) seen); reflexivity.
Qed.

End ProgramFacts.

Section ReadBack.
Variable num : Type.
Context {NUM : JSNumber num} {MATH : JSMath num}.
Variable parseFloat : string -> num.
Variable toString : num -> string.
Variable toFixedText : num -> nat -> string.
Hypothesis toString_plain : forall v, plain (toString v) = true.
Hypothesis toFixed_plain : forall v d, plain (toFixedText v d) = true.
Local Open Scope string_scope.
Local Open Scope list_scope.

(** ** [join] and [split] *)

Lemma split_on_last (s : string) :
  forall cur,
    one_line s = true ->
    split_on (ascii_of_nat 10) cur s
    = [string_of_list_ascii (rev cur ++ list_ascii_of_string s)].
Proof.
induction s as [|c s IH]; intros cur Hs.
- cbn. rewrite app_nil_r. reflexivity.
- cbn [one_line all_chars] in Hs. apply andb_prop in Hs. destruct Hs as [Hc Hs].
  apply negb_true_iff in Hc.
  cbn [split_on]. rewrite Hc. rewrite (IH (c :: cur) Hs).
  cbn [rev list_ascii_of_string]. rewrite <- app_assoc. reflexivity.
Qed.

Lemma split_lines_concat (ls : list string) :
  Forall (fun l => one_line l = true) ls -> ls <> [] ->
  split_lines (String.concat eol ls) = ls.
Proof.
induction 1 as [|l ls Hl Hls IH]; [congruence|]. intros _.
unfold split_lines in *. destruct ls as [|l2 ls].
- cbn [String.concat]. rewrite (@split_on_last l [] Hl).
  cbn [rev app]. now rewrite string_of_list_ascii_of_string.
- change (String.concat eol (l :: l2 :: ls))
    with (l ++ eol ++ String.concat eol (l2 :: ls))%string.
  rewrite (@split_on_line l [] _ Hl). cbn [rev app].
  rewrite string_of_list_ascii_of_string. f_equal. apply IH. discriminate.
Qed.

(** ** The whole program *)

Lemma parse_lines_read (prog : list (gline num)) :
  Forall (@tidy num) prog ->
  forall st i,
    let st' := parse_lines parseFloat true st i
                 (map (render toString toFixedText) prog) in
    (gp_layer st', gp_layers st')
    = fold_left note_layers (map (@effect_of num) prog)
        (gp_layer st, gp_layers st).
Proof.
induction 1 as [|l ls Hl _ IH]; intros st i; [reflexivity|].
cbn [map parse_lines fold_left]. cbv zeta in IH |- *. rewrite IH.
rewrite (@render_effect _ _ parseFloat _ _ toString_plain l st i Hl).
reflexivity.
Qed.

Lemma first_seen_distinct (ns : list nat) :
  NoDup ns ->
  forall seen,
    (forall n, In n ns -> existsb (Nat.eqb n) seen = false) ->
    fold_left (fun seen n =>
                 if existsb (Nat.eqb n) seen then seen else seen ++ [n])
              ns seen
    = seen ++ ns.
Proof.
induction 1 as [|n ns Hn _ IH]; intros seen Hs; cbn [fold_left].
- now rewrite app_nil_r.
- rewrite (Hs n (or_introl eq_refl)). rewrite IH.
  + rewrite <- app_assoc. reflexivity.
  + intros m Hm. rewrite existsb_app, (Hs m (or_intror Hm)). cbn.
    rewrite orb_false_r. apply Nat.eqb_neq. intros ->. contradiction.
Qed.

Lemma announced_in (prog : list (gline num)) (n : nat) (z : printed num) :
  In (n, z) (announced prog) -> In (Comment (RLayer n z)) prog.
Proof.
unfold announced. rewrite in_flat_map. intros (l & Hl & Hin).
destruct l as [|[]|]; try contradiction.
destruct Hin as [[= -> ->]|[]]. exact Hl.
Qed.

Lemma last_in (A : Type) (l : list A) (d : A) : l <> [] -> In (last l d) l.
Proof.
induction l as [|a l IH]; [congruence|]. intros _.
destruct l as [|b l]; [left; reflexivity|].
right. apply IH. discriminate.
Qed.

Lemma program_read sparse trailer (s : STLSlicer num) sequences
    (layers : list (layer num)) (header : list (gline num))
    (footer : num -> list (gline num)) (prog : list (gline num)) :
  fills_body sparse -> fills_tidy sparse ->
  Forall (@tidy num) trailer -> Forall (@quiet num) trailer ->
  Forall (@tidy num) header ->
  fold_left note_layers (map (@effect_of num) header) (0%nat, [])
  = (0%nat, []) ->
  (forall z, Forall (@tidy num) (footer z) /\ Forall (@quiet num) (footer z)) ->
  (body <- emit_layers sparse trailer s sequences layers 0 0%Z ;;
   z <- park_height layers ;;
   Ret (header ++ fst body ++ footer z)) = Ret prog ->
  Forall (@tidy num) prog /\
  snd (fold_left note_layers (map (@effect_of num) prog) (0%nat, []))
  = first_seen (map (@layer_number num) layers).
Proof.
intros Hsparse Hst Htt Htq Hht Hhe Hfoot Hr.
apply bind_ret in Hr. destruct Hr as (body & Hb & Hr).
apply bind_ret in Hr. destruct Hr as (z & Hz & Hr). injection Hr as <-.
destruct (Hfoot z) as [Hft Hfq].
split.
- apply Forall_app. split; [exact Hht|]. apply Forall_app. split; [|exact Hft].
  eapply emit_layers_tidy; [exact Hst | exact Htt | exact Hb].
- rewrite !map_app, !fold_left_app, Hhe.
  erewrite emit_layers_read; [| exact Hsparse | exact Htq | exact Hb].
  assert (Hne : layers <> []).
  { intros ->. discriminate Hz. }
  rewrite quiet_lines; [reflexivity | exact Hfq |].
  apply seen_after. left.
  apply last_in. destruct layers; [congruence | discriminate].
Qed.

Lemma generated_program_read (s : STLSlicer num) (layers : list (layer num))
    (infillPattern : string) (infillDensity : num)
    (sequences : list layerSequence) (prog : list (gline num)) :
  plain infillPattern = true ->
  generateGCode s layers infillPattern infillDensity = Ret prog \/
  generateGCodeWithSequences s layers infillPattern infillDensity sequences
  = Ret prog ->
  Forall (@tidy num) prog /\
  snd (fold_left note_layers (map (@effect_of num) prog) (0%nat, []))
  = first_seen (map (@layer_number num) layers).
Proof.
intros Hp [Hprog|Hprog].
- unfold generateGCode in Hprog.
  refine (@program_read _ [Blank] s _ layers _
            (fun z => [ Comment (RText "Finish");
                        Command "G1" [WZ (toStr z); WF 5000] None;
                        Command "M104" [WS (toStr (nofZ 0))]
                          (Some "Turn off hotend");
                        Command "M140" [WS (toStr (nofZ 0))]
                          (Some "Turn off bed");
                        Command "G28" [WAxis "X"; WAxis "Y"]
                          (Some "Home X and Y");
                        Command "M84" [] (Some "Disable steppers") ])
            prog (sparse_infill_body s infillPattern infillDensity)
            (sparse_infill_tidy s infillPattern infillDensity)
            _ _ _ _ _ Hprog).
  + repeat constructor.
  + repeat constructor.
  + repeat (constructor; [tidy_line|]). constructor.
  + reflexivity.
  + intros z. split.
    * repeat (constructor; [tidy_line|]). constructor.
    * repeat (constructor; [exact I|]). constructor.
- unfold generateGCodeWithSequences in Hprog.
  refine (@program_read _ [] s _ layers _
            (fun z => [ Blank;
                        Comment (RText "Print complete");
                        Command "G1" [WZ (toStr z); WF 5000] None;
                        Command "M104" [WS (toStr (nofZ 0))]
                          (Some "Turn off hotend");
                        Command "M140" [WS (toStr (nofZ 0))]
                          (Some "Turn off bed");
                        Command "G28" [WX (toStr (nofZ 0)); WY (toStr (nofZ 0))]
                          (Some "Home X and Y");
                        Command "M84" [] (Some "Disable motors") ])
            prog (sparse_infill_seq_body s infillPattern infillDensity)
            (sparse_infill_seq_tidy s infillPattern infillDensity)
            _ _ _ _ _ Hprog).
  + constructor.
  + constructor.
  + repeat (constructor; [tidy_line|]). constructor.
  + reflexivity.
  + intros z. split.
    * repeat (constructor; [tidy_line|]). constructor.
    * repeat (constructor; [exact I|]). constructor.
Qed.

(** X26.  A program of [generateGCode] or of
    [generateGCodeWithSequences], joined into a text and read by [parse].
    When the numbers are printed, and the infill pattern is named, on one
    line and without the word [layer], the parser finds the layer comments,
    and [this.layers] holds the numbers the layers were announced with,
    each where it first occurs.  For layers with distinct loop indices
    these are the indices plus one, in the order of the layers, and
    [getLayerCount] is the number of layers. *)
Theorem generated_program_read_back (s : STLSlicer num)
    (layers : list (layer num)) (infillPattern : string) (infillDensity : num)
    (sequences : list layerSequence) (prog : list (gline num))
    (currentTemp : num) :
  plain infillPattern = true ->
  generateGCode s layers infillPattern infillDensity = Ret prog \/
  generateGCodeWithSequences s layers infillPattern infillDensity sequences
  = Ret prog ->
  let text := program_text toString toFixedText prog in
  let st := parse parseFloat currentTemp text in
  hasLayerComments text = true /\
  gp_layers st = first_seen (map (fun l => (layerNum l + 1)%nat) layers) /\
  (NoDup (map (@layerNum num) layers) ->
   gp_layers st = map (fun l => (layerNum l + 1)%nat) layers /\
   getLayerCount st = List.length layers).
Proof.
intros Hp Hprog. cbv zeta.
destruct (@generated_program_read s layers infillPattern infillDensity
            sequences prog Hp Hprog) as [Htidy Hfold].
destruct (@generated_program num NUM MATH s layers infillPattern infillDensity
            sequences prog Hprog) as [Hann _].
assert (Hne : layers <> []).
{ intros ->. destruct Hprog as [H|H]; discriminate H. }
assert (Hlines : split_lines (program_text toString toFixedText prog)
                 = map (render toString toFixedText) prog).
{ unfold program_text. apply split_lines_concat.
  - apply Forall_map. eapply Forall_impl; [|exact Htidy].
    intros l Hl. now apply render_one_line.
  - destruct prog; [|discriminate]. destruct layers; [congruence|discriminate]. }
assert (Hhlc : hasLayerComments (program_text toString toFixedText prog) = true).
{ unfold hasLayerComments. rewrite Hlines. apply existsb_exists.
  destruct layers as [|l ls]; [congruence|].
  exists (render toString toFixedText
            (Comment (RLayer (layerNum l + 1) (toFixed 3 (layer_z l))))).
  split; [|apply layer_remark_detected; assumption].
  apply in_map, announced_in. rewrite Hann. left. reflexivity. }
assert (Hlayers : gp_layers (parse parseFloat currentTemp
                               (program_text toString toFixedText prog))
                  = first_seen (map (fun l => (layerNum l + 1)%nat) layers)).
{ unfold parse. cbv zeta.
  change (existsb (fun line => match_layer_comment (trim line))
            (split_lines (program_text toString toFixedText prog)))
    with (hasLayerComments (program_text toString toFixedText prog)).
  rewrite Hhlc, Hlines.
  pose proof (@parse_lines_read prog Htidy
                {| gp_commands := []; gp_layers := [];
                   gp_position := origin (num:=num); gp_temp := currentTemp;
                   gp_layer := 0; gp_lastZ := nofZ 0 |} 0%nat) as E.
  cbv zeta in E. cbn [gp_layer gp_layers] in E.
  apply (f_equal snd) in E. cbn [snd] in E. rewrite E. exact Hfold. }
split; [exact Hhlc|]. split; [exact Hlayers|].
intros Hnd.
assert (E : first_seen (map (fun l => (layerNum l + 1)%nat) layers)
            = map (fun l => (layerNum l + 1)%nat) layers).
{ unfold first_seen. rewrite first_seen_distinct; [reflexivity| |reflexivity].
  clear -Hnd. induction layers as [|l ls IH]; cbn [map] in *; [constructor|].
  inversion Hnd as [|? ? Hn Hnd']; subst. constructor; [|exact (IH Hnd')].
  rewrite in_map_iff in *. intros (l' & Hl' & Hin). apply Hn.
  exists l'. split; [lia | exact Hin]. }
rewrite Hlayers, E. split; [reflexivity|].
unfold getLayerCount. rewrite Hlayers, E. apply length_map.
Qed.

End ReadBack.

Section FloatText.
Local Open Scope string_scope.

(** ** binary64: the printed numbers are plain *)

Lemma uint_fixed (u : Decimal.uint) :
  all_chars (fun c => is_digit c || Ascii.eqb c "." || Ascii.eqb c "-")
    (NilZero.string_of_uint u) = true.
Proof.
assert (H : forall v,
          all_chars (fun c => is_digit c || Ascii.eqb c "." || Ascii.eqb c "-")
            (NilEmpty.string_of_uint v) = true).
{ intros v. generalize (uint_digits v). apply all_chars_weaken.
  intros c ->. reflexivity. }
unfold NilZero.string_of_uint. destruct u; try reflexivity; apply H.
Qed.

Lemma zeros_fixed (k : nat) :
  all_chars (fun c => is_digit c || Ascii.eqb c "." || Ascii.eqb c "-")
    (F64out.zeros k) = true.
Proof. induction k as [|k IH]; [reflexivity|]. cbn. exact IH. Qed.

Lemma substring_chars (p : ascii -> bool) (s : string) :
  all_chars p s = true ->
  forall a b, all_chars p (substring a b s) = true.
Proof.
induction s as [|c s IH]; intros H a b.
- destruct a, b; reflexivity.
- cbn [all_chars] in H. apply andb_true_iff in H. destruct H as [Hc Hs].
  destruct a as [|a]; [destruct b as [|b]|]; cbn [substring].
  + reflexivity.
  + cbn [all_chars]. rewrite Hc. exact (IH Hs 0%nat b).
  + exact (IH Hs a b).
Qed.

Lemma point_fixed (n : N) (d : nat) :
  all_chars (fun c => is_digit c || Ascii.eqb c "." || Ascii.eqb c "-")
    (F64out.point n d) = true.
Proof.
unfold F64out.point. cbv zeta.
set (m := F64out.zeros _ ++ _).
assert (Hm : all_chars
               (fun c => is_digit c || Ascii.eqb c "." || Ascii.eqb c "-") m
             = true).
{ subst m. rewrite all_chars_app, zeros_fixed, uint_fixed. reflexivity. }
destruct (d =? 0)%nat; [exact Hm|].
rewrite !all_chars_app, !(@substring_chars _ m Hm). reflexivity.
Qed.

Lemma float_toFixed_plain (x : float) (d : nat) :
  plain (F64out.toFixed x d) = true.
Proof.
unfold F64out.toFixed.
destruct (Prim2SF x) as [s|s| |s m e].
- apply (@plain_chars _ _ fixed_char_plain), point_fixed.
- destruct s; reflexivity.
- reflexivity.
- cbv zeta. destruct (_ && _); [reflexivity|].
  apply (@plain_chars _ _ fixed_char_plain).
  rewrite all_chars_app, point_fixed. destruct s; reflexivity.
Qed.

Lemma float_toString_plain (x : float) : plain (F64out.toString x) = true.
Proof.
unfold F64out.toString.
destruct (F64.floorZ x) as [z|]; [|reflexivity].
destruct (_ && _); [|reflexivity].
apply (@plain_chars _ _ fixed_char_plain).
generalize (uint_digits (N.to_uint (Z.to_N z))). apply all_chars_weaken.
intros c ->. reflexivity.
Qed.

End FloatText.

(* ================================================================== *)
(** * Further properties: planes, surfaces and scan lines *)

Section PlaneFacts.
Variable num : Type.
Context {NUM : JSNumber num}.

Lemma edge_off (z : num) (va vb : vertex num) :
  (under_plane z va /\ under_plane z vb) \/ (over_plane z va /\ over_plane z vb) ->
  edge_intersection z va vb = [].
Proof.
unfold edge_intersection, under_plane, over_plane.
intros [[[A1 A2] [B1 B2]]|[[A1 A2] [B1 B2]]]; rewrite A1, A2, B1, B2; reflexivity.
Qed.

(** X30.  [sliceAtZ] and the corners of a triangle.  A triangle whose
    corners are all under the plane, or all over it, gives no segment.  A
    triangle with one corner on the plane, one under it and one over it,
    and steep edges, meets the plane three times, so it gives no segment
    either: the triangle is left out of the layer. *)
Theorem triangle_through_vertex (z : num) (tri : triangle num) :
  (Forall (under_plane z) (vertices tri) \/ Forall (over_plane z) (vertices tri) ->
   triangle_segment z tri = []) /\
  ((exists a b c,
      In a (vertices tri) /\ In b (vertices tri) /\ In c (vertices tri) /\
      on_plane z a /\ under_plane z b /\ over_plane z c) ->
   steep (v1 tri) (v2 tri) -> steep (v2 tri) (v3 tri) ->
   steep (v3 tri) (v1 tri) ->
   List.length (triangle_intersections z tri) = 3%nat /\
   triangle_segment z tri = []).
Proof.
destruct tri as [a1 a2 a3]. cbn [vertices v1 v2 v3]. split.
- intros H. unfold triangle_segment, triangle_intersections. cbn [v1 v2 v3].
  assert (E : forall u w, In u [a1; a2; a3] -> In w [a1; a2; a3] ->
                edge_intersection z u w = []).
  { intros u w Hu Hw. apply edge_off.
    destruct H as [H|H]; rewrite Forall_forall in H; [left | right]; auto. }
  rewrite !E; cbn [In]; auto.
- intros (a & b & c & Ha & Hb & Hc & [O1 O2] & [U1 U2] & [V1 V2]) S1 S2 S3.
  unfold steep in S1, S2, S3.
  unfold triangle_segment, triangle_intersections, edge_intersection.
  cbn [v1 v2 v3 In] in *.
  destruct Ha as [<-|[<-|[<-|[]]]]; destruct Hb as [<-|[<-|[<-|[]]]];
    try congruence;
    destruct Hc as [<-|[<-|[<-|[]]]]; try congruence;
    cbn [v1 v2 v3] in *;
    rewrite O1, O2, U1, U2, V1, V2, S1, S2, S3; split; reflexivity.
Qed.

End PlaneFacts.

Section SurfaceFacts.
Variable num : Type.
Context {NUM : JSNumber num} {MATH : JSMath num}.

Lemma sort_insert_in (x : num) (l : list num) :
  forall y, In y (sort_insert x l) <-> y = x \/ In y l.
Proof.
induction l as [|a l IH]; intros y; cbn [sort_insert].
- cbn. intuition.
- destruct (x <? a)%num.
  + cbn. intuition.
  + cbn [In]. rewrite IH. intuition.
Qed.

Lemma sort_insert_length (x : num) (l : list num) :
  List.length (sort_insert x l) = S (List.length l).
Proof.
induction l as [|a l IH]; cbn [sort_insert]; [reflexivity|].
destruct (x <? a)%num; cbn [List.length]; [reflexivity | now rewrite IH].
Qed.

Lemma sort_fold_in (l : list num) :
  forall acc y,
    In y (fold_left (fun acc x => sort_insert x acc) l acc)
    <-> In y l \/ In y acc.
Proof.
induction l as [|a l IH]; intros acc y; cbn [fold_left].
- cbn. intuition.
- rewrite IH, sort_insert_in. cbn [In]. intuition.
Qed.

Lemma sort_fold_length (l : list num) :
  forall acc,
    List.length (fold_left (fun acc x => sort_insert x acc) l acc)
    = (List.length l + List.length acc)%nat.
Proof.
induction l as [|a l IH]; intros acc; cbn [fold_left]; [reflexivity|].
rewrite IH, sort_insert_length. cbn [List.length]. lia.
Qed.

Lemma apart_sym (tol a b : num) : apart tol a b -> apart tol b a.
Proof. unfold apart. tauto. Qed.

Lemma sort_insert_apart (tol x : num) (l : list num) :
  ForallOrdPairs (apart tol) l -> Forall (apart tol x) l ->
  ForallOrdPairs (apart tol) (sort_insert x l).
Proof.
induction l as [|a l IH]; intros Hl Hx; cbn [sort_insert].
- constructor; constructor.
- inversion Hl as [|? ? Ha Hl']; subst. inversion Hx as [|? ? Hxa Hx']; subst.
  destruct (x <? a)%num.
  + constructor; [constructor; assumption | exact Hl].
  + constructor; [|exact (IH Hl' Hx')].
    rewrite Forall_forall in *. intros y Hy. apply sort_insert_in in Hy.
    destruct Hy as [->|Hy]; [apply apart_sym; exact Hxa | exact (Ha y Hy)].
Qed.

Lemma sort_fold_apart (tol : num) (l : list num) :
  forall acc,
    ForallOrdPairs (apart tol) acc -> ForallOrdPairs (apart tol) l ->
    (forall a x, In a acc -> In x l -> apart tol x a) ->
    ForallOrdPairs (apart tol)
      (fold_left (fun acc x => sort_insert x acc) l acc).
Proof.
induction l as [|b l IH]; intros acc Hacc Hl Hc; cbn [fold_left]; [exact Hacc|].
inversion Hl as [|? ? Hb Hl']; subst.
apply IH.
- apply sort_insert_apart; [exact Hacc|].
  rewrite Forall_forall. intros a Ha. apply Hc; [exact Ha | now left].
- exact Hl'.
- intros a x Ha Hx. apply sort_insert_in in Ha. destruct Ha as [->|Ha].
  + rewrite Forall_forall in Hb. apply apart_sym. exact (Hb x Hx).
  + apply Hc; [exact Ha | now right].
Qed.

Lemma pairs_snoc (R : num -> num -> Prop) (l : list num) (x : num) :
  ForallOrdPairs R l -> Forall (fun e => R e x) l ->
  ForallOrdPairs R (l ++ [x]).
Proof.
induction 1 as [|a l Ha _ IH]; intros Hx; cbn [app].
- constructor; constructor.
- inversion Hx as [|? ? Hax Hx']; subst.
  constructor; [|exact (IH Hx')].
  apply Forall_app. split; [exact Ha | constructor; [exact Hax | constructor]].
Qed.

Lemma not_found_surface (tol avgZ : num) (known : list num) :
  found_surface tol avgZ known = false ->
  Forall (fun e => recorded_after tol e avgZ) known.
Proof.
unfold found_surface, recorded_after. induction known as [|e l IH]; cbn [existsb].
- constructor.
- intros H. apply orb_false_iff in H. destruct H as [He Hl].
  constructor; [exact He | exact (IH Hl)].
Qed.

(** What the loop over the triangles keeps true. *)
Lemma detect_triangles (tol : num) (m : list (triangle num)) :
  forall acc done,
    (forall z, In z (topSurfaces acc) \/ In z (bottomSurfaces acc) ->
       exists tri, In tri done /\ z = mean_height tri) ->
    (List.length (topSurfaces acc) + List.length (bottomSurfaces acc)
     <= List.length done)%nat ->
    ForallOrdPairs (recorded_after tol) (topSurfaces acc) ->
    ForallOrdPairs (recorded_after tol) (bottomSurfaces acc) ->
    let r := fold_left (detect_triangle tol) m acc in
    (forall z, In z (topSurfaces r) \/ In z (bottomSurfaces r) ->
       exists tri, In tri (done ++ m) /\ z = mean_height tri) /\
    (List.length (topSurfaces r) + List.length (bottomSurfaces r)
     <= List.length (done ++ m))%nat /\
    ForallOrdPairs (recorded_after tol) (topSurfaces r) /\
    ForallOrdPairs (recorded_after tol) (bottomSurfaces r).
Proof.
induction m as [|tri m IH]; intros acc done Hin Hlen Ht Hb; cbv zeta.
- cbn [fold_left]. rewrite app_nil_r. auto.
- cbn [fold_left].
  replace (done ++ tri :: m) with ((done ++ [tri]) ++ m)
    by (rewrite <- app_assoc; reflexivity).
  assert (Hweak : forall z,
            In z (topSurfaces acc) \/ In z (bottomSurfaces acc) ->
            exists t, In t (done ++ [tri]) /\ z = mean_height t).
  { intros z Hz. destruct (Hin z Hz) as (t & Ht' & E).
    exists t. split; [apply in_or_app; now left | exact E]. }
  assert (Hlen' : (List.length (topSurfaces acc)
                   + List.length (bottomSurfaces acc)
                   <= List.length (done ++ [tri]))%nat)
    by (rewrite length_app; cbn [List.length]; lia).
  apply IH; unfold detect_triangle; cbv zeta;
    repeat match goal with
           | |- context [if ?c then _ else _] => destruct c eqn:?
           end;
    cbn [topSurfaces bottomSurfaces]; auto.
  + intros z [Hz|Hz]; [|apply Hweak; now right].
    apply in_app_or in Hz. destruct Hz as [Hz|[<-|[]]]; [apply Hweak; now left|].
    exists tri. split; [apply in_or_app; right; now left | reflexivity].
  + intros z [Hz|Hz]; [apply Hweak; now left|].
    apply in_app_or in Hz. destruct Hz as [Hz|[<-|[]]]; [apply Hweak; now right|].
    exists tri. split; [apply in_or_app; right; now left | reflexivity].
  + rewrite !length_app in *. cbn [List.length] in *. lia.
  + rewrite !length_app in *. cbn [List.length] in *. lia.
  + apply pairs_snoc; [exact Ht | now apply not_found_surface].
  + apply pairs_snoc; [exact Hb | now apply not_found_surface].
Qed.

Lemma recorded_apart (tol : num) (l : list num) :
  ForallOrdPairs (recorded_after tol) l ->
  ForallOrdPairs (apart tol) (sort_numbers l).
Proof.
intros H. unfold sort_numbers. apply sort_fold_apart.
- constructor.
- induction H as [|a l Ha _ IH]; constructor; [|exact IH].
  eapply Forall_impl; [|exact Ha]. intros b Hb. now left.
- intros a x [].
Qed.

(** X29.  [detectHorizontalSurfaces] records only mean heights of
    triangles of the mesh, in all no more heights than there are
    triangles, and never two top heights, or two bottom heights, that the
    test finds within [layerHeight] of each other in both orders. *)
Theorem detected_surfaces (s : STLSlicer num) :
  let r := detectHorizontalSurfaces s in
  let m := match mesh s with Some m => m | None => [] end in
  (forall z, In z (topSurfaces r) \/ In z (bottomSurfaces r) ->
     exists tri, In tri m /\ z = mean_height tri) /\
  (List.length (topSurfaces r) + List.length (bottomSurfaces r)
   <= List.length m)%nat /\
  ForallOrdPairs (apart (layerHeight s)) (topSurfaces r) /\
  ForallOrdPairs (apart (layerHeight s)) (bottomSurfaces r).
Proof.
cbv zeta. unfold detectHorizontalSurfaces.
destruct (mesh s) as [[|tri m]|].
- cbn. repeat split; try constructor; intros z [[]|[]].
- pose proof (@detect_triangles (layerHeight s) (tri :: m)
                {| topSurfaces := []; bottomSurfaces := [] |} []) as H.
  cbn [topSurfaces bottomSurfaces] in H.
  destruct H as (H1 & H2 & H3 & H4);
    [intros z [[]|[]] | constructor | constructor | constructor |].
  cbn [app] in H1, H2. cbv zeta in H1, H2, H3, H4.
  cbn [topSurfaces bottomSurfaces]. split; [|split; [|split]].
  + intros z Hz. apply H1. unfold sort_numbers in Hz.
    destruct Hz as [Hz|Hz]; apply sort_fold_in in Hz; cbn [In] in Hz; tauto.
  + unfold sort_numbers. rewrite !sort_fold_length. cbn [List.length].
    rewrite !Nat.add_0_r. exact H2.
  + apply recorded_apart. exact H3.
  + apply recorded_apart. exact H4.
- cbn. repeat split; try constructor; intros z [[]|[]].
Qed.

End SurfaceFacts.

Section ScanFacts.
Variable num : Type.
Context {NUM : JSNumber num}.

Lemma with_previous_in (polygon : path num) (p q : point num) :
  In (p, q) (with_previous polygon) -> In p polygon /\ In q polygon.
Proof.
unfold with_previous. destruct polygon as [|p0 rest]; [intros []|].
intros H. split; [exact (in_combine_l _ _ _ _ H)|].
apply in_combine_r in H. destruct H as [<-|H].
- destruct (@exists_last _ (p0 :: rest)) as (l' & a & E); [discriminate|].
  rewrite E, last_last. rewrite <- E. rewrite E. apply in_or_app. right. now left.
- revert H. generalize (p0 :: rest). clear. intros l.
  induction l as [|a l IH]; [intros []|].
  cbn [removelast]. destruct l as [|b l]; [intros []|].
  intros [<-|H]; [now left | right; exact (IH H)].
Qed.

(** X27.  A point that is below every vertex of a path, or below none,
    is outside the path.  When this holds of every path,
    [isPointInPolygon] is false for each of them, and the point is
    neither inside the perimeters nor in solid geometry. *)
Theorem outside_by_height (pt : point num) (paths : list (path num)) :
  (forall pth, In pth paths ->
     exists above, forall p, In p pth -> (py p >? py pt)%num = above) ->
  (forall pth, In pth paths -> isPointInPolygon pt pth = false) /\
  isPointInsidePerimeters pt paths = false /\
  isPointInSolidGeometry pt paths = false.
Proof.
intros H.
assert (Hp : forall pth, In pth paths -> isPointInPolygon pt pth = false).
{ intros pth Hin. destruct (H pth Hin) as [above Ha].
  unfold isPointInPolygon.
  assert (Hgen : forall es,
            (forall p q, In (p, q) es -> In p pth /\ In q pth) ->
            fold_left
              (fun inside '(pi, pj) =>
                 let xi := px pi in let yi := py pi in
                 let xj := px pj in let yj := py pj in
                 let intersect :=
                   negb (Bool.eqb (yi >? py pt)%num (yj >? py pt)%num)
                   && (px pt <? (xj - xi) * (py pt - yi) / (yj - yi) + xi)%num in
                 if intersect then negb inside else inside)
              es false = false).
  { induction es as [|[p q] es IH]; intros Hin'; [reflexivity|].
    cbn [fold_left]. cbv zeta.
    destruct (Hin' p q (or_introl eq_refl)) as [Hp Hq].
    rewrite (Ha p Hp), (Ha q Hq), Bool.eqb_reflx. cbn [negb andb].
    apply IH. intros p' q' H'. apply Hin'. now right. }
  apply Hgen. apply with_previous_in. }
split; [exact Hp|].
destruct (solid_within_perimeters pt paths) as (E1 & E2 & _).
rewrite E1, E2, containing_count_filter.
assert (E : filter (isPointInPolygon pt) paths = []).
{ clear -Hp. induction paths as [|pth rest IH]; [reflexivity|].
  cbn [filter]. rewrite (Hp pth (or_introl eq_refl)).
  apply IH. intros p' H'. apply Hp. now right. }
rewrite E. split; reflexivity.
Qed.

(** Along a chain of vertices, the parity of the number of changes of
    side is that of the two ends. *)
Lemma chain_changes (B : Type) (side : point num -> bool)
    (f : point num * point num -> list B) (r : list (point num)) :
  forall a z,
    Forall (fun e => List.length (f e)
                     = if xorb (side (fst e)) (side (snd e)) then 1 else 0)%nat
           (combine (a :: r) (r ++ [z])) ->
    Nat.odd (List.length (flat_map f (combine (a :: r) (r ++ [z]))))
    = xorb (side a) (side z).
Proof.
induction r as [|c r IH]; intros a z H.
- cbn [app combine flat_map] in H |- *. inversion H as [|? ? He _]; subst.
  rewrite app_nil_r, He. cbn [fst snd]. destruct (xorb (side a) (side z)); reflexivity.
- change (combine (a :: c :: r) ((c :: r) ++ [z]))
    with ((a, c) :: combine (c :: r) (r ++ [z])) in *.
  cbn [flat_map]. inversion H as [|? ? He Hr]; subst.
  rewrite length_app, Nat.odd_add, (IH c z Hr), He. cbn [fst snd].
  destruct (side a), (side c), (side z); reflexivity.
Qed.

Lemma cycle_changes (B : Type) (side : point num -> bool)
    (f : point num * point num -> list B) (polygon : path num) :
  Forall (fun e => List.length (f e)
                   = if xorb (side (fst e)) (side (snd e)) then 1 else 0)%nat
         (with_next polygon) ->
  Nat.even (List.length (flat_map f (with_next polygon))) = true.
Proof.
unfold with_next. destruct polygon as [|a r]; [reflexivity|].
cbn [tl firstn]. intros H.
rewrite <- Nat.negb_odd, (chain_changes side f r a a H), xorb_nilpotent.
reflexivity.
Qed.

Lemma with_next_in (polygon : path num) (p q : point num) :
  In (p, q) (with_next polygon) -> In p polygon /\ In q polygon.
Proof.
unfold with_next. intros H. split; [exact (in_combine_l _ _ _ _ H)|].
apply in_combine_r in H. apply in_app_or in H. destruct H as [H|H].
- destruct polygon; [destruct H | right; exact H].
- destruct polygon as [|p0 rest]; [destruct H|].
  cbn [firstn] in H. destruct H as [<-|[]]. now left.
Qed.

Lemma pairs_length (l : list num) :
  Nat.even (List.length l) = true ->
  List.length l = (2 * List.length (pairs l))%nat.
Proof.
assert (H : forall l : list num,
          (Nat.even (List.length l) = true ->
           List.length l = (2 * List.length (pairs l))%nat) /\
          forall a,
            Nat.even (List.length (a :: l)) = true ->
            List.length (a :: l) = (2 * List.length (pairs (a :: l)))%nat).
{ clear l. induction l as [|b l [IH1 IH2]]; split.
  - reflexivity.
  - intros a H. discriminate H.
  - exact (IH2 b).
  - intros a H. cbn [pairs List.length] in H |- *.
    change (Nat.even (S (S (List.length l)))) with (Nat.even (List.length l)) in H.
    rewrite (IH1 H). lia. }
exact (proj1 (H l)).
Qed.

Lemma crossings_even (v : num) (polygon : path num) :
  (crossable (@py num) v polygon ->
   Nat.even (List.length (findLinePolygonIntersections v polygon)) = true) /\
  (crossable (@px num) v polygon ->
   Nat.even (List.length (findVerticalLinePolygonIntersections v polygon))
   = true).
Proof.
split; intros [Hs Hl];
  [unfold findLinePolygonIntersections | unfold findVerticalLinePolygonIntersections].
- apply cycle_changes with (side := fun p => (py p <? v)%num).
  rewrite Forall_forall in *. intros [p1 p2] Hin. cbn [fst snd].
  destruct (with_next_in _ _ _ Hin) as [H1 H2].
  specialize (Hl _ Hin). cbv beta iota in Hl. unfold sided in Hs.
  rewrite (Hs p1 H1), (Hs p2 H2).
  destruct (py p1 <? v)%num, (py p2 <? v)%num; cbn [negb andb orb xorb];
    try reflexivity;
    (destruct Hl as [Hl|Hl]; [discriminate Hl | rewrite Hl; reflexivity]).
- apply cycle_changes with (side := fun p => (px p <? v)%num).
  rewrite Forall_forall in *. intros [p1 p2] Hin. cbn [fst snd].
  destruct (with_next_in _ _ _ Hin) as [H1 H2].
  specialize (Hl _ Hin). cbv beta iota in Hl. unfold sided in Hs.
  rewrite (Hs p1 H1), (Hs p2 H2).
  destruct (px p1 <? v)%num, (px p2 <? v)%num; cbn [negb andb orb xorb];
    try reflexivity;
    (destruct Hl as [Hl|Hl]; [discriminate Hl | rewrite Hl; reflexivity]).
Qed.

Lemma flat_map_even (A B : Type) (f : A -> list B) (l : list A) :
  Forall (fun a => Nat.even (List.length (f a)) = true) l ->
  Nat.even (List.length (flat_map f l)) = true.
Proof.
induction 1 as [|a l Ha _ IH]; [reflexivity|].
cbn [flat_map]. rewrite length_app, Nat.even_add, Ha, IH. reflexivity.
Qed.

(** X28.  The crossings of a scan line come in pairs.  For paths whose
    vertices are each on one side of the line and whose edges from one
    side to the other are longer than 0.0001 across it,
    [findLinePolygonIntersections] returns an even number of
    intersections for every path, and the sorted intersections of all the
    paths are paired without one left over.  The same holds of
    [findVerticalLinePolygonIntersections]. *)
Theorem scan_crossings_paired (v : num) (paths : list (path num)) :
  (Forall (crossable (@py num) v) paths ->
   Forall (fun pth =>
             Nat.even (List.length (findLinePolygonIntersections v pth)) = true)
          paths /\
   let xs := sort_numbers (flat_map (findLinePolygonIntersections v) paths) in
   List.length xs = (2 * List.length (pairs xs))%nat) /\
  (Forall (crossable (@px num) v) paths ->
   Forall (fun pth =>
             Nat.even (List.length (findVerticalLinePolygonIntersections v pth))
             = true)
          paths /\
   let xs :=
     sort_numbers (flat_map (findVerticalLinePolygonIntersections v) paths) in
   List.length xs = (2 * List.length (pairs xs))%nat).
Proof.
split; intros H.
- assert (He : Forall (fun pth =>
                 Nat.even (List.length (findLinePolygonIntersections v pth))
                 = true) paths).
  { eapply Forall_impl; [|exact H]. intros pth. apply crossings_even. }
  split; [exact He|]. cbv zeta. apply pairs_length.
  unfold sort_numbers. rewrite sort_fold_length. cbn [List.length].
  rewrite Nat.add_0_r. apply flat_map_even. exact He.
- assert (He : Forall (fun pth =>
                 Nat.even
                   (List.length (findVerticalLinePolygonIntersections v pth))
                 = true) paths).
  { eapply Forall_impl; [|exact H]. intros pth. apply crossings_even. }
  split; [exact He|]. cbv zeta. apply pairs_length.
  unfold sort_numbers. rewrite sort_fold_length. cbn [List.length].
  rewrite Nat.add_0_r. apply flat_map_even. exact He.
Qed.

End ScanFacts.

(* ================================================================== *)
(** * Further properties at the inputs *)

Section FurtherExamples.
Import Examples Samples.
Local Open Scope string_scope.
Local Open Scope list_scope.

Lemma getBoundingBox_encloses_cube :
  (forall tri v, In tri cube -> In v (vertices tri) ->
     (coordinate AxisZ v <=? coordinate AxisZ v)%num = true ->
     (coordinate AxisZ (bb_min cube_box) <=? coordinate AxisZ v)%num = true /\
     (coordinate AxisZ v <=? coordinate AxisZ (bb_max cube_box))%num = true) /\
  (coordinate AxisZ (bb_min cube_box) = ninfinity \/
   exists tri v, In tri cube /\ In v (vertices tri) /\
                 coordinate AxisZ v = coordinate AxisZ (bb_min cube_box)) /\
  (coordinate AxisZ (bb_max cube_box) = nneg_infinity \/
   exists tri v, In tri cube /\ In v (vertices tri) /\
                 coordinate AxisZ v = coordinate AxisZ (bb_max cube_box)) /\
  coordinate AxisZ (bb_size cube_box)
  = (coordinate AxisZ (bb_max cube_box) - coordinate AxisZ (bb_min cube_box))%num.
Proof.
apply (@getBoundingBox_encloses float _ float_order cube_slicer cube cube_box);
  [vm_compute; reflexivity | reflexivity | vm_compute; reflexivity].
Defined.

Lemma getLayerBoundingBox_encloses_square :
  (getLayerBoundingBox outer_square = None <-> outer_square = []) /\
  forall b, getLayerBoundingBox outer_square = Some b ->
    forall p, In p outer_square ->
      ((px p <=? px p)%num = true ->
       (lb_minX b <=? px p)%num = true /\ (px p <=? lb_maxX b)%num = true) /\
      ((py p <=? py p)%num = true ->
       (lb_minY b <=? py p)%num = true /\ (py p <=? lb_maxY b)%num = true).
Proof.
apply (@getLayerBoundingBox_encloses float _ float_order outer_square).
vm_compute. reflexivity.
Defined.

Lemma sliceMesh_layers_wellformed_box :
  exists bbox,
    getBoundingBox box_slicer = Some bbox /\
    (forall l, In l box_layers ->
       layer_z l = sliceHeight box_slicer bbox (layerNum l) /\
       segments l = sliceAtZ box (layer_z l) /\
       (1 <= List.length (segments l) <= List.length box)%nat) /\
    StronglySorted lt (map (@layerNum float) box_layers).
Proof.
apply (@sliceMesh_layers_wellformed float _ box_slicer box box_layers);
  [reflexivity | vm_compute; reflexivity].
Defined.

Lemma sliceMesh_zero_layer_height_cube :
  sliceMesh cube_unsliceable = Diverge.
Proof.
apply (@sliceMesh_zero_layer_height cube_unsliceable cube_box);
  vm_compute; reflexivity.
Defined.

Lemma push_infill_numbering_square :
  exists moves,
    fst square_fill = numbered moves 7 /\
    E_values (fst square_fill)
    = map (fun k => (7 + 3 * Z.of_nat (S k))%Z) (seq 0 (List.length moves)) /\
    snd square_fill = (7 + 3 * Z.of_nat (List.length moves))%Z.
Proof.
apply (@push_infill_numbering float _ box_slicer
         (getLayerBoundingBox outer_square) "lines" (F64.ofZ 20)
         [outer_square] 0 7 (fst square_fill) (snd square_fill)).
vm_compute. reflexivity.
Defined.

Lemma layers_announced_box :
  announced box_program
  = map (fun l => ((layerNum l + 1)%nat, toFixed 3 (layer_z l))) box_layers.
Proof.
apply (@layers_announced float _ _ box_slicer box_layers "grid" (F64.ofZ 20)
         [] box_program).
left. exact box_program_emitted.
Defined.

Lemma only_moves_extrude_box :
  Forall (fun l => line_E l <> [] -> extruding_move l) box_program_seq.
Proof.
apply (@only_moves_extrude float _ _ box_slicer box_layers "grid" (F64.ofZ 20)
         (analyzeLayerSequences box_slicer box_layers) box_program_seq).
right. exact box_program_seq_emitted.
Defined.

Lemma parseBinarySTL_reads_only_header :
  parseBinarySTL F64io.float32 other_binary
  = parseBinarySTL F64io.float32 cad_binary.
Proof.
apply (@parseBinarySTL_reads_only float F64io.float32 cad_binary other_binary 1%N).
- vm_compute. reflexivity.
- vm_compute. reflexivity.
- intros k Hk.
  do 80 (destruct k as [|k]; [lia|]).
  do 4 (destruct k as [|k]; [reflexivity|]). lia.
- intros t j Ht Hj. destruct t as [|t]; [|simpl in Ht; lia].
  do 36 (destruct j as [|j]; [reflexivity|]). lia.
Defined.

Lemma parseBinarySTL_ignores_trailing_byte :
  parseBinarySTL F64io.float32 (cad_binary ++ [Byte.x2a]) = Ret [zero_triangle].
Proof.
apply (@parseBinarySTL_ignores_trailing float F64io.float32 cad_binary
         [Byte.x2a] [zero_triangle]).
vm_compute. reflexivity.
Defined.

Lemma single_model_sequences_box :
  mergedSequences box_layers [box_slice]
  = Ret (analyzeLayerSequences box_slicer box_layers).
Proof.
apply (@single_model_sequences float _ "box" box box_layers
         (analyzeLayerSequences box_slicer box_layers));
  vm_compute; reflexivity.
Defined.

Lemma sliced_models_program_box :
  exists merged,
    mergedSequences box_layers [box_slice] = Ret merged /\
    List.length merged = List.length box_layers /\
    never_throws
      (generateGCodeWithSequences box_slicer box_layers "grid" (F64.ofZ 20)
         merged).
Proof.
apply (@sliced_models_program float _ _ box_slicer box_layers [box_slice]
         (dec 1 2) 1%nat (dec 4 10) "grid" (F64.ofZ 20)).
- constructor; [vm_compute; reflexivity | constructor].
- vm_compute. discriminate.
Defined.

Lemma exported_mesh_reads_back_fin :
  parseASCIISTL F64io.parseFloat
    (list_byte_of_string (generateSTLFromMesh F64out.toString fin (Some "fin")))
  = Ret fin /\
  (fin <> [] ->
   parseSTL F64io.float32 F64io.parseFloat
     (list_byte_of_string (generateSTLFromMesh F64out.toString fin (Some "fin")))
   = Ret fin).
Proof.
apply (@exported_mesh_reads_back float F64out.toString F64io.float32
         F64io.parseFloat fin (Some "fin")).
- vm_compute. reflexivity.
- unfold fin, coordinates, vertices. cbn [flat_map app T V v1 v2 v3 vx vy vz].
  repeat (constructor; [split; vm_compute; reflexivity|]). constructor.
Defined.

Lemma printBoundingBox_encloses_plain :
  (forall m,
     In m (moves_of (gp_commands (parse F64io.parseFloat 0%float plain_program))) ->
     nle (coordinate AxisX (end_point m)) (coordinate AxisX (end_point m)) = true ->
     nle (coordinate AxisX
            (bb_min (printBoundingBox
                       (parse F64io.parseFloat 0%float plain_program))))
         (coordinate AxisX (end_point m)) = true /\
     nle (coordinate AxisX (end_point m))
         (coordinate AxisX
            (bb_max (printBoundingBox
                       (parse F64io.parseFloat 0%float plain_program))))
     = true) /\
  (moves_of (gp_commands (parse F64io.parseFloat 0%float plain_program)) = [] ->
   coordinate AxisX
     (bb_min (printBoundingBox (parse F64io.parseFloat 0%float plain_program)))
   = ninfinity /\
   coordinate AxisX
     (bb_max (printBoundingBox (parse F64io.parseFloat 0%float plain_program)))
   = nneg_infinity).
Proof.
apply (@printBoundingBox_encloses float _ float_order
         (parse F64io.parseFloat 0%float plain_program) AxisX).
vm_compute. reflexivity.
Defined.


Lemma generated_program_read_back_cube :
  hasLayerComments
    (program_text F64out.toString F64out.toFixed tall_program) = true /\
  gp_layers (parse F64io.parseFloat 0%float
               (program_text F64out.toString F64out.toFixed tall_program))
  = first_seen (map (fun l => (layerNum l + 1)%nat) tall_layers) /\
  (NoDup (map (@layerNum float) tall_layers) ->
   gp_layers (parse F64io.parseFloat 0%float
                (program_text F64out.toString F64out.toFixed tall_program))
   = map (fun l => (layerNum l + 1)%nat) tall_layers /\
   getLayerCount
     (parse F64io.parseFloat 0%float
        (program_text F64out.toString F64out.toFixed tall_program))
   = List.length tall_layers).
Proof.
apply (@generated_program_read_back float _ _ F64io.parseFloat
         F64out.toString F64out.toFixed
         float_toString_plain float_toFixed_plain
         tall_slicer tall_layers "grid" (F64.ofZ 20)
         (analyzeLayerSequences tall_slicer tall_layers) tall_program 0%float).
- reflexivity.
- right. vm_compute. reflexivity.
Defined.

Lemma outside_by_height_squares :
  (forall pth, In pth [outer_square; inner_square] ->
     isPointInPolygon (P 10 30) pth = false) /\
  isPointInsidePerimeters (P 10 30) [outer_square; inner_square] = false /\
  isPointInSolidGeometry (P 10 30) [outer_square; inner_square] = false.
Proof.
apply (@outside_by_height float _ (P 10 30) [outer_square; inner_square]).
intros pth [<-|[<-|[]]]; exists false; intros p Hp;
  repeat (destruct Hp as [<-|Hp]; [vm_compute; reflexivity|]); destruct Hp.
Defined.

Lemma scan_crossings_paired_squares :
  Forall (crossable (@py float) (F64.ofZ 10)) [outer_square; inner_square] /\
  Forall (fun pth =>
            Nat.even
              (List.length (findLinePolygonIntersections (F64.ofZ 10) pth))
            = true)
         [outer_square; inner_square] /\
  List.length
    (sort_numbers
       (flat_map (findLinePolygonIntersections (F64.ofZ 10))
          [outer_square; inner_square]))
  = (2 * List.length
           (pairs
              (sort_numbers
                 (flat_map (findLinePolygonIntersections (F64.ofZ 10))
                    [outer_square; inner_square]))))%nat.
Proof.
assert (H : Forall (crossable (@py float) (F64.ofZ 10))
              [outer_square; inner_square]).
{ repeat (constructor;
            [split; repeat (constructor; [vm_compute; auto|]); constructor|]).
  constructor. }
split; [exact H|].
exact (proj1 (@scan_crossings_paired float _ (F64.ofZ 10)
                [outer_square; inner_square]) H).
Defined.

Lemma triangle_through_vertex_tilted :
  List.length (triangle_intersections (F64.ofZ 1) tilted) = 3%nat /\
  triangle_segment (F64.ofZ 1) tilted = [].
Proof.
apply (proj2 (@triangle_through_vertex float _ (F64.ofZ 1) tilted)).
- exists (V 0 0 1), (V 4 0 0), (V 0 4 2).
  repeat split; vm_compute; auto.
- vm_compute. reflexivity.
- vm_compute. reflexivity.
- vm_compute. reflexivity.
Defined.

End FurtherExamples.
